(** * Flux-conserving rebinning: a shallow embedding of
      [msim/src/modules/rebin.py]

    The three entry points [rebin1d], [rebin_cube_1d] and [frebin2d] are
    translated line by line.  [float64] values are idealised as exact
    rationals ([Q]); a division whose divisor is zero yields a non-finite
    value, as numpy does.  Python exceptions are explicit results.  What is
    proved of values is therefore proved of the real-number algorithm; the
    module [F64] holds the lines of [rebin1d] and [rebin_cube_1d] again in
    binary64, to show where rounding makes the program part from it.

    The classes [InstrumentPart] and [Instrument] of
    [msim/src/sim_instrument.py] follow, over a heap of part objects. *)

From Stdlib Require Import ZArith QArith Qround Qminmax List Lia Lqa Bool
  Permutation.
From Stdlib Require String.
From Stdlib Require Floats.
Import ListNotations.

Open Scope Q_scope.

(** ** Python and numpy run-time model *)

Module Py.

(** Exceptions the rebinning code can raise; [TypeError] stands for an
    argument that is not an array of the expected kind. *)
Inductive exn : Type :=
| IndexError
| ValueError
| ZeroDivisionError
| TypeError.

(** Outcome of a call: a value or a raised exception. *)
Inductive res (A : Type) : Type :=
| Ok (a : A)
| Raise (e : exn).
Arguments Ok {A} a.
Arguments Raise {A} e.

Definition bind {A B : Type} (m : res A) (k : A -> res B) : res B :=
  match m with
  | Ok a => k a
  | Raise e => Raise e
  end.

Definition fmap {A B : Type} (f : A -> B) (m : res A) : res B :=
  bind m (fun a => Ok (f a)).

(** A Python [for] loop that builds one result per index and stops at the
    first exception. *)
Fixpoint mapM {A B : Type} (f : A -> res B) (l : list A) : res (list B) :=
  match l with
  | [] => Ok []
  | a :: l' => bind (f a) (fun b => bind (mapM f l') (fun bs => Ok (b :: bs)))
  end.

(** A [float64] produced by a numpy division: a finite value, or [inf]/[nan]
    when the divisor is zero. *)
Inductive fnum : Type :=
| Finite (q : Q)
| NonFinite.

(** numpy true division of [float64] scalars and arrays (a warning, never an
    exception). *)
Definition np_div (a b : Q) : fnum :=
  if Qeq_bool b 0 then NonFinite else Finite (a / b).

(** Python true division of two [float] objects. *)
Definition py_div (a b : Q) : res Q :=
  if Qeq_bool b 0 then Raise ZeroDivisionError else Ok (a / b).

(** [int(x)]: truncation towards zero. *)
Definition py_int (q : Q) : Z := Z.quot (Qnum q) (Zpos (Qden q)).

Definition Qltb (a b : Q) : bool := negb (Qle_bool b a).

Definition len {A : Type} (l : list A) : Z := Z.of_nat (length l).

(** [l[i]]: negative indices count from the end, anything else out of range
    raises [IndexError]. *)
Definition getitem {A : Type} (l : list A) (i : Z) : res A :=
  let k := if (i <? 0)%Z then (i + len l)%Z else i in
  if ((0 <=? k) && (k <? len l))%Z
  then match nth_error l (Z.to_nat k) with
       | Some a => Ok a
       | None => Raise IndexError
       end
  else Raise IndexError.

(** Normalisation of one bound of a slice [l[a:b]]. *)
Definition slice_bound (n i : Z) : Z :=
  if (i <? 0)%Z then Z.max (i + n) 0 else Z.min i n.

(** [l[a:b]]: never raises. *)
Definition slice {A : Type} (l : list A) (a b : Z) : list A :=
  let lo := slice_bound (len l) a in
  let hi := slice_bound (len l) b in
  firstn (Z.to_nat (hi - lo)) (skipn (Z.to_nat lo) l).

(** [np.sum] of a one-dimensional array, as the exact sum: the order of
    the additions, which decides the rounding of the float sum, plays no
    part here ([F64.np_sum] is the rounded sum). *)
Definition np_sum (l : list Q) : Q := fold_right Qplus 0 l.

(** [range(n)] converted to floats, as [np.interp] does with its [fp]
    argument. *)
Definition range (n : nat) : list Q :=
  map (fun k => inject_Z (Z.of_nat k)) (seq 0 n).

(** *** [np.interp]

    numpy's [arr_interp] with its default [left] and [right] values.  The
    index is found by the linear search numpy itself uses on short arrays;
    its binary search returns the same index whenever [xp] is increasing,
    which is the documented precondition of [np.interp]. *)

(** [for (i = from; i < len && key >= arr[i]; ++i);] on the suffix [arr]
    that starts at index [from]; returns the final [i]. *)
Fixpoint linear_search (key : Q) (arr : list Q) (from : nat) : nat :=
  match arr with
  | [] => from
  | a :: arr' => if Qle_bool a key then linear_search key arr' (S from) else from
  end.

(** [binary_search_with_guess]: [-1] left of the array, [len] right of it,
    otherwise the index [j] with [arr[j] <= key < arr[j+1]]. *)
Definition binary_search (key : Q) (arr : list Q) : Z :=
  if Qltb (last arr 0) key then len arr
  else if Qltb key (hd 0 arr) then (-1)%Z
  else (Z.of_nat (linear_search key (tl arr) 1) - 1)%Z.

(** One interpolated value; [xp] is not empty and [fp] has its length.
    The slope and the product are exact; numpy rounds each of them
    ([F64.interp_val]), so that a coordinate within rounding of a grid point
    can get the index of that point. *)
Definition interp_val (x : Q) (xp fp : list Q) : Q :=
  if (length xp =? 1)%nat then hd 0 fp
  else
    let j := binary_search x xp in
    if (j =? -1)%Z then hd 0 fp
    else if (j =? len xp)%Z then last fp 0
    else if (j =? len xp - 1)%Z then nth (Z.to_nat j) fp 0
    else if Qeq_bool (nth (Z.to_nat j) xp 0) x then nth (Z.to_nat j) fp 0
    else
      let slope := (nth (S (Z.to_nat j)) fp 0 - nth (Z.to_nat j) fp 0)
                   / (nth (S (Z.to_nat j)) xp 0 - nth (Z.to_nat j) xp 0) in
      slope * (x - nth (Z.to_nat j) xp 0) + nth (Z.to_nat j) fp 0.

(** The argument checks of the Python wrapper of [np.interp]. *)
Definition interp_check (xp fp : list Q) : res unit :=
  if (length xp =? 0)%nat then Raise ValueError
  else if negb (length fp =? length xp)%nat then Raise ValueError
  else Ok tt.

(** [np.interp(x, xp, fp)] for a scalar [x]. *)
Definition interp (x : Q) (xp fp : list Q) : res Q :=
  bind (interp_check xp fp) (fun _ => Ok (interp_val x xp fp)).

(** [np.interp(xs, xp, fp)] for an array [xs]. *)
Definition interp_arr (xs xp fp : list Q) : res (list Q) :=
  bind (interp_check xp fp) (fun _ => Ok (map (fun x => interp_val x xp fp) xs)).

(** A [for] loop threading the array it assigns to; it stops at the first
    exception. *)
Fixpoint foldM {S A : Type} (f : S -> A -> res S) (l : list A) (s : S) : res S :=
  match l with
  | [] => Ok s
  | a :: l' => bind (f s a) (foldM f l')
  end.

(** The values of [range(n)]. *)
Definition indices (n : nat) : list Z := map Z.of_nat (seq 0 n).

(** Replacement of the element at a position that exists. *)
Fixpoint upd {A : Type} (l : list A) (n : nat) (v : A) : list A :=
  match l, n with
  | [], _ => []
  | _ :: l', O => v :: l'
  | a :: l', S n' => a :: upd l' n' v
  end.

(** [l[i] = v], with the index rule of [getitem]. *)
Definition setitem {A : Type} (l : list A) (i : Z) (v : A) : res (list A) :=
  let k := if (i <? 0)%Z then (i + len l)%Z else i in
  if ((0 <=? k) && (k <? len l))%Z
  then Ok (upd l (Z.to_nat k) v)
  else Raise IndexError.

(** Element-wise arithmetic of equal-length rows and of planes. *)
Definition map2 {A B C : Type} (f : A -> B -> C) (l : list A) (m : list B) : list C :=
  map (fun p => f (fst p) (snd p)) (combine l m).

Definition vadd (u v : list Q) : list Q := map2 Qplus u v.
Definition vsub (u v : list Q) : list Q := map2 Qminus u v.
Definition vscale (c : Q) (v : list Q) : list Q := map (Qmult c) v.
Definition vdiv (v : list Q) (c : Q) : list fnum := map (fun a => np_div a c) v.

Definition plane (A : Type) : Type := list (list A).

Definition padd (p r : plane Q) : plane Q := map2 vadd p r.
Definition psub (p r : plane Q) : plane Q := map2 vsub p r.
Definition pscale (c : Q) (p : plane Q) : plane Q := map (vscale c) p.
Definition pdiv (p : plane Q) (c : Q) : plane fnum := map (fun v => vdiv v c) p.

Definition zeros1 {A : Type} (z : A) (n : nat) : list A := repeat z n.
Definition zeros2 {A : Type} (z : A) (r c : nat) : plane A := repeat (zeros1 z c) r.

(** [np.sum(rows, axis=0)] of a stack of rows of length [n], and of a
    stack of planes of shape [(r, c)]; an empty stack sums to zeros. *)
Definition sum_rows (n : nat) (l : list (list Q)) : list Q :=
  fold_right vadd (zeros1 0 n) l.
Definition sum_planes (r c : nat) (l : list (plane Q)) : plane Q :=
  fold_right padd (zeros2 0 r c) l.

(** A two-dimensional array: numpy shape [(nrows, ncols)]. *)
Record array2 (A : Type) : Type := mkArray2 {
  ncols : nat;
  rows : list (list A)
}.

Arguments mkArray2 {A} ncols rows.
Arguments ncols {A} a.
Arguments rows {A} a.

Definition nrows {A : Type} (a : array2 A) : nat := length (rows a).

(** [a.shape] as numpy reads it: rows first. *)
Definition np_shape {A : Type} (a : array2 A) : nat * nat := (nrows a, ncols a).

Definition wf2 {A : Type} (a : array2 A) : Prop :=
  Forall (fun r => length r = ncols a) (rows a).

(** [np.zeros((r, c))]; a negative dimension is refused. *)
Definition np_zeros2 (r c : Z) : res (array2 Q) :=
  if ((r <? 0) || (c <? 0))%Z then Raise ValueError
  else Ok (mkArray2 (Z.to_nat c) (zeros2 0 (Z.to_nat r) (Z.to_nat c))).

Definition transpose (a : array2 Q) : array2 Q :=
  mkArray2 (nrows a)
    (map (fun c => map (fun r => nth c r 0) (rows a)) (seq 0 (ncols a))).

(** A three-dimensional array: numpy shape [(length planes, shape1, shape2)]. *)
Record array3 (A : Type) : Type := mkArray3 {
  shape1 : nat;
  shape2 : nat;
  planes : list (plane A)
}.

Arguments mkArray3 {A} shape1 shape2 planes.
Arguments shape1 {A} a.
Arguments shape2 {A} a.
Arguments planes {A} a.

Definition wf3 {A : Type} (c : array3 A) : Prop :=
  Forall (fun p => length p = shape1 c /\ Forall (fun r => length r = shape2 c) p)
         (planes c).

(** [cube[:, j, i]] and [new_cube[:, j, i] = vals] for positions inside the
    shape. *)
Definition column {A : Type} (d : A) (ps : list (plane A)) (j i : nat) : list A :=
  map (fun p => nth i (nth j p []) d) ps.

Definition set_column {A : Type} (ps : list (plane A)) (j i : nat) (vals : list A)
  : list (plane A) :=
  map2 (fun p v => upd p j (upd (nth j p []) i v)) ps vals.

End Py.

Import Py.

Notation "x <- m ;; k" := (bind m (fun x => k))
  (at level 61, m at next level, right associativity).

(** ** The rebinning module *)

(** The index-space box of one output bin. *)
Record box : Type := mkBox {
  rstart : Q;
  rstop : Q;
  istart : Z;
  istop : Z
}.

Definition frac1 (b : box) : Q := rstart b - inject_Z (istart b).
Definition frac2 (b : box) : Q := 1 - (rstop b - inject_Z (istop b)).

(** Lines 56-66 of [rebin1d], repeated verbatim at lines 116-126 of
    [rebin_cube_1d]: [nout] is [len(xout)], [nin] is [len(xin)], [i] the
    loop variable. *)
Definition bin_box (in_i : list Q) (nout nin : Z) (i : Z) : res box :=
  rstart <- getitem in_i i ;;
  let istart := py_int rstart in
  rstop <- (if (i <? nout - 1)%Z
            then getitem in_i (i + 1)
            else
              a <- getitem in_i i ;;
              b <- getitem in_i i ;;
              c <- getitem in_i (i - 1) ;;
              Ok (a + (b - c))) ;;
  let istop := py_int rstop in
  let istop := if (istop >? nin - 1)%Z then (nin - 1)%Z else istop in
  Ok (mkBox rstart rstop istart istop).

(** Lines 74-77: the value of one output bin.  The two branches are the
    same real number when [istart = istop]; in binary64 they round
    differently ([F64.bin_value]). *)
Definition bin_value (yin : list Q) (b : box) : res fnum :=
  if (istart b =? istop b)%Z
  then
    y <- getitem yin (istart b) ;;
    Ok (np_div ((1 - frac1 b - frac2 b) * y) (rstop b - rstart b))
  else
    let s := np_sum (slice yin (istart b) (istop b + 1)) in
    y1 <- getitem yin (istart b) ;;
    y2 <- getitem yin (istop b) ;;
    Ok (np_div (s - frac1 b * y1 - frac2 b * y2) (rstop b - rstart b)).

(** Lines 39-42, repeated at lines 95-98: the two spacings
    [(dx_in, dx_out)] the regime is chosen from. *)
Definition spacings (xout xin : list Q) : res (Q * Q) :=
  x0 <- getitem xout 0 ;;
  r0 <- interp x0 xin (range (length xin)) ;;
  let in0 := py_int r0 in
  a <- getitem xin (in0 + 1) ;;
  b <- getitem xin in0 ;;
  let dx_in := a - b in
  c <- getitem xout 1 ;;
  d <- getitem xout 0 ;;
  let dx_out := c - d in
  Ok (dx_in, dx_out).

(** Lines 51-53, repeated at lines 112-113: the (unused) box ratio, whose
    Python float division can raise, and the fractional input index of every
    left bin edge. *)
Definition edge_indices (xout xin : list Q) (dx_in dx_out : Q) : res (list Q) :=
  _ <- py_div dx_out dx_in ;;
  interp_arr (map (fun x => x - dx_out * (1 # 2)) xout) xin (range (length xin)).

Definition rebin1d (xout xin yin : list Q) : res (list fnum) :=
  sp <- spacings xout xin ;;
  let '(dx_in, dx_out) := sp in
  if Qltb dx_out dx_in
  then fmap (map Finite) (interp_arr xout xin yin)
  else
    let temp := zeros1 (Finite 0) (length xout) in
    in_i <- edge_indices xout xin dx_in dx_out ;;
    foldM (fun temp i =>
             b <- bin_box in_i (len xout) (len xin) i ;;
             v <- bin_value yin b ;;
             setitem temp i v)
          (indices (length xout)) temp.

(** Line 131: the output plane of one bin. *)
Definition bin_plane (cube : array3 Q) (b : box) : res (plane fnum) :=
  let s := sum_planes (shape1 cube) (shape2 cube)
             (slice (planes cube) (istart b) (istop b + 1)) in
  p1 <- getitem (planes cube) (istart b) ;;
  p2 <- getitem (planes cube) (istop b) ;;
  Ok (pdiv (psub (psub s (pscale (frac1 b) p1)) (pscale (frac2 b) p2))
           (rstop b - rstart b)).

Definition rebin_cube_1d (xout xin : list Q) (cube : array3 Q) : res (array3 fnum) :=
  sp <- spacings xout xin ;;
  let '(dx_in, dx_out) := sp in
  let new_cube :=
    repeat (zeros2 (Finite 0) (shape1 cube) (shape2 cube)) (length xout) in
  if Qltb dx_out dx_in
  then
    new_cube <-
      foldM (fun new_cube i =>
               foldM (fun new_cube j =>
                        vals <- interp_arr xout xin (column 0 (planes cube) j i) ;;
                        Ok (set_column new_cube j i (map Finite vals)))
                     (seq 0 (shape1 cube)) new_cube)
            (seq 0 (shape2 cube)) new_cube ;;
    Ok (mkArray3 (shape1 cube) (shape2 cube) new_cube)
  else
    in_i <- edge_indices xout xin dx_in dx_out ;;
    new_cube <-
      foldM (fun new_cube i =>
               b <- bin_box in_i (len xout) (len xin) i ;;
               p <- bin_plane cube b ;;
               setitem new_cube i p)
            (indices (length xout)) new_cube ;;
    Ok (mkArray3 (shape1 cube) (shape2 cube) new_cube).

(** Lines 165-172, repeated at lines 191-198 of [frebin2d]: the box of
    output line [i] for box size [bx]; [n1] is the last valid input index. *)
Definition line_box (n1 : Z) (bx : Q) (i : Z) : box :=
  let rstart := inject_Z i * bx in
  let istart := py_int rstart in
  let rstop := rstart + bx in
  let istop := py_int rstop in
  let istop := if (istop >? n1)%Z then n1 else istop in
  mkBox rstart rstop istart istop.

(** Lines 177-182, repeated at lines 202-207: the box sum of input lines,
    not divided by the box width; exact arithmetic, where the program
    rounds every product and sum. *)
Definition line_value (a : array2 Q) (b : box) : res (list Q) :=
  if (istart b =? istop b)%Z
  then
    r <- getitem (rows a) (istart b) ;;
    Ok (vscale (1 - frac1 b - frac2 b) r)
  else
    let s := sum_rows (ncols a) (slice (rows a) (istart b) (istop b + 1)) in
    r1 <- getitem (rows a) (istart b) ;;
    r2 <- getitem (rows a) (istop b) ;;
    Ok (vsub (vsub s (vscale (frac1 b) r1)) (vscale (frac2 b) r2)).

(** One of the two loops of [frebin2d]: [out[i,:]] is assigned for every
    [i] in [range(0, n, 1)]. *)
Definition box_pass (a : array2 Q) (n1 : Z) (bx : Q) (n : Z) (out : array2 Q)
  : res (array2 Q) :=
  rs <- foldM (fun out i =>
                 v <- line_value a (line_box n1 bx i) ;;
                 setitem out i v)
              (indices (Z.to_nat n)) (rows out) ;;
  Ok (mkArray2 (ncols out) rs).

Definition frebin2d (array : array2 Q) (shape : Z * Z) : res (array2 fnum) :=
  let y := len (rows array) in
  let x := Z.of_nat (ncols array) in
  let y1 := (y - 1)%Z in
  let x1 := (x - 1)%Z in
  xbox <- py_div (inject_Z x) (inject_Z (fst shape)) ;;
  ybox <- py_div (inject_Z y) (inject_Z (snd shape)) ;;
  temp <- np_zeros2 (snd shape) x ;;
  temp <- box_pass array y1 ybox (snd shape) temp ;;
  let temp := transpose temp in
  result <- np_zeros2 (fst shape) (snd shape) ;;
  result <- box_pass temp x1 xbox (fst shape) result ;;
  let t := transpose result in
  Ok (mkArray2 (ncols t) (map (fun r => vdiv r (xbox * ybox)) (rows t))).

(** ** Validity of grids *)

Fixpoint increasingb (l : list Q) : bool :=
  match l with
  | a :: (b :: _) as l' => Qltb a b && increasingb l'
  | _ => true
  end.

(** A Grid of the data model: strictly increasing, at least two points. *)
Definition strictly_increasing (l : list Q) : Prop := increasingb l = true.

Definition grid (l : list Q) : Prop :=
  strictly_increasing l /\ (2 <= length l)%nat.

(** ** Equality of results up to the value of the rationals *)

Definition fnum_eq (a b : fnum) : Prop :=
  match a, b with
  | Finite x, Finite y => x == y
  | NonFinite, NonFinite => True
  | _, _ => False
  end.

Definition res_eq {A : Type} (R : A -> A -> Prop) (a b : res A) : Prop :=
  match a, b with
  | Ok x, Ok y => R x y
  | Raise e, Raise e' => e = e'
  | _, _ => False
  end.

(** ** Specification-level notions and closed forms *)

(** Clamped linear interpolation of the series [(xp, fp)] at [x], as a
    relation between [x] and the interpolated value. *)
Inductive linear_interp (xp fp : list Q) (x v : Q) : Prop :=
| li_left :
    x < nth 0 xp 0 -> v == nth 0 fp 0 -> linear_interp xp fp x v
| li_right :
    nth (length xp - 1) xp 0 <= x -> v == nth (length xp - 1) fp 0 ->
    linear_interp xp fp x v
| li_inside (j : nat) :
    (S j < length xp)%nat -> nth j xp 0 <= x -> x < nth (S j) xp 0 ->
    v == (nth (S j) fp 0 - nth j fp 0) / (nth (S j) xp 0 - nth j xp 0)
         * (x - nth j xp 0) + nth j fp 0 ->
    linear_interp xp fp x v.

(** [np.interp(x, xin, range(len(xin)))]: the fractional input index of the
    coordinate [x]. *)
Definition fidx (xin : list Q) (x : Q) : Q :=
  interp_val x xin (range (length xin)).

(** The relation between a coordinate and its fractional index on the grid
    [xin]. *)
Definition index_of (xin : list Q) (x v : Q) : Prop :=
  linear_interp xin (range (length xin)) x v.

Inductive regime : Type := Interpolation | BoxIntegration.

(** The test of line 44 (and 102). *)
Definition select_regime (xout xin : list Q) : res regime :=
  sp <- spacings xout xin ;;
  let '(dx_in, dx_out) := sp in
  Ok (if Qltb dx_out dx_in then Interpolation else BoxIntegration).

(** Closed forms of the quantities of lines 39-42 and 53 for inputs on which
    the accesses succeed. *)
Definition in0 (xout xin : list Q) : Z := py_int (fidx xin (nth 0 xout 0)).

Definition dx_in (xout xin : list Q) : Q :=
  nth (Z.to_nat (in0 xout xin + 1)) xin 0 - nth (Z.to_nat (in0 xout xin)) xin 0.

Definition dx_out (xout : list Q) : Q := nth 1 xout 0 - nth 0 xout 0.

Definition in_i (xout xin : list Q) : list Q :=
  map (fun x => fidx xin x)
      (map (fun x => x - dx_out xout * (1 # 2)) xout).

(** The output grid starts before the last input grid point. *)
Definition starts_inside (xout xin : list Q) : Prop :=
  Qltb (nth 0 xout 0) (last xin 0) = true.

(** Closed form of [bin_box] for a loop index inside [range(len(xout))]. *)
Definition box_of (ii : list Q) (nin : nat) (k : nat) : box :=
  let rstart := nth k ii 0 in
  let rstop := if (S k <? length ii)%nat
               then nth (S k) ii 0
               else rstart + (rstart - nth (k - 1) ii 0) in
  mkBox rstart rstop (py_int rstart)
        (Z.min (py_int rstop) (Z.of_nat nin - 1)).

(** Edge indices that are valid fractional indices of an input grid of [nin]
    points and do not decrease. *)
Definition edges_ok (ii : list Q) (nin : nat) : Prop :=
  (forall k, (k < length ii)%nat ->
             0 <= nth k ii 0 /\ nth k ii 0 <= inject_Z (Z.of_nat (nin - 1))) /\
  (forall j k, (j <= k < length ii)%nat -> nth j ii 0 <= nth k ii 0).

(** What "every access is in bounds" means for one box. *)
Definition box_in_bounds (b : box) (nin : nat) : Prop :=
  (0 <= istart b)%Z /\ (istart b <= istop b)%Z /\ (istop b < Z.of_nat nin)%Z.

(** Closed form of the numerator of lines 75 and 77. *)
Definition numerator (yin : list Q) (b : box) : Q :=
  if (istart b =? istop b)%Z
  then (1 - frac1 b - frac2 b) * nth (Z.to_nat (istart b)) yin 0
  else np_sum (slice yin (istart b) (istop b + 1))
       - frac1 b * nth (Z.to_nat (istart b)) yin 0
       - frac2 b * nth (Z.to_nat (istop b)) yin 0.

(** Closed form of the numerator plane of line 131. *)
Definition numerator_plane (cube : array3 Q) (b : box) : plane Q :=
  psub (psub (sum_planes (shape1 cube) (shape2 cube)
                (slice (planes cube) (istart b) (istop b + 1)))
             (pscale (frac1 b) (nth (Z.to_nat (istart b)) (planes cube) [])))
       (pscale (frac2 b) (nth (Z.to_nat (istop b)) (planes cube) [])).

Definition plane_shape {A : Type} (r c : nat) (p : plane A) : Prop :=
  length p = r /\ Forall (fun row => length row = c) p.

Definition set_pixel {A : Type} (j i : nat) (p : plane A) (v : A) : plane A :=
  upd p j (upd (nth j p []) i v).

(** The cube as a stack of [m] planes of shape [(r, c)]. *)
Definition stack_shape {A : Type} (m r c : nat) (ps : list (plane A)) : Prop :=
  length ps = m /\ Forall (plane_shape r c) ps.

(** The columns the interpolation regime writes. *)
Definition interp_column (xout xin : list Q) (cube : array3 Q) (j i : nat)
  : list fnum :=
  map Finite (map (fun x => interp_val x xin (column 0 (planes cube) j i)) xout).

Definition interp_fill (xout xin : list Q) (cube : array3 Q) : list (plane fnum) :=
  fold_left
    (fun nc p => set_column nc (snd p) (fst p)
                   (interp_column xout xin cube (snd p) (fst p)))
    (list_prod (seq 0 (shape2 cube)) (seq 0 (shape1 cube)))
    (repeat (zeros2 (Finite 0) (shape1 cube) (shape2 cube)) (length xout)).

Definition list_eq (l l' : list fnum) : Prop := Forall2 fnum_eq l l'.

(** [out[:, j, i]] of a plane stack. *)
Definition pixel {A : Type} (d : A) (j i : nat) (p : plane A) : A :=
  nth i (nth j p []) d.

(** The input pixels one box touches. *)
Definition pixels (b : box) : list nat :=
  seq (Z.to_nat (istart b)) (Z.to_nat (istop b - istart b + 1)).

(** The weight line 77 gives to input pixel [k]: [1 - frac1] at [istart],
    [1 - frac2] at [istop], [1] in between. *)
Definition weight (b : box) (k : nat) : Q :=
  if (k =? Z.to_nat (istart b))%nat then 1 - frac1 b
  else if (k =? Z.to_nat (istop b))%nat then 1 - frac2 b
  else 1.

Definition weighted_sum (yin : list Q) (b : box) : Q :=
  np_sum (map (fun k => weight b k * nth k yin 0) (pixels b)).

(** Length of the part of input pixel [[k, k+1]] inside [[rstart, rstop]]. *)
Definition overlap (b : box) (k : nat) : Q :=
  Qmin (inject_Z (Z.of_nat k) + 1) (rstop b) - Qmax (inject_Z (Z.of_nat k)) (rstart b).

(** Facts about a box that spans more than one pixel and is not clamped. *)
Record wide_box (b : box) (nin : nat) : Prop := {
  wb_bounds : box_in_bounds b nin;
  wb_wide : (istart b < istop b)%Z;
  wb_start_lo : inject_Z (istart b) <= rstart b;
  wb_start_hi : rstart b < inject_Z (istart b) + 1;
  wb_stop_lo : inject_Z (istop b) <= rstop b;
  wb_stop_hi : rstop b < inject_Z (istop b) + 1
}.

(** The box-integration formula in the words of the specification (steps
    2 to 5): [e] are the fractional input indices of the left bin edges,
    [nin] the number of input points. *)
Definition spec_box_value (e : list Q) (nin : nat) (yin : list Q) (k : nat) : fnum :=
  let rstart := nth k e 0 in
  let rstop := if (S k <? length e)%nat
               then nth (S k) e 0
               else rstart + (rstart - nth (k - 1) e 0) in
  let istart := Qfloor rstart in
  let istop := Z.min (Qfloor rstop) (Z.of_nat nin - 1) in
  let frac1 := rstart - inject_Z istart in
  let frac2 := 1 - (rstop - inject_Z istop) in
  let value p := nth (Z.to_nat p) yin 0 in
  if (istart =? istop)%Z
  then np_div ((1 - frac1 - frac2) * value istart) (rstop - rstart)
  else np_div (np_sum (map (fun p => nth p yin 0)
                           (seq (Z.to_nat istart) (Z.to_nat (istop - istart + 1))))
               - frac1 * value istart - frac2 * value istop)
              (rstop - rstart).

(** Closed form of the box sum of lines 178-182. *)
Definition line_numerator (a : array2 Q) (b : box) : list Q :=
  if (istart b =? istop b)%Z
  then vscale (1 - frac1 b - frac2 b) (nth (Z.to_nat (istart b)) (rows a) [])
  else vsub (vsub (sum_rows (ncols a) (slice (rows a) (istart b) (istop b + 1)))
                  (vscale (frac1 b) (nth (Z.to_nat (istart b)) (rows a) [])))
            (vscale (frac2 b) (nth (Z.to_nat (istop b)) (rows a) [])).

(** One pass in closed form: the lines of the output. *)
Definition pass_lines (a : array2 Q) (bx : Q) (n : Z) : list (list Q) :=
  map (fun i => line_numerator a (line_box (Z.of_nat (nrows a) - 1) bx i))
      (indices (Z.to_nat n)).

(** Closed form of [frebin2d] on a non-empty array and a positive shape. *)
Definition frebin2d_value (array : array2 Q) (shape : Z * Z) : array2 fnum :=
  let xbox := inject_Z (Z.of_nat (ncols array)) / inject_Z (fst shape) in
  let ybox := inject_Z (Z.of_nat (nrows array)) / inject_Z (snd shape) in
  let temp := transpose (mkArray2 (ncols array) (pass_lines array ybox (snd shape))) in
  let result := mkArray2 (Z.to_nat (snd shape)) (pass_lines temp xbox (fst shape)) in
  mkArray2 (nrows result)
           (map (fun r => vdiv r (xbox * ybox)) (rows (transpose result))).

Definition row_eq (u v : list Q) : Prop := Forall2 Qeq u v.

Definition rows_eq (p s : list (list Q)) : Prop := Forall2 row_eq p s.

(** Equality of a result array with an input array, value by value. *)
Definition same_values (out : array2 fnum) (a : array2 Q) : Prop :=
  ncols out = ncols a /\
  Forall2 (Forall2 (fun f v => fnum_eq f (Finite v))) (rows out) (rows a).

(** ** Arrays as mutable objects

    The same three functions over a store of array objects: arguments and
    results are references, every array the code creates is allocated, and
    every assignment [a[i] = v] updates the object [a] refers to. *)

Module Mem.

Definition loc : Type := nat.

(** An array object: one-, two- or three-dimensional, holding input values or
    computed [float64] values. *)
Inductive cell : Type :=
| QVec (v : list Q)
| FVec (v : list fnum)
| QMat (a : array2 Q)
| FMat (a : array2 fnum)
| QCube (c : array3 Q)
| FCube (c : array3 fnum).

(** The store: location [l] is position [l]; allocation appends. *)
Definition store : Type := list cell.

Definition M (A : Type) : Type := store -> res A * store.

Definition ret {A : Type} (a : A) : M A := fun s => (Ok a, s).

Definition bindS {A B : Type} (m : M A) (k : A -> M B) : M B :=
  fun s => match m s with
           | (Ok a, s') => k a s'
           | (Raise e, s') => (Raise e, s')
           end.

(** A computation that only inspects values it already holds. *)
Definition lift {A : Type} (r : res A) : M A := fun s => (r, s).

Definition alloc (c : cell) : M loc := fun s => (Ok (length s), s ++ [c]).

Definition read (l : loc) : M cell :=
  fun s => match nth_error s l with
           | Some c => (Ok c, s)
           | None => (Raise TypeError, s)
           end.

Definition write (l : loc) (c : cell) : M unit := fun s => (Ok tt, upd s l c).

Fixpoint forM_ {A : Type} (l : list A) (body : A -> M unit) : M unit :=
  match l with
  | [] => ret tt
  | a :: l' => bindS (body a) (fun _ => forM_ l' body)
  end.

(** Reading an argument of the expected kind. *)
Definition read_qvec (l : loc) : M (list Q) :=
  bindS (read l) (fun c => match c with QVec v => ret v | _ => lift (Raise TypeError) end).
Definition read_fvec (l : loc) : M (list fnum) :=
  bindS (read l) (fun c => match c with FVec v => ret v | _ => lift (Raise TypeError) end).
Definition read_qmat (l : loc) : M (array2 Q) :=
  bindS (read l) (fun c => match c with QMat a => ret a | _ => lift (Raise TypeError) end).
Definition read_qcube (l : loc) : M (array3 Q) :=
  bindS (read l) (fun c => match c with QCube a => ret a | _ => lift (Raise TypeError) end).
Definition read_fcube (l : loc) : M (array3 fnum) :=
  bindS (read l) (fun c => match c with FCube a => ret a | _ => lift (Raise TypeError) end).

Notation "x <~ m ;; k" := (bindS m (fun x => k))
  (at level 61, m at next level, right associativity).

(** [rebin1d] on references. *)
Definition rebin1d_st (xout xin yin : loc) : M loc :=
  xo <~ read_qvec xout ;;
  xi <~ read_qvec xin ;;
  sp <~ lift (spacings xo xi) ;;
  let '(dx_in, dx_out) := sp in
  if Qltb dx_out dx_in
  then
    (* np.interp returns a new array *)
    yi <~ read_qvec yin ;;
    ys <~ lift (interp_arr xo xi yi) ;;
    alloc (FVec (map Finite ys))
  else
    temp <~ alloc (FVec (zeros1 (Finite 0) (length xo))) ;;
    ii <~ lift (edge_indices xo xi dx_in dx_out) ;;
    in_i <~ alloc (QVec ii) ;;
    _ <~ forM_ (indices (length xo))
           (fun i =>
              ii <~ read_qvec in_i ;;
              xo <~ read_qvec xout ;;
              xi <~ read_qvec xin ;;
              b <~ lift (bin_box ii (len xo) (len xi) i) ;;
              yi <~ read_qvec yin ;;
              v <~ lift (bin_value yi b) ;;
              t <~ read_fvec temp ;;
              t' <~ lift (setitem t i v) ;;
              write temp (FVec t')) ;;
    (* np.transpose(temp) is a view of the buffer of temp *)
    ret temp.

(** [rebin_cube_1d] on references. *)
Definition rebin_cube_1d_st (xout xin cube : loc) : M loc :=
  xo <~ read_qvec xout ;;
  xi <~ read_qvec xin ;;
  sp <~ lift (spacings xo xi) ;;
  let '(dx_in, dx_out) := sp in
  cb <~ read_qcube cube ;;
  new_cube <~ alloc (FCube (mkArray3 (shape1 cb) (shape2 cb)
                       (repeat (zeros2 (Finite 0) (shape1 cb) (shape2 cb))
                               (length xo)))) ;;
  if Qltb dx_out dx_in
  then
    _ <~ forM_ (seq 0 (shape2 cb))
           (fun i =>
              forM_ (seq 0 (shape1 cb))
                (fun j =>
                   xo <~ read_qvec xout ;;
                   xi <~ read_qvec xin ;;
                   cb <~ read_qcube cube ;;
                   vals <~ lift (interp_arr xo xi (column 0 (planes cb) j i)) ;;
                   nc <~ read_fcube new_cube ;;
                   write new_cube
                     (FCube (mkArray3 (shape1 nc) (shape2 nc)
                               (set_column (planes nc) j i (map Finite vals)))))) ;;
    ret new_cube
  else
    ii <~ lift (edge_indices xo xi dx_in dx_out) ;;
    in_i <~ alloc (QVec ii) ;;
    _ <~ forM_ (indices (length xo))
           (fun i =>
              ii <~ read_qvec in_i ;;
              xo <~ read_qvec xout ;;
              xi <~ read_qvec xin ;;
              b <~ lift (bin_box ii (len xo) (len xi) i) ;;
              cb <~ read_qcube cube ;;
              p <~ lift (bin_plane cb b) ;;
              nc <~ read_fcube new_cube ;;
              ps <~ lift (setitem (planes nc) i p) ;;
              write new_cube (FCube (mkArray3 (shape1 nc) (shape2 nc) ps))) ;;
    ret new_cube.

(** One loop of [frebin2d]: [out[i,:]] is assigned from the lines of the
    array [src] refers to, seen through [view] (the second loop reads the
    transposed view of [temp]). *)
Definition box_loop (src : loc) (view : array2 Q -> array2 Q)
           (n1 : Z) (bx : Q) (n : Z) (out : loc) : M unit :=
  forM_ (indices (Z.to_nat n))
    (fun i =>
       a <~ read_qmat src ;;
       v <~ lift (line_value (view a) (line_box n1 bx i)) ;;
       o <~ read_qmat out ;;
       rs <~ lift (setitem (rows o) i v) ;;
       write out (QMat (mkArray2 (ncols o) rs))).

(** [frebin2d] on references. *)
Definition frebin2d_st (array : loc) (shape : Z * Z) : M loc :=
  a <~ read_qmat array ;;
  let y := len (rows a) in
  let x := Z.of_nat (ncols a) in
  let y1 := (y - 1)%Z in
  let x1 := (x - 1)%Z in
  xbox <~ lift (py_div (inject_Z x) (inject_Z (fst shape))) ;;
  ybox <~ lift (py_div (inject_Z y) (inject_Z (snd shape))) ;;
  z <~ lift (np_zeros2 (snd shape) x) ;;
  temp <~ alloc (QMat z) ;;
  _ <~ box_loop array (fun a => a) y1 ybox (snd shape) temp ;;
  (* temp = np.transpose(temp): a view of the same buffer *)
  z <~ lift (np_zeros2 (fst shape) (snd shape)) ;;
  result <~ alloc (QMat z) ;;
  _ <~ box_loop temp transpose x1 xbox (fst shape) result ;;
  r <~ read_qmat result ;;
  (* the division allocates the array that is returned *)
  let t := transpose r in
  alloc (FMat (mkArray2 (ncols t) (map (fun r => vdiv r (xbox * ybox)) (rows t)))).

End Mem.

Import Mem.

(** ** Frame and refinement predicates of the store model *)

(** Every object of [s] is still there, unchanged, in [s']. *)
Definition unchanged (s s' : store) : Prop :=
  (length s <= length s')%nat /\
  forall l, (l < length s)%nat -> nth_error s' l = nth_error s l.

(** [m] leaves the store as it is. *)
Definition pure_step {A : Type} (m : M A) : Prop := forall s, snd (m s) = s.

(** [m] allocates nothing and leaves every object below [t] unchanged. *)
Definition writes_from {A : Type} (t : loc) (m : M A) : Prop :=
  forall s, length (snd (m s)) = length s /\
            forall l, (l < t)%nat -> nth_error (snd (m s)) l = nth_error s l.

(** Started in a store that contains [t], [m] leaves every object below [t]
    unchanged and returns a reference at or above [t] to an existing
    object. *)
Definition fresh_after (t : loc) (m : M loc) : Prop :=
  forall s, (t < length s)%nat ->
    (length s <= length (snd (m s)))%nat /\
    (forall l, (l < t)%nat -> nth_error (snd (m s)) l = nth_error s l) /\
    forall r, fst (m s) = Ok r -> (t <= r < length (snd (m s)))%nat.

(** [m] leaves every object of the initial store unchanged and returns a
    reference to an object that did not exist before. *)
Definition fresh_result (m : M loc) : Prop :=
  forall s, unchanged s (snd (m s)) /\
            forall r, fst (m s) = Ok r ->
                      (length s <= r < length (snd (m s)))%nat.

(** The outcome of a loop on the object at [temp], against the outcome
    [r] of the same loop on a value. *)
Definition loop_outcome {T : Type} (inj : T -> cell) (temp : loc)
           (s : store) (r : res T) (out : res unit * store) : Prop :=
  match r with
  | Ok t' => out = (Ok tt, upd s temp (inj t'))
  | Raise e => fst out = Raise e
  end.

(** The objects a call reads. *)
Definition holds (s : store) (l : loc) (c : cell) : Prop := nth_error s l = Some c.

(** The outcome of a call on references against its outcome on values: the
    same exception, or a reference to an object holding the value. *)
Definition refines {T : Type} (inj : T -> cell) (pure : res T)
           (run : res loc * store) : Prop :=
  match pure with
  | Ok v => exists r, fst run = Ok r /\ holds (snd run) r (inj v)
  | Raise e => fst run = Raise e
  end.

(** ** Integrals, fluxes and totals *)

(** The integral over [[0, r]] of a series seen as a step function that
    holds [y[j]] on the index interval [[j, j+1)]. *)
Definition step_integral (y : list Q) (r : Q) : Q :=
  np_sum (firstn (Z.to_nat (Qfloor r)) y)
  + (r - inject_Z (Qfloor r)) * nth (Z.to_nat (Qfloor r)) y 0.

(** The flux of an output bin of width [w]; a non-finite value only arises
    for a bin of width zero and carries no flux. *)
Definition flux (v : fnum) (w : Q) : Q :=
  match v with
  | Finite q => q * w
  | NonFinite => 0
  end.

(** Scaling and addition of [float64] values. *)
Definition fscale (a : Q) (v : fnum) : fnum :=
  match v with
  | Finite q => Finite (a * q)
  | NonFinite => NonFinite
  end.

Definition fadd (u v : fnum) : fnum :=
  match u, v with
  | Finite p, Finite q => Finite (p + q)
  | _, _ => NonFinite
  end.

(** Column [c] of a list of rows, and the sum of all their values. *)
Definition col (c : nat) (rs : list (list Q)) : list Q :=
  map (fun r => nth c r 0) rs.

Definition total (rs : list (list Q)) : Q := np_sum (map np_sum rs).

(** The integral of the image [rs] of [ncol] columns, taken as a step
    function of both coordinates, over the rows from [y0] to [y1] and the
    columns from [x0] to [x1]. *)
Definition area_integral (rs : list (list Q)) (ncol : nat) (y0 y1 x0 x1 : Q) : Q :=
  let strip := map (fun c => step_integral (col c rs) y1
                             - step_integral (col c rs) y0) (seq 0 ncol) in
  step_integral strip x1 - step_integral strip x0.

(** ** The instrument classes of [msim/src/sim_instrument.py]

    [InstrumentPart] objects are mutable and shared: an [Instrument] holds
    references to them, and [addPart] writes the number of a part into the
    part object itself.  [Instrument.calcThroughputAndEmission] asks every
    part for its throughput and emission and combines them with numpy
    broadcasting; its logging line does not contribute to the result. *)

Module Sim.

(** [emis_mirror] and [emis_lens]: the name of an emissivity file, or a
    number used as a constant emissivity. *)
Inductive emis : Type :=
| EmisFile (f : String.string)
| EmisValue (e : Q).

(** The attributes [InstrumentPart.__init__] sets. *)
Record InstrumentPart : Type := mkPart {
  name : String.string;
  temp : Q;
  area : Q;
  n_mirrors : Z;
  n_lenses : Z;
  dust_lens : Q;
  dust_mirror : Q;
  global_scaling : Q;
  emis_scaling : Q;
  emis_mirror : emis;
  emis_lens : emis;
  emis_dust : Q;
  number : Z
}.

(** Lines 62-63. *)
Definition set_number (self : InstrumentPart) (number : Z) : InstrumentPart :=
  mkPart (name self) (temp self) (area self) (n_mirrors self) (n_lenses self)
         (dust_lens self) (dust_mirror self) (global_scaling self)
         (emis_scaling self) (emis_mirror self) (emis_lens self)
         (emis_dust self) number.

(** Part objects live in a heap; an instrument holds references to them. *)
Definition ref : Type := nat.
Definition heap : Type := list InstrumentPart.

Record Instrument : Type := mkInstrument {
  iname : String.string;
  parts : list ref
}.

(** Lines 143-145. *)
Definition Instrument_init (name : String.string) : Instrument :=
  mkInstrument name [].

(** Lines 147-149: [self.parts.append(part)] and then
    [part.set_number(len(self.parts))], on the object [part] refers to. *)
Definition addPart (s : heap * Instrument) (part : ref) : heap * Instrument :=
  let self := mkInstrument (iname (snd s)) (parts (snd s) ++ [part]) in
  let h := match nth_error (fst s) part with
           | Some p => upd (fst s) part (set_number p (len (parts self)))
           | None => fst s
           end in
  (h, self).

(** A value a part returns: a number or a one-dimensional array. *)
Inductive nd : Type :=
| Scalar (q : Q)
| Array (v : list Q).

Inductive outcome (E A : Type) : Type :=
| Returns (a : A)
| Raises (e : E).
Arguments Returns {E A} a.
Arguments Raises {E A} e.

Definition obind {E A B : Type} (m : outcome E A) (k : A -> outcome E B)
  : outcome E B :=
  match m with
  | Returns a => k a
  | Raises e => Raises e
  end.

Fixpoint ofold {E S A : Type} (f : S -> A -> outcome E S) (l : list A) (s : S)
  : outcome E S :=
  match l with
  | [] => Returns s
  | a :: l' => obind (f s a) (ofold f l')
  end.

Section Calc.

(** The exceptions of a call, among them numpy's broadcast error. *)
Variable exc : Type.
Variable broadcast_error : exc.

(** [a *= b] on a one-dimensional float array [a]: [b] is broadcast to the
    shape of [a].  The products are exact; the float product of several
    factors depends, in its last digits, on their order. *)
Definition imul (a : list Q) (b : nd) : outcome exc (list Q) :=
  match b with
  | Scalar c => Returns (map (fun x => x * c) a)
  | Array w =>
      if (length w =? length a)%nat then Returns (map2 Qmult a w)
      else if (length w =? 1)%nat then Returns (map (fun x => x * hd 0 w) a)
      else Raises broadcast_error
  end.

(** [a + b] for a one-dimensional array [a]: both operands are broadcast. *)
Definition add (a : list Q) (b : nd) : outcome exc (list Q) :=
  match b with
  | Scalar c => Returns (map (fun x => x + c) a)
  | Array w =>
      if (length w =? length a)%nat then Returns (map2 Qplus a w)
      else if (length a =? 1)%nat then Returns (map (fun y => hd 0 a + y) w)
      else if (length w =? 1)%nat then Returns (map (fun x => x + hd 0 w) a)
      else Raises broadcast_error
  end.

(** The outcome of [part.calcThroughputAndEmission(lamb, DIT, output_file)]
    on the part object behind a reference, for the arguments of the call
    under study. *)
Variable part_result : ref -> outcome exc (nd * nd).

(** Lines 151-175 of [Instrument.calcThroughputAndEmission]; [lamb] is a
    one-dimensional float array. *)
Definition calcThroughputAndEmission (self : Instrument) (lamb : list Q)
  : outcome exc (list Q * list Q) :=
  let throughput := map (fun _ => 1) lamb in
  let emission := map (fun _ => 0) lamb in
  ofold (fun s part =>
           obind (part_result part) (fun r =>
           obind (imul (fst s) (fst r)) (fun throughput =>
           obind (imul (snd s) (fst r)) (fun emission =>
           obind (add emission (snd r)) (fun emission =>
           Returns (throughput, emission))))))
        (parts self) (throughput, emission).

End Calc.

End Sim.

(** A sequence of [addPart] calls. *)
Definition add_parts (s : Sim.heap * Sim.Instrument) (ps : list Sim.ref)
  : Sim.heap * Sim.Instrument :=
  fold_left Sim.addPart ps s.

(** The part object behind a reference differs from [p] at most in its
    number. *)
Definition same_part_but_number (p : Sim.InstrumentPart) (o : option Sim.InstrumentPart)
  : Prop :=
  exists n, o = Some (Sim.set_number p n).

(** The value of a part's result at wavelength index [k]. *)
Definition at_index (r : Sim.nd) (k : nat) : Q :=
  match r with
  | Sim.Scalar c => c
  | Sim.Array v => nth k v 0
  end.

(** A result that broadcasts against an array of [n] wavelengths without
    changing its shape. *)
Definition fits (n : nat) (r : Sim.nd) : Prop :=
  match r with
  | Sim.Scalar _ => True
  | Sim.Array v => length v = n
  end.

(** The product of the throughputs of a train of parts, and the emission
    that leaves it: the emission of each part attenuated by the throughput
    of the parts behind it. *)
Fixpoint train_throughput (rs : list (Sim.nd * Sim.nd)) (k : nat) : Q :=
  match rs with
  | [] => 1
  | r :: rs' => at_index (fst r) k * train_throughput rs' k
  end.

Fixpoint train_emission (rs : list (Sim.nd * Sim.nd)) (k : nat) : Q :=
  match rs with
  | [] => 0
  | r :: rs' => at_index (snd r) k * train_throughput rs' k + train_emission rs' k
  end.

(** ** The rebinning lines in binary64

    The same lines of [rebin1d] and [rebin_cube_1d] with [float64] as the
    kernel's binary64 numbers: every operation is rounded to the nearest
    float, ties to even, as Python and numpy do.  [np.sum] adds in index
    order: numpy does so for the planes of a cube and for a one-dimensional
    slice of fewer than eight elements.  A longer one-dimensional slice it
    adds in blocks, whose rounding is not modelled; no call evaluated below
    sums that many elements. *)

Module F64.

Import Floats.PrimFloat Floats.FloatOps Floats.SpecFloat.

(** The exceptions of the rational model, and the one only a float can
    cause: [int(inf)]. *)
Inductive exn : Type :=
| IndexError
| ValueError
| ZeroDivisionError
| OverflowError.

Inductive res (A : Type) : Type :=
| Ok (a : A)
| Raise (e : exn).
Arguments Ok {A} a.
Arguments Raise {A} e.

Definition bind {A B : Type} (m : res A) (k : A -> res B) : res B :=
  match m with
  | Ok a => k a
  | Raise e => Raise e
  end.

Fixpoint foldM {S A : Type} (f : S -> A -> res S) (l : list A) (s : S) : res S :=
  match l with
  | [] => Ok s
  | a :: l' => bind (f s a) (foldM f l')
  end.

(** [l[i]] and [l[i] = v] raise nothing but [IndexError]. *)
Definition getitem {A : Type} (l : list A) (i : Z) : res A :=
  match Py.getitem l i with
  | Py.Ok a => Ok a
  | Py.Raise _ => Raise IndexError
  end.

Definition setitem {A : Type} (l : list A) (i : Z) (v : A) : res (list A) :=
  match Py.setitem l i v with
  | Py.Ok l' => Ok l'
  | Py.Raise _ => Raise IndexError
  end.

(** An [int] as a float, rounded to nearest. *)
Definition of_int (z : Z) : float :=
  SF2Prim (binary_normalize prec emax z 0 false).

(** [int(x)]: truncation towards zero; [nan] and [inf] are refused. *)
Definition py_int (x : float) : res Z :=
  match Prim2SF x with
  | S754_zero _ => Ok 0%Z
  | S754_finite s m e =>
      let v := if (0 <=? e)%Z then (Zpos m * 2 ^ e)%Z
               else Z.quot (Zpos m) (2 ^ (- e)) in
      Ok (if s then (- v)%Z else v)
  | S754_infinity _ => Raise OverflowError
  | S754_nan => Raise ValueError
  end.

(** Python true division of two [float] objects. *)
Definition py_div (a b : float) : res float :=
  if eqb b zero then Raise ZeroDivisionError else Ok (div a b).

(** [np.sum] of a short one-dimensional slice: from zero, in index order. *)
Definition np_sum (l : list float) : float := fold_left add l zero.

(** [range(n)] converted to floats. *)
Definition range (n : nat) : list float :=
  map (fun k => of_int (Z.of_nat k)) (seq 0 n).

(** *** [np.interp] *)

Fixpoint linear_search (key : float) (arr : list float) (from : nat) : nat :=
  match arr with
  | [] => from
  | a :: arr' => if leb a key then linear_search key arr' (S from) else from
  end.

Definition binary_search (key : float) (arr : list float) : Z :=
  if ltb (last arr zero) key then len arr
  else if ltb key (hd zero arr) then (-1)%Z
  else (Z.of_nat (linear_search key (tl arr) 1) - 1)%Z.

(** One interpolated value.  A [nan] coordinate is returned as it is; a
    [nan] result is computed again from the right end of the cell. *)
Definition interp_val (x : float) (xp fp : list float) : float :=
  if (length xp =? 1)%nat then hd zero fp
  else if is_nan x then x
  else
    let j := binary_search x xp in
    if (j =? -1)%Z then hd zero fp
    else if (j =? len xp)%Z then last fp zero
    else if (j =? len xp - 1)%Z then nth (Z.to_nat j) fp zero
    else if eqb (nth (Z.to_nat j) xp zero) x then nth (Z.to_nat j) fp zero
    else
      let x0 := nth (Z.to_nat j) xp zero in
      let x1 := nth (S (Z.to_nat j)) xp zero in
      let y0 := nth (Z.to_nat j) fp zero in
      let y1 := nth (S (Z.to_nat j)) fp zero in
      let slope := div (sub y1 y0) (sub x1 x0) in
      let r := add (mul slope (sub x x0)) y0 in
      if is_nan r
      then
        let r := add (mul slope (sub x x1)) y1 in
        if is_nan r && eqb y0 y1 then y0 else r
      else r.

Definition interp_check (xp fp : list float) : res unit :=
  if (length xp =? 0)%nat then Raise ValueError
  else if negb (length fp =? length xp)%nat then Raise ValueError
  else Ok tt.

Definition interp (x : float) (xp fp : list float) : res float :=
  bind (interp_check xp fp) (fun _ => Ok (interp_val x xp fp)).

Definition interp_arr (xs xp fp : list float) : res (list float) :=
  bind (interp_check xp fp) (fun _ => Ok (map (fun x => interp_val x xp fp) xs)).

(** *** The rebinning lines *)

Record box : Type := mkBox {
  rstart : float;
  rstop : float;
  istart : Z;
  istop : Z
}.

Definition frac1 (b : box) : float := sub (rstart b) (of_int (istart b)).
Definition frac2 (b : box) : float := sub one (sub (rstop b) (of_int (istop b))).

(** Lines 39-42 and 95-98. *)
Definition spacings (xout xin : list float) : res (float * float) :=
  bind (getitem xout 0) (fun x0 =>
  bind (interp x0 xin (range (length xin))) (fun r0 =>
  bind (py_int r0) (fun in0 =>
  bind (getitem xin (in0 + 1)) (fun a =>
  bind (getitem xin in0) (fun b =>
  let dx_in := sub a b in
  bind (getitem xout 1) (fun c =>
  bind (getitem xout 0) (fun d =>
  let dx_out := sub c d in
  Ok (dx_in, dx_out)))))))).

(** Lines 51-53 and 112-113. *)
Definition edge_indices (xout xin : list float) (dx_in dx_out : float)
  : res (list float) :=
  bind (py_div dx_out dx_in) (fun _ =>
  interp_arr (map (fun x => sub x (mul dx_out 0.5)) xout) xin
             (range (length xin))).

(** Lines 56-66 and 116-126. *)
Definition bin_box (in_i : list float) (nout nin : Z) (i : Z) : res box :=
  bind (getitem in_i i) (fun rstart =>
  bind (py_int rstart) (fun istart =>
  bind (if (i <? nout - 1)%Z
        then getitem in_i (i + 1)
        else
          bind (getitem in_i i) (fun a =>
          bind (getitem in_i i) (fun b =>
          bind (getitem in_i (i - 1)) (fun c =>
          Ok (add a (sub b c)))))) (fun rstop =>
  bind (py_int rstop) (fun istop =>
  let istop := if (istop >? nin - 1)%Z then (nin - 1)%Z else istop in
  Ok (mkBox rstart rstop istart istop))))).

(** Lines 74-77. *)
Definition bin_value (yin : list float) (b : box) : res float :=
  if (istart b =? istop b)%Z
  then
    bind (getitem yin (istart b)) (fun y =>
    Ok (div (mul (sub (sub one (frac1 b)) (frac2 b)) y)
            (sub (rstop b) (rstart b))))
  else
    let s := np_sum (slice yin (istart b) (istop b + 1)) in
    bind (getitem yin (istart b)) (fun y1 =>
    bind (getitem yin (istop b)) (fun y2 =>
    Ok (div (sub (sub s (mul (frac1 b) y1)) (mul (frac2 b) y2))
            (sub (rstop b) (rstart b))))).

Definition rebin1d (xout xin yin : list float) : res (list float) :=
  bind (spacings xout xin) (fun sp =>
  let '(dx_in, dx_out) := sp in
  if ltb dx_out dx_in
  then interp_arr xout xin yin
  else
    let temp := zeros1 zero (length xout) in
    bind (edge_indices xout xin dx_in dx_out) (fun in_i =>
    foldM (fun temp i =>
             bind (bin_box in_i (len xout) (len xin) i) (fun b =>
             bind (bin_value yin b) (fun v =>
             setitem temp i v)))
          (indices (length xout)) temp)).

Definition padd (p r : plane float) : plane float := map2 (map2 add) p r.
Definition psub (p r : plane float) : plane float := map2 (map2 sub) p r.
Definition pscale (c : float) (p : plane float) : plane float :=
  map (map (mul c)) p.
Definition pdiv (p : plane float) (c : float) : plane float :=
  map (map (fun a => div a c)) p.

Definition sum_planes (r c : nat) (l : list (plane float)) : plane float :=
  fold_left padd l (zeros2 zero r c).

(** Line 131. *)
Definition bin_plane (cube : array3 float) (b : box) : res (plane float) :=
  let s := sum_planes (shape1 cube) (shape2 cube)
             (slice (planes cube) (istart b) (istop b + 1)) in
  bind (getitem (planes cube) (istart b)) (fun p1 =>
  bind (getitem (planes cube) (istop b)) (fun p2 =>
  Ok (pdiv (psub (psub s (pscale (frac1 b) p1)) (pscale (frac2 b) p2))
           (sub (rstop b) (rstart b))))).

Definition rebin_cube_1d (xout xin : list float) (cube : array3 float)
  : res (array3 float) :=
  bind (spacings xout xin) (fun sp =>
  let '(dx_in, dx_out) := sp in
  let new_cube :=
    repeat (zeros2 zero (shape1 cube) (shape2 cube)) (length xout) in
  if ltb dx_out dx_in
  then
    bind (foldM (fun new_cube i =>
                   foldM (fun new_cube j =>
                            bind (interp_arr xout xin
                                    (column zero (planes cube) j i)) (fun vals =>
                            Ok (set_column new_cube j i vals)))
                         (seq 0 (shape1 cube)) new_cube)
                (seq 0 (shape2 cube)) new_cube) (fun new_cube =>
    Ok (mkArray3 (shape1 cube) (shape2 cube) new_cube))
  else
    bind (edge_indices xout xin dx_in dx_out) (fun in_i =>
    bind (foldM (fun new_cube i =>
                   bind (bin_box in_i (len xout) (len xin) i) (fun b =>
                   bind (bin_plane cube b) (fun p =>
                   setitem new_cube i p)))
                (indices (length xout)) new_cube) (fun new_cube =>
    Ok (mkArray3 (shape1 cube) (shape2 cube) new_cube)))).

End F64.

(** * Proofs *)

(** ** Generic facts: truncation, indexing, loops *)

Lemma Qltb_lt (a b : Q) : Qltb a b = true <-> a < b.
Proof.
  unfold Qltb. rewrite negb_true_iff. split; intros H.
  - apply Qnot_le_lt. intros H'. apply Qle_bool_iff in H'. congruence.
  - destruct (Qle_bool b a) eqn:E; trivial.
    apply Qle_bool_iff in E. exfalso. apply (Qlt_not_le _ _ H E).
Qed.

Lemma Qltb_ge (a b : Q) : Qltb a b = false <-> b <= a.
Proof.
  unfold Qltb. rewrite negb_false_iff. apply Qle_bool_iff.
Qed.

Lemma py_int_floor (x : Q) : 0 <= x -> py_int x = Qfloor x.
Proof.
  destruct x as [n d]. unfold Qle, py_int, Qfloor. simpl. intros H.
  apply Z.quot_div_nonneg; lia.
Qed.

Lemma py_int_nonneg (x : Q) : 0 <= x -> (0 <= py_int x)%Z.
Proof.
  intros H. rewrite py_int_floor by exact H.
  change 0%Z with (Qfloor 0). apply Qfloor_resp_le. exact H.
Qed.

Lemma py_int_le (x : Q) : 0 <= x -> inject_Z (py_int x) <= x.
Proof. intros H. rewrite py_int_floor by exact H. apply Qfloor_le. Qed.

Lemma py_int_lt (x : Q) : 0 <= x -> x < inject_Z (py_int x) + 1.
Proof.
  intros H. rewrite py_int_floor by exact H.
  pose proof (Qlt_floor x) as L. rewrite inject_Z_plus in L. exact L.
Qed.

Lemma inject_Z_lt_inv (a b : Z) : inject_Z a < inject_Z b -> (a < b)%Z.
Proof. rewrite <- Zlt_Qlt. trivial. Qed.

Lemma inject_Z_le_inv (a b : Z) : inject_Z a <= inject_Z b -> (a <= b)%Z.
Proof. rewrite <- Zle_Qle. trivial. Qed.

(** [int] of a value inside [[z, z+1)], [z >= 0], is [z]. *)
Lemma py_int_unique (x : Q) (z : Z) :
  (0 <= z)%Z -> inject_Z z <= x -> x < inject_Z z + 1 -> py_int x = z.
Proof.
  intros Hz H1 H2.
  assert (H0 : 0 <= x).
  { apply Qle_trans with (inject_Z z); [|exact H1].
    change 0 with (inject_Z 0). rewrite <- Zle_Qle. exact Hz. }
  pose proof (py_int_le x H0) as A. pose proof (py_int_lt x H0) as B.
  assert (C : inject_Z (py_int x) < inject_Z (z + 1)).
  { rewrite inject_Z_plus. change (inject_Z 1) with 1. lra. }
  assert (D : inject_Z z < inject_Z (py_int x + 1)).
  { rewrite inject_Z_plus. change (inject_Z 1) with 1. lra. }
  apply inject_Z_lt_inv in C. apply inject_Z_lt_inv in D. lia.
Qed.

Lemma py_int_mono (x y : Q) : 0 <= x -> x <= y -> (py_int x <= py_int y)%Z.
Proof.
  intros H0 H. rewrite !py_int_floor by lra. apply Qfloor_resp_le. exact H.
Qed.

Lemma getitem_ok {A : Type} (l : list A) (i : Z) (d : A) :
  (0 <= i < len l)%Z -> getitem l i = Ok (nth (Z.to_nat i) l d).
Proof.
  intros H. unfold getitem.
  destruct (i <? 0)%Z eqn:E; [apply Z.ltb_lt in E; lia|].
  replace ((0 <=? i)%Z && (i <? len l)%Z) with true.
  2:{ symmetry. apply andb_true_iff. split; [apply Z.leb_le|apply Z.ltb_lt]; lia. }
  destruct (nth_error l (Z.to_nat i)) eqn:N.
  - f_equal. symmetry. apply nth_error_nth. exact N.
  - apply nth_error_None in N. unfold len in H. lia.
Qed.

Lemma getitem_nat {A : Type} (l : list A) (k : nat) (d : A) :
  (k < length l)%nat -> getitem l (Z.of_nat k) = Ok (nth k l d).
Proof.
  intros H. rewrite (getitem_ok l (Z.of_nat k) d) by (unfold len; lia).
  now rewrite Nat2Z.id.
Qed.

(** Whether an access succeeds depends on the length alone. *)
Lemma getitem_same_length {A B : Type} (l : list A) (m : list B) (i : Z) :
  length l = length m ->
  match getitem l i, getitem m i with
  | Ok _, Ok _ => True
  | Raise e, Raise e' => e = e'
  | _, _ => False
  end.
Proof.
  intros H. unfold getitem, len. rewrite H.
  destruct (_ && _) eqn:E; trivial.
  apply andb_true_iff in E. destruct E as [E1 E2].
  apply Z.leb_le in E1. apply Z.ltb_lt in E2.
  destruct (nth_error l _) eqn:N1.
  - destruct (nth_error m _) eqn:N2; trivial.
    apply nth_error_None in N2. lia.
  - apply nth_error_None in N1. lia.
Qed.

Lemma upd_length {A : Type} (l : list A) (n : nat) (v : A) :
  length (upd l n v) = length l.
Proof.
  revert n. induction l as [|a l IH]; intros [|n]; simpl; auto.
Qed.

Lemma upd_app {A : Type} (l l' : list A) (a v : A) :
  upd (l ++ a :: l') (length l) v = l ++ v :: l'.
Proof. induction l as [|b l IH]; simpl; [reflexivity|now rewrite IH]. Qed.

Lemma setitem_length {A : Type} (l l' : list A) (i : Z) (v : A) :
  setitem l i v = Ok l' -> length l' = length l.
Proof.
  unfold setitem. destruct (_ && _); intros H; inversion H.
  apply upd_length.
Qed.

Lemma setitem_app {A : Type} (l l' : list A) (a v : A) :
  setitem (l ++ a :: l') (Z.of_nat (length l)) v = Ok (l ++ v :: l').
Proof.
  unfold setitem, len.
  destruct (Z.of_nat (length l) <? 0)%Z eqn:E; [apply Z.ltb_lt in E; lia|].
  rewrite length_app. simpl.
  replace (_ && _) with true.
  2:{ symmetry. apply andb_true_iff. split; [apply Z.leb_le|apply Z.ltb_lt]; lia. }
  now rewrite Nat2Z.id, upd_app.
Qed.

(** A loop that assigns [t[i] = f i] for [i] in [range(len(t))] computes the
    list of the [f i]: position [i] is written once, in order. *)
Lemma foldM_fill_from {B : Type} (f : Z -> res B) (m k : nat) (done rest : list B) :
  length done = k -> length rest = m ->
  foldM (fun t i => v <- f i ;; setitem t i v)
        (map Z.of_nat (seq k m)) (done ++ rest)
  = vs <- mapM f (map Z.of_nat (seq k m)) ;; Ok (done ++ vs).
Proof.
  revert k done rest. induction m as [|m IH]; intros k done rest Hd Hr.
  - destruct rest; [|discriminate]. reflexivity.
  - destruct rest as [|a rest]; [discriminate|]. simpl.
    destruct (f (Z.of_nat k)) as [v|e]; simpl; [|reflexivity].
    rewrite <- Hd, setitem_app. simpl.
    replace (done ++ v :: rest) with ((done ++ [v]) ++ rest)
      by (rewrite <- app_assoc; reflexivity).
    rewrite Hd.
    rewrite IH; [| rewrite length_app; simpl; lia | simpl in Hr; lia].
    destruct (mapM f _) as [vs|e]; simpl; [|reflexivity].
    now rewrite <- app_assoc.
Qed.

Lemma foldM_fill {B : Type} (f : Z -> res B) (t : list B) :
  foldM (fun t i => v <- f i ;; setitem t i v) (indices (length t)) t
  = mapM f (indices (length t)).
Proof.
  unfold indices.
  pose proof (foldM_fill_from f (length t) 0 [] t eq_refl eq_refl) as H.
  simpl app in H. rewrite H.
  destruct (mapM f _); reflexivity.
Qed.

Lemma foldM_ext {S A : Type} (f g : S -> A -> res S) (l : list A) (s : S) :
  (forall s a, f s a = g s a) -> foldM f l s = foldM g l s.
Proof.
  intros H. revert s. induction l as [|a l IH]; intros s; simpl; [reflexivity|].
  rewrite H. destruct (g s a); simpl; [apply IH|reflexivity].
Qed.

Lemma bind_assoc {A B C : Type} (m : res A) (k : A -> res B) (h : B -> res C) :
  bind (bind m k) h = bind m (fun a => bind (k a) h).
Proof. destruct m; reflexivity. Qed.

Lemma mapM_length {A B : Type} (f : A -> res B) (l : list A) (vs : list B) :
  mapM f l = Ok vs -> length vs = length l.
Proof.
  revert vs. induction l as [|a l IH]; simpl; intros vs H.
  - inversion H. reflexivity.
  - destruct (f a); [|discriminate]. simpl in H.
    destruct (mapM f l); [|discriminate]. inversion H. simpl.
    f_equal. apply IH. reflexivity.
Qed.

Lemma mapM_nth {A B : Type} (f : A -> res B) (l : list A) (vs : list B)
      (k : nat) (da : A) (db : B) :
  mapM f l = Ok vs -> (k < length l)%nat -> f (nth k l da) = Ok (nth k vs db).
Proof.
  revert vs k. induction l as [|a l IH]; simpl; intros vs k H Hk; [lia|].
  destruct (f a) eqn:F; [|discriminate]. simpl in H.
  destruct (mapM f l) eqn:M; [|discriminate]. inversion H. subst vs.
  destruct k; simpl; [exact F|]. apply IH; [reflexivity|lia].
Qed.

Lemma mapM_total {A B : Type} (f : A -> res B) (l : list A) :
  (forall a, In a l -> exists b, f a = Ok b) -> exists vs, mapM f l = Ok vs.
Proof.
  induction l as [|a l IH]; intros H; simpl.
  - now exists [].
  - destruct (H a (or_introl eq_refl)) as [b Hb]. rewrite Hb. simpl.
    destruct IH as [vs Hvs]; [intros; apply H; now right|].
    rewrite Hvs. simpl. now exists (b :: vs).
Qed.

Lemma indices_length (n : nat) : length (indices n) = n.
Proof. unfold indices. now rewrite length_map, length_seq. Qed.

Lemma indices_nth (n k : nat) : (k < n)%nat -> nth k (indices n) 0%Z = Z.of_nat k.
Proof.
  intros H. unfold indices.
  change 0%Z with (Z.of_nat 0). rewrite map_nth, seq_nth by exact H.
  reflexivity.
Qed.

Lemma indices_In (n : nat) (i : Z) :
  In i (indices n) <-> exists k, (k < n)%nat /\ i = Z.of_nat k.
Proof.
  unfold indices. rewrite in_map_iff. split.
  - intros [k [E H]]. apply in_seq in H. exists k. split; [lia|now symmetry].
  - intros [k [H E]]. exists k. split; [now symmetry|apply in_seq; lia].
Qed.

(** ** Grids *)

Lemma increasing_cons (a : Q) (l : list Q) :
  strictly_increasing (a :: l) -> strictly_increasing l.
Proof.
  unfold strictly_increasing. destruct l as [|b l]; simpl; trivial.
  intros H. apply andb_true_iff in H. tauto.
Qed.

Lemma increasing_head (a : Q) (l : list Q) (k : nat) :
  strictly_increasing (a :: l) -> (k < length l)%nat -> a < nth k l 0.
Proof.
  revert a k. induction l as [|b l IH]; intros a k H Hk; simpl in Hk; [lia|].
  assert (Hab : a < b).
  { unfold strictly_increasing in H. simpl in H.
    apply andb_true_iff in H. apply Qltb_lt. tauto. }
  destruct k; simpl; [exact Hab|].
  apply Qlt_trans with b; [exact Hab|].
  apply IH; [apply (increasing_cons _ _ H)|lia].
Qed.

Lemma increasing_nth (l : list Q) (i j : nat) :
  strictly_increasing l -> (i < j < length l)%nat -> nth i l 0 < nth j l 0.
Proof.
  revert i j. induction l as [|a l IH]; intros i j H Hij; simpl in Hij; [lia|].
  destruct j; [lia|]. destruct i; simpl.
  - apply increasing_head; [exact H|lia].
  - apply IH; [apply (increasing_cons _ _ H)|lia].
Qed.

Lemma increasing_nth_le (l : list Q) (i j : nat) :
  strictly_increasing l -> (i <= j < length l)%nat -> nth i l 0 <= nth j l 0.
Proof.
  intros H Hij. destruct (Nat.eq_dec i j) as [->|N]; [apply Qle_refl|].
  apply Qlt_le_weak, increasing_nth; [exact H|lia].
Qed.

(** In an increasing grid the order of two values bounds the order of the
    indices. *)
Lemma increasing_index_lt (l : list Q) (i j : nat) :
  strictly_increasing l -> (i < length l)%nat -> (j < length l)%nat ->
  nth i l 0 < nth j l 0 -> (i < j)%nat.
Proof.
  intros H Hi Hj L. destruct (Nat.lt_ge_cases i j) as [|G]; trivial.
  exfalso. apply (Qlt_not_le _ _ L). apply increasing_nth_le; [exact H|lia].
Qed.

Lemma last_nth (l : list Q) : last l 0 = nth (length l - 1) l 0.
Proof.
  induction l as [|a l IH]; [reflexivity|].
  destruct l as [|b l]; [reflexivity|].
  change (last (a :: b :: l) 0) with (last (b :: l) 0). rewrite IH.
  simpl. now rewrite Nat.sub_0_r.
Qed.

Lemma hd_nth (l : list Q) : hd 0 l = nth 0 l 0.
Proof. destruct l; reflexivity. Qed.

Lemma range_length (n : nat) : length (range n) = n.
Proof. unfold range. now rewrite length_map, length_seq. Qed.

Lemma range_nth (n k : nat) :
  (k < n)%nat -> nth k (range n) 0 = inject_Z (Z.of_nat k).
Proof.
  intros H. unfold range.
  change 0 with ((fun k => inject_Z (Z.of_nat k)) 0%nat) at 1.
  rewrite map_nth, seq_nth by exact H. reflexivity.
Qed.

(** ** [np.interp] is clamped piecewise-linear interpolation *)

Lemma linear_search_spec (key : Q) (arr : list Q) (from : nat) :
  (from <= linear_search key arr from <= from + length arr)%nat /\
  (forall k, (from <= k < linear_search key arr from)%nat ->
             nth (k - from) arr 0 <= key) /\
  ((linear_search key arr from < from + length arr)%nat ->
   key < nth (linear_search key arr from - from) arr 0).
Proof.
  revert from. induction arr as [|a arr IH]; intros from; simpl.
  - split; [lia|split; intros; lia].
  - destruct (Qle_bool a key) eqn:E.
    + destruct (IH (S from)) as [B [L U]]. split; [lia|split].
      * intros k Hk. destruct (Nat.eq_dec k from) as [->|N].
        -- rewrite Nat.sub_diag. now apply Qle_bool_iff.
        -- replace (k - from)%nat with (S (k - S from)) by lia.
           apply L. lia.
      * intros H.
        replace (linear_search key arr (S from) - from)%nat
          with (S (linear_search key arr (S from) - S from)) by lia.
        apply U. lia.
    + split; [lia|split].
      * intros k Hk. lia.
      * intros _. rewrite Nat.sub_diag.
        apply Qltb_lt. unfold Qltb. now rewrite E.
Qed.

(** Inside the range of [xp] the search returns a bracketing index. *)
Lemma binary_search_inside (key : Q) (xp : list Q) :
  xp <> [] ->
  Qltb (last xp 0) key = false -> Qltb key (hd 0 xp) = false ->
  exists j : nat,
    binary_search key xp = Z.of_nat j /\ (j < length xp)%nat /\
    nth j xp 0 <= key /\
    ((S j < length xp)%nat -> key < nth (S j) xp 0).
Proof.
  intros Hne Hr Hl. unfold binary_search. rewrite Hr, Hl.
  destruct xp as [|a r]; [congruence|]. cbn [tl]. simpl in Hl.
  destruct (linear_search_spec key r 1) as [B [L U]].
  set (i := linear_search key r 1) in *.
  exists (i - 1)%nat. simpl length. repeat split; try lia.
  - destruct (Nat.eq_dec i 1) as [->|N].
    + simpl. now apply Qltb_ge.
    + replace (i - 1)%nat with (S (i - 1 - 1)) by lia. simpl.
      apply (L (i - 1)%nat). lia.
  - intros H. replace (S (i - 1)) with i by lia.
    destruct i; [lia|]. simpl.
    replace i with (S i - 1)%nat by lia. apply U. lia.
Qed.

Lemma interp_val_spec (x : Q) (xp fp : list Q) :
  xp <> [] -> length fp = length xp ->
  linear_interp xp fp x (interp_val x xp fp).
Proof.
  intros Hne Hlen. unfold interp_val.
  destruct (length xp =? 1)%nat eqn:E1.
  - apply Nat.eqb_eq in E1. rewrite hd_nth.
    destruct (Qlt_le_dec x (nth 0 xp 0)) as [L|G].
    + now apply li_left.
    + apply li_right; rewrite E1; simpl; [exact G|reflexivity].
  - apply Nat.eqb_neq in E1.
    destruct (Qltb (last xp 0) x) eqn:Er.
    + unfold binary_search. rewrite Er.
      assert (len xp <> -1)%Z by (unfold len; lia).
      replace (len xp =? -1)%Z with false by (symmetry; now apply Z.eqb_neq).
      rewrite Z.eqb_refl. apply Qltb_lt in Er. rewrite last_nth in Er.
      apply li_right; [lra|]. now rewrite last_nth, Hlen.
    + destruct (Qltb x (hd 0 xp)) eqn:El.
      * unfold binary_search. rewrite Er, El. simpl.
        apply Qltb_lt in El. rewrite hd_nth in El. rewrite hd_nth.
        now apply li_left.
      * destruct (binary_search_inside x xp Hne Er El) as [j [-> [Hj [Lo Hi]]]].
        replace (Z.of_nat j =? -1)%Z with false by (symmetry; apply Z.eqb_neq; lia).
        replace (Z.of_nat j =? len xp)%Z with false
          by (symmetry; apply Z.eqb_neq; unfold len; lia).
        rewrite Nat2Z.id.
        destruct (Z.of_nat j =? len xp - 1)%Z eqn:E2.
        -- apply Z.eqb_eq in E2. unfold len in E2.
           replace j with (length xp - 1)%nat by lia.
           apply li_right; [|reflexivity].
           replace (length xp - 1)%nat with j by lia. exact Lo.
        -- apply Z.eqb_neq in E2. unfold len in E2.
           assert (Hj' : (S j < length xp)%nat) by lia.
           specialize (Hi Hj').
           destruct (Qeq_bool (nth j xp 0) x) eqn:E3.
           ++ apply Qeq_bool_iff in E3.
              apply li_inside with (j := j); trivial.
              rewrite <- E3. field. lra.
           ++ apply li_inside with (j := j); trivial. reflexivity.
Qed.

(** ** Coordinates to fractional indices *)

Lemma nat_succ_Q (j : nat) :
  inject_Z (Z.of_nat (S j)) == inject_Z (Z.of_nat j) + 1.
Proof. rewrite Nat2Z.inj_succ. unfold Z.succ. now rewrite inject_Z_plus. Qed.

Lemma nat_le_Q (i j : nat) :
  (i <= j)%nat -> inject_Z (Z.of_nat i) <= inject_Z (Z.of_nat j).
Proof. intros H. rewrite <- Zle_Qle. lia. Qed.

Lemma nat_nonneg_Q (j : nat) : 0 <= inject_Z (Z.of_nat j).
Proof. change 0 with (inject_Z 0). rewrite <- Zle_Qle. lia. Qed.

Lemma ratio_bounds (a b x : Q) :
  a <= x -> x < b -> 0 <= (x - a) / (b - a) /\ (x - a) / (b - a) < 1.
Proof.
  intros H1 H2. split.
  - apply Qle_shift_div_l; lra.
  - apply Qlt_shift_div_r; lra.
Qed.

Lemma ratio_mono (a b x x' : Q) :
  a < b -> x <= x' -> (x - a) / (b - a) <= (x' - a) / (b - a).
Proof.
  intros H1 H2. unfold Qdiv. apply Qmult_le_compat_r; [lra|].
  apply Qlt_le_weak, Qinv_lt_0_compat. lra.
Qed.

Lemma ratio_strict (a b x x' : Q) :
  a < b -> x < x' -> (x - a) / (b - a) < (x' - a) / (b - a).
Proof.
  intros H1 H2. unfold Qdiv. apply Qmult_lt_compat_r; [|lra].
  apply Qinv_lt_0_compat. lra.
Qed.

Section FractionalIndex.

Variable xin : list Q.
Hypothesis xin_increasing : strictly_increasing xin.
Hypothesis xin_nonempty : xin <> [].

Let n := length xin.

Lemma fidx_index_of (x : Q) : index_of xin x (fidx xin x).
Proof. apply interp_val_spec; [exact xin_nonempty|apply range_length]. Qed.

Lemma n_pos : (0 < n)%nat.
Proof. clear xin_increasing. unfold n. destruct xin; [congruence|simpl; lia]. Qed.

(** Inside a cell the index is the cell number plus the covered fraction. *)
Lemma inside_form (j : nat) (x v : Q) :
  (S j < n)%nat -> nth j xin 0 <= x -> x < nth (S j) xin 0 ->
  v == (nth (S j) (range n) 0 - nth j (range n) 0)
       / (nth (S j) xin 0 - nth j xin 0) * (x - nth j xin 0)
       + nth j (range n) 0 ->
  v == inject_Z (Z.of_nat j) + (x - nth j xin 0) / (nth (S j) xin 0 - nth j xin 0).
Proof.
  clear xin_increasing xin_nonempty.
  intros Hj Lo Hi E. rewrite E, !range_nth, nat_succ_Q by lia.
  field. lra.
Qed.

Lemma inside_bounds (j : nat) (x v : Q) :
  nth j xin 0 <= x -> x < nth (S j) xin 0 ->
  v == inject_Z (Z.of_nat j) + (x - nth j xin 0) / (nth (S j) xin 0 - nth j xin 0) ->
  inject_Z (Z.of_nat j) <= v /\ v < inject_Z (Z.of_nat j) + 1.
Proof.
  clear xin_increasing xin_nonempty.
  intros Lo Hi E. destruct (ratio_bounds _ _ _ Lo Hi). lra.
Qed.

(** Every fractional index lies in [[0, n-1]]. *)
Lemma index_of_bounds (x v : Q) :
  index_of xin x v -> 0 <= v /\ v <= inject_Z (Z.of_nat (n - 1)).
Proof.
  clear xin_increasing.
  pose proof n_pos as P. intros [L E | R E | j Hj Lo Hi E].
  - rewrite range_nth in E by lia. rewrite E. split; [apply Qle_refl|].
    apply (nat_nonneg_Q (n - 1)).
  - fold n in E. rewrite range_nth in E by lia. rewrite E.
    split; [apply nat_nonneg_Q|apply Qle_refl].
  - fold n in Hj. apply (inside_form j x v Hj Lo Hi) in E.
    destruct (inside_bounds j x v Lo Hi E) as [B1 B2].
    pose proof (nat_nonneg_Q j). pose proof (nat_succ_Q j).
    pose proof (nat_le_Q (S j) (n - 1)) as B3.
    split; [lra|]. apply Qle_trans with (inject_Z (Z.of_nat (S j))); [lra|].
    apply B3. lia.
Qed.

Lemma first_le_last : nth 0 xin 0 <= nth (n - 1) xin 0.
Proof. pose proof n_pos. apply increasing_nth_le; [exact xin_increasing|]. fold n. lia. Qed.

(** The fractional index does not decrease with the coordinate. *)
Lemma index_of_mono (x x' v v' : Q) :
  index_of xin x v -> index_of xin x' v' -> x <= x' -> v <= v'.
Proof.
  intros H H' Hx.
  destruct (index_of_bounds x v H) as [B1 B2].
  destruct (index_of_bounds x' v' H') as [B1' B2'].
  pose proof n_pos as P. pose proof first_le_last as FL.
  destruct H' as [L' E' | R' E' | j' Hj' Lo' Hi' E'].
  - destruct H as [L E | R E | j Hj Lo Hi E].
    + rewrite E, E'. apply Qle_refl.
    + fold n in R. exfalso. lra.
    + exfalso.
      assert (nth 0 xin 0 <= nth j xin 0)
        by (apply increasing_nth_le; [exact xin_increasing|lia]).
      lra.
  - fold n in E'. rewrite range_nth in E' by lia. rewrite E'. exact B2.
  - fold n in Hj'. apply (inside_form j' x' v' Hj' Lo' Hi') in E'.
    destruct (inside_bounds j' x' v' Lo' Hi' E') as [C1 C2].
    destruct H as [L E | R E | j Hj Lo Hi E].
    + rewrite range_nth in E by lia. rewrite E. exact B1'.
    + fold n in R. exfalso.
      assert (nth (S j') xin 0 <= nth (n - 1) xin 0)
        by (apply increasing_nth_le; [exact xin_increasing|fold n; lia]).
      lra.
    + fold n in Hj. apply (inside_form j x v Hj Lo Hi) in E.
      destruct (inside_bounds j x v Lo Hi E) as [D1 D2].
      destruct (lt_eq_lt_dec j j') as [[Lt|Eq]|Gt].
      * pose proof (nat_le_Q (S j) j') as K.
        pose proof (nat_succ_Q j). specialize (K ltac:(lia)). lra.
      * subst j'. rewrite E, E'.
        assert (nth j xin 0 < nth (S j) xin 0) by lra.
        pose proof (ratio_mono (nth j xin 0) (nth (S j) xin 0)
                      x x' ltac:(assumption) Hx). lra.
      * exfalso.
        assert (nth (S j') xin 0 <= nth j xin 0)
          by (apply increasing_nth_le; [exact xin_increasing|lia]).
        lra.
Qed.

(** Between the first and the last grid point it increases strictly. *)
Lemma index_of_strict (x x' v v' : Q) :
  index_of xin x v -> index_of xin x' v' ->
  nth 0 xin 0 <= x -> x < x' -> x' <= nth (n - 1) xin 0 -> v < v'.
Proof.
  intros H H' H0 Hx H1. pose proof n_pos as P.
  destruct H as [L E | R E | j Hj Lo Hi E].
  - exfalso. lra.
  - fold n in R. exfalso. lra.
  - fold n in Hj. apply (inside_form j x v Hj Lo Hi) in E.
    destruct (inside_bounds j x v Lo Hi E) as [D1 D2].
    destruct H' as [L' E' | R' E' | j' Hj' Lo' Hi' E'].
    + exfalso. lra.
    + fold n in E'. rewrite range_nth in E' by lia.
      pose proof (nat_le_Q (S j) (n - 1) ltac:(lia)).
      pose proof (nat_succ_Q j). lra.
    + fold n in Hj'. apply (inside_form j' x' v' Hj' Lo' Hi') in E'.
      destruct (inside_bounds j' x' v' Lo' Hi' E') as [C1 C2].
      destruct (lt_eq_lt_dec j j') as [[Lt|Eq]|Gt].
      * pose proof (nat_le_Q (S j) j' ltac:(lia)).
        pose proof (nat_succ_Q j). lra.
      * subst j'. rewrite E, E'.
        assert (nth j xin 0 < nth (S j) xin 0) by lra.
        pose proof (ratio_strict (nth j xin 0) (nth (S j) xin 0)
                      x x' ltac:(assumption) Hx). lra.
      * exfalso.
        assert (nth (S j') xin 0 <= nth j xin 0)
          by (apply increasing_nth_le; [exact xin_increasing|lia]).
        lra.
Qed.

(** Truncation of a fractional index gives a valid index. *)
Lemma index_of_int (x v : Q) :
  index_of xin x v -> (0 <= py_int v <= Z.of_nat (n - 1))%Z.
Proof.
  intros H. destruct (index_of_bounds x v H) as [B1 B2]. split.
  - now apply py_int_nonneg.
  - apply inject_Z_le_inv. apply Qle_trans with v; [now apply py_int_le|exact B2].
Qed.

(** Left of the last grid point the truncated index has a right neighbour,
    and the two grid points are one cell of the grid. *)
Lemma index_of_cell (x v : Q) :
  (2 <= n)%nat -> index_of xin x v -> x < nth (n - 1) xin 0 ->
  (0 <= py_int v)%Z /\ (py_int v + 1 < Z.of_nat n)%Z.
Proof.
  intros P H Hx.
  destruct H as [L E | R E | j Hj Lo Hi E].
  - rewrite range_nth in E by lia.
    assert (py_int v = 0%Z) as ->.
    { apply py_int_unique; [lia| |]; rewrite E; simpl; lra. }
    lia.
  - fold n in R. exfalso. lra.
  - fold n in Hj. apply (inside_form j x v Hj Lo Hi) in E.
    destruct (inside_bounds j x v Lo Hi E) as [D1 D2].
    assert (py_int v = Z.of_nat j) as -> by (apply py_int_unique; [lia|lra|lra]).
    lia.
Qed.

End FractionalIndex.

(** ** Regime selection *)

Lemma grid_nonempty (l : list Q) : grid l -> l <> [].
Proof. intros [_ H] E. subst l. simpl in H. lia. Qed.

Lemma in0_bounds (xout xin : list Q) :
  grid xin -> starts_inside xout xin ->
  (0 <= in0 xout xin)%Z /\ (in0 xout xin + 1 < len xin)%Z.
Proof.
  intros G S. unfold starts_inside in S. apply Qltb_lt in S.
  rewrite last_nth in S. destruct G as [Gi Gl].
  apply (index_of_cell xin (nth 0 xout 0) _ Gl); [|exact S].
  apply fidx_index_of. apply grid_nonempty. now split.
Qed.

Lemma dx_in_pos (xout xin : list Q) :
  grid xin -> starts_inside xout xin -> 0 < dx_in xout xin.
Proof.
  intros G S. destruct (in0_bounds xout xin G S) as [B1 B2]. unfold dx_in, len in *.
  assert (nth (Z.to_nat (in0 xout xin)) xin 0
          < nth (Z.to_nat (in0 xout xin + 1)) xin 0).
  { apply increasing_nth; [apply G|lia]. }
  lra.
Qed.

Lemma dx_out_pos (xout : list Q) : grid xout -> 0 < dx_out xout.
Proof.
  intros [Gi Gl]. unfold dx_out.
  assert (nth 0 xout 0 < nth 1 xout 0) by (apply increasing_nth; [exact Gi|lia]).
  lra.
Qed.

Lemma spacings_ok (xout xin : list Q) :
  grid xout -> grid xin -> starts_inside xout xin ->
  spacings xout xin = Ok (dx_in xout xin, dx_out xout).
Proof.
  intros Go Gi S. destruct (in0_bounds xout xin Gi S) as [B1 B2].
  pose proof (grid_nonempty xin Gi) as Ne. destruct Go as [_ Lo].
  unfold spacings.
  rewrite (getitem_ok xout 0 0) by (unfold len; lia). simpl bind.
  unfold interp, interp_check.
  replace (length xin =? 0)%nat with false
    by (symmetry; apply Nat.eqb_neq; destruct xin; [congruence|simpl; lia]).
  rewrite range_length, Nat.eqb_refl. simpl bind.
  change (py_int (interp_val (nth 0 xout 0) xin (range (length xin))))
    with (in0 xout xin).
  rewrite (getitem_ok xin (in0 xout xin + 1) 0) by lia. simpl bind.
  rewrite (getitem_ok xin (in0 xout xin) 0) by lia. simpl bind.
  rewrite (getitem_ok xout 1 0) by (unfold len; lia). simpl bind.
  reflexivity.
Qed.

Lemma dx_in_pos_at (xout xin : list Q) :
  strictly_increasing xin ->
  (0 <= in0 xout xin)%Z -> (in0 xout xin + 1 < len xin)%Z ->
  0 < dx_in xout xin.
Proof.
  intros I B1 B2. unfold dx_in, len in *.
  assert (nth (Z.to_nat (in0 xout xin)) xin 0
          < nth (Z.to_nat (in0 xout xin + 1)) xin 0).
  { apply increasing_nth; [exact I|lia]. }
  lra.
Qed.

Lemma interp_arr_ok (xs xp fp : list Q) :
  xp <> [] -> length fp = length xp ->
  interp_arr xs xp fp = Ok (map (fun x => interp_val x xp fp) xs).
Proof.
  intros Ne L. unfold interp_arr, interp_check.
  replace (length xp =? 0)%nat with false
    by (symmetry; apply Nat.eqb_neq; destruct xp; [congruence|simpl; lia]).
  now rewrite L, Nat.eqb_refl.
Qed.

Lemma edge_indices_ok (xout xin : list Q) :
  xin <> [] -> ~ dx_in xout xin == 0 ->
  edge_indices xout xin (dx_in xout xin) (dx_out xout) = Ok (in_i xout xin).
Proof.
  intros Ne P. unfold edge_indices, py_div.
  replace (Qeq_bool (dx_in xout xin) 0) with false.
  2:{ symmetry. destruct (Qeq_bool (dx_in xout xin) 0) eqn:E; trivial.
      apply Qeq_bool_iff in E. contradiction. }
  simpl bind. rewrite interp_arr_ok by (trivial; apply range_length).
  reflexivity.
Qed.

Lemma in_i_length (xout xin : list Q) : length (in_i xout xin) = length xout.
Proof. unfold in_i. now rewrite !length_map. Qed.

Lemma in_i_nth (xout xin : list Q) (k : nat) :
  (k < length xout)%nat ->
  nth k (in_i xout xin) 0 = fidx xin (nth k xout 0 - dx_out xout * (1 # 2)).
Proof.
  intros H. unfold in_i. rewrite map_map.
  rewrite nth_indep with (d' := (fun x => fidx xin (x - dx_out xout * (1 # 2))) 0)
    by (now rewrite length_map).
  apply (map_nth (fun x => fidx xin (x - dx_out xout * (1 # 2)))).
Qed.

(** The edge indices are valid fractional indices and do not decrease. *)
Lemma in_i_bounds (xout xin : list Q) (k : nat) :
  grid xin -> (k < length xout)%nat ->
  0 <= nth k (in_i xout xin) 0 /\
  nth k (in_i xout xin) 0 <= inject_Z (Z.of_nat (length xin - 1)).
Proof.
  intros G H. rewrite in_i_nth by exact H.
  pose proof (grid_nonempty xin G) as Ne.
  exact (index_of_bounds xin Ne _ _ (fidx_index_of xin Ne _)).
Qed.

Lemma in_i_mono (xout xin : list Q) (j k : nat) :
  grid xin -> strictly_increasing xout -> (j <= k < length xout)%nat ->
  nth j (in_i xout xin) 0 <= nth k (in_i xout xin) 0.
Proof.
  intros G I H. rewrite !in_i_nth by lia.
  pose proof (grid_nonempty xin G) as Ne. destruct G as [Gi _].
  apply (index_of_mono xin Gi Ne _ _ _ _ (fidx_index_of xin Ne _) (fidx_index_of xin Ne _)).
  pose proof (increasing_nth_le xout j k I H). lra.
Qed.

(** ** The box of one output bin *)

Lemma bin_box_ok (ii : list Q) (nout nin k : nat) :
  length ii = nout -> (2 <= nout)%nat -> (k < nout)%nat ->
  bin_box ii (Z.of_nat nout) (Z.of_nat nin) (Z.of_nat k) = Ok (box_of ii nin k).
Proof.
  intros L H2 Hk. unfold bin_box, box_of.
  rewrite (getitem_nat ii k 0) by lia. simpl bind.
  assert (Hmin : forall z, (if (z >? Z.of_nat nin - 1)%Z then (Z.of_nat nin - 1)%Z else z)
                           = Z.min z (Z.of_nat nin - 1)).
  { intros z. destruct (z >? Z.of_nat nin - 1)%Z eqn:E.
    - apply Z.gtb_lt in E. lia.
    - rewrite Z.gtb_ltb in E. apply Z.ltb_ge in E. lia. }
  destruct (Z.of_nat k <? Z.of_nat nout - 1)%Z eqn:E.
  - apply Z.ltb_lt in E.
    replace (S k <? length ii)%nat with true by (symmetry; apply Nat.ltb_lt; lia).
    replace (Z.of_nat k + 1)%Z with (Z.of_nat (S k)) by lia.
    rewrite (getitem_nat ii (S k) 0) by lia. simpl bind. now rewrite Hmin.
  - apply Z.ltb_ge in E.
    replace (S k <? length ii)%nat with false by (symmetry; apply Nat.ltb_ge; lia).
    replace (Z.of_nat k - 1)%Z with (Z.of_nat (k - 1)) by lia.
    rewrite (getitem_nat ii (k - 1) 0) by lia. simpl bind.
    now rewrite Hmin.
Qed.

Lemma in_i_edges_ok (xout xin : list Q) :
  grid xin -> strictly_increasing xout ->
  edges_ok (in_i xout xin) (length xin).
Proof.
  intros G I. split.
  - intros k Hk. rewrite in_i_length in Hk. now apply in_i_bounds.
  - intros j k H. rewrite in_i_length in H. now apply in_i_mono.
Qed.

Lemma box_of_rstart_nonneg (ii : list Q) (nin k : nat) :
  edges_ok ii nin -> (k < length ii)%nat -> 0 <= rstart (box_of ii nin k).
Proof. intros [B _] Hk. simpl. apply B. exact Hk. Qed.

Lemma box_of_ordered (ii : list Q) (nin k : nat) :
  edges_ok ii nin -> (k < length ii)%nat ->
  rstart (box_of ii nin k) <= rstop (box_of ii nin k).
Proof.
  intros [B M] Hk. simpl.
  destruct (S k <? length ii)%nat eqn:E.
  - apply Nat.ltb_lt in E. apply M. lia.
  - assert (nth (k - 1) ii 0 <= nth k ii 0) by (apply M; lia). lra.
Qed.

Lemma box_of_in_bounds (ii : list Q) (nin k : nat) :
  edges_ok ii nin -> (0 < nin)%nat -> (k < length ii)%nat ->
  box_in_bounds (box_of ii nin k) nin.
Proof.
  intros E Hn Hk.
  pose proof (box_of_rstart_nonneg ii nin k E Hk) as R0.
  pose proof (box_of_ordered ii nin k E Hk) as RO.
  destruct E as [B M]. destruct (B k Hk) as [B1 B2].
  unfold box_in_bounds. cbn [istart istop rstart box_of] in *.
  set (rs := rstop (box_of ii nin k)) in *.
  set (r := nth k ii 0) in *.
  assert (I1 : (0 <= py_int r)%Z) by now apply py_int_nonneg.
  assert (I2 : (py_int r <= Z.of_nat (nin - 1))%Z).
  { apply inject_Z_le_inv.
    apply Qle_trans with r; [now apply py_int_le|exact B2]. }
  assert (I3 : (py_int r <= py_int rs)%Z) by now apply py_int_mono.
  change (0 <= py_int r /\ py_int r <= Z.min (py_int rs) (Z.of_nat nin - 1)
          /\ Z.min (py_int rs) (Z.of_nat nin - 1) < Z.of_nat nin)%Z.
  lia.
Qed.

(** ** Unfolding the entry point *)

Lemma getitem_inv {A : Type} (l : list A) (i : Z) (a d : A) :
  getitem l i = Ok a -> (0 <= i)%Z -> (i < len l)%Z /\ a = nth (Z.to_nat i) l d.
Proof.
  intros H Hi. unfold getitem in H.
  destruct (i <? 0)%Z eqn:E; [apply Z.ltb_lt in E; lia|].
  destruct (_ && _) eqn:E2; [|discriminate].
  apply andb_true_iff in E2. destruct E2 as [_ E2]. apply Z.ltb_lt in E2.
  split; [exact E2|].
  destruct (nth_error l (Z.to_nat i)) eqn:N; [|discriminate].
  inversion H. subst. symmetry. now apply nth_error_nth.
Qed.

(** Whenever lines 39-42 succeed, both grids are long enough, [in0] has a
    right neighbour, and the spacings are the closed forms above. *)
Lemma spacings_inv (xout xin : list Q) (di do : Q) :
  spacings xout xin = Ok (di, do) ->
  (2 <= length xout)%nat /\ xin <> [] /\
  (0 <= in0 xout xin)%Z /\ (in0 xout xin + 1 < len xin)%Z /\
  di = dx_in xout xin /\ do = dx_out xout.
Proof.
  unfold spacings. intros H.
  destruct (getitem xout 0) as [x0|] eqn:E0; [|discriminate].
  apply (getitem_inv xout 0 _ 0) in E0; [|lia]. destruct E0 as [L0 ->].
  simpl bind in H. unfold interp, interp_check in H.
  destruct (length xin =? 0)%nat eqn:En; [discriminate|].
  apply Nat.eqb_neq in En.
  assert (Ne : xin <> []) by (intros ->; apply En; reflexivity).
  rewrite range_length, Nat.eqb_refl in H. simpl bind in H.
  change (py_int (interp_val (nth 0 xout 0) xin (range (length xin))))
    with (in0 xout xin) in H.
  assert (P : (0 <= in0 xout xin)%Z).
  { apply py_int_nonneg. apply (index_of_bounds xin Ne _ _ (fidx_index_of xin Ne _)). }
  destruct (getitem xin (in0 xout xin + 1)) as [a|] eqn:E1; [|discriminate].
  apply (getitem_inv xin _ _ 0) in E1; [|lia]. destruct E1 as [L1 ->].
  simpl bind in H.
  destruct (getitem xin (in0 xout xin)) as [b|] eqn:E2; [|discriminate].
  apply (getitem_inv xin _ _ 0) in E2; [|lia]. destruct E2 as [L2 ->].
  simpl bind in H.
  destruct (getitem xout 1) as [c|] eqn:E3; [|discriminate].
  apply (getitem_inv xout 1 _ 0) in E3; [|lia]. destruct E3 as [L3 ->].
  simpl bind in H. inversion H. unfold len in L3.
  repeat split; trivial. lia.
Qed.

Lemma select_regime_inv (xout xin : list Q) (r : regime) :
  select_regime xout xin = Ok r ->
  spacings xout xin = Ok (dx_in xout xin, dx_out xout) /\
  r = if Qltb (dx_out xout) (dx_in xout xin) then Interpolation else BoxIntegration.
Proof.
  unfold select_regime. intros H.
  destruct (spacings xout xin) as [[di do]|] eqn:E; [|discriminate].
  destruct (spacings_inv _ _ _ _ E) as (_ & _ & _ & _ & -> & ->).
  split; [reflexivity|]. simpl in H. now inversion H.
Qed.

Lemma rebin1d_interpolation (xout xin yin : list Q) :
  select_regime xout xin = Ok Interpolation ->
  rebin1d xout xin yin = fmap (map Finite) (interp_arr xout xin yin).
Proof.
  intros H. destruct (select_regime_inv _ _ _ H) as [S R].
  unfold rebin1d. rewrite S. simpl bind.
  destruct (Qltb (dx_out xout) (dx_in xout xin)); [reflexivity|discriminate].
Qed.

(** In the box regime the loop computes one value per output index. *)
Lemma rebin1d_box (xout xin yin : list Q) :
  select_regime xout xin = Ok BoxIntegration ->
  rebin1d xout xin yin =
  ii <- edge_indices xout xin (dx_in xout xin) (dx_out xout) ;;
  mapM (fun i => b <- bin_box ii (len xout) (len xin) i ;; bin_value yin b)
       (indices (length xout)).
Proof.
  intros H. destruct (select_regime_inv _ _ _ H) as [S R].
  unfold rebin1d. rewrite S. simpl bind.
  destruct (Qltb (dx_out xout) (dx_in xout xin)); [discriminate|].
  destruct (edge_indices _ _ _ _) as [ii|e]; [|reflexivity]. simpl bind.
  pose proof (foldM_fill
    (fun i => b <- bin_box ii (len xout) (len xin) i ;; bin_value yin b)
    (zeros1 (Finite 0) (length xout))) as F.
  unfold zeros1 in *. rewrite repeat_length in F. rewrite <- F.
  apply foldM_ext. intros t i. now rewrite bind_assoc.
Qed.

(** ** Values of the bins *)

Lemma bin_value_ok (yin : list Q) (b : box) (nin : nat) :
  box_in_bounds b nin -> length yin = nin ->
  bin_value yin b = Ok (np_div (numerator yin b) (rstop b - rstart b)).
Proof.
  intros (B1 & B2 & B3) L. unfold bin_value, numerator.
  rewrite (getitem_ok yin (istart b) 0) by (unfold len; lia).
  rewrite (getitem_ok yin (istop b) 0) by (unfold len; lia).
  destruct (istart b =? istop b)%Z; reflexivity.
Qed.

Lemma bin_plane_ok (cube : array3 Q) (b : box) (nin : nat) :
  box_in_bounds b nin -> length (planes cube) = nin ->
  bin_plane cube b = Ok (pdiv (numerator_plane cube b) (rstop b - rstart b)).
Proof.
  intros (B1 & B2 & B3) L. unfold bin_plane, numerator_plane.
  rewrite (getitem_ok (planes cube) (istart b) []) by (unfold len; lia).
  rewrite (getitem_ok (planes cube) (istop b) []) by (unfold len; lia).
  reflexivity.
Qed.

Lemma rebin_cube_1d_box (xout xin : list Q) (cube : array3 Q) :
  select_regime xout xin = Ok BoxIntegration ->
  rebin_cube_1d xout xin cube =
  ii <- edge_indices xout xin (dx_in xout xin) (dx_out xout) ;;
  ps <- mapM (fun i => b <- bin_box ii (len xout) (len xin) i ;; bin_plane cube b)
             (indices (length xout)) ;;
  Ok (mkArray3 (shape1 cube) (shape2 cube) ps).
Proof.
  intros H. destruct (select_regime_inv _ _ _ H) as [S R].
  unfold rebin_cube_1d. rewrite S. simpl bind.
  destruct (Qltb (dx_out xout) (dx_in xout xin)); [discriminate|].
  destruct (edge_indices _ _ _ _) as [ii|e]; [|reflexivity]. simpl bind.
  pose proof (foldM_fill
    (fun i => b <- bin_box ii (len xout) (len xin) i ;; bin_plane cube b)
    (repeat (zeros2 (Finite 0) (shape1 cube) (shape2 cube)) (length xout))) as F.
  rewrite repeat_length in F. rewrite <- F.
  f_equal. apply foldM_ext. intros t i. now rewrite bind_assoc.
Qed.

(** All boxes of a box-regime call on valid grids. *)
Lemma boxes_ok (xout xin : list Q) (k : nat) :
  grid xout -> grid xin -> (k < length xout)%nat ->
  bin_box (in_i xout xin) (len xout) (len xin) (Z.of_nat k)
  = Ok (box_of (in_i xout xin) (length xin) k) /\
  box_in_bounds (box_of (in_i xout xin) (length xin) k) (length xin).
Proof.
  intros [Io Lo] Gi Hk. split.
  - apply bin_box_ok; trivial. apply in_i_length.
  - apply box_of_in_bounds.
    + now apply in_i_edges_ok.
    + destruct Gi. lia.
    + now rewrite in_i_length.
Qed.

Lemma box_regime_edges (xout xin : list Q) :
  grid xin -> select_regime xout xin = Ok BoxIntegration ->
  edge_indices xout xin (dx_in xout xin) (dx_out xout) = Ok (in_i xout xin).
Proof.
  intros Gi R. destruct (select_regime_inv _ _ _ R) as [S _].
  destruct (spacings_inv _ _ _ _ S) as (_ & Ne & B1 & B2 & _).
  apply edge_indices_ok; [exact Ne|].
  pose proof (dx_in_pos_at xout xin (proj1 Gi) B1 B2). lra.
Qed.

(** A box-regime call on valid grids and a same-length series returns. *)
Lemma rebin1d_box_total (xout xin yin : list Q) :
  grid xout -> grid xin -> length yin = length xin ->
  select_regime xout xin = Ok BoxIntegration ->
  rebin1d xout xin yin =
  mapM (fun i => b <- bin_box (in_i xout xin) (len xout) (len xin) i ;;
                 bin_value yin b)
       (indices (length xout)) /\
  exists ys, rebin1d xout xin yin = Ok ys.
Proof.
  intros Go Gi L R.
  assert (E : rebin1d xout xin yin =
              mapM (fun i => b <- bin_box (in_i xout xin) (len xout) (len xin) i ;;
                             bin_value yin b)
                   (indices (length xout))).
  { rewrite (rebin1d_box xout xin yin R), (box_regime_edges xout xin Gi R). reflexivity. }
  split; [exact E|]. rewrite E. apply mapM_total.
  intros i Hi. apply indices_In in Hi. destruct Hi as [k [Hk ->]].
  destruct (boxes_ok xout xin k Go Gi Hk) as [-> B]. simpl bind.
  rewrite (bin_value_ok yin _ _ B L). eauto.
Qed.

Lemma select_regime_ok (xout xin : list Q) :
  grid xout -> grid xin -> starts_inside xout xin ->
  select_regime xout xin =
  Ok (if Qltb (dx_out xout) (dx_in xout xin) then Interpolation else BoxIntegration).
Proof.
  intros Go Gi S. unfold select_regime. now rewrite (spacings_ok xout xin Go Gi S).
Qed.

Lemma rebin1d_interpolation_total (xout xin yin : list Q) :
  xin <> [] -> length yin = length xin ->
  select_regime xout xin = Ok Interpolation ->
  rebin1d xout xin yin
  = Ok (map Finite (map (fun x => interp_val x xin yin) xout)).
Proof.
  intros Ne L R. rewrite (rebin1d_interpolation xout xin yin R).
  now rewrite (interp_arr_ok xout xin yin Ne L).
Qed.

(** On valid inputs whose output grid starts inside the input grid,
    [rebin1d] returns an array of [len(xout)] values. *)
Lemma rebin1d_length (xout xin yin : list Q) :
  grid xout -> grid xin -> starts_inside xout xin ->
  length yin = length xin ->
  exists ys, rebin1d xout xin yin = Ok ys /\ length ys = length xout.
Proof.
  intros Go Gi S L. pose proof (select_regime_ok xout xin Go Gi S) as R.
  destruct (Qltb (dx_out xout) (dx_in xout xin)).
  - rewrite (rebin1d_interpolation_total xout xin yin (grid_nonempty xin Gi) L R).
    eexists. split; [reflexivity|]. now rewrite !length_map.
  - destruct (rebin1d_box_total xout xin yin Go Gi L R) as [E [ys Hys]].
    exists ys. split; [exact Hys|].
    rewrite E in Hys. apply mapM_length in Hys.
    now rewrite indices_length in Hys.
Qed.

(** ** Failures of the preamble *)







(** ** Accesses of the box regime *)

(** C10. In the box regime on strictly increasing grids of at least two
    points, every edge index lies in [[0, len(xin)-1]]; for every output bin
    the box is computed without an index error, [istart] and [istop] are
    valid non-negative indices with [istart <= istop], so the slice
    [istart:istop+1] lies inside the array; the last bin, the only one that
    reads [in_i[i-1]], has [i >= 1]; and the reads of a series or of a cube
    of the input grid's length succeed. *)
Theorem box_regime_accesses_in_bounds (xout xin : list Q) :
  grid xout -> grid xin ->
  select_regime xout xin = Ok BoxIntegration ->
  edge_indices xout xin (dx_in xout xin) (dx_out xout) = Ok (in_i xout xin) /\
  length (in_i xout xin) = length xout /\
  forall k : nat, (k < length xout)%nat ->
    (0 <= nth k (in_i xout xin) 0 /\
     nth k (in_i xout xin) 0 <= inject_Z (len xin - 1)) /\
    (~ (Z.of_nat k < len xout - 1)%Z -> (0 <= Z.of_nat k - 1)%Z) /\
    exists b : box,
      bin_box (in_i xout xin) (len xout) (len xin) (Z.of_nat k) = Ok b /\
      (0 <= istart b < len xin)%Z /\
      (0 <= istop b < len xin)%Z /\
      (istart b <= istop b)%Z /\
      (forall yin, length yin = length xin ->
                   exists v, bin_value yin b = Ok v) /\
      (forall cube : array3 Q, length (planes cube) = length xin ->
                   exists p, bin_plane cube b = Ok p).
Proof.
  intros Go Gi R. split; [now apply box_regime_edges|].
  split; [apply in_i_length|]. intros k Hk.
  destruct (boxes_ok xout xin k Go Gi Hk) as [E B].
  split; [|split].
  - destruct (in_i_bounds xout xin k Gi Hk) as [B1 B2]. split; [exact B1|].
    unfold len. destruct Gi as [_ Gl].
    replace (Z.of_nat (length xin) - 1)%Z with (Z.of_nat (length xin - 1)) by lia.
    exact B2.
  - intros N. destruct Go as [_ Lo]. unfold len in *. lia.
  - exists (box_of (in_i xout xin) (length xin) k).
    split; [exact E|]. destruct B as (B1 & B2 & B3). unfold len.
    repeat split; try lia.
    + intros yin L. rewrite (bin_value_ok yin _ _ (conj B1 (conj B2 B3)) L). eauto.
    + intros cube L. rewrite (bin_plane_ok cube _ _ (conj B1 (conj B2 B3)) L). eauto.
Qed.

Lemma box_regime_accesses_witness :
  edge_indices [0; 2; 4] [0; 1; 2; 3; 4]
    (dx_in [0; 2; 4] [0; 1; 2; 3; 4]) (dx_out [0; 2; 4])
  = Ok (in_i [0; 2; 4] [0; 1; 2; 3; 4]) /\
  length (in_i [0; 2; 4] [0; 1; 2; 3; 4]) = 3%nat.
Proof.
  destruct (box_regime_accesses_in_bounds [0; 2; 4] [0; 1; 2; 3; 4])
    as (A & B & _).
  - split; [reflexivity|simpl; lia].
  - split; [reflexivity|simpl; lia].
  - reflexivity.
  - exact (conj A B).
Defined.

(** ** Shapes of planes *)

Lemma map2_length {A B C : Type} (f : A -> B -> C) (l : list A) (m : list B) :
  length l = length m -> length (map2 f l m) = length l.
Proof.
  intros H. unfold map2. rewrite length_map, length_combine. lia.
Qed.

Lemma map2_nth {A B C : Type} (f : A -> B -> C) (l : list A) (m : list B)
      (k : nat) (da : A) (db : B) (dc : C) :
  (k < length l)%nat -> (k < length m)%nat ->
  nth k (map2 f l m) dc = f (nth k l da) (nth k m db).
Proof.
  revert m k. induction l as [|a l IH]; intros m k Hl Hm; simpl in Hl; [lia|].
  destruct m as [|b m]; simpl in Hm; [lia|].
  destruct k; [reflexivity|]. unfold map2. simpl.
  apply IH; lia.
Qed.

Lemma map2_Forall {A B C : Type} (f : A -> B -> C) (P : A -> Prop)
      (Q' : B -> Prop) (R : C -> Prop) (l : list A) (m : list B) :
  (forall a b, P a -> Q' b -> R (f a b)) ->
  Forall P l -> Forall Q' m -> Forall R (map2 f l m).
Proof.
  intros H Hl. revert m. induction Hl as [|a l Pa Hl IH]; intros m Hm.
  - constructor.
  - destruct Hm as [|b m Qb Hm]; [constructor|].
    unfold map2. simpl. constructor; [now apply H|]. now apply IH.
Qed.

Lemma zeros2_shape {A : Type} (z : A) (r c : nat) : plane_shape r c (zeros2 z r c).
Proof.
  unfold plane_shape, zeros2, zeros1. split; [apply repeat_length|].
  apply Forall_forall. intros row H. apply repeat_spec in H. subst.
  apply repeat_length.
Qed.

Lemma vop_length (f : Q -> Q -> Q) (u v : list Q) (c : nat) :
  length u = c -> length v = c -> length (map2 f u v) = c.
Proof. intros Hu Hv. rewrite map2_length; congruence. Qed.

Lemma pop_shape (f : Q -> Q -> Q) (r c : nat) (p s : plane Q) :
  plane_shape r c p -> plane_shape r c s ->
  plane_shape r c (map2 (map2 f) p s).
Proof.
  intros [Lp Fp] [Ls Fs]. split.
  - rewrite map2_length; congruence.
  - eapply map2_Forall; [|exact Fp|exact Fs].
    intros u v Hu Hv. now apply vop_length.
Qed.

Lemma pscale_shape (x : Q) (r c : nat) (p : plane Q) :
  plane_shape r c p -> plane_shape r c (pscale x p).
Proof.
  intros [Lp Fp]. unfold pscale, vscale. split; [now rewrite length_map|].
  apply Forall_map. eapply Forall_impl; [|exact Fp].
  intros u Hu. simpl. now rewrite length_map.
Qed.

Lemma pdiv_shape (x : Q) (r c : nat) (p : plane Q) :
  plane_shape r c p -> plane_shape r c (pdiv p x).
Proof.
  intros [Lp Fp]. unfold pdiv, vdiv. split; [now rewrite length_map|].
  apply Forall_map. eapply Forall_impl; [|exact Fp].
  intros u Hu. simpl. now rewrite length_map.
Qed.

Lemma sum_planes_shape (r c : nat) (l : list (plane Q)) :
  Forall (plane_shape r c) l -> plane_shape r c (sum_planes r c l).
Proof.
  induction 1 as [|p l Hp Hl IH]; simpl.
  - apply zeros2_shape.
  - now apply (pop_shape Qplus).
Qed.

Lemma slice_Forall {A : Type} (P : A -> Prop) (l : list A) (a b : Z) :
  Forall P l -> Forall P (slice l a b).
Proof.
  intros H. unfold slice.
  set (lo := Z.to_nat (slice_bound (len l) a)).
  set (m := Z.to_nat (slice_bound (len l) b - slice_bound (len l) a)).
  rewrite <- (firstn_skipn lo l) in H. apply Forall_app in H.
  destruct H as [_ H].
  rewrite <- (firstn_skipn m (skipn lo l)) in H. apply Forall_app in H.
  tauto.
Qed.

Lemma wf3_planes {A : Type} (c : array3 A) :
  wf3 c <-> Forall (plane_shape (shape1 c) (shape2 c)) (planes c).
Proof. reflexivity. Qed.

Lemma nth_plane_shape (cube : array3 Q) (k : nat) :
  wf3 cube -> (k < length (planes cube))%nat ->
  plane_shape (shape1 cube) (shape2 cube) (nth k (planes cube) []).
Proof.
  intros W H. unfold wf3 in W.
  rewrite Forall_forall in W. apply W. now apply nth_In.
Qed.

Lemma numerator_plane_shape (cube : array3 Q) (b : box) :
  wf3 cube -> box_in_bounds b (length (planes cube)) ->
  plane_shape (shape1 cube) (shape2 cube) (numerator_plane cube b).
Proof.
  intros W (B1 & B2 & B3). unfold numerator_plane, psub.
  repeat apply (pop_shape Qminus).
  - apply sum_planes_shape. apply slice_Forall. exact W.
  - apply pscale_shape. apply nth_plane_shape; [exact W|lia].
  - apply pscale_shape. apply nth_plane_shape; [exact W|lia].
Qed.

(** A box-regime call on valid grids and a cube of the input grid's
    spectral extent returns a cube of the expected shape. *)
Lemma rebin_cube_1d_box_total (xout xin : list Q) (cube : array3 Q) :
  grid xout -> grid xin -> wf3 cube -> length (planes cube) = length xin ->
  select_regime xout xin = Ok BoxIntegration ->
  exists ps,
    mapM (fun i => b <- bin_box (in_i xout xin) (len xout) (len xin) i ;;
                   bin_plane cube b)
         (indices (length xout)) = Ok ps /\
    rebin_cube_1d xout xin cube = Ok (mkArray3 (shape1 cube) (shape2 cube) ps) /\
    length ps = length xout /\
    Forall (plane_shape (shape1 cube) (shape2 cube)) ps.
Proof.
  intros Go Gi W L R.
  rewrite (rebin_cube_1d_box xout xin cube R), (box_regime_edges xout xin Gi R).
  simpl bind.
  destruct (mapM_total
    (fun i => b <- bin_box (in_i xout xin) (len xout) (len xin) i ;;
              bin_plane cube b) (indices (length xout))) as [ps Hps].
  { intros i Hi. apply indices_In in Hi. destruct Hi as [k [Hk ->]].
    destruct (boxes_ok xout xin k Go Gi Hk) as [-> B]. simpl bind.
    rewrite (bin_plane_ok cube _ _ B L). eauto. }
  exists ps. rewrite Hps. simpl bind. split; [reflexivity|].
  split; [reflexivity|]. split.
  - apply mapM_length in Hps. now rewrite indices_length in Hps.
  - apply Forall_forall. intros p Hp.
    destruct (In_nth ps p [] Hp) as [k [Hk <-]].
    assert (Hk' : (k < length xout)%nat).
    { apply mapM_length in Hps. rewrite indices_length in Hps. lia. }
    pose proof (mapM_nth _ _ ps k 0%Z [] Hps) as N.
    rewrite indices_length, indices_nth in N by exact Hk'.
    specialize (N Hk').
    destruct (boxes_ok xout xin k Go Gi Hk') as [E B].
    rewrite E in N. simpl bind in N.
    rewrite (bin_plane_ok cube _ _ B L) in N. inversion N as [N'].
    apply pdiv_shape. apply numerator_plane_shape; [exact W|now rewrite L].
Qed.

(** ** The pixel loop of the cube interpolation regime *)

Lemma foldM_app {S A : Type} (f : S -> A -> res S) (l l' : list A) (s : S) :
  foldM f (l ++ l') s = bind (foldM f l s) (foldM f l').
Proof.
  revert s. induction l as [|a l IH]; intros s; simpl; [reflexivity|].
  destruct (f s a); simpl; [apply IH|reflexivity].
Qed.

Lemma foldM_map {S A B : Type} (f : S -> B -> res S) (g : A -> B)
      (l : list A) (s : S) :
  foldM f (map g l) s = foldM (fun s a => f s (g a)) l s.
Proof.
  revert s. induction l as [|a l IH]; intros s; simpl; [reflexivity|].
  destruct (f s (g a)); simpl; [apply IH|reflexivity].
Qed.

(** Two nested loops visit the pairs of indices in lexicographic order. *)
Lemma foldM_nested {S A B : Type} (f : S -> A -> B -> res S)
      (la : list A) (lb : list B) (s : S) :
  foldM (fun s a => foldM (fun s b => f s a b) lb s) la s
  = foldM (fun s p => f s (fst p) (snd p)) (list_prod la lb) s.
Proof.
  revert s. induction la as [|a la IH]; intros s; simpl; [reflexivity|].
  rewrite foldM_app, foldM_map. simpl.
  destruct (foldM (fun s b => f s a b) lb s); simpl; [apply IH|reflexivity].
Qed.

Lemma foldM_pure {S A : Type} (f : S -> A -> res S) (g : S -> A -> S)
      (l : list A) (s : S) :
  (forall s a, In a l -> f s a = Ok (g s a)) ->
  foldM f l s = Ok (fold_left g l s).
Proof.
  revert s. induction l as [|a l IH]; intros s H; simpl; [reflexivity|].
  rewrite H by now left. simpl. apply IH. intros s' a' Ha. apply H. now right.
Qed.

Lemma foldM_raise {S A : Type} (f : S -> A -> res S) (e : exn)
      (l : list A) (s : S) :
  l <> [] -> (forall s a, f s a = Raise e) -> foldM f l s = Raise e.
Proof.
  intros Ne H. destruct l as [|a l]; [congruence|]. simpl. now rewrite H.
Qed.

Lemma upd_nth_eq {A : Type} (l : list A) (k : nat) (v d : A) :
  (k < length l)%nat -> nth k (upd l k v) d = v.
Proof.
  revert k. induction l as [|a l IH]; intros k H; simpl in H; [lia|].
  destruct k; simpl; [reflexivity|]. apply IH. lia.
Qed.

Lemma upd_nth_neq {A : Type} (l : list A) (k k' : nat) (v d : A) :
  k <> k' -> nth k' (upd l k v) d = nth k' l d.
Proof.
  revert k k'. induction l as [|a l IH]; intros k k' H; [destruct k; reflexivity|].
  destruct k, k'; simpl; try reflexivity; try congruence.
  apply IH. congruence.
Qed.

Lemma set_pixel_shape {A : Type} (r c j i : nat) (p : plane A) (v : A) :
  plane_shape r c p -> plane_shape r c (set_pixel j i p v).
Proof.
  intros [L F]. unfold set_pixel. split; [now rewrite upd_length|].
  apply Forall_forall. intros row H.
  destruct (In_nth _ _ [] H) as [k [Hk <-]]. rewrite upd_length in Hk.
  rewrite Forall_forall in F.
  destruct (Nat.eq_dec j k) as [->|N].
  - rewrite upd_nth_eq by exact Hk. rewrite upd_length.
    apply F. now apply nth_In.
  - rewrite upd_nth_neq by exact N. apply F. now apply nth_In.
Qed.

Lemma set_pixel_same {A : Type} (r c j i : nat) (p : plane A) (v d : A) :
  plane_shape r c p -> (j < r)%nat -> (i < c)%nat ->
  nth i (nth j (set_pixel j i p v) []) d = v.
Proof.
  intros [L F] Hj Hi. unfold set_pixel.
  rewrite upd_nth_eq by lia. apply upd_nth_eq.
  rewrite Forall_forall in F. rewrite (F (nth j p [])); [exact Hi|].
  apply nth_In. lia.
Qed.

Lemma set_pixel_other {A : Type} (j i j' i' : nat) (p : plane A) (v d : A) :
  (j', i') <> (j, i) ->
  nth i' (nth j' (set_pixel j i p v) []) d = nth i' (nth j' p []) d.
Proof.
  intros N. unfold set_pixel.
  destruct (Nat.eq_dec j j') as [->|Nj].
  - destruct (Nat.lt_ge_cases j' (length p)) as [Lt|Ge].
    + rewrite upd_nth_eq by exact Lt. apply upd_nth_neq. congruence.
    + rewrite (nth_overflow (upd p j' _) []) by (rewrite upd_length; lia).
      now rewrite (nth_overflow p []) by lia.
  - now rewrite upd_nth_neq by exact Nj.
Qed.

Lemma set_column_map2 {A : Type} (ps : list (plane A)) (j i : nat) (vals : list A) :
  set_column ps j i vals = map2 (set_pixel j i) ps vals.
Proof. reflexivity. Qed.

Lemma set_column_shape {A : Type} (m r c j i : nat) (ps : list (plane A))
      (vals : list A) :
  stack_shape m r c ps -> length vals = m ->
  stack_shape m r c (set_column ps j i vals).
Proof.
  intros [L F] Lv. rewrite set_column_map2. split.
  - rewrite map2_length; congruence.
  - eapply map2_Forall with (Q' := fun _ => True); [|exact F|].
    + intros p v Hp _. now apply set_pixel_shape.
    + apply Forall_forall. trivial.
Qed.

Lemma column_nth {A : Type} (d : A) (ps : list (plane A)) (j i k : nat) :
  (k < length ps)%nat ->
  nth k (column d ps j i) d = nth i (nth j (nth k ps []) []) d.
Proof.
  intros H. unfold column.
  rewrite nth_indep with (d' := (fun p => nth i (nth j p []) d) [])
    by now rewrite length_map.
  apply (map_nth (fun p => nth i (nth j p []) d)).
Qed.

Lemma column_length {A : Type} (d : A) (ps : list (plane A)) (j i : nat) :
  length (column d ps j i) = length ps.
Proof. unfold column. apply length_map. Qed.

Lemma list_eq_nth {A : Type} (d : A) (l l' : list A) :
  length l = length l' ->
  (forall k, (k < length l)%nat -> nth k l d = nth k l' d) -> l = l'.
Proof.
  revert l'. induction l as [|a l IH]; intros [|b l'] L H; simpl in L;
    try discriminate; [reflexivity|].
  f_equal.
  - apply (H 0%nat). simpl. lia.
  - apply IH; [lia|]. intros k Hk. apply (H (S k)). simpl. lia.
Qed.

Lemma set_column_same {A : Type} (d : A) (m r c j i : nat) (ps : list (plane A))
      (vals : list A) :
  stack_shape m r c ps -> length vals = m -> (j < r)%nat -> (i < c)%nat ->
  column d (set_column ps j i vals) j i = vals.
Proof.
  intros [L F] Lv Hj Hi. apply (list_eq_nth d).
  - rewrite column_length, set_column_map2, map2_length; congruence.
  - intros k Hk.
    rewrite column_length, set_column_map2, map2_length in Hk by congruence.
    rewrite column_nth by (rewrite set_column_map2, map2_length; congruence).
    rewrite set_column_map2, (map2_nth (set_pixel j i) ps vals k [] d [])
      by congruence.
    apply (set_pixel_same r c); trivial.
    rewrite Forall_forall in F. apply F. now apply nth_In.
Qed.

Lemma set_column_other {A : Type} (d : A) (j i j' i' : nat) (ps : list (plane A))
      (vals : list A) :
  length vals = length ps -> (j', i') <> (j, i) ->
  column d (set_column ps j i vals) j' i' = column d ps j' i'.
Proof.
  intros Lv N. apply (list_eq_nth d).
  - rewrite !column_length, set_column_map2, map2_length; congruence.
  - intros k Hk.
    rewrite column_length, set_column_map2, map2_length in Hk by congruence.
    rewrite !column_nth by (try rewrite set_column_map2, map2_length; congruence).
    rewrite set_column_map2, (map2_nth (set_pixel j i) ps vals k [] d [])
      by congruence.
    now apply set_pixel_other.
Qed.

(** Writing the columns of distinct pixels one after the other leaves every
    visited pixel with its own column. *)
Lemma fill_columns {A : Type} (d : A) (m r c : nat) (F : nat -> nat -> list A)
      (todo : list (nat * nat)) (nc0 : list (plane A)) :
  NoDup todo ->
  (forall p, In p todo -> (snd p < r)%nat /\ (fst p < c)%nat) ->
  (forall j i, length (F j i) = m) ->
  stack_shape m r c nc0 ->
  let nc := fold_left
              (fun nc p => set_column nc (snd p) (fst p) (F (snd p) (fst p)))
              todo nc0 in
  stack_shape m r c nc /\
  (forall p, In p todo -> column d nc (snd p) (fst p) = F (snd p) (fst p)) /\
  (forall j i, ~ In (i, j) todo -> column d nc j i = column d nc0 j i).
Proof.
  intros ND. revert nc0.
  induction todo as [|q todo IH]; intros nc0 Hin HF Sh; simpl.
  - split; [exact Sh|]. split; [intros p []|reflexivity].
  - inversion ND as [|q' todo' Nq ND']. subst.
    assert (Sh' : stack_shape m r c
                    (set_column nc0 (snd q) (fst q) (F (snd q) (fst q)))).
    { apply set_column_shape; [exact Sh|apply HF]. }
    destruct (IH ND' _ (fun p Hp => Hin p (or_intror Hp)) HF Sh')
      as (S1 & S2 & S3).
    split; [exact S1|]. split.
    + intros p [->|Hp]; [|now apply S2].
      rewrite S3 by (destruct p; exact Nq).
      destruct (Hin p (or_introl eq_refl)) as [Hj Hi].
      now apply (set_column_same d m r c).
    + intros j i N. rewrite S3 by tauto.
      apply set_column_other.
      * rewrite HF. symmetry. apply Sh.
      * intros E. apply N. left. destruct q. simpl in *. congruence.
Qed.

Lemma rebin_cube_1d_interpolation (xout xin : list Q) (cube : array3 Q) :
  select_regime xout xin = Ok Interpolation ->
  length (planes cube) = length xin ->
  rebin_cube_1d xout xin cube
  = Ok (mkArray3 (shape1 cube) (shape2 cube) (interp_fill xout xin cube)).
Proof.
  intros R L. destruct (select_regime_inv _ _ _ R) as [S E].
  destruct (spacings_inv _ _ _ _ S) as (_ & Ne & _).
  unfold rebin_cube_1d. rewrite S. simpl bind.
  destruct (Qltb (dx_out xout) (dx_in xout xin)); [|discriminate].
  rewrite foldM_nested.
  rewrite (foldM_pure _
    (fun nc p => set_column nc (snd p) (fst p)
                   (interp_column xout xin cube (snd p) (fst p)))).
  - reflexivity.
  - intros nc p _. simpl.
    rewrite interp_arr_ok; [reflexivity|exact Ne|].
    now rewrite column_length.
Qed.

Lemma initial_stack_shape (m r c : nat) :
  stack_shape m r c (repeat (zeros2 (Finite 0) r c) m).
Proof.
  split; [apply repeat_length|]. apply Forall_forall.
  intros p H. apply repeat_spec in H. subst. apply zeros2_shape.
Qed.

Lemma pixel_list_spec (r c j i : nat) :
  In (i, j) (list_prod (seq 0 c) (seq 0 r)) <-> (j < r)%nat /\ (i < c)%nat.
Proof. rewrite in_prod_iff, !in_seq. lia. Qed.

Lemma list_prod_NoDup {A B : Type} (la : list A) (lb : list B) :
  NoDup la -> NoDup lb -> NoDup (list_prod la lb).
Proof.
  intros Ha Hb. induction Ha as [|a la Na Ha IH]; simpl; [constructor|].
  apply NoDup_app.
  - clear IH. induction Hb as [|b lb Nb Hb IHb]; simpl; constructor; trivial.
    intros H. apply in_map_iff in H. destruct H as [b' [E H]].
    inversion E. subst. contradiction.
  - exact IH.
  - intros [a' b'] H1 H2. apply in_map_iff in H1. destruct H1 as [b'' [E _]].
    inversion E. subst. apply in_prod_iff in H2. tauto.
Qed.

Lemma interp_fill_spec (xout xin : list Q) (cube : array3 Q) :
  stack_shape (length xout) (shape1 cube) (shape2 cube)
              (interp_fill xout xin cube) /\
  forall j i, (j < shape1 cube)%nat -> (i < shape2 cube)%nat ->
    column NonFinite (interp_fill xout xin cube) j i
    = interp_column xout xin cube j i.
Proof.
  destruct (fill_columns NonFinite (length xout) (shape1 cube) (shape2 cube)
              (interp_column xout xin cube)
              (list_prod (seq 0 (shape2 cube)) (seq 0 (shape1 cube)))
              (repeat (zeros2 (Finite 0) (shape1 cube) (shape2 cube)) (length xout)))
    as (S1 & S2 & _).
  - apply list_prod_NoDup; apply seq_NoDup.
  - intros [i j] H. now apply pixel_list_spec in H.
  - intros j i. unfold interp_column. now rewrite !length_map.
  - apply initial_stack_shape.
  - split; [exact S1|]. intros j i Hj Hi.
    apply (S2 (i, j)). now apply pixel_list_spec.
Qed.

(** ** Output shapes *)

Lemma stack_shape_wf3 {A : Type} (m r c : nat) (ps : list (plane A)) :
  stack_shape m r c ps -> wf3 (mkArray3 r c ps).
Proof. intros [_ F]. exact F. Qed.

Lemma rebin_cube_1d_shape (xout xin : list Q) (cube : array3 Q) :
  grid xout -> grid xin -> starts_inside xout xin ->
  wf3 cube -> length (planes cube) = length xin ->
  exists c, rebin_cube_1d xout xin cube = Ok c /\
            length (planes c) = length xout /\
            shape1 c = shape1 cube /\ shape2 c = shape2 cube /\ wf3 c.
Proof.
  intros Go Gi S W L. pose proof (select_regime_ok xout xin Go Gi S) as R.
  destruct (Qltb (dx_out xout) (dx_in xout xin)).
  - rewrite (rebin_cube_1d_interpolation xout xin cube R L).
    destruct (interp_fill_spec xout xin cube) as [[Sl Sf] _].
    eexists. split; [reflexivity|]. simpl. repeat split; trivial.
  - destruct (rebin_cube_1d_box_total xout xin cube Go Gi W L R)
      as (ps & _ & E & Lp & Fp).
    exists (mkArray3 (shape1 cube) (shape2 cube) ps).
    repeat split; trivial.
Qed.

(** X9. Shapes of the outputs, over exact rationals.  For strictly
    increasing grids of at least two points whose first output coordinate
    lies below the last input coordinate, [rebin1d] on a series of the input
    grid's length returns [len(xout)] values, and [rebin_cube_1d] on a cube
    of the input grid's spectral extent returns a cube of shape
    [(len(xout), cube.shape[1], cube.shape[2])], in both regimes.  In
    binary64 a first output coordinate within rounding of the last input
    coordinate makes both calls raise instead ([rounded_index_binary64]). *)
Theorem output_shapes (xout xin : list Q) :
  grid xout -> grid xin -> starts_inside xout xin ->
  (forall yin, length yin = length xin ->
     exists ys, rebin1d xout xin yin = Ok ys /\ length ys = length xout) /\
  (forall cube : array3 Q, wf3 cube -> length (planes cube) = length xin ->
     exists c, rebin_cube_1d xout xin cube = Ok c /\
               length (planes c) = length xout /\
               shape1 c = shape1 cube /\ shape2 c = shape2 cube /\ wf3 c).
Proof.
  intros Go Gi S. split.
  - intros yin L. now apply rebin1d_length.
  - intros cube W L. now apply rebin_cube_1d_shape.
Qed.

Lemma output_shapes_witness :
  (forall yin, length yin = 4%nat ->
     exists ys, rebin1d [0; 1 # 2; 1; 3 # 2] [0; 1; 2; 3] yin = Ok ys /\
                length ys = 4%nat) /\
  (forall cube : array3 Q, wf3 cube -> length (planes cube) = 4%nat ->
     exists c, rebin_cube_1d [0; 1 # 2; 1; 3 # 2] [0; 1; 2; 3] cube = Ok c /\
               length (planes c) = 4%nat /\
               shape1 c = shape1 cube /\ shape2 c = shape2 cube /\ wf3 c).
Proof.
  apply (output_shapes [0; 1 # 2; 1; 3 # 2] [0; 1; 2; 3]).
  - split; [reflexivity|simpl; lia].
  - split; [reflexivity|simpl; lia].
  - reflexivity.
Defined.

(** C7. The output of [rebin1d] should have [len(xout)] values for every
    valid input, but on these valid inputs there is no output: both grids are
    strictly increasing with two points, the output grid starts at the last
    input coordinate, [in0] is the last index and [xin[in0+1]] at line 41
    raises [IndexError]; [rebin_cube_1d] shares the line and raises too. *)
Theorem no_output_at_input_end :
  grid [1; 2] /\ grid [0; 1] /\ length [5; 6] = length [0; 1] /\
  rebin1d [1; 2] [0; 1] [5; 6] = Raise IndexError /\
  rebin_cube_1d [1; 2] [0; 1] (mkArray3 1 1 [[[5]]; [[6]]]) = Raise IndexError /\
  ~ exists ys, rebin1d [1; 2] [0; 1] [5; 6] = Ok ys /\ length ys = length [1; 2].
Proof.
  split; [split; [reflexivity|simpl; lia]|].
  split; [split; [reflexivity|simpl; lia]|].
  split; [reflexivity|]. split; [reflexivity|]. split; [reflexivity|].
  intros [ys [H _]]. vm_compute in H. discriminate.
Qed.

(** ** The cube rebinner, pixel by pixel *)

Lemma column_map {A : Type} (d : A) (ps : list (plane A)) (j i : nat) :
  column d ps j i = map (pixel d j i) ps.
Proof. reflexivity. Qed.

Lemma fnum_eq_refl (a : fnum) : fnum_eq a a.
Proof. destruct a; simpl; [apply Qeq_refl|exact I]. Qed.

Lemma list_eq_refl (l : list fnum) : list_eq l l.
Proof. induction l; constructor; [apply fnum_eq_refl|assumption]. Qed.

Lemma np_div_compat (a a' d : Q) : a == a' -> fnum_eq (np_div a d) (np_div a' d).
Proof.
  intros H. unfold np_div. destruct (Qeq_bool d 0); simpl; [exact I|].
  now rewrite H.
Qed.

Lemma getitem_map {A B : Type} (f : A -> B) (l : list A) (i : Z) :
  getitem (map f l) i = fmap f (getitem l i).
Proof.
  unfold getitem, len. rewrite length_map.
  destruct (_ && _); [|reflexivity].
  rewrite nth_error_map. destruct (nth_error l _); reflexivity.
Qed.

Lemma getitem_In {A : Type} (l : list A) (i : Z) (a : A) :
  getitem l i = Ok a -> In a l.
Proof.
  unfold getitem. destruct (_ && _); [|discriminate].
  destruct (nth_error l _) eqn:N; [|discriminate].
  intros H. inversion H. subst. eapply nth_error_In. exact N.
Qed.

Lemma slice_map {A B : Type} (f : A -> B) (l : list A) (a b : Z) :
  slice (map f l) a b = map f (slice l a b).
Proof.
  unfold slice, len. rewrite length_map. now rewrite skipn_map, firstn_map.
Qed.

Lemma firstn_skipn_range {A : Type} (d : A) (l : list A) (a m : nat) :
  (a + m <= length l)%nat ->
  firstn m (skipn a l) = map (fun k => nth k l d) (seq a m).
Proof.
  revert a. induction m as [|m IH]; intros a H; [reflexivity|].
  simpl seq. simpl map.
  destruct (skipn a l) as [|x r] eqn:E.
  - apply skipn_all_iff in E. lia.
  - simpl. f_equal.
    + pose proof (nth_skipn a l 0 d) as N. rewrite E in N. simpl in N.
      now rewrite Nat.add_0_r in N.
    + rewrite <- IH by lia. f_equal.
      replace (S a) with (1 + a)%nat by lia.
      now rewrite <- skipn_skipn, E.
Qed.

(** A slice with bounds inside the array is the run of its elements. *)
Lemma slice_range {A : Type} (d : A) (l : list A) (a b : Z) :
  (0 <= a <= b)%Z -> (b <= len l)%Z ->
  slice l a b = map (fun k => nth k l d) (seq (Z.to_nat a) (Z.to_nat (b - a))).
Proof.
  intros H1 H2. unfold slice, slice_bound.
  destruct (a <? 0)%Z eqn:Ea; [apply Z.ltb_lt in Ea; lia|].
  destruct (b <? 0)%Z eqn:Eb; [apply Z.ltb_lt in Eb; lia|].
  rewrite !Z.min_l by lia.
  apply firstn_skipn_range. unfold len in H2. lia.
Qed.

Section Pixel.

Variables (r c j i : nat).
Hypothesis Hj : (j < r)%nat.
Hypothesis Hi : (i < c)%nat.

Lemma nth_row (p : plane Q) : plane_shape r c p -> length (nth j p []) = c.
Proof.
  intros [L F]. rewrite Forall_forall in F. apply F. apply nth_In. lia.
Qed.

Lemma pixel_zeros : pixel 0 j i (zeros2 0 r c) = 0.
Proof.
  unfold pixel, zeros2, zeros1.
  rewrite (nth_indep _ [] (repeat 0 c)) by (rewrite repeat_length; lia).
  rewrite nth_repeat. apply nth_repeat.
Qed.

Lemma pixel_pop (f : Q -> Q -> Q) (p s : plane Q) :
  plane_shape r c p -> plane_shape r c s ->
  pixel 0 j i (map2 (map2 f) p s) = f (pixel 0 j i p) (pixel 0 j i s).
Proof.
  intros Hp Hs. unfold pixel.
  rewrite (map2_nth (map2 f) p s j [] [] [])
    by (destruct Hp, Hs; lia).
  apply map2_nth; rewrite nth_row; trivial.
Qed.

Lemma pixel_pscale (x : Q) (p : plane Q) :
  plane_shape r c p -> pixel 0 j i (pscale x p) = x * pixel 0 j i p.
Proof.
  intros Hp. unfold pixel, pscale, vscale.
  rewrite (nth_indep _ [] (map (Qmult x) []))
    by (rewrite length_map; destruct Hp; lia).
  rewrite (map_nth (map (Qmult x))).
  rewrite (nth_indep _ 0 (x * 0)) by (rewrite length_map, nth_row; trivial).
  apply (map_nth (Qmult x)).
Qed.

Lemma pixel_pdiv (x : Q) (p : plane Q) :
  plane_shape r c p ->
  pixel NonFinite j i (pdiv p x) = np_div (pixel 0 j i p) x.
Proof.
  intros Hp. unfold pixel, pdiv, vdiv.
  rewrite (nth_indep _ [] (map (fun a => np_div a x) []))
    by (rewrite length_map; destruct Hp; lia).
  rewrite (map_nth (map (fun a => np_div a x))).
  rewrite (nth_indep _ NonFinite (np_div 0 x))
    by (rewrite length_map, nth_row; trivial).
  apply (map_nth (fun a => np_div a x)).
Qed.

Lemma pixel_sum_planes (l : list (plane Q)) :
  Forall (plane_shape r c) l ->
  pixel 0 j i (sum_planes r c l) = np_sum (map (pixel 0 j i) l).
Proof.
  induction 1 as [|p l Hp Hl IH]; simpl.
  - apply pixel_zeros.
  - unfold padd, vadd. rewrite pixel_pop; trivial.
    + now rewrite IH.
    + now apply sum_planes_shape.
Qed.

End Pixel.

(** One bin of the cube at pixel [(j, i)] is the bin of [rebin1d] on the
    spectrum of that pixel. *)
Lemma bin_pixel (cube : array3 Q) (b : box) (j i : nat) :
  wf3 cube -> (j < shape1 cube)%nat -> (i < shape2 cube)%nat ->
  (istart b = istop b -> (0 <= istart b)%Z) ->
  res_eq fnum_eq
    (fmap (pixel NonFinite j i) (bin_plane cube b))
    (bin_value (column 0 (planes cube) j i) b).
Proof.
  intros W Hj Hi Hpos. unfold bin_plane, bin_value.
  rewrite column_map, !getitem_map, slice_map.
  destruct (getitem (planes cube) (istart b)) as [p1|e] eqn:E1.
  2:{ destruct (istart b =? istop b)%Z; reflexivity. }
  assert (S1 : plane_shape (shape1 cube) (shape2 cube) p1).
  { unfold wf3 in W. rewrite Forall_forall in W. apply W.
    eapply getitem_In. exact E1. }
  destruct (getitem (planes cube) (istop b)) as [p2|e] eqn:E2.
  2:{ destruct (istart b =? istop b)%Z eqn:E; simpl; [|reflexivity].
      apply Z.eqb_eq in E. rewrite E in E1. congruence. }
  assert (S2 : plane_shape (shape1 cube) (shape2 cube) p2).
  { unfold wf3 in W. rewrite Forall_forall in W. apply W.
    eapply getitem_In. exact E2. }
  assert (Ss : plane_shape (shape1 cube) (shape2 cube)
                 (sum_planes (shape1 cube) (shape2 cube)
                    (slice (planes cube) (istart b) (istop b + 1)))).
  { apply sum_planes_shape. now apply slice_Forall. }
  simpl.
  rewrite (pixel_pdiv (shape1 cube) (shape2 cube)); trivial.
  2:{ unfold psub. repeat apply (pop_shape Qminus); trivial;
      now apply pscale_shape. }
  unfold psub, vsub.
  rewrite !(pixel_pop (shape1 cube) (shape2 cube)); trivial;
    try (now apply pscale_shape);
    try (apply (pop_shape Qminus); trivial; now apply pscale_shape).
  rewrite !(pixel_pscale (shape1 cube) (shape2 cube)); trivial.
  rewrite (pixel_sum_planes (shape1 cube) (shape2 cube)); trivial.
  2:{ now apply slice_Forall. }
  destruct (istart b =? istop b)%Z eqn:E; simpl.
  - apply Z.eqb_eq in E. specialize (Hpos E).
    rewrite <- E in E2. rewrite E1 in E2. inversion E2. subst p2.
    destruct (getitem_inv (planes cube) (istart b) p1 [] E1 Hpos) as [Lt Ep].
    rewrite <- E.
    rewrite (@slice_range (plane Q) [] (planes cube) (istart b) (istart b + 1)) by lia.
    replace (istart b + 1 - istart b)%Z with 1%Z by lia. simpl.
    rewrite <- Ep. apply np_div_compat. ring.
  - apply fnum_eq_refl.
Qed.

Lemma mapM_pixel {A B B' : Type} (proj : B -> B') (R : B' -> B' -> Prop)
      (f : A -> res B) (g : A -> res B') (l : list A) :
  (forall a, In a l -> res_eq R (fmap proj (f a)) (g a)) ->
  res_eq (Forall2 R) (fmap (map proj) (mapM f l)) (mapM g l).
Proof.
  induction l as [|a l IH]; intros H; simpl; [constructor|].
  pose proof (H a (or_introl eq_refl)) as Ha.
  specialize (IH (fun a' Ha' => H a' (or_intror Ha'))).
  destruct (f a) as [v|e], (g a) as [v'|e']; simpl in Ha; try contradiction.
  - simpl.
    destruct (mapM f l) as [vs|e], (mapM g l) as [vs'|e']; simpl in *;
      try contradiction; trivial.
    now constructor.
  - exact Ha.
Qed.

Lemma edge_indices_nonneg (xout xin : list Q) (di do : Q) (ii : list Q) :
  edge_indices xout xin di do = Ok ii -> Forall (fun v => 0 <= v) ii.
Proof.
  unfold edge_indices, py_div, interp_arr, interp_check.
  destruct (Qeq_bool di 0); [discriminate|]. simpl bind.
  destruct (length xin =? 0)%nat eqn:En; [discriminate|].
  apply Nat.eqb_neq in En.
  assert (Ne : xin <> []) by (intros ->; apply En; reflexivity).
  rewrite range_length, Nat.eqb_refl. simpl bind. intros H. inversion H.
  apply Forall_map. apply Forall_forall. intros x _.
  apply (index_of_bounds xin Ne x). apply fidx_index_of. exact Ne.
Qed.

Lemma bin_box_istart_nonneg (ii : list Q) (no ni i : Z) (b : box) :
  Forall (fun v => 0 <= v) ii -> bin_box ii no ni i = Ok b ->
  (0 <= istart b)%Z.
Proof.
  intros F. unfold bin_box.
  destruct (getitem ii i) as [rs|] eqn:E; [|discriminate]. simpl bind.
  destruct (if (i <? no - 1)%Z then _ else _) as [re|]; [|discriminate].
  simpl bind. intros H. inversion H. simpl.
  apply py_int_nonneg. rewrite Forall_forall in F. apply F.
  eapply getitem_In. exact E.
Qed.

Lemma select_regime_raise (xout xin : list Q) (e : exn) :
  select_regime xout xin = Raise e -> spacings xout xin = Raise e.
Proof.
  unfold select_regime. destruct (spacings xout xin) as [[di do]|e'].
  - discriminate.
  - simpl. congruence.
Qed.

(** The spectrum of pixel [(j, i)] of the rebinned cube is [rebin1d] of the
    spectrum of that pixel of the input cube, exceptions included. *)
Lemma cube_pixel (xout xin : list Q) (cube : array3 Q) (j i : nat) :
  wf3 cube -> (j < shape1 cube)%nat -> (i < shape2 cube)%nat ->
  res_eq list_eq
    (fmap (fun c => column NonFinite (planes c) j i)
          (rebin_cube_1d xout xin cube))
    (rebin1d xout xin (column 0 (planes cube) j i)).
Proof.
  intros W Hj Hi. destruct (select_regime xout xin) as [[|]|e] eqn:R.
  - (* interpolation regime *)
    destruct (select_regime_inv _ _ _ R) as [S E].
    destruct (spacings_inv _ _ _ _ S) as (_ & Ne & _).
    destruct (Nat.eq_dec (length (planes cube)) (length xin)) as [L|L].
    + rewrite (rebin_cube_1d_interpolation xout xin cube R L).
      rewrite (rebin1d_interpolation_total xout xin _ Ne)
        by (trivial; now rewrite column_length).
      simpl. destruct (interp_fill_spec xout xin cube) as [_ C].
      rewrite C by trivial. apply list_eq_refl.
    + assert (V : forall j' i', interp_arr xout xin (column 0 (planes cube) j' i')
                                = Raise ValueError).
      { intros j' i'. unfold interp_arr, interp_check.
        destruct (length xin =? 0)%nat; [reflexivity|].
        rewrite column_length.
        replace (length (planes cube) =? length xin)%nat with false
          by (symmetry; now apply Nat.eqb_neq).
        reflexivity. }
      rewrite (rebin1d_interpolation xout xin _ R), V.
      unfold rebin_cube_1d. rewrite S. simpl bind.
      destruct (Qltb (dx_out xout) (dx_in xout xin)); [|discriminate].
      rewrite foldM_nested, (foldM_raise _ ValueError).
      * reflexivity.
      * intros N.
        assert (In (i, j) (list_prod (seq 0 (shape2 cube)) (seq 0 (shape1 cube))))
          by now apply pixel_list_spec.
        rewrite N in *. contradiction.
      * intros nc p. simpl. now rewrite V.
  - (* box regime *)
    rewrite (rebin_cube_1d_box xout xin cube R), (rebin1d_box xout xin _ R).
    destruct (edge_indices xout xin _ _) as [ii|e] eqn:E; [|reflexivity].
    simpl bind.
    pose proof (mapM_pixel (pixel NonFinite j i) fnum_eq
      (fun k => b <- bin_box ii (len xout) (len xin) k ;; bin_plane cube b)
      (fun k => b <- bin_box ii (len xout) (len xin) k ;;
                bin_value (column 0 (planes cube) j i) b)
      (indices (length xout))) as M.
    destruct (mapM (fun k => b <- bin_box ii (len xout) (len xin) k ;;
                             bin_plane cube b) (indices (length xout)));
      simpl in *; apply M; intros k _;
      (destruct (bin_box ii (len xout) (len xin) k) as [b|e'] eqn:B;
       [|reflexivity]); simpl bind;
      (apply bin_pixel; trivial; intros _;
       apply (bin_box_istart_nonneg ii _ _ _ b (edge_indices_nonneg _ _ _ _ _ E) B)).
  - apply select_regime_raise in R.
    unfold rebin_cube_1d, rebin1d. now rewrite R.
Qed.

(** C6 (amended). For every well-formed cube and every pair of grids,
    [rebin_cube_1d] computes at each spatial position [(row, col)] the real
    number [rebin1d] computes for the spectrum at that position: over exact
    rationals, same exception or same values.  In particular a cube whose
    spectrum is the same at every spatial position yields the [rebin1d]
    result of that spectrum at every spatial position.  In binary64 the
    values agree up to floating-point rounding only: [rebin1d] has a
    one-pixel branch that [rebin_cube_1d] does not have (section
    [Binary64]). *)
Theorem cube_is_pixelwise_rebin1d (xout xin : list Q) (cube : array3 Q) :
  wf3 cube ->
  (forall j i, (j < shape1 cube)%nat -> (i < shape2 cube)%nat ->
     res_eq list_eq
       (fmap (fun c => column NonFinite (planes c) j i)
             (rebin_cube_1d xout xin cube))
       (rebin1d xout xin (column 0 (planes cube) j i))) /\
  (forall spectrum,
     (forall j i, (j < shape1 cube)%nat -> (i < shape2 cube)%nat ->
                  column 0 (planes cube) j i = spectrum) ->
     forall j i, (j < shape1 cube)%nat -> (i < shape2 cube)%nat ->
       res_eq list_eq
         (fmap (fun c => column NonFinite (planes c) j i)
               (rebin_cube_1d xout xin cube))
         (rebin1d xout xin spectrum)).
Proof.
  intros W. split.
  - intros j i Hj Hi. now apply cube_pixel.
  - intros spectrum H j i Hj Hi. rewrite <- (H j i Hj Hi). now apply cube_pixel.
Qed.

Lemma cube_is_pixelwise_rebin1d_witness :
  res_eq list_eq
    (fmap (fun c => column NonFinite (planes c) 0 1)
          (rebin_cube_1d [0; 2; 4] [0; 1; 2; 3; 4]
             (mkArray3 2 2
                (map (fun v => [[v; v]; [v; v]]) [1; 2; 3; 4; 5]))))
    (rebin1d [0; 2; 4] [0; 1; 2; 3; 4] [1; 2; 3; 4; 5]).
Proof.
  apply (proj2 (cube_is_pixelwise_rebin1d [0; 2; 4] [0; 1; 2; 3; 4]
                  (mkArray3 2 2 (map (fun v => [[v; v]; [v; v]]) [1; 2; 3; 4; 5]))
                  ltac:(repeat constructor))).
  - intros [|[|j]] [|[|i]] Hj Hi; simpl in *; try lia; reflexivity.
  - simpl; lia.
  - simpl; lia.
Defined.

(** ** Weights of the box formula *)

Lemma np_sum_app (l l' : list Q) : np_sum (l ++ l') == np_sum l + np_sum l'.
Proof.
  induction l as [|a l IH]; simpl; [ring|]. rewrite IH. ring.
Qed.

Lemma np_sum_ext (f g : nat -> Q) (l : list nat) :
  (forall k, In k l -> f k == g k) -> np_sum (map f l) == np_sum (map g l).
Proof.
  induction l as [|a l IH]; intros H; simpl; [reflexivity|].
  rewrite (H a) by now left. rewrite IH; [reflexivity|].
  intros k Hk. apply H. now right.
Qed.

Lemma np_sum_ones (l : list nat) :
  np_sum (map (fun _ => 1) l) == inject_Z (Z.of_nat (length l)).
Proof.
  induction l as [|a l IH]; [reflexivity|].
  change (length (a :: l)) with (S (length l)).
  rewrite nat_succ_Q. simpl. rewrite IH. ring.
Qed.

Lemma seq_ends (a m : nat) :
  seq a (S (S m)) = a :: seq (S a) m ++ [S (a + m)].
Proof.
  simpl. f_equal. rewrite <- seq_S.
  replace (S a + m)%nat with (S (a + m)) by lia. reflexivity.
Qed.

(** Sum of a function weighted by the box weights, for the two ends [a] and
    [a + m + 1] of a run of pixels. *)
Lemma weighted_run (w y : nat -> Q) (a m : nat) (w1 w2 : Q) :
  w a == w1 -> w (S (a + m)) == w2 ->
  (forall k, (a < k < S (a + m))%nat -> w k == 1) ->
  np_sum (map (fun k => w k * y k) (seq a (S (S m))))
  == np_sum (map y (seq a (S (S m)))) - (1 - w1) * y a - (1 - w2) * y (S (a + m)).
Proof.
  intros Ha Hb Hm. rewrite seq_ends. simpl.
  rewrite !map_app, !np_sum_app. simpl.
  rewrite (np_sum_ext (fun k => w k * y k) y).
  - rewrite Ha, Hb. ring.
  - intros k Hk. apply in_seq in Hk. rewrite Hm by lia. ring.
Qed.

Lemma box_of_wide (ii : list Q) (nin k : nat) :
  edges_ok ii nin -> (0 < nin)%nat -> (k < length ii)%nat ->
  (py_int (rstop (box_of ii nin k)) <= Z.of_nat nin - 1)%Z ->
  (istart (box_of ii nin k) < istop (box_of ii nin k))%Z ->
  wide_box (box_of ii nin k) nin.
Proof.
  intros E Hn Hk Hc Hw.
  pose proof (box_of_rstart_nonneg ii nin k E Hk) as R0.
  pose proof (box_of_ordered ii nin k E Hk) as RO.
  pose proof (box_of_in_bounds ii nin k E Hn Hk) as B.
  set (b := box_of ii nin k) in *.
  assert (Is : istart b = py_int (rstart b)) by reflexivity.
  assert (It : istop b = py_int (rstop b)).
  { change (istop b) with (Z.min (py_int (rstop b)) (Z.of_nat nin - 1)). lia. }
  constructor; trivial.
  - rewrite Is. now apply py_int_le.
  - rewrite Is. now apply py_int_lt.
  - rewrite It. apply py_int_le. lra.
  - rewrite It. apply py_int_lt. lra.
Qed.

Section WideBox.

Variables (b : box) (nin : nat).
Hypothesis W : wide_box b nin.

Let a := Z.to_nat (istart b).
Let m := Z.to_nat (istop b - istart b - 1).

Lemma wide_pixels : pixels b = seq a (S (S m)).
Proof.
  destruct W as [(B1 & B2 & B3) Hw _ _ _ _]. unfold pixels, a, m.
  f_equal. lia.
Qed.

Lemma wide_stop : Z.to_nat (istop b) = S (a + m).
Proof.
  destruct W as [(B1 & B2 & B3) Hw _ _ _ _]. unfold a, m. lia.
Qed.

Lemma weight_first : weight b a = 1 - frac1 b.
Proof. unfold weight. fold a. now rewrite Nat.eqb_refl. Qed.

Lemma weight_last : weight b (S (a + m)) = 1 - frac2 b.
Proof.
  unfold weight. fold a. rewrite wide_stop.
  replace (S (a + m) =? a)%nat with false by (symmetry; apply Nat.eqb_neq; lia).
  now rewrite Nat.eqb_refl.
Qed.

Lemma weight_inner (k : nat) : (a < k < S (a + m))%nat -> weight b k = 1.
Proof.
  intros H. unfold weight. fold a. rewrite wide_stop.
  replace (k =? a)%nat with false by (symmetry; apply Nat.eqb_neq; lia).
  replace (k =? S (a + m))%nat with false by (symmetry; apply Nat.eqb_neq; lia).
  reflexivity.
Qed.

Lemma span_Q :
  inject_Z (Z.of_nat (S (S m))) == inject_Z (istop b) - inject_Z (istart b) + 1.
Proof.
  destruct W as [(B1 & B2 & B3) Hw _ _ _ _]. unfold m.
  replace (Z.of_nat (S (S (Z.to_nat (istop b - istart b - 1)))))
    with (istop b - istart b + 1)%Z by lia.
  rewrite inject_Z_plus. unfold Z.sub. rewrite inject_Z_plus, inject_Z_opp.
  change (inject_Z 1) with 1. ring.
Qed.

(** The weights add up to the width of the box. *)
Lemma weights_sum : np_sum (map (weight b) (pixels b)) == rstop b - rstart b.
Proof.
  rewrite wide_pixels.
  rewrite (np_sum_ext (weight b) (fun k => weight b k * (fun _ => 1) k))
    by (intros; ring).
  rewrite (weighted_run (weight b) (fun _ => 1) a m (1 - frac1 b) (1 - frac2 b)).
  - rewrite np_sum_ones, length_seq, span_Q. unfold frac1, frac2. ring.
  - now rewrite weight_first.
  - now rewrite weight_last.
  - intros k Hk. now rewrite weight_inner.
Qed.

(** Line 77 is the weighted sum of the pixels of the box. *)
Lemma numerator_weighted (yin : list Q) :
  length yin = nin -> numerator yin b == weighted_sum yin b.
Proof.
  intros L. destruct W as [(B1 & B2 & B3) Hw _ _ _ _].
  unfold numerator, weighted_sum.
  replace (istart b =? istop b)%Z with false by (symmetry; apply Z.eqb_neq; lia).
  rewrite (slice_range 0 yin) by (unfold len; lia).
  replace (Z.to_nat (istop b + 1 - istart b)) with (S (S m)) by (unfold m; lia).
  fold a. rewrite wide_pixels, wide_stop.
  rewrite (weighted_run (weight b) (fun k => nth k yin 0) a m
             (1 - frac1 b) (1 - frac2 b)).
  - ring.
  - now rewrite weight_first.
  - now rewrite weight_last.
  - intros k Hk. now rewrite weight_inner.
Qed.

(** Each weight is the length of the pixel's part inside the box. *)
Lemma weight_overlap (k : nat) :
  In k (pixels b) ->
  weight b k == overlap b k /\ 0 <= weight b k /\ weight b k <= 1.
Proof.
  destruct W as [(B1 & B2 & B3) Hw S1 S2 T1 T2].
  rewrite wide_pixels. intros H. apply in_seq in H.
  assert (Ia : inject_Z (Z.of_nat a) == inject_Z (istart b))
    by (unfold a; rewrite Z2Nat.id by lia; reflexivity).
  assert (Ib : inject_Z (Z.of_nat (S (a + m))) == inject_Z (istop b))
    by (rewrite <- wide_stop, Z2Nat.id by lia; reflexivity).
  assert (Iab : inject_Z (Z.of_nat a) + 1 <= inject_Z (Z.of_nat (S (a + m)))).
  { rewrite <- nat_succ_Q. apply nat_le_Q. lia. }
  unfold overlap.
  destruct (Nat.eq_dec k a) as [->|Na].
  - rewrite weight_first. unfold frac1.
    rewrite Q.min_l by lra. rewrite Q.max_r by lra.
    split; [lra|]. split; lra.
  - destruct (Nat.eq_dec k (S (a + m))) as [->|Nb].
    + rewrite weight_last. unfold frac2.
      rewrite Q.min_r by lra. rewrite Q.max_l by lra.
      split; [lra|]. split; lra.
    + rewrite weight_inner by lia.
      assert (K1 : inject_Z (Z.of_nat a) + 1 <= inject_Z (Z.of_nat k)).
      { rewrite <- nat_succ_Q. apply nat_le_Q. lia. }
      assert (K2 : inject_Z (Z.of_nat k) + 1 <= inject_Z (Z.of_nat (S (a + m)))).
      { rewrite <- nat_succ_Q. apply nat_le_Q. lia. }
      rewrite Q.min_l by lra. rewrite Q.max_l by lra.
      split; [ring|]. split; lra.
Qed.

Lemma wide_positive : 0 < rstop b - rstart b.
Proof.
  destruct W as [(B1 & B2 & B3) Hw S1 S2 T1 T2].
  assert (inject_Z (istart b) + 1 <= inject_Z (istop b)).
  { change 1 with (inject_Z 1). rewrite <- inject_Z_plus.
    rewrite <- Zle_Qle. lia. }
  lra.
Qed.

End WideBox.

Lemma np_div_finite (x d : Q) :
  ~ d == 0 -> exists v, np_div x d = Finite v /\ v * d == x.
Proof.
  intros N. unfold np_div.
  destruct (Qeq_bool d 0) eqn:E; [apply Qeq_bool_iff in E; contradiction|].
  exists (x / d). split; [reflexivity|]. field. exact N.
Qed.

(** C1. In the box regime, for an output bin whose [istop] is not clamped
    and with [istart < istop], the weights of line 77 ([1 - frac1] at
    [istart], [1 - frac2] at [istop], [1] in between) add up to the width
    [rstop - rstart] of the bin; each weight is the length of the part of its
    input pixel inside [[rstart, rstop]], between 0 and 1; and the output of
    the bin times [rstop - rstart] is the sum of the input values with these
    weights. *)
Theorem box_weights_partition
        (xout xin yin : list Q) (di do : Q) (ii : list Q) (k : nat) (b : box) :
  grid xout -> grid xin -> length yin = length xin ->
  spacings xout xin = Ok (di, do) -> Qltb do di = false ->
  edge_indices xout xin di do = Ok ii ->
  (k < length xout)%nat ->
  bin_box ii (len xout) (len xin) (Z.of_nat k) = Ok b ->
  (py_int (rstop b) <= len xin - 1)%Z ->
  (istart b < istop b)%Z ->
  np_sum (map (weight b) (pixels b)) == rstop b - rstart b /\
  (forall p, In p (pixels b) ->
     weight b p == overlap b p /\ 0 <= weight b p /\ weight b p <= 1) /\
  exists ys v,
    rebin1d xout xin yin = Ok ys /\
    nth k ys NonFinite = Finite v /\
    v * (rstop b - rstart b) == weighted_sum yin b.
Proof.
  intros Go Gi L S Rg E Hk B Hc Hw.
  destruct (spacings_inv _ _ _ _ S) as (_ & Ne & B1 & B2 & -> & ->).
  assert (R : select_regime xout xin = Ok BoxIntegration).
  { unfold select_regime. rewrite S. simpl. now rewrite Rg. }
  rewrite (box_regime_edges xout xin Gi R) in E. inversion E. subst ii.
  destruct (boxes_ok xout xin k Go Gi Hk) as [B' Bb].
  rewrite B' in B. inversion B as [Eb]. clear B. subst b.
  set (b := box_of (in_i xout xin) (length xin) k) in *.
  assert (W : wide_box b (length xin)).
  { apply box_of_wide; trivial.
    - apply in_i_edges_ok; [exact Gi|apply Go].
    - destruct Gi. lia.
    - now rewrite in_i_length. }
  split; [now apply (weights_sum b (length xin))|].
  split; [now apply (weight_overlap b (length xin))|].
  destruct (rebin1d_box_total xout xin yin Go Gi L R) as [Er [ys Hys]].
  pose proof (wide_positive b (length xin) W) as P.
  destruct (np_div_finite (numerator yin b) (rstop b - rstart b)) as [v [Ev Hv]];
    [lra|].
  exists ys, v. split; [exact Hys|]. split.
  - rewrite Er in Hys.
    pose proof (mapM_nth _ _ ys k 0%Z NonFinite Hys) as N.
    rewrite indices_length, indices_nth in N by exact Hk.
    specialize (N Hk). rewrite B' in N. simpl bind in N.
    rewrite (bin_value_ok yin _ (length xin) Bb L), Ev in N.
    now inversion N.
  - rewrite Hv. now apply (numerator_weighted b (length xin)).
Qed.

Lemma box_weights_partition_witness :
  np_sum (map (weight (mkBox 1 3 1 3)) (pixels (mkBox 1 3 1 3))) == 3 - 1 /\
  exists ys v,
    rebin1d [0; 2; 4] [0; 1; 2; 3; 4] [1; 2; 3; 4; 5] = Ok ys /\
    nth 1 ys NonFinite = Finite v /\
    v * (3 - 1) == weighted_sum [1; 2; 3; 4; 5] (mkBox 1 3 1 3).
Proof.
  destruct (box_weights_partition [0; 2; 4] [0; 1; 2; 3; 4] [1; 2; 3; 4; 5]
              1 2 [0; 1; 3] 1 (mkBox 1 3 1 3)) as (A & _ & C).
  - split; [reflexivity|simpl; lia].
  - split; [reflexivity|simpl; lia].
  - reflexivity.
  - reflexivity.
  - reflexivity.
  - reflexivity.
  - simpl; lia.
  - reflexivity.
  - vm_compute. discriminate.
  - reflexivity.
  - exact (conj A C).
Defined.

(** ** Rebinning onto the input grid itself *)

Section SameGrid.

Variable xin : list Q.
Hypothesis G : grid xin.

Let n := length xin.
Let d := dx_out xin.

Lemma sg_nonempty : xin <> [].
Proof. apply grid_nonempty. exact G. Qed.

(** A coordinate inside cell [j] has its fractional index inside
    [[j, j+1)]. *)
Lemma index_in_cell (x v : Q) (j : nat) :
  index_of xin x v -> (S j < n)%nat ->
  nth j xin 0 <= x -> x < nth (S j) xin 0 ->
  inject_Z (Z.of_nat j) <= v /\ v < inject_Z (Z.of_nat j) + 1.
Proof.
  destruct G as [I Ln]. fold n in Ln.
  intros [L E | R E | j' Hj' Lo' Hi' E] Hj Lo Hi.
  - exfalso.
    pose proof (increasing_nth_le xin 0 j I ltac:(fold n; lia)). lra.
  - exfalso. fold n in R.
    pose proof (increasing_nth_le xin (S j) (n - 1) I ltac:(fold n; lia)). lra.
  - fold n in Hj'.
    assert (j' = j).
    { assert (nth j' xin 0 < nth (S j) xin 0) by lra.
      assert (nth j xin 0 < nth (S j') xin 0) by lra.
      pose proof (increasing_index_lt xin j' (S j) I ltac:(fold n; lia)
                    ltac:(fold n; lia) ltac:(assumption)).
      pose proof (increasing_index_lt xin j (S j') I ltac:(fold n; lia)
                    ltac:(fold n; lia) ltac:(assumption)).
      lia. }
    subst j'. apply (inside_form xin j x v Hj Lo Hi) in E.
    apply (inside_bounds xin j x v Lo Hi E).
Qed.

Lemma index_left (x v : Q) : index_of xin x v -> x < nth 0 xin 0 -> v == 0.
Proof.
  destruct G as [I Ln]. fold n in Ln.
  intros [L E | R E | j' Hj' Lo' Hi' E] Hx.
  - rewrite E. rewrite range_nth by lia. reflexivity.
  - exfalso. fold n in R.
    pose proof (increasing_nth_le xin 0 (n - 1) I ltac:(fold n; lia)). lra.
  - exfalso.
    pose proof (increasing_nth_le xin 0 j' I ltac:(lia)). lra.
Qed.

Lemma sg_starts_inside : starts_inside xin xin.
Proof.
  destruct G as [I Ln]. unfold starts_inside. apply Qltb_lt.
  rewrite last_nth. apply increasing_nth; [exact I|lia].
Qed.

Lemma sg_first_cell : nth 0 xin 0 < nth 1 xin 0.
Proof. destruct G as [I Ln]. apply increasing_nth; [exact I|lia]. Qed.

Lemma sg_in0 : in0 xin xin = 0%Z.
Proof.
  destruct G as [I Ln]. unfold in0.
  pose proof (fidx_index_of xin sg_nonempty (nth 0 xin 0)) as H.
  destruct (index_in_cell _ _ 0 H ltac:(fold n; lia) (Qle_refl _) sg_first_cell).
  apply py_int_unique; [lia|assumption|assumption].
Qed.

(** Identical grids have identical spacings: the box regime is chosen. *)
Lemma sg_regime : select_regime xin xin = Ok BoxIntegration.
Proof.
  rewrite (select_regime_ok xin xin G G sg_starts_inside).
  replace (Qltb (dx_out xin) (dx_in xin xin)) with false; [reflexivity|].
  symmetry. apply Qltb_ge. unfold dx_in, dx_out. rewrite sg_in0. simpl.
  apply Qle_refl.
Qed.

Lemma sg_d_pos : 0 < d.
Proof. apply dx_out_pos. exact G. Qed.

(** The left edge of bin [k >= 1] lies strictly inside the grid. *)
Lemma sg_edge_inside (k : nat) :
  (1 <= k < n)%nat ->
  nth 0 xin 0 < nth k xin 0 - d * (1 # 2) /\
  nth k xin 0 - d * (1 # 2) < nth (n - 1) xin 0.
Proof.
  intros Hk. destruct G as [I Ln]. pose proof sg_d_pos as P.
  pose proof (increasing_nth_le xin 1 k I ltac:(lia)).
  pose proof (increasing_nth_le xin k (n - 1) I ltac:(fold n; lia)).
  unfold d, dx_out in *. split; lra.
Qed.

Lemma sg_edges_strict (j k : nat) :
  (j < k < n)%nat -> nth j (in_i xin xin) 0 < nth k (in_i xin xin) 0.
Proof.
  intros H. destruct G as [I Ln]. fold n in Ln.
  rewrite !in_i_nth by (fold n; lia). fold d.
  pose proof (fidx_index_of xin sg_nonempty) as F.
  destruct (sg_edge_inside k ltac:(lia)) as [K1 K2].
  destruct j as [|j].
  - apply Qle_lt_trans with (fidx xin (nth 0 xin 0)).
    + apply (index_of_mono xin I sg_nonempty _ _ _ _ (F _) (F _)).
      pose proof sg_d_pos. lra.
    + apply (index_of_strict xin I sg_nonempty _ _ _ _ (F _) (F _));
        [apply Qle_refl|lra|fold n; lra].
  - destruct (sg_edge_inside (S j) ltac:(lia)) as [J1 J2].
    apply (index_of_strict xin I sg_nonempty _ _ _ _ (F _) (F _));
      [lra| |fold n; lra].
    pose proof (increasing_nth xin (S j) k I ltac:(fold n; lia)). lra.
Qed.

(** Every bin has a positive width. *)
Lemma sg_width (k : nat) :
  (k < n)%nat ->
  0 < rstop (box_of (in_i xin xin) n k) - rstart (box_of (in_i xin xin) n k).
Proof.
  intros Hk. destruct G as [I Ln]. fold n in Ln. simpl.
  rewrite in_i_length. fold n.
  destruct (S k <? n)%nat eqn:E.
  - apply Nat.ltb_lt in E.
    pose proof (sg_edges_strict k (S k) ltac:(lia)). lra.
  - apply Nat.ltb_ge in E.
    pose proof (sg_edges_strict (k - 1) k ltac:(lia)). lra.
Qed.

(** The first bin lies inside input pixel 0. *)
Lemma sg_first_box :
  istart (box_of (in_i xin xin) n 0) = 0%Z /\
  istop (box_of (in_i xin xin) n 0) = 0%Z.
Proof.
  destruct G as [I Ln]. fold n in Ln.
  pose proof (fidx_index_of xin sg_nonempty) as F.
  pose proof sg_d_pos as P. pose proof sg_first_cell as C.
  assert (E0 : py_int (nth 0 (in_i xin xin) 0) = 0%Z).
  { rewrite in_i_nth by (fold n; lia). fold d.
    assert (V : fidx xin (nth 0 xin 0 - d * (1 # 2)) == 0)
      by (apply (index_left (nth 0 xin 0 - d * (1 # 2))); [apply F|lra]).
    apply py_int_unique; [lia| |]; rewrite V; change (inject_Z 0) with 0; lra. }
  assert (E1 : py_int (nth 1 (in_i xin xin) 0) = 0%Z).
  { rewrite in_i_nth by (fold n; lia). fold d.
    destruct (index_in_cell _ _ 0 (F (nth 1 xin 0 - d * (1 # 2)))
                ltac:(lia)) as [V1 V2];
      [unfold d, dx_out; lra|unfold d, dx_out; lra|].
    apply py_int_unique; [lia|exact V1|exact V2]. }
  unfold box_of. simpl istart. simpl istop. rewrite in_i_length. fold n.
  replace (1 <? n)%nat with true by (symmetry; apply Nat.ltb_lt; lia).
  rewrite E0, E1. split; [reflexivity|lia].
Qed.

End SameGrid.

Lemma np_sum_const (c : Q) (l : list nat) :
  np_sum (map (fun _ => c) l) == c * inject_Z (Z.of_nat (length l)).
Proof.
  induction l as [|a l IH]; [simpl; ring|].
  change (length (a :: l)) with (S (length l)).
  rewrite nat_succ_Q. simpl. rewrite IH. ring.
Qed.

(** A bin inside one input pixel returns that pixel's value times the
    width. *)
Lemma numerator_single (yin : list Q) (b : box) :
  istart b = istop b ->
  numerator yin b == (rstop b - rstart b) * nth (Z.to_nat (istart b)) yin 0.
Proof.
  intros H. unfold numerator, frac1, frac2. rewrite <- H, Z.eqb_refl. ring.
Qed.

(** On a constant series the numerator is the constant times the width. *)
Lemma numerator_constant (yin : list Q) (b : box) (nin : nat) (c : Q) :
  box_in_bounds b nin -> length yin = nin ->
  (forall k, (k < nin)%nat -> nth k yin 0 == c) ->
  numerator yin b == c * (rstop b - rstart b).
Proof.
  intros (B1 & B2 & B3) L H.
  destruct (Z.eq_dec (istart b) (istop b)) as [E|N].
  - rewrite (numerator_single yin b E), H by lia. ring.
  - unfold numerator.
    replace (istart b =? istop b)%Z with false by (symmetry; now apply Z.eqb_neq).
    rewrite (slice_range 0 yin) by (unfold len; lia).
    rewrite (np_sum_ext (fun k => nth k yin 0) (fun _ => c)).
    2:{ intros k Hk. apply in_seq in Hk. apply H. lia. }
    rewrite np_sum_const, length_seq, !H by lia.
    replace (istop b + 1 - istart b)%Z with ((istop b + 1) + - istart b)%Z by lia.
    rewrite Z2Nat.id by lia.
    rewrite !inject_Z_plus, inject_Z_opp. change (inject_Z 1) with 1.
    unfold frac1, frac2. ring.
Qed.

(** The value of bin [k] of a box-regime call. *)
Lemma rebin1d_box_nth (xout xin yin : list Q) (ys : list fnum) (k : nat) :
  grid xout -> grid xin -> length yin = length xin ->
  select_regime xout xin = Ok BoxIntegration ->
  rebin1d xout xin yin = Ok ys -> (k < length xout)%nat ->
  nth k ys NonFinite =
  np_div (numerator yin (box_of (in_i xout xin) (length xin) k))
         (rstop (box_of (in_i xout xin) (length xin) k)
          - rstart (box_of (in_i xout xin) (length xin) k)).
Proof.
  intros Go Gi L R Hys Hk.
  destruct (rebin1d_box_total xout xin yin Go Gi L R) as [Er _].
  rewrite Er in Hys.
  pose proof (mapM_nth _ _ ys k 0%Z NonFinite Hys) as N.
  rewrite indices_length, indices_nth in N by exact Hk.
  specialize (N Hk).
  destruct (boxes_ok xout xin k Go Gi Hk) as [B' Bb].
  rewrite B' in N. simpl bind in N.
  rewrite (bin_value_ok yin _ (length xin) Bb L) in N.
  now inversion N.
Qed.

(** C2 (amended). Rebinning a series onto its own strictly increasing grid
    of at least two points always takes the box-integration regime (the two
    spacings are equal, so the interpolation regime is never chosen); the
    result has the length of the grid and, up to floating-point rounding,
    its first value is the first input value and a constant series is
    returned unchanged.  The two equalities are proved over exact rationals;
    [own_grid_binary64] shows the last digit they can miss in binary64. *)
Theorem rebin_on_own_grid (xin yin : list Q) :
  grid xin -> length yin = length xin ->
  select_regime xin xin = Ok BoxIntegration /\
  exists ys,
    rebin1d xin xin yin = Ok ys /\ length ys = length xin /\
    fnum_eq (nth 0 ys NonFinite) (Finite (nth 0 yin 0)) /\
    forall c, (forall k, (k < length yin)%nat -> nth k yin 0 == c) ->
              forall k, (k < length xin)%nat ->
                        fnum_eq (nth k ys NonFinite) (Finite c).
Proof.
  intros G L. pose proof (sg_regime xin G) as R. split; [exact R|].
  destruct (rebin1d_length xin xin yin G G (sg_starts_inside xin G) L)
    as [ys [Hys Ly]].
  exists ys. split; [exact Hys|]. split; [exact Ly|].
  assert (V : forall k x, (k < length xin)%nat ->
            numerator yin (box_of (in_i xin xin) (length xin) k)
            == x * (rstop (box_of (in_i xin xin) (length xin) k)
                    - rstart (box_of (in_i xin xin) (length xin) k)) ->
            fnum_eq (nth k ys NonFinite) (Finite x)).
  { intros k x Hk Hn.
    rewrite (rebin1d_box_nth xin xin yin ys k G G L R Hys Hk).
    pose proof (sg_width xin G k Hk) as P.
    destruct (np_div_finite
                (numerator yin (box_of (in_i xin xin) (length xin) k))
                (rstop (box_of (in_i xin xin) (length xin) k)
                 - rstart (box_of (in_i xin xin) (length xin) k)))
      as [v [Ev Hv]]; [lra|].
    rewrite Ev. simpl. rewrite Hn in Hv.
    apply Qmult_inj_r in Hv; [exact Hv|lra]. }
  split.
  - destruct G as [I Ln]. apply V; [lia|].
    destruct (sg_first_box xin (conj I Ln)) as [Es Et].
    rewrite numerator_single by congruence. rewrite Es. simpl. ring.
  - intros c Hc k Hk. apply V; [exact Hk|].
    destruct (boxes_ok xin xin k G G Hk) as [_ Bb].
    apply (numerator_constant yin _ (length xin) c Bb L).
    intros j Hj. apply Hc. lia.
Qed.

Lemma rebin_on_own_grid_witness :
  select_regime [0; 1; 3] [0; 1; 3] = Ok BoxIntegration /\
  exists ys,
    rebin1d [0; 1; 3] [0; 1; 3] [7; 7; 7] = Ok ys /\ length ys = 3%nat /\
    fnum_eq (nth 0 ys NonFinite) (Finite 7) /\
    forall c, (forall k, (k < 3)%nat -> nth k [7; 7; 7] 0 == c) ->
              forall k, (k < 3)%nat -> fnum_eq (nth k ys NonFinite) (Finite c).
Proof.
  apply (rebin_on_own_grid [0; 1; 3] [7; 7; 7]).
  - split; [reflexivity|simpl; lia].
  - reflexivity.
Defined.

(** C2 as stated fails: on a uniform grid of three points the values
    [1, 2, 4] come back as [1, 3/2, 3]. *)
Lemma rebin_on_own_grid_counterexample :
  grid [0; 1; 2] /\ length [1; 2; 4] = length [0; 1; 2] /\
  res_eq list_eq (rebin1d [0; 1; 2] [0; 1; 2] [1; 2; 4])
                 (Ok [Finite 1; Finite (3 # 2); Finite 3]) /\
  ~ res_eq list_eq (rebin1d [0; 1; 2] [0; 1; 2] [1; 2; 4])
                   (Ok (map Finite [1; 2; 4])).
Proof.
  split; [split; [reflexivity|simpl; lia]|]. split; [reflexivity|].
  split; [vm_compute; repeat constructor|].
  vm_compute. intros H. inversion H as [|? ? ? ? _ H']. subst.
  inversion H' as [|? ? ? ? H'' _]. subst.
  vm_compute in H''. discriminate.
Qed.

(** ** Regime selection and the two formulas *)

Lemma box_formula_is_spec (ii yin : list Q) (nin k : nat) :
  edges_ok ii nin -> (0 < nin)%nat -> (k < length ii)%nat -> length yin = nin ->
  np_div (numerator yin (box_of ii nin k))
         (rstop (box_of ii nin k) - rstart (box_of ii nin k))
  = spec_box_value ii nin yin k.
Proof.
  intros E Hn Hk L.
  pose proof (box_of_rstart_nonneg ii nin k E Hk) as R0.
  pose proof (box_of_ordered ii nin k E Hk) as RO.
  destruct (box_of_in_bounds ii nin k E Hn Hk) as (B1 & B2 & B3).
  unfold numerator, spec_box_value, frac1, frac2.
  rewrite (slice_range 0 yin) by (unfold len; lia).
  cbn [rstart rstop istart istop box_of] in *.
  set (rs := nth k ii 0) in *.
  set (re := if (S k <? length ii)%nat then nth (S k) ii 0
             else rs + (rs - nth (k - 1) ii 0)) in *.
  rewrite <- !py_int_floor by lra.
  replace (Z.min (py_int re) (Z.of_nat nin - 1) + 1 - py_int rs)%Z
    with (Z.min (py_int re) (Z.of_nat nin - 1) - py_int rs + 1)%Z by lia.
  destruct (py_int rs =? Z.min (py_int re) (Z.of_nat nin - 1))%Z; reflexivity.
Qed.

(** The index [in0] brackets the first output coordinate. *)
Lemma in0_brackets (xout xin : list Q) :
  grid xin -> starts_inside xout xin ->
  (S (Z.to_nat (in0 xout xin)) < length xin)%nat /\
  (nth 0 xout 0 < nth 0 xin 0 /\ in0 xout xin = 0%Z \/
   nth (Z.to_nat (in0 xout xin)) xin 0 <= nth 0 xout 0 /\
   nth 0 xout 0 < nth (S (Z.to_nat (in0 xout xin))) xin 0).
Proof.
  intros G S. destruct (in0_bounds xout xin G S) as [B1 B2].
  unfold len in B2. split; [lia|].
  pose proof (fidx_index_of xin (grid_nonempty xin G) (nth 0 xout 0)) as H.
  unfold starts_inside in S. apply Qltb_lt in S. rewrite last_nth in S.
  destruct (Qlt_le_dec (nth 0 xout 0) (nth 0 xin 0)) as [Lt|Ge].
  - left. split; [exact Lt|]. unfold in0.
    pose proof (index_left xin G _ _ H Lt) as V.
    apply py_int_unique; [lia| |]; rewrite V; change (inject_Z 0) with 0; lra.
  - right. destruct H as [L E | R E | j Hj Lo Hi E]; [lra|lra|].
    pose proof (index_in_cell xin G _ (fidx xin (nth 0 xout 0)) j
                  (li_inside xin _ _ _ j Hj Lo Hi E) Hj Lo Hi) as [V1 V2].
    assert (in0 xout xin = Z.of_nat j) as ->
      by (apply py_int_unique; [lia|exact V1|exact V2]).
    rewrite Nat2Z.id. split; assumption.
Qed.

(** X8. Regime selection, over exact rationals (in binary64 a first output
    coordinate within rounding of the last input coordinate gets the last
    index and line 41 raises, [rounded_index_binary64]).  For strictly
    increasing grids of at least two points whose first output coordinate
    lies below the last input coordinate, and
    a series of the input grid's length: the regime is chosen by comparing the
    first output spacing with the input spacing at the index [j0] that
    brackets the first output coordinate ([j0 = 0] left of the grid).  When
    the output spacing is strictly smaller every output value is the
    clamped linear interpolation of the series at its output coordinate;
    otherwise every output value is given by the box formula applied to the
    fractional indices of the left bin edges. *)
Theorem regime_selection (xout xin yin : list Q) :
  grid xout -> grid xin -> length yin = length xin ->
  starts_inside xout xin ->
  exists j0 : nat,
    (S j0 < length xin)%nat /\
    (nth 0 xout 0 < nth 0 xin 0 /\ j0 = 0%nat \/
     nth j0 xin 0 <= nth 0 xout 0 /\ nth 0 xout 0 < nth (S j0) xin 0) /\
    spacings xout xin
    = Ok (nth (S j0) xin 0 - nth j0 xin 0, nth 1 xout 0 - nth 0 xout 0) /\
    (nth 1 xout 0 - nth 0 xout 0 < nth (S j0) xin 0 - nth j0 xin 0 ->
     select_regime xout xin = Ok Interpolation /\
     exists ys,
       rebin1d xout xin yin = Ok (map Finite ys) /\
       length ys = length xout /\
       forall k, (k < length xout)%nat ->
                 linear_interp xin yin (nth k xout 0) (nth k ys 0)) /\
    (~ nth 1 xout 0 - nth 0 xout 0 < nth (S j0) xin 0 - nth j0 xin 0 ->
     select_regime xout xin = Ok BoxIntegration /\
     exists e ys,
       length e = length xout /\
       (forall k, (k < length xout)%nat ->
          linear_interp xin (range (length xin))
            (nth k xout 0 - (nth 1 xout 0 - nth 0 xout 0) * (1 # 2))
            (nth k e 0)) /\
       rebin1d xout xin yin = Ok ys /\
       length ys = length xout /\
       forall k, (k < length xout)%nat ->
                 nth k ys NonFinite = spec_box_value e (length xin) yin k).
Proof.
  intros Go Gi L Hs.
  destruct (in0_brackets xout xin Gi Hs) as [Hj Hb].
  destruct (in0_bounds xout xin Gi Hs) as [B1 B2].
  pose proof (grid_nonempty xin Gi) as Ne.
  pose proof (select_regime_ok xout xin Go Gi Hs) as R.
  exists (Z.to_nat (in0 xout xin)). split; [exact Hj|]. split.
  { destruct Hb as [[H1 H2]|H]; [left|right; exact H].
    split; [exact H1|]. now rewrite H2. }
  assert (Ed : nth (S (Z.to_nat (in0 xout xin))) xin 0
               - nth (Z.to_nat (in0 xout xin)) xin 0 = dx_in xout xin).
  { unfold dx_in.
    replace (Z.to_nat (in0 xout xin + 1)) with (S (Z.to_nat (in0 xout xin)))
      by lia.
    reflexivity. }
  rewrite Ed. fold (dx_out xout).
  split; [now apply spacings_ok|]. split.
  - intros Lt. apply Qltb_lt in Lt. rewrite Lt in R. split; [exact R|].
    exists (map (fun x => interp_val x xin yin) xout).
    split; [now apply rebin1d_interpolation_total|].
    split; [apply length_map|]. intros k Hk.
    rewrite (nth_indep (map (fun x => interp_val x xin yin) xout) 0
               ((fun x => interp_val x xin yin) 0))
      by now rewrite length_map.
    rewrite (map_nth (fun x => interp_val x xin yin)).
    now apply interp_val_spec.
  - intros Ge. apply Qnot_lt_le, Qltb_ge in Ge. rewrite Ge in R.
    split; [exact R|].
    destruct (rebin1d_box_total xout xin yin Go Gi L R) as [_ [ys Hys]].
    exists (in_i xout xin), ys. split; [apply in_i_length|]. split.
    { intros k Hk. rewrite in_i_nth by exact Hk.
      apply (fidx_index_of xin Ne). }
    split; [exact Hys|]. split.
    { destruct (rebin1d_length xout xin yin Go Gi Hs L) as [ys' [Hys' Ly]].
      congruence. }
    intros k Hk.
    rewrite (rebin1d_box_nth xout xin yin ys k Go Gi L R Hys Hk).
    apply box_formula_is_spec; trivial.
    + apply in_i_edges_ok; [exact Gi|apply Go].
    + destruct Gi. lia.
    + now rewrite in_i_length.
Qed.

Lemma regime_selection_witness :
  exists j0 : nat,
    (S j0 < 4)%nat /\
    spacings [0; 1 # 2; 1; 3 # 2] [0; 1; 2; 3]
    = Ok (nth (S j0) [0; 1; 2; 3] 0 - nth j0 [0; 1; 2; 3] 0,
          nth 1 [0; 1 # 2; 1; 3 # 2] 0 - nth 0 [0; 1 # 2; 1; 3 # 2] 0).
Proof.
  destruct (regime_selection [0; 1 # 2; 1; 3 # 2] [0; 1; 2; 3] [0; 10; 20; 30])
    as (j0 & A & _ & B & _).
  - split; [reflexivity|simpl; lia].
  - split; [reflexivity|simpl; lia].
  - reflexivity.
  - reflexivity.
  - exists j0. exact (conj A B).
Defined.

(** C5. A regime should be selected for every pair of strictly increasing
    grids of at least two points, but for these grids none is and there is
    no result: the first output coordinate is the last input coordinate, the
    bracketing index [in0] is the last index, and the input spacing
    [xin[in0+1] - xin[in0]] of line 41 raises [IndexError]. *)
Theorem no_regime_at_input_end :
  grid [2; 3] /\ grid [0; 1; 2] /\ length [1; 2; 3] = length [0; 1; 2] /\
  select_regime [2; 3] [0; 1; 2] = Raise IndexError /\
  rebin1d [2; 3] [0; 1; 2] [1; 2; 3] = Raise IndexError.
Proof.
  split; [split; [reflexivity|simpl; lia]|].
  split; [split; [reflexivity|simpl; lia]|].
  repeat split.
Qed.

(** ** The planar rebinner *)

Lemma box_pass_rows (a : array2 Q) (n1 : Z) (bx : Q) (n : Z) (out : array2 Q) :
  length (rows out) = Z.to_nat n ->
  box_pass a n1 bx n out =
  rs <- mapM (fun i => line_value a (line_box n1 bx i)) (indices (Z.to_nat n)) ;;
  Ok (mkArray2 (ncols out) rs).
Proof.
  intros L. unfold box_pass. rewrite <- L.
  now rewrite (foldM_fill (fun i => line_value a (line_box n1 bx i)) (rows out)).
Qed.

(** The boxes of a pass over [y] input lines with [n] output lines of box
    size [bx], [n * bx <= y], stay inside the input. *)
Lemma line_box_bounds (y : nat) (n : Z) (bx : Q) (i : Z) :
  (1 <= y)%nat -> 0 < bx ->
  inject_Z n * bx <= inject_Z (Z.of_nat y) -> (0 <= i < n)%Z ->
  box_in_bounds (line_box (Z.of_nat y - 1) bx i) y.
Proof.
  intros Hy Hb Hn Hi. unfold box_in_bounds, line_box.
  cbn [istart istop].
  set (rs := inject_Z i * bx).
  assert (I0 : 0 <= inject_Z i)
    by (change 0 with (inject_Z 0); rewrite <- Zle_Qle; lia).
  assert (I1 : inject_Z i + 1 <= inject_Z n).
  { change 1 with (inject_Z 1). rewrite <- inject_Z_plus, <- Zle_Qle. lia. }
  assert (R0 : 0 <= rs) by (apply Qmult_le_0_compat; lra).
  assert (R1 : rs + bx <= inject_Z (Z.of_nat y)).
  { apply Qle_trans with (inject_Z n * bx); [|exact Hn].
    setoid_replace (rs + bx) with ((inject_Z i + 1) * bx) by (unfold rs; ring).
    apply Qmult_le_compat_r; lra. }
  assert (A1 : (0 <= py_int rs)%Z) by now apply py_int_nonneg.
  assert (A2 : (py_int rs < Z.of_nat y)%Z).
  { apply inject_Z_lt_inv. apply Qle_lt_trans with rs; [now apply py_int_le|lra]. }
  assert (A3 : (py_int rs <= py_int (rs + bx))%Z) by (apply py_int_mono; lra).
  destruct (py_int (rs + bx) >? Z.of_nat y - 1)%Z eqn:E.
  - lia.
  - rewrite Z.gtb_ltb in E. apply Z.ltb_ge in E. lia.
Qed.

Lemma line_value_ok (a : array2 Q) (b : box) :
  box_in_bounds b (nrows a) -> line_value a b = Ok (line_numerator a b).
Proof.
  intros (B1 & B2 & B3). unfold line_value, line_numerator, nrows in *.
  rewrite (getitem_ok (rows a) (istart b) []) by (unfold len; lia).
  rewrite (getitem_ok (rows a) (istop b) []) by (unfold len; lia).
  destruct (istart b =? istop b)%Z; reflexivity.
Qed.

(** A pass over a non-empty input returns one line per output index. *)
Lemma box_pass_ok (a : array2 Q) (bx : Q) (n : Z) (out : array2 Q) :
  (1 <= nrows a)%nat -> 0 < bx ->
  inject_Z n * bx <= inject_Z (Z.of_nat (nrows a)) ->
  length (rows out) = Z.to_nat n ->
  box_pass a (Z.of_nat (nrows a) - 1) bx n out =
  Ok (mkArray2 (ncols out)
        (map (fun i => line_numerator a (line_box (Z.of_nat (nrows a) - 1) bx i))
             (indices (Z.to_nat n)))).
Proof.
  intros Hy Hb Hn L. rewrite (box_pass_rows a _ bx n out L).
  assert (M : mapM (fun i => line_value a (line_box (Z.of_nat (nrows a) - 1) bx i))
                   (indices (Z.to_nat n))
              = Ok (map (fun i => line_numerator a
                                    (line_box (Z.of_nat (nrows a) - 1) bx i))
                        (indices (Z.to_nat n)))).
  { assert (H : forall i, In i (indices (Z.to_nat n)) -> (0 <= i < n)%Z).
    { intros i Hi. apply indices_In in Hi. destruct Hi as [k [Hk ->]]. lia. }
    induction (indices (Z.to_nat n)) as [|i l IH]; [reflexivity|].
    simpl. rewrite line_value_ok
      by (apply (line_box_bounds (nrows a) n); trivial; apply H; now left).
    simpl. rewrite IH by (intros; apply H; now right). reflexivity. }
  now rewrite M.
Qed.

Lemma transpose_nrows (a : array2 Q) : nrows (transpose a) = ncols a.
Proof. unfold nrows, transpose. simpl. now rewrite length_map, length_seq. Qed.

Lemma transpose_ncols (a : array2 Q) : ncols (transpose a) = nrows a.
Proof. reflexivity. Qed.

Lemma transpose_wf (a : array2 Q) : wf2 (transpose a).
Proof.
  unfold wf2, transpose. simpl. apply Forall_map. apply Forall_forall.
  intros c _. now rewrite length_map.
Qed.

Lemma box_size (y : nat) (s : Z) :
  (1 <= y)%nat -> (0 < s)%Z ->
  0 < inject_Z (Z.of_nat y) / inject_Z s /\
  inject_Z s * (inject_Z (Z.of_nat y) / inject_Z s) <= inject_Z (Z.of_nat y) /\
  Qeq_bool (inject_Z s) 0 = false.
Proof.
  intros Hy Hs.
  assert (P : 0 < inject_Z s)
    by (change 0 with (inject_Z 0); rewrite <- Zlt_Qlt; lia).
  assert (P' : 0 < inject_Z (Z.of_nat y))
    by (change 0 with (inject_Z 0); rewrite <- Zlt_Qlt; lia).
  split; [apply Qlt_shift_div_l; lra|]. split.
  - setoid_replace (inject_Z s * (inject_Z (Z.of_nat y) / inject_Z s))
      with (inject_Z (Z.of_nat y)) by (field; lra).
    apply Qle_refl.
  - destruct (Qeq_bool (inject_Z s) 0) eqn:E; trivial.
    apply Qeq_bool_iff in E. lra.
Qed.

Lemma frebin2d_ok (array : array2 Q) (shape : Z * Z) :
  (1 <= nrows array)%nat -> (1 <= ncols array)%nat ->
  (0 < fst shape)%Z -> (0 < snd shape)%Z ->
  frebin2d array shape = Ok (frebin2d_value array shape).
Proof.
  intros Hy Hx H0 H1. destruct shape as [s0 s1]. simpl fst in *. simpl snd in *.
  destruct (box_size (ncols array) s0 Hx H0) as (X1 & X2 & X3).
  destruct (box_size (nrows array) s1 Hy H1) as (Y1 & Y2 & Y3).
  unfold frebin2d, py_div. cbn [fst snd].
  rewrite X3. simpl bind.
  change (len (rows array)) with (Z.of_nat (nrows array)).
  rewrite Y3. simpl bind.
  unfold np_zeros2.
  replace ((s1 <? 0)%Z || (Z.of_nat (ncols array) <? 0)%Z) with false
    by (symmetry; apply orb_false_iff; split; apply Z.ltb_ge; lia).
  simpl bind. rewrite Nat2Z.id.
  rewrite box_pass_ok; trivial.
  2:{ simpl. unfold zeros2. now rewrite repeat_length. }
  simpl bind. cbn [ncols].
  fold (pass_lines array (inject_Z (Z.of_nat (nrows array)) / inject_Z s1) s1).
  set (temp := transpose (mkArray2 (ncols array)
                 (pass_lines array (inject_Z (Z.of_nat (nrows array)) / inject_Z s1) s1))).
  replace ((s0 <? 0)%Z || (s1 <? 0)%Z) with false
    by (symmetry; apply orb_false_iff; split; apply Z.ltb_ge; lia).
  simpl bind.
  assert (Nt : nrows temp = ncols array)
    by (unfold temp; now rewrite transpose_nrows).
  replace (Z.of_nat (ncols array) - 1)%Z with (Z.of_nat (nrows temp) - 1)%Z
    by now rewrite Nt.
  rewrite box_pass_ok; trivial; try (now rewrite Nt).
  simpl. unfold zeros2. now rewrite repeat_length.
Qed.

(** The shape of the result for an array that is not empty. *)
Lemma frebin2d_value_shape (array : array2 Q) (outCols outRows : Z) :
  (1 <= nrows array)%nat -> (1 <= ncols array)%nat ->
  (0 < outCols)%Z -> (0 < outRows)%Z ->
  exists out,
    frebin2d array (outCols, outRows) = Ok out /\
    Z.of_nat (ncols out) = outCols /\ Z.of_nat (nrows out) = outRows /\
    wf2 out.
Proof.
  intros Hy Hx H0 H1. exists (frebin2d_value array (outCols, outRows)).
  split; [now apply frebin2d_ok|].
  unfold frebin2d_value. cbn [fst snd ncols rows].
  unfold nrows at 1. cbn [rows]. unfold pass_lines at 1.
  rewrite length_map, indices_length. split; [lia|]. split.
  - unfold nrows. cbn [rows]. rewrite length_map.
    change (length (rows (transpose ?a))) with (nrows (transpose a)).
    rewrite transpose_nrows. cbn [ncols]. lia.
  - unfold wf2. cbn [rows ncols]. apply Forall_map.
    pose proof (transpose_wf
      (mkArray2 (Z.to_nat outRows)
         (pass_lines
            (transpose (mkArray2 (ncols array)
               (pass_lines array
                  (inject_Z (Z.of_nat (nrows array)) / inject_Z outRows) outRows)))
            (inject_Z (Z.of_nat (ncols array)) / inject_Z outCols) outCols))) as W.
    unfold wf2 in W. eapply Forall_impl; [|exact W].
    intros r Hr. unfold vdiv. rewrite length_map, Hr.
    rewrite transpose_ncols. unfold nrows. cbn [rows]. reflexivity.
Qed.

(** ** Resizing to the array's own shape *)

Lemma Forall2_nth_intro {A B : Type} (R : A -> B -> Prop) (da : A) (db : B)
      (l : list A) (l' : list B) :
  length l = length l' ->
  (forall k, (k < length l)%nat -> R (nth k l da) (nth k l' db)) ->
  Forall2 R l l'.
Proof.
  revert l'. induction l as [|a l IH]; intros [|b l'] L H; simpl in L;
    try discriminate; constructor.
  - apply (H 0%nat). simpl. lia.
  - apply IH; [lia|]. intros k Hk. apply (H (S k)). simpl. lia.
Qed.

Lemma Forall2_nth_elim {A B : Type} (R : A -> B -> Prop) (da : A) (db : B)
      (l : list A) (l' : list B) (k : nat) :
  Forall2 R l l' -> (k < length l)%nat -> R (nth k l da) (nth k l' db).
Proof.
  intros F. revert k. induction F as [|a b l l' Hab F IH]; intros k Hk;
    simpl in Hk; [lia|].
  destruct k; simpl; [exact Hab|]. apply IH. lia.
Qed.

Lemma row_eq_nth (u v : list Q) (k : nat) : row_eq u v -> nth k u 0 == nth k v 0.
Proof.
  intros F. destruct (Nat.lt_ge_cases k (length u)) as [Lt|Ge].
  - now apply Forall2_nth_elim.
  - pose proof (Forall2_length F) as L.
    rewrite !nth_overflow by lia. reflexivity.
Qed.

Lemma nth_seq_id {A : Type} (d : A) (l : list A) :
  map (fun k => nth k l d) (seq 0 (length l)) = l.
Proof.
  apply (list_eq_nth d).
  - now rewrite length_map, length_seq.
  - intros k Hk. rewrite length_map, length_seq in Hk.
    rewrite (nth_indep _ d ((fun k => nth k l d) 0%nat))
      by now rewrite length_map, length_seq.
    rewrite (map_nth (fun k => nth k l d)), seq_nth by exact Hk.
    reflexivity.
Qed.

Lemma nth_nil_Q (k : nat) : nth k (@nil Q) 0 = 0.
Proof. destruct k; reflexivity. Qed.

Lemma transpose_involutive (a : array2 Q) :
  wf2 a -> rows (transpose (transpose a)) = rows a.
Proof.
  intros W.
  transitivity (map (fun k => nth k (rows a) []) (seq 0 (length (rows a))));
    [|apply nth_seq_id].
  unfold transpose. cbn [rows ncols]. unfold nrows.
  apply map_ext_in. intros c Hc. apply in_seq in Hc. rewrite map_map.
  assert (L : length (nth c (rows a) []) = ncols a).
  { unfold wf2 in W. rewrite Forall_forall in W. apply W.
    apply nth_In. lia. }
  transitivity (map (fun k => nth k (nth c (rows a) []) 0)
                    (seq 0 (length (nth c (rows a) []))));
    [|apply nth_seq_id].
  rewrite L. apply map_ext. intros c'.
  rewrite <- (nth_nil_Q c') at 1.
  apply (map_nth (fun r => nth c' r 0)).
Qed.

Lemma transpose_eq (a b : array2 Q) :
  ncols a = ncols b -> rows_eq (rows a) (rows b) ->
  rows_eq (rows (transpose a)) (rows (transpose b)).
Proof.
  intros C F. unfold transpose. cbn [rows]. rewrite <- C.
  induction (seq 0 (ncols a)) as [|c l IH]; simpl; constructor; [|exact IH].
  clear IH. induction F as [|u v p s Huv F IH]; simpl; constructor; [|exact IH].
  now apply row_eq_nth.
Qed.

Lemma rows_eq_trans (p s t : list (list Q)) :
  rows_eq p s -> rows_eq s t -> rows_eq p t.
Proof.
  intros F. revert t. induction F as [|u v p s Huv F IH]; intros t G;
    inversion G as [|v' w s' t' Hvw G']; subst; constructor.
  - clear - Huv Hvw. revert w Hvw.
    induction Huv as [|x y u v Hxy Huv IH]; intros w Hvw;
      inversion Hvw; subst; constructor.
    + now transitivity y.
    + now apply IH.
  - now apply IH.
Qed.

Section UnitBox.

Variable a : array2 Q.
Variable bx : Q.
Hypothesis a_wf : wf2 a.
Hypothesis bx_one : bx == 1.

Let y := nrows a.
Let c := ncols a.

Lemma unit_row_length (i : nat) : (i < y)%nat -> length (nth i (rows a) []) = c.
Proof.
  intros H. unfold wf2 in a_wf. rewrite Forall_forall in a_wf.
  apply a_wf. now apply nth_In.
Qed.

Lemma unit_box (i : nat) :
  (i < y)%nat ->
  let b := line_box (Z.of_nat y - 1) bx (Z.of_nat i) in
  istart b = Z.of_nat i /\
  istop b = Z.min (Z.of_nat i + 1) (Z.of_nat y - 1) /\
  frac1 b == 0 /\
  frac2 b == 1 - (inject_Z (Z.of_nat i) + 1 - inject_Z (istop b)).
Proof.
  intros Hi b.
  assert (R1 : rstart b == inject_Z (Z.of_nat i))
    by (unfold b; simpl; rewrite bx_one; ring).
  assert (R2 : rstop b == inject_Z (Z.of_nat i) + 1)
    by (unfold b; simpl; rewrite bx_one; ring).
  assert (I1 : py_int (rstart b) = Z.of_nat i)
    by (apply py_int_unique; [lia|rewrite R1; lra|rewrite R1; lra]).
  assert (I2 : py_int (rstop b) = (Z.of_nat i + 1)%Z).
  { apply py_int_unique; [lia| |]; rewrite R2, inject_Z_plus;
      change (inject_Z 1) with 1; lra. }
  assert (Es : istart b = Z.of_nat i) by exact I1.
  assert (Et : istop b = Z.min (Z.of_nat i + 1) (Z.of_nat y - 1)).
  { unfold b, line_box. cbn [istop].
    change (py_int (inject_Z (Z.of_nat i) * bx + bx)) with (py_int (rstop b)).
    rewrite I2.
    destruct (Z.of_nat i + 1 >? Z.of_nat y - 1)%Z eqn:E.
    - apply Z.gtb_lt in E. lia.
    - rewrite Z.gtb_ltb in E. apply Z.ltb_ge in E. lia. }
  split; [exact Es|]. split; [exact Et|]. split.
  - unfold frac1. rewrite Es, R1. ring.
  - unfold frac2. rewrite R2. reflexivity.
Qed.

(** With a box of one pixel every output line is the input line. *)
Lemma unit_line (i : nat) :
  (i < y)%nat ->
  row_eq (line_numerator a (line_box (Z.of_nat y - 1) bx (Z.of_nat i)))
         (nth i (rows a) []).
Proof.
  intros Hi. destruct (unit_box i Hi) as (Es & Et & F1 & F2).
  set (b := line_box (Z.of_nat y - 1) bx (Z.of_nat i)) in *.
  unfold line_numerator. rewrite Es, Nat2Z.id.
  pose proof (unit_row_length i Hi) as Li.
  destruct (Z.of_nat i =? istop b)%Z eqn:E.
  - apply Z.eqb_eq in E. rewrite <- E in F2.
    apply (Forall2_nth_intro Qeq 0 0).
    + unfold vscale. now rewrite length_map.
    + unfold vscale. rewrite length_map. intros k Hk.
      rewrite (nth_indep _ 0 ((1 - frac1 b - frac2 b) * 0))
        by now rewrite length_map.
      rewrite (map_nth (Qmult (1 - frac1 b - frac2 b))).
      rewrite F1, F2. ring.
  - apply Z.eqb_neq in E.
    assert (Et' : istop b = (Z.of_nat i + 1)%Z) by lia.
    assert (Hi' : (S i < y)%nat) by lia.
    pose proof (unit_row_length (S i) Hi') as Li'.
    rewrite Et' in F2 |- *.
    rewrite (@slice_range (list Q) [] (rows a)) by (unfold len; fold (nrows a); fold y; lia).
    replace (Z.of_nat i + 1 + 1 - Z.of_nat i)%Z with 2%Z by lia.
    rewrite Nat2Z.id.
    replace (Z.to_nat (Z.of_nat i + 1)) with (S i) by lia.
    simpl map. unfold sum_rows. simpl fold_right. fold c.
    set (r1 := nth i (rows a) []) in *. set (r2 := nth (S i) (rows a) []) in *.
    assert (Z0 : length (zeros1 0 c) = c) by apply repeat_length.
    assert (A2 : length (vadd r2 (zeros1 0 c)) = c) by now apply vop_length.
    assert (A1 : length (vadd r1 (vadd r2 (zeros1 0 c))) = c)
      by now apply vop_length.
    assert (M1 : length (vscale (frac1 b) r1) = c)
      by (unfold vscale; now rewrite length_map).
    assert (M2 : length (vscale (frac2 b) r2) = c)
      by (unfold vscale; now rewrite length_map).
    assert (D1 : length (vsub (vadd r1 (vadd r2 (zeros1 0 c)))
                              (vscale (frac1 b) r1)) = c)
      by now apply vop_length.
    assert (D2 : length (vsub (vsub (vadd r1 (vadd r2 (zeros1 0 c)))
                                    (vscale (frac1 b) r1))
                              (vscale (frac2 b) r2)) = c)
      by now apply vop_length.
    apply (Forall2_nth_intro Qeq 0 0).
    + now rewrite Li.
    + intros k Hk.
      assert (Hk' : (k < c)%nat) by (rewrite D2 in Hk; exact Hk).
      unfold vsub at 1. rewrite (map2_nth Qminus _ _ k 0 0 0) by lia.
      unfold vsub at 1. rewrite (map2_nth Qminus _ _ k 0 0 0) by lia.
      unfold vadd at 1. rewrite (map2_nth Qplus _ _ k 0 0 0) by lia.
      unfold vadd at 1. rewrite (map2_nth Qplus _ _ k 0 0 0) by lia.
      unfold zeros1. rewrite nth_repeat.
      unfold vscale.
      rewrite (nth_indep (map (Qmult (frac1 b)) r1) 0 (frac1 b * 0))
        by (rewrite length_map; lia).
      rewrite (map_nth (Qmult (frac1 b))).
      rewrite (nth_indep (map (Qmult (frac2 b)) r2) 0 (frac2 b * 0))
        by (rewrite length_map; lia).
      rewrite (map_nth (Qmult (frac2 b))).
      rewrite F1, F2. rewrite inject_Z_plus. change (inject_Z 1) with 1. ring.
Qed.

Lemma unit_pass : rows_eq (pass_lines a bx (Z.of_nat y)) (rows a).
Proof.
  unfold pass_lines. rewrite Nat2Z.id.
  apply (Forall2_nth_intro row_eq [] []).
  - now rewrite length_map, indices_length.
  - intros k Hk. rewrite length_map, indices_length in Hk.
    rewrite (nth_indep _ []
      ((fun i => line_numerator a (line_box (Z.of_nat (nrows a) - 1) bx i)) 0%Z))
      by now rewrite length_map, indices_length.
    rewrite (map_nth (fun i => line_numerator a
                                 (line_box (Z.of_nat (nrows a) - 1) bx i))).
    rewrite indices_nth by exact Hk. now apply unit_line.
Qed.

End UnitBox.

Lemma vdiv_unit (r r' : list Q) (w : Q) :
  w == 1 -> row_eq r r' ->
  Forall2 (fun f v => fnum_eq f (Finite v)) (vdiv r w) r'.
Proof.
  intros Hw F. unfold vdiv.
  induction F as [|x x' r r' Hx F IH]; simpl; constructor; [|exact IH].
  unfold np_div.
  destruct (Qeq_bool w 0) eqn:E.
  - apply Qeq_bool_iff in E. rewrite Hw in E. discriminate.
  - simpl. rewrite Hw, <- Hx. field.
Qed.

Lemma pdiv_unit (p s : list (list Q)) (w : Q) :
  w == 1 -> rows_eq p s ->
  Forall2 (Forall2 (fun f v => fnum_eq f (Finite v)))
          (map (fun r => vdiv r w) p) s.
Proof.
  intros Hw F. induction F as [|r r' p s Hr F IH]; simpl; constructor;
    [now apply vdiv_unit|exact IH].
Qed.

Lemma unit_ratio (y : nat) :
  (1 <= y)%nat -> inject_Z (Z.of_nat y) / inject_Z (Z.of_nat y) == 1.
Proof.
  intros H.
  assert (0 < inject_Z (Z.of_nat y))
    by (change 0 with (inject_Z 0); rewrite <- Zlt_Qlt; lia).
  field. lra.
Qed.

Lemma frebin2d_value_own_shape (array : array2 Q) :
  wf2 array -> (1 <= nrows array)%nat -> (1 <= ncols array)%nat ->
  same_values
    (frebin2d_value array (Z.of_nat (ncols array), Z.of_nat (nrows array)))
    array.
Proof.
  intros W Hy Hx. unfold frebin2d_value. cbn [fst snd].
  pose proof (unit_ratio (nrows array) Hy) as Uy.
  pose proof (unit_ratio (ncols array) Hx) as Ux.
  set (ybox := inject_Z (Z.of_nat (nrows array)) / inject_Z (Z.of_nat (nrows array))) in *.
  set (xbox := inject_Z (Z.of_nat (ncols array)) / inject_Z (Z.of_nat (ncols array))) in *.
  pose proof (unit_pass array ybox W Uy) as P1.
  set (rows1 := pass_lines array ybox (Z.of_nat (nrows array))) in *.
  set (temp := transpose (mkArray2 (ncols array) rows1)).
  assert (T1 : rows_eq (rows temp) (rows (transpose array))).
  { apply transpose_eq; [reflexivity|exact P1]. }
  assert (Nt : nrows temp = ncols array)
    by (unfold temp; now rewrite transpose_nrows).
  pose proof (unit_pass temp xbox (transpose_wf _) Ux) as P2.
  rewrite Nt in P2.
  set (rows2 := pass_lines temp xbox (Z.of_nat (ncols array))) in *.
  assert (T2 : rows_eq rows2 (rows (transpose array)))
    by (eapply rows_eq_trans; eassumption).
  assert (T3 : rows_eq
                 (rows (transpose (mkArray2 (Z.to_nat (Z.of_nat (nrows array))) rows2)))
                 (rows array)).
  { rewrite <- (transpose_involutive array W).
    apply transpose_eq; [|exact T2].
    cbn [ncols]. now rewrite Nat2Z.id. }
  split.
  - cbn [ncols]. unfold nrows at 1. cbn [rows].
    pose proof (Forall2_length T2) as L. rewrite L.
    change (length (rows (transpose array))) with (nrows (transpose array)).
    apply transpose_nrows.
  - cbn [rows]. apply pdiv_unit; [|exact T3].
    rewrite Ux, Uy. reflexivity.
Qed.

(** C8 (amended). Resizing a non-empty rectangular array to its own size,
    given in the function's [(x, y)] order, that is [(columns, rows)],
    returns the original array unchanged; for a square array this is
    [array.shape] itself. *)
Theorem frebin2d_own_shape (array : array2 Q) :
  wf2 array -> (1 <= nrows array)%nat -> (1 <= ncols array)%nat ->
  (exists out,
     frebin2d array (Z.of_nat (ncols array), Z.of_nat (nrows array)) = Ok out /\
     same_values out array) /\
  (nrows array = ncols array ->
   exists out,
     frebin2d array (Z.of_nat (nrows array), Z.of_nat (ncols array)) = Ok out /\
     same_values out array).
Proof.
  intros W Hy Hx.
  assert (H : exists out,
            frebin2d array (Z.of_nat (ncols array), Z.of_nat (nrows array)) = Ok out /\
            same_values out array).
  { eexists. split.
    - apply frebin2d_ok; simpl; lia.
    - now apply frebin2d_value_own_shape. }
  split; [exact H|]. intros E. rewrite E in *. exact H.
Qed.

Lemma frebin2d_own_shape_witness :
  exists out,
    frebin2d (mkArray2 2 [[1; 2]; [3; 4]; [5; 6]]) (2, 3)%Z = Ok out /\
    same_values out (mkArray2 2 [[1; 2]; [3; 4]; [5; 6]]).
Proof.
  apply (proj1 (frebin2d_own_shape (mkArray2 2 [[1; 2]; [3; 4]; [5; 6]])
                  ltac:(repeat constructor)
                  ltac:(unfold nrows; simpl; lia)
                  ltac:(simpl; lia))).
Defined.

(** C8 as stated fails: [array.shape] of a [1 x 2] array is [(1, 2)], which
    the function reads as one column and two rows; the result is a [2 x 1]
    array, not the original. *)
Lemma frebin2d_own_shape_counterexample :
  wf2 (mkArray2 2 [[1; 2]]) /\
  exists out,
    frebin2d (mkArray2 2 [[1; 2]])
             (Z.of_nat (nrows (mkArray2 2 [[1; 2]])),
              Z.of_nat (ncols (mkArray2 2 [[1; 2]]))) = Ok out /\
    nrows out = 2%nat /\ ncols out = 1%nat /\
    ~ same_values out (mkArray2 2 [[1; 2]]).
Proof.
  split; [repeat constructor|].
  eexists. split; [vm_compute; reflexivity|].
  split; [reflexivity|]. split; [reflexivity|].
  intros [H _]. discriminate.
Qed.

(** ** Inputs are never mutated *)

Section Frame.

Import Mem.

Lemma pure_ret {A : Type} (a : A) : pure_step (ret a).
Proof. intros s. reflexivity. Qed.

Lemma pure_lift {A : Type} (r : res A) : pure_step (lift r).
Proof. intros s. reflexivity. Qed.

Lemma pure_read (l : loc) : pure_step (read l).
Proof. intros s. unfold read. destruct (nth_error s l); reflexivity. Qed.

Lemma pure_bind {A B : Type} (m : M A) (k : A -> M B) :
  pure_step m -> (forall a, pure_step (k a)) -> pure_step (bindS m k).
Proof.
  intros Hm Hk s. unfold bindS. specialize (Hm s).
  destruct (m s) as [[a|e] s']; simpl in *; subst; [apply Hk|reflexivity].
Qed.

Lemma pure_read_qvec (l : loc) : pure_step (read_qvec l).
Proof.
  apply pure_bind; [apply pure_read|].
  intros [ | | | | | ]; intros; try apply pure_lift; apply pure_ret.
Qed.

Lemma pure_read_fvec (l : loc) : pure_step (read_fvec l).
Proof.
  apply pure_bind; [apply pure_read|].
  intros [ | | | | | ]; intros; try apply pure_lift; apply pure_ret.
Qed.

Lemma pure_read_qmat (l : loc) : pure_step (read_qmat l).
Proof.
  apply pure_bind; [apply pure_read|].
  intros [ | | | | | ]; intros; try apply pure_lift; apply pure_ret.
Qed.

Lemma pure_read_qcube (l : loc) : pure_step (read_qcube l).
Proof.
  apply pure_bind; [apply pure_read|].
  intros [ | | | | | ]; intros; try apply pure_lift; apply pure_ret.
Qed.

Lemma pure_read_fcube (l : loc) : pure_step (read_fcube l).
Proof.
  apply pure_bind; [apply pure_read|].
  intros [ | | | | | ]; intros; try apply pure_lift; apply pure_ret.
Qed.

Lemma upd_nth_error_neq {A : Type} (s : list A) (t l : nat) (c : A) :
  l <> t -> nth_error (upd s t c) l = nth_error s l.
Proof.
  revert t l. induction s as [|a s IH]; intros t l H; [destruct t; reflexivity|].
  destruct t, l; simpl; try reflexivity; try congruence.
  apply IH. congruence.
Qed.

(** Rules for loop bodies. *)
Lemma wf_pure_bind {A B : Type} (t : loc) (m : M A) (k : A -> M B) :
  pure_step m -> (forall a, writes_from t (k a)) -> writes_from t (bindS m k).
Proof.
  intros Hm Hk s. unfold bindS. specialize (Hm s).
  destruct (m s) as [[a|e] s']; simpl in *; subst; [apply Hk|].
  split; reflexivity.
Qed.

Lemma wf_write (t l : loc) (c : cell) : (t <= l)%nat -> writes_from t (write l c).
Proof.
  intros H s. unfold write. simpl. split; [apply upd_length|].
  intros l' Hl. apply upd_nth_error_neq. lia.
Qed.

Lemma wf_forM {A : Type} (t : loc) (l : list A) (body : A -> M unit) :
  (forall a, writes_from t (body a)) -> writes_from t (forM_ l body).
Proof.
  intros H. induction l as [|a l IH]; intros s; simpl.
  - split; reflexivity.
  - unfold bindS. destruct (H a s) as [L1 F1].
    destruct (body a s) as [[[]|e] s1]; simpl in *.
    + destruct (IH s1) as [L2 F2]. split; [congruence|].
      intros l' Hl. rewrite F2 by exact Hl. now apply F1.
    + split; assumption.
Qed.

(** Rules for the code after the first allocation. *)
Lemma fa_pure_bind {A : Type} (t : loc) (m : M A) (k : A -> M loc) :
  pure_step m -> (forall a, fresh_after t (k a)) -> fresh_after t (bindS m k).
Proof.
  intros Hm Hk s Hs. unfold bindS. specialize (Hm s).
  destruct (m s) as [[a|e] s']; simpl in *; subst; [now apply Hk|].
  split; [lia|]. split; [reflexivity|]. intros r H. discriminate.
Qed.

Lemma fa_loop_bind {A : Type} (t : loc) (m : M A) (k : A -> M loc) :
  writes_from t m -> (forall a, fresh_after t (k a)) -> fresh_after t (bindS m k).
Proof.
  intros Hm Hk s Hs. unfold bindS. destruct (Hm s) as [L F].
  destruct (m s) as [[a|e] s']; simpl in *.
  - destruct (Hk a s' ltac:(lia)) as (L' & F' & R').
    split; [lia|]. split; [|exact R'].
    intros l Hl. rewrite F' by exact Hl. now apply F.
  - split; [lia|]. split; [exact F|]. intros r H. discriminate.
Qed.

Lemma nth_error_app_old {A : Type} (s : list A) (c : A) (l : nat) :
  (l < length s)%nat -> nth_error (s ++ [c]) l = nth_error s l.
Proof. intros H. now apply nth_error_app1. Qed.

Lemma fa_alloc_bind (t : loc) (c : cell) (k : loc -> M loc) :
  (forall u, (t < u)%nat -> fresh_after t (k u)) ->
  fresh_after t (bindS (alloc c) k).
Proof.
  intros Hk s Hs. unfold bindS, alloc.
  destruct (Hk (length s) Hs (s ++ [c])) as (L & F & R).
  { rewrite length_app. simpl. lia. }
  rewrite length_app in L. simpl in L.
  split; [lia|]. split; [|exact R].
  intros l Hl. rewrite F by exact Hl. apply nth_error_app_old. lia.
Qed.

Lemma fa_alloc (t : loc) (c : cell) : fresh_after t (alloc c).
Proof.
  intros s Hs. unfold alloc. simpl. rewrite length_app. simpl.
  split; [lia|]. split.
  - intros l Hl. apply nth_error_app_old. lia.
  - intros r H. inversion H. lia.
Qed.

Lemma fa_ret (t r : loc) : r = t -> fresh_after t (ret r).
Proof.
  intros -> s Hs. simpl. split; [lia|]. split; [reflexivity|].
  intros r H. inversion H. lia.
Qed.

(** Rules for the whole function. *)
Lemma fr_pure_bind {A : Type} (m : M A) (k : A -> M loc) :
  pure_step m -> (forall a, fresh_result (k a)) -> fresh_result (bindS m k).
Proof.
  intros Hm Hk s. unfold bindS. specialize (Hm s).
  destruct (m s) as [[a|e] s']; simpl in *; subst; [apply Hk|].
  split; [split; [lia|reflexivity]|]. intros r H. discriminate.
Qed.

Lemma fr_alloc (c : cell) : fresh_result (alloc c).
Proof.
  intros s. unfold alloc, unchanged. simpl. rewrite length_app. simpl.
  split; [split; [lia|]|].
  - intros l Hl. now apply nth_error_app_old.
  - intros r H. inversion H. lia.
Qed.

Lemma fr_alloc_bind (c : cell) (k : loc -> M loc) :
  (forall t, fresh_after t (k t)) -> fresh_result (bindS (alloc c) k).
Proof.
  intros Hk s. unfold bindS, alloc.
  destruct (Hk (length s) (s ++ [c])) as (L & F & R).
  { rewrite length_app. simpl. lia. }
  rewrite length_app in L. simpl in L.
  split; [split; [lia|]|exact R].
  intros l Hl. rewrite F by exact Hl. now apply nth_error_app_old.
Qed.

End Frame.

Ltac pure_tac :=
  first [ apply pure_read_qvec | apply pure_read_fvec | apply pure_read_qmat
        | apply pure_read_qcube | apply pure_read_fcube
        | apply pure_lift | apply pure_ret | apply pure_read ].

(** A loop body: reads and computations, then one assignment. *)
Ltac body_tac :=
  repeat (apply wf_pure_bind; [pure_tac|intros ?]);
  apply wf_write; lia.

Lemma rebin1d_fresh (xout xin yin : Mem.loc) :
  fresh_result (Mem.rebin1d_st xout xin yin).
Proof.
  unfold Mem.rebin1d_st.
  apply fr_pure_bind; [pure_tac|intros xo].
  apply fr_pure_bind; [pure_tac|intros xi].
  apply fr_pure_bind; [pure_tac|intros [di do]].
  destruct (Qltb do di).
  - apply fr_pure_bind; [pure_tac|intros yi].
    apply fr_pure_bind; [pure_tac|intros ys].
    apply fr_alloc.
  - apply fr_alloc_bind. intros temp.
    apply fa_pure_bind; [pure_tac|intros ii].
    apply fa_alloc_bind. intros in_i Hlt.
    apply fa_loop_bind.
    + apply wf_forM. intros i. body_tac.
    + intros _. now apply fa_ret.
Qed.

Lemma rebin_cube_1d_fresh (xout xin cube : Mem.loc) :
  fresh_result (Mem.rebin_cube_1d_st xout xin cube).
Proof.
  unfold Mem.rebin_cube_1d_st.
  apply fr_pure_bind; [pure_tac|intros xo].
  apply fr_pure_bind; [pure_tac|intros xi].
  apply fr_pure_bind; [pure_tac|intros [di do]].
  apply fr_pure_bind; [pure_tac|intros cb].
  apply fr_alloc_bind. intros new_cube.
  destruct (Qltb do di).
  - apply fa_loop_bind.
    + apply wf_forM. intros i. apply wf_forM. intros j. body_tac.
    + intros _. now apply fa_ret.
  - apply fa_pure_bind; [pure_tac|intros ii].
    apply fa_alloc_bind. intros in_i Hlt.
    apply fa_loop_bind.
    + apply wf_forM. intros i. body_tac.
    + intros _. now apply fa_ret.
Qed.

Lemma box_loop_writes (t src out : Mem.loc) (view : array2 Q -> array2 Q)
      (n1 : Z) (bx : Q) (n : Z) :
  (t <= out)%nat -> writes_from t (Mem.box_loop src view n1 bx n out).
Proof.
  intros H. unfold Mem.box_loop. apply wf_forM. intros i. body_tac.
Qed.

Lemma frebin2d_fresh (array : Mem.loc) (shape : Z * Z) :
  fresh_result (Mem.frebin2d_st array shape).
Proof.
  unfold Mem.frebin2d_st.
  apply fr_pure_bind; [pure_tac|intros a].
  apply fr_pure_bind; [pure_tac|intros xbox].
  apply fr_pure_bind; [pure_tac|intros ybox].
  apply fr_pure_bind; [pure_tac|intros z].
  apply fr_alloc_bind. intros temp.
  apply fa_loop_bind; [apply box_loop_writes; lia|intros _].
  apply fa_pure_bind; [pure_tac|intros z'].
  apply fa_alloc_bind. intros result Hlt.
  apply fa_loop_bind; [apply box_loop_writes; lia|intros _].
  apply fa_pure_bind; [pure_tac|intros r].
  apply fa_alloc.
Qed.

(** C9. None of the three functions changes an object that existed before
    the call, so the output grid, the input grid, the input values, the cube
    and the input array keep their contents (also on an exception), and a
    returned reference points to an object allocated during the call,
    distinct from every object that existed before. *)
Theorem inputs_never_mutated :
  (forall xout xin yin s,
     unchanged s (snd (Mem.rebin1d_st xout xin yin s)) /\
     forall r, fst (Mem.rebin1d_st xout xin yin s) = Ok r ->
               (length s <= r < length (snd (Mem.rebin1d_st xout xin yin s)))%nat) /\
  (forall xout xin cube s,
     unchanged s (snd (Mem.rebin_cube_1d_st xout xin cube s)) /\
     forall r, fst (Mem.rebin_cube_1d_st xout xin cube s) = Ok r ->
               (length s <= r < length (snd (Mem.rebin_cube_1d_st xout xin cube s)))%nat) /\
  (forall array shape s,
     unchanged s (snd (Mem.frebin2d_st array shape s)) /\
     forall r, fst (Mem.frebin2d_st array shape s) = Ok r ->
               (length s <= r < length (snd (Mem.frebin2d_st array shape s)))%nat).
Proof.
  split; [|split].
  - intros xout xin yin. apply rebin1d_fresh.
  - intros xout xin cube. apply rebin_cube_1d_fresh.
  - intros array shape. apply frebin2d_fresh.
Qed.

(** ** The store model computes what the value model computes *)

Section Refinement.

Import Mem.

Lemma upd_nth_error_eq {A : Type} (s : list A) (t : nat) (c : A) :
  (t < length s)%nat -> nth_error (upd s t c) t = Some c.
Proof.
  revert t. induction s as [|a s IH]; intros t H; simpl in H; [lia|].
  destruct t; simpl; [reflexivity|]. apply IH. lia.
Qed.

Lemma upd_upd {A : Type} (s : list A) (t : nat) (a b : A) :
  upd (upd s t a) t b = upd s t b.
Proof.
  revert t. induction s as [|x s IH]; intros t; [destruct t; reflexivity|].
  destruct t; simpl; [reflexivity|]. now rewrite IH.
Qed.

Lemma upd_same {A : Type} (s : list A) (t : nat) (c : A) :
  nth_error s t = Some c -> upd s t c = s.
Proof.
  revert t. induction s as [|x s IH]; intros t H; [destruct t; discriminate|].
  destruct t; simpl in *; [now inversion H|]. now rewrite IH.
Qed.

Lemma nth_error_lt {A : Type} (s : list A) (t : nat) (c : A) :
  nth_error s t = Some c -> (t < length s)%nat.
Proof. intros H. apply nth_error_Some. congruence. Qed.

Lemma read_qvec_ok (s : store) (l : loc) (v : list Q) :
  nth_error s l = Some (QVec v) -> read_qvec l s = (Ok v, s).
Proof. intros H. unfold read_qvec, bindS, read. now rewrite H. Qed.

Lemma read_fvec_ok (s : store) (l : loc) (v : list fnum) :
  nth_error s l = Some (FVec v) -> read_fvec l s = (Ok v, s).
Proof. intros H. unfold read_fvec, bindS, read. now rewrite H. Qed.

Lemma read_qmat_ok (s : store) (l : loc) (a : array2 Q) :
  nth_error s l = Some (QMat a) -> read_qmat l s = (Ok a, s).
Proof. intros H. unfold read_qmat, bindS, read. now rewrite H. Qed.

Lemma read_qcube_ok (s : store) (l : loc) (c : array3 Q) :
  nth_error s l = Some (QCube c) -> read_qcube l s = (Ok c, s).
Proof. intros H. unfold read_qcube, bindS, read. now rewrite H. Qed.

Lemma read_fcube_ok (s : store) (l : loc) (c : array3 fnum) :
  nth_error s l = Some (FCube c) -> read_fcube l s = (Ok c, s).
Proof. intros H. unfold read_fcube, bindS, read. now rewrite H. Qed.

(** A loop whose body performs one step on the object at [temp] performs
    the fold of the steps. *)
Lemma forM_fold {A T : Type} (inj : T -> cell) (temp : loc) (I : store -> Prop)
      (body : A -> M unit) (step : T -> A -> res T) (l : list A) :
  (forall s c, I s -> I (upd s temp c)) ->
  (forall s t a, I s -> nth_error s temp = Some (inj t) ->
                 loop_outcome inj temp s (step t a) (body a s)) ->
  forall s t, I s -> nth_error s temp = Some (inj t) ->
              loop_outcome inj temp s (foldM step l t) (forM_ l body s).
Proof.
  intros Hstable Hbody. induction l as [|a l IH]; intros s t Hs Ht; simpl.
  - unfold ret. now rewrite (upd_same s temp (inj t) Ht).
  - specialize (Hbody s t a Hs Ht). unfold bindS.
    destruct (step t a) as [t1|e]; simpl in *.
    + rewrite Hbody.
      assert (Lt : (temp < length s)%nat) by (eapply nth_error_lt; eassumption).
      specialize (IH (upd s temp (inj t1)) t1 (Hstable s _ Hs)
                     (upd_nth_error_eq s temp _ Lt)).
      destruct (foldM step l t1) as [t'|e]; simpl in *.
      * now rewrite IH, upd_upd.
      * exact IH.
    + destruct (body a s) as [[u|e'] s']; simpl in *; congruence.
Qed.

Lemma holds_upd (s : store) (l t : loc) (c c' : cell) :
  holds s l c -> l <> t -> holds (upd s t c') l c.
Proof. intros H N. unfold holds. now rewrite upd_nth_error_neq. Qed.

Lemma holds_app (s : store) (l : loc) (c c' : cell) :
  holds s l c -> holds (s ++ [c']) l c.
Proof.
  intros H. unfold holds. rewrite nth_error_app1; [exact H|].
  eapply nth_error_lt. exact H.
Qed.

Lemma holds_new (s : store) (c : cell) : holds (s ++ [c]) (length s) c.
Proof. unfold holds. now rewrite nth_error_app2, Nat.sub_diag by lia. Qed.

Lemma holds_lt (s : store) (l : loc) (c : cell) : holds s l c -> (l < length s)%nat.
Proof. apply nth_error_lt. Qed.

Lemma bindS_ok {A B : Type} (m : M A) (k : A -> M B) (s s' : store) (a : A) :
  m s = (Ok a, s') -> bindS m k s = k a s'.
Proof. intros H. unfold bindS. now rewrite H. Qed.

Lemma bindS_lift {A B : Type} (r : res A) (k : A -> M B) (s : store) :
  bindS (lift r) k s = match r with Ok a => k a s | Raise e => (Raise e, s) end.
Proof. unfold bindS, lift. destruct r; reflexivity. Qed.

Lemma bindS_alloc {B : Type} (c : cell) (k : loc -> M B) (s : store) :
  bindS (alloc c) k s = k (length s) (s ++ [c]).
Proof. reflexivity. Qed.

Lemma bindS_raise {A B : Type} (m : M A) (k : A -> M B) (s : store) (e : exn) :
  fst (m s) = Raise e -> fst (bindS m k s) = Raise e.
Proof.
  intros H. unfold bindS. destruct (m s) as [[a|e'] s']; simpl in *; congruence.
Qed.

(** A loop followed by the return of the reference it fills. *)
Lemma loop_then_ret {T : Type} (inj : T -> cell) (temp : loc) (s : store)
      (r : res T) (loop : M unit) :
  (temp < length s)%nat ->
  loop_outcome inj temp s r (loop s) ->
  refines inj r (bindS loop (fun _ => ret temp) s).
Proof.
  intros Lt H. unfold loop_outcome, refines in *. destruct r as [t'|e].
  - rewrite (bindS_ok _ _ _ _ _ H). exists temp. split; [reflexivity|].
    simpl. now apply upd_nth_error_eq.
  - now apply bindS_raise.
Qed.

Lemma rebin1d_refines (s : store) (xout xin yin : loc) (xo xi yi : list Q) :
  holds s xout (QVec xo) -> holds s xin (QVec xi) -> holds s yin (QVec yi) ->
  refines FVec (rebin1d xo xi yi) (Mem.rebin1d_st xout xin yin s).
Proof.
  intros Ho Hi Hy. unfold Mem.rebin1d_st, rebin1d.
  rewrite (bindS_ok _ _ _ _ _ (read_qvec_ok _ _ _ Ho)).
  rewrite (bindS_ok _ _ _ _ _ (read_qvec_ok _ _ _ Hi)).
  rewrite bindS_lift.
  destruct (spacings xo xi) as [[di do]|e]; [|reflexivity]. simpl bind.
  destruct (Qltb do di).
  - rewrite (bindS_ok _ _ _ _ _ (read_qvec_ok _ _ _ Hy)), bindS_lift.
    destruct (interp_arr xo xi yi) as [ys|e]; [|reflexivity].
    simpl. exists (length s). split; [reflexivity|]. apply holds_new.
  - rewrite bindS_alloc, bindS_lift.
    destruct (edge_indices xo xi di do) as [ii|e]; [|reflexivity].
    simpl bind. rewrite bindS_alloc.
    set (s2 := (s ++ [FVec (zeros1 (Finite 0) (length xo))]) ++ [QVec ii]).
    assert (Ht : holds s2 (length s) (FVec (zeros1 (Finite 0) (length xo))))
      by (apply holds_app, holds_new).
    assert (Hn : holds s2 (length (s ++ [FVec (zeros1 (Finite 0) (length xo))]))
                       (QVec ii)) by apply holds_new.
    apply loop_then_ret; [eapply holds_lt; exact Ht|].
    apply (forM_fold FVec (length s)
             (fun s' => holds s' xout (QVec xo) /\ holds s' xin (QVec xi) /\
                        holds s' yin (QVec yi) /\
                        holds s' (length (s ++ [FVec (zeros1 (Finite 0) (length xo))]))
                              (QVec ii))).
    + intros s' c (H1 & H2 & H3 & H4).
      pose proof (holds_lt _ _ _ Ho). pose proof (holds_lt _ _ _ Hi).
      pose proof (holds_lt _ _ _ Hy).
      repeat split; apply holds_upd; trivial; try lia.
      rewrite length_app. simpl. lia.
    + intros s' t i (H1 & H2 & H3 & H4) Ht'. unfold loop_outcome.
      rewrite (bindS_ok _ _ _ _ _ (read_qvec_ok _ _ _ H4)).
      rewrite (bindS_ok _ _ _ _ _ (read_qvec_ok _ _ _ H1)).
      rewrite (bindS_ok _ _ _ _ _ (read_qvec_ok _ _ _ H2)).
      rewrite bindS_lift.
      destruct (bin_box ii (len xo) (len xi) i) as [b|e]; [|reflexivity].
      simpl bind.
      rewrite (bindS_ok _ _ _ _ _ (read_qvec_ok _ _ _ H3)), bindS_lift.
      destruct (bin_value yi b) as [v|e]; [|reflexivity]. simpl bind.
      rewrite (bindS_ok _ _ _ _ _ (read_fvec_ok _ _ _ Ht')), bindS_lift.
      destruct (setitem t i v) as [t'|e]; reflexivity.
    + repeat split; try (apply holds_app, holds_app; assumption). exact Hn.
    + exact Ht.
Qed.

(** A loop on the planes of a cube object, followed by the return of its
    reference. *)
Lemma loop_then_ret_cube (s1 s2 : nat) (temp : loc) (s : store)
      (r : res (list (plane fnum))) (loop : M unit) :
  (temp < length s)%nat ->
  loop_outcome (fun ps => FCube (mkArray3 s1 s2 ps)) temp s r (loop s) ->
  refines FCube (ps <- r ;; Ok (mkArray3 s1 s2 ps))
          (bindS loop (fun _ => ret temp) s).
Proof.
  intros Lt H. unfold loop_outcome, refines in *. destruct r as [t'|e]; simpl.
  - rewrite (bindS_ok _ _ _ _ _ H). exists temp. split; [reflexivity|].
    simpl. now apply upd_nth_error_eq.
  - now apply bindS_raise.
Qed.

Lemma rebin_cube_1d_refines (s : store) (xout xin cube : loc)
      (xo xi : list Q) (cb : array3 Q) :
  holds s xout (QVec xo) -> holds s xin (QVec xi) -> holds s cube (QCube cb) ->
  refines FCube (rebin_cube_1d xo xi cb) (rebin_cube_1d_st xout xin cube s).
Proof.
  intros Ho Hi Hc. unfold rebin_cube_1d_st, rebin_cube_1d.
  rewrite (bindS_ok _ _ _ _ _ (read_qvec_ok _ _ _ Ho)).
  rewrite (bindS_ok _ _ _ _ _ (read_qvec_ok _ _ _ Hi)).
  rewrite bindS_lift.
  destruct (spacings xo xi) as [[di do]|e]; [|reflexivity]. simpl bind.
  rewrite (bindS_ok _ _ _ _ _ (read_qcube_ok _ _ _ Hc)), bindS_alloc.
  set (zeros := repeat (zeros2 (Finite 0) (shape1 cb) (shape2 cb)) (length xo)).
  set (s1 := s ++ [FCube (mkArray3 (shape1 cb) (shape2 cb) zeros)]).
  assert (Ht : holds s1 (length s) (FCube (mkArray3 (shape1 cb) (shape2 cb) zeros)))
    by apply holds_new.
  pose proof (holds_lt _ _ _ Ho) as Lo. pose proof (holds_lt _ _ _ Hi) as Li.
  pose proof (holds_lt _ _ _ Hc) as Lc.
  destruct (Qltb do di).
  - apply loop_then_ret_cube; [eapply holds_lt; exact Ht|].
    apply (forM_fold (fun ps => FCube (mkArray3 (shape1 cb) (shape2 cb) ps))
             (length s)
             (fun s' => holds s' xout (QVec xo) /\ holds s' xin (QVec xi) /\
                        holds s' cube (QCube cb))).
    + intros s' c (H1 & H2 & H3).
      repeat split; apply holds_upd; trivial; lia.
    + intros s' t i I' Ht'.
      apply (forM_fold (fun ps => FCube (mkArray3 (shape1 cb) (shape2 cb) ps))
               (length s)
               (fun s' => holds s' xout (QVec xo) /\ holds s' xin (QVec xi) /\
                          holds s' cube (QCube cb))); trivial.
      * intros s'' c (H1 & H2 & H3).
        repeat split; apply holds_upd; trivial; lia.
      * intros s'' t' j (H1 & H2 & H3) Ht''. unfold loop_outcome.
        rewrite (bindS_ok _ _ _ _ _ (read_qvec_ok _ _ _ H1)).
        rewrite (bindS_ok _ _ _ _ _ (read_qvec_ok _ _ _ H2)).
        rewrite (bindS_ok _ _ _ _ _ (read_qcube_ok _ _ _ H3)), bindS_lift.
        destruct (interp_arr xo xi (column 0 (planes cb) j i)) as [vals|e];
          [|reflexivity].
        simpl bind.
        rewrite (bindS_ok _ _ _ _ _ (read_fcube_ok _ _ _ Ht'')). reflexivity.
    + repeat split; apply holds_app; assumption.
    + exact Ht.
  - rewrite bindS_lift.
    destruct (edge_indices xo xi di do) as [ii|e]; [|reflexivity].
    simpl bind. rewrite bindS_alloc.
    apply loop_then_ret_cube.
    { rewrite length_app. simpl. apply holds_lt in Ht. lia. }
    apply (forM_fold (fun ps => FCube (mkArray3 (shape1 cb) (shape2 cb) ps))
             (length s)
             (fun s' => holds s' xout (QVec xo) /\ holds s' xin (QVec xi) /\
                        holds s' cube (QCube cb) /\
                        holds s' (length s1) (QVec ii))).
    + intros s' c (H1 & H2 & H3 & H4).
      repeat split; apply holds_upd; trivial; try lia.
      unfold s1. rewrite length_app. simpl. lia.
    + intros s' t i (H1 & H2 & H3 & H4) Ht'. unfold loop_outcome.
      rewrite (bindS_ok _ _ _ _ _ (read_qvec_ok _ _ _ H4)).
      rewrite (bindS_ok _ _ _ _ _ (read_qvec_ok _ _ _ H1)).
      rewrite (bindS_ok _ _ _ _ _ (read_qvec_ok _ _ _ H2)).
      rewrite bindS_lift.
      destruct (bin_box ii (len xo) (len xi) i) as [b|e]; [|reflexivity].
      simpl bind.
      rewrite (bindS_ok _ _ _ _ _ (read_qcube_ok _ _ _ H3)), bindS_lift.
      destruct (bin_plane cb b) as [p|e]; [|reflexivity]. simpl bind.
      rewrite (bindS_ok _ _ _ _ _ (read_fcube_ok _ _ _ Ht')), bindS_lift.
      simpl planes.
      destruct (setitem t i p) as [t'|e]; reflexivity.
    + repeat split; try (apply holds_app, holds_app; assumption).
      apply holds_new.
    + apply holds_app. exact Ht.
Qed.

(** One loop of the planar rebinner against [box_pass]. *)
Lemma box_loop_outcome (s : store) (src out : loc) (view : array2 Q -> array2 Q)
      (a o : array2 Q) (n1 : Z) (bx : Q) (n : Z) :
  holds s src (QMat a) -> holds s out (QMat o) -> src <> out ->
  match box_pass (view a) n1 bx n o with
  | Ok o' => box_loop src view n1 bx n out s = (Ok tt, upd s out (QMat o'))
  | Raise e => fst (box_loop src view n1 bx n out s) = Raise e
  end.
Proof.
  intros Ha Ho N. unfold box_pass, box_loop.
  pose proof (forM_fold (fun rs => QMat (mkArray2 (ncols o) rs)) out
                (fun s' => holds s' src (QMat a))
                (fun i =>
                   a <~ read_qmat src ;;
                   v <~ lift (line_value (view a) (line_box n1 bx i)) ;;
                   o <~ read_qmat out ;;
                   rs <~ lift (setitem (rows o) i v) ;;
                   write out (QMat (mkArray2 (ncols o) rs)))
                (fun out i => v <- line_value (view a) (line_box n1 bx i) ;;
                              setitem out i v)
                (indices (Z.to_nat n))) as F.
  unfold loop_outcome in F.
  specialize (F (fun s' c H => holds_upd s' src out (QMat a) c H N)).
  assert (B : forall s' t i, holds s' src (QMat a) ->
              nth_error s' out = Some (QMat (mkArray2 (ncols o) t)) ->
              match (v <- line_value (view a) (line_box n1 bx i) ;; setitem t i v) with
              | Ok t' =>
                  (a0 <~ read_qmat src ;;
                   v <~ lift (line_value (view a0) (line_box n1 bx i)) ;;
                   o0 <~ read_qmat out ;;
                   rs <~ lift (setitem (rows o0) i v) ;;
                   write out (QMat (mkArray2 (ncols o0) rs))) s'
                  = (Ok tt, upd s' out (QMat (mkArray2 (ncols o) t')))
              | Raise e =>
                  fst ((a0 <~ read_qmat src ;;
                        v <~ lift (line_value (view a0) (line_box n1 bx i)) ;;
                        o0 <~ read_qmat out ;;
                        rs <~ lift (setitem (rows o0) i v) ;;
                        write out (QMat (mkArray2 (ncols o0) rs))) s')
                  = Raise e
              end).
  { intros s' t i H1 H2.
    rewrite (bindS_ok _ _ _ _ _ (read_qmat_ok _ _ _ H1)), bindS_lift.
    destruct (line_value (view a) (line_box n1 bx i)) as [v|e]; [|reflexivity].
    simpl bind.
    rewrite (bindS_ok _ _ _ _ _ (read_qmat_ok _ _ _ H2)), bindS_lift.
    simpl rows. destruct (setitem t i v) as [t'|e]; reflexivity. }
  specialize (F B s (rows o) Ha).
  assert (E : QMat (mkArray2 (ncols o) (rows o)) = QMat o) by now destruct o.
  rewrite E in F. specialize (F Ho).
  destruct (foldM _ (indices (Z.to_nat n)) (rows o)) as [rs|e]; exact F.
Qed.

Lemma frebin2d_refines (s : store) (array : loc) (a : array2 Q) (shape : Z * Z) :
  holds s array (QMat a) ->
  refines FMat (frebin2d a shape) (frebin2d_st array shape s).
Proof.
  intros Ha. unfold frebin2d_st, frebin2d.
  rewrite (bindS_ok _ _ _ _ _ (read_qmat_ok _ _ _ Ha)), bindS_lift.
  destruct (py_div _ (inject_Z (fst shape))) as [xbox|e]; [|reflexivity].
  simpl bind. rewrite bindS_lift.
  destruct (py_div _ (inject_Z (snd shape))) as [ybox|e]; [|reflexivity].
  simpl bind. rewrite bindS_lift.
  destruct (np_zeros2 (snd shape) _) as [z|e]; [|reflexivity].
  simpl bind. rewrite bindS_alloc.
  pose proof (holds_lt _ _ _ Ha) as La.
  pose proof (box_loop_outcome (s ++ [QMat z]) array (length s) (fun a => a)
                a z (len (rows a) - 1) ybox (snd shape)
                (holds_app _ _ _ _ Ha) (holds_new _ _) ltac:(lia)) as P1.
  destruct (box_pass a (len (rows a) - 1) ybox (snd shape) z) as [temp|e];
    [|now apply bindS_raise].
  rewrite (bindS_ok _ _ _ _ _ P1). simpl bind. rewrite bindS_lift.
  destruct (np_zeros2 (fst shape) (snd shape)) as [z'|e]; [|reflexivity].
  simpl bind. rewrite bindS_alloc.
  set (s1 := upd (s ++ [QMat z]) (length s) (QMat temp)).
  assert (L1 : length s1 = S (length s)).
  { unfold s1. rewrite upd_length, length_app. simpl. lia. }
  assert (Ht : holds s1 (length s) (QMat temp)).
  { apply upd_nth_error_eq. rewrite length_app. simpl. lia. }
  pose proof (box_loop_outcome (s1 ++ [QMat z']) (length s) (length s1) transpose
                temp z' (Z.of_nat (ncols a) - 1) xbox (fst shape)
                (holds_app _ _ _ _ Ht) (holds_new _ _) ltac:(lia)) as P2.
  destruct (box_pass (transpose temp) (Z.of_nat (ncols a) - 1) xbox (fst shape) z')
    as [result|e]; [|now apply bindS_raise].
  rewrite (bindS_ok _ _ _ _ _ P2).
  assert (Hr : holds (upd (s1 ++ [QMat z']) (length s1) (QMat result))
                     (length s1) (QMat result)).
  { apply upd_nth_error_eq. rewrite length_app. simpl. lia. }
  rewrite (bindS_ok _ _ _ _ _ (read_qmat_ok _ _ _ Hr)).
  simpl. eexists. split; [reflexivity|]. apply holds_new.
Qed.

End Refinement.

(** ** The same calls in binary64 *)

Section Binary64.

Import Floats.PrimFloat.
Local Open Scope float_scope.

(** C6 as stated fails in binary64: on the grids [xin = [0, 1, 10, 11]] and
    [xout = [0, 1, 2, 3]] the third bin lies inside input pixel 1, where
    [rebin1d] takes its one-pixel branch and returns [3] for the constant
    spectrum 3, while [rebin_cube_1d], which has the general formula only,
    returns [2.999999999999996] at every spatial position. *)
Lemma cube_is_pixelwise_rebin1d_counterexample :
  exists ys c,
    F64.rebin1d [0; 1; 2; 3] [0; 1; 10; 11] [3; 3; 3; 3] = F64.Ok ys /\
    F64.rebin_cube_1d [0; 1; 2; 3] [0; 1; 10; 11]
      (mkArray3 2 2 (map (fun v => [[v; v]; [v; v]]) [3; 3; 3; 3]))
    = F64.Ok c /\
    nth 2 ys nan = 3 /\
    nth 2 (column nan (planes c) 0 1) nan = 0x1.7fffffffffff7p+1 /\
    ltb (nth 2 (column nan (planes c) 0 1) nan) (nth 2 ys nan) = true.
Proof.
  do 2 eexists. split; [vm_compute; reflexivity|].
  split; [vm_compute; reflexivity|].
  repeat split; vm_compute; reflexivity.
Qed.

(** In binary64 a constant series rebinned onto its own grid comes back
    changed in its last digit: [0.1] on the grid [[0, 1, 2]] gives
    [[0.1, 0.10000000000000002, 0.10000000000000002]]. *)
Lemma own_grid_binary64 :
  F64.rebin1d [0; 1; 2] [0; 1; 2]
    [0x1.999999999999ap-4; 0x1.999999999999ap-4; 0x1.999999999999ap-4]
  = F64.Ok [0x1.999999999999ap-4; 0x1.999999999999bp-4; 0x1.999999999999bp-4].
Proof. vm_compute. reflexivity. Qed.

(** In binary64 a first output coordinate one rounding step below the last
    input coordinate gets the index of the last input point, and line 41
    raises as it does for [xout[0] >= xin[-1]]; over the rationals the same
    call returns. *)
Lemma rounded_index_binary64 :
  F64.rebin1d [0x1.fffffffffffffp-1; 2] [-1; 0; 1] [1; 2; 3]
  = F64.Raise F64.IndexError /\
  F64.rebin_cube_1d [0x1.fffffffffffffp-1; 2] [-1; 0; 1]
    (mkArray3 1 1 [[[1]]; [[2]]; [[3]]])
  = F64.Raise F64.IndexError /\
  exists ys,
    rebin1d [(9007199254740991 # 9007199254740992)%Q; 2%Q] [(-1)%Q; 0%Q; 1%Q]
            [1%Q; 2%Q; 3%Q] = Ok ys.
Proof.
  split; [vm_compute; reflexivity|]. split; [vm_compute; reflexivity|].
  eexists. vm_compute. reflexivity.
Qed.

(** In binary64 the two edges of a bin inside the input grid can get the
    same index, and the bin is [nan]: on [xin = [0, 1, 1e17]] the edges
    [1.05] and [2.15] both get index 1.  Over the rationals the bin is
    finite. *)
Lemma collapsed_edges_binary64 :
  F64.rebin1d [0.5; 0x1.999999999999ap+0; 0x1.599999999999ap+1]
              [0; 1; 0x1.6345785d8ap+56] [1; 2; 3]
  = F64.Ok [1; nan; nan] /\
  exists ys,
    rebin1d [(1 # 2)%Q; (16 # 10)%Q; (27 # 10)%Q]
            [0%Q; 1%Q; 100000000000000000%Q] [1%Q; 2%Q; 3%Q] = Ok ys /\
    nth 1 ys NonFinite <> NonFinite.
Proof.
  split; [vm_compute; reflexivity|].
  eexists. split; [vm_compute; reflexivity|]. discriminate.
Qed.

(** [throughput *= t] over the parts in list order, at one wavelength: in
    binary64 the factors [0.1, 0.2, 0.3] give [0.006000000000000001] and
    the same factors in the opposite order [0.006]. *)
Lemma product_order_binary64 :
  fold_left mul [0x1.999999999999ap-4; 0x1.999999999999ap-3;
                 0x1.3333333333333p-2] 1
  = 0x1.89374bc6a7efbp-8 /\
  fold_left mul [0x1.3333333333333p-2; 0x1.999999999999ap-3;
                 0x1.999999999999ap-4] 1
  = 0x1.89374bc6a7efap-8.
Proof. split; vm_compute; reflexivity. Qed.

End Binary64.

(** * Further properties of the rebinning functions *)

(** ** The box sum as an integral of a step function *)

Lemma prefix_succ (y : list Q) (k : nat) :
  np_sum (firstn (S k) y) == np_sum (firstn k y) + nth k y 0.
Proof.
  revert k. induction y as [|a y IH]; intros k.
  - destruct k; simpl; ring.
  - destruct k as [|k]; [simpl; ring|].
    change (np_sum (firstn (S (S k)) (a :: y))) with (a + np_sum (firstn (S k) y)).
    change (np_sum (firstn (S k) (a :: y))) with (a + np_sum (firstn k y)).
    change (nth (S k) (a :: y) 0) with (nth k y 0).
    rewrite IH. ring.
Qed.

Lemma run_sum (y : list Q) (a m : nat) :
  np_sum (map (fun k => nth k y 0) (seq a m))
  == np_sum (firstn (a + m) y) - np_sum (firstn a y).
Proof.
  induction m as [|m IH].
  - rewrite Nat.add_0_r. simpl. ring.
  - rewrite seq_S, map_app, np_sum_app, IH.
    replace (a + S m)%nat with (S (a + m)) by lia.
    rewrite prefix_succ. simpl. ring.
Qed.

Lemma numerator_prefix (y : list Q) (b : box) (n : nat) :
  box_in_bounds b n -> length y = n ->
  numerator y b ==
  np_sum (firstn (S (Z.to_nat (istop b))) y)
  - np_sum (firstn (Z.to_nat (istart b)) y)
  - frac1 b * nth (Z.to_nat (istart b)) y 0
  - frac2 b * nth (Z.to_nat (istop b)) y 0.
Proof.
  intros (B1 & B2 & B3) L. unfold numerator.
  destruct (istart b =? istop b)%Z eqn:E.
  - apply Z.eqb_eq in E. rewrite <- E. rewrite prefix_succ. ring.
  - rewrite (slice_range 0 y) by (unfold len; lia).
    rewrite run_sum.
    replace (Z.to_nat (istart b) + Z.to_nat (istop b + 1 - istart b))%nat
      with (S (Z.to_nat (istop b))) by lia.
    reflexivity.
Qed.

Lemma floor_of (r : Q) (a : Z) :
  inject_Z a <= r -> r < inject_Z a + 1 -> Qfloor r = a.
Proof.
  intros H1 H2.
  pose proof (Qfloor_le r) as F1. pose proof (Qlt_floor r) as F2.
  rewrite inject_Z_plus in F2. change (inject_Z 1) with 1 in F2.
  assert (A : (a < Qfloor r + 1)%Z).
  { apply inject_Z_lt_inv. rewrite inject_Z_plus. change (inject_Z 1) with 1 in *. lra. }
  assert (B : (Qfloor r < a + 1)%Z).
  { apply inject_Z_lt_inv. rewrite inject_Z_plus. change (inject_Z 1) with 1 in *. lra. }
  lia.
Qed.

Lemma numerator_integral (y : list Q) (b : box) (n : nat) :
  length y = n ->
  0 <= rstart b -> rstart b <= rstop b -> rstop b <= inject_Z (Z.of_nat n) ->
  rstart b < inject_Z (Z.of_nat n) ->
  istart b = py_int (rstart b) ->
  istop b = Z.min (py_int (rstop b)) (Z.of_nat n - 1) ->
  numerator y b == step_integral y (rstop b) - step_integral y (rstart b).
Proof.
  intros L R0 RO RN RS Is It.
  pose proof (py_int_le (rstart b) R0) as A1.
  pose proof (py_int_lt (rstart b) R0) as A2.
  pose proof (py_int_nonneg (rstart b) R0) as A3.
  assert (R0' : 0 <= rstop b) by lra.
  pose proof (py_int_le (rstop b) R0') as E1.
  pose proof (py_int_lt (rstop b) R0') as E2.
  pose proof (py_int_mono (rstart b) (rstop b) R0 RO) as AE.
  assert (A4 : (py_int (rstart b) < Z.of_nat n)%Z)
    by (apply inject_Z_lt_inv; lra).
  assert (B : box_in_bounds b n) by (unfold box_in_bounds; lia).
  rewrite (numerator_prefix y b n B L).
  unfold step_integral, frac1, frac2.
  rewrite <- !py_int_floor by lra. rewrite <- Is.
  destruct (Z_le_gt_dec (py_int (rstop b)) (Z.of_nat n - 1)) as [Le|Gt].
  - assert (It' : istop b = py_int (rstop b)) by lia.
    rewrite <- It'. rewrite prefix_succ. ring.
  - assert (It' : istop b = (Z.of_nat n - 1)%Z) by lia.
    assert (En : py_int (rstop b) = Z.of_nat n).
    { assert (py_int (rstop b) <= Z.of_nat n)%Z by (apply inject_Z_le_inv; lra). lia. }
    rewrite En, It'. rewrite Nat2Z.id.
    replace (S (Z.to_nat (Z.of_nat n - 1))) with n by lia.
    rewrite En in E1.
    assert (Rn : rstop b == inject_Z (Z.of_nat n)) by lra.
    rewrite Rn.
    replace (Z.of_nat n - 1)%Z with (Z.of_nat n + -1)%Z by lia.
    rewrite inject_Z_plus. change (inject_Z (-1)) with (-(1)). ring.
Qed.

Lemma step_integral_compat (y : list Q) (r r' : Q) :
  r == r' -> step_integral y r == step_integral y r'.
Proof.
  intros E. unfold step_integral. rewrite (Qfloor_comp r r' E). now rewrite E.
Qed.

(** ** Bounds of the two formulas *)

Lemma np_sum_between (f : nat -> Q) (l : list nat) (lo hi : Q) :
  (forall k, In k l -> lo <= f k /\ f k <= hi) ->
  lo * inject_Z (Z.of_nat (length l)) <= np_sum (map f l) /\
  np_sum (map f l) <= hi * inject_Z (Z.of_nat (length l)).
Proof.
  induction l as [|a l IH]; intros H.
  - change (inject_Z (Z.of_nat (length (@nil nat)))) with 0.
    change (np_sum (map f [])) with 0. split; lra.
  - change (length (a :: l)) with (S (length l)). rewrite nat_succ_Q.
    destruct (H a (or_introl eq_refl)) as [H1 H2].
    destruct IH as [I1 I2]; [intros k Hk; apply H; now right|].
    change (np_sum (map f (a :: l))) with (f a + np_sum (map f l)).
    split; lra.
Qed.

(** A box sum is a weighted sum with non-negative weights: it lies between
    the width times any lower and any upper bound of the series. *)
Lemma numerator_between (y : list Q) (b : box) (n : nat) (lo hi : Q) :
  box_in_bounds b n -> length y = n ->
  frac1 b <= 1 -> frac2 b <= 1 -> rstart b <= rstop b ->
  (forall k, (k < n)%nat -> lo <= nth k y 0 /\ nth k y 0 <= hi) ->
  lo * (rstop b - rstart b) <= numerator y b /\
  numerator y b <= hi * (rstop b - rstart b).
Proof.
  intros (B1 & B2 & B3) L F1 F2 RO H.
  destruct (Z.eq_dec (istart b) (istop b)) as [E|N].
  - rewrite (numerator_single y b E).
    destruct (H (Z.to_nat (istart b)) ltac:(lia)) as [H1 H2].
    set (v := nth (Z.to_nat (istart b)) y 0) in *.
    set (w := rstop b - rstart b) in *.
    assert (W : 0 <= w) by (unfold w; lra).
    assert (P1 : 0 <= w * (v - lo)) by (apply Qmult_le_0_compat; lra).
    assert (P2 : 0 <= w * (hi - v)) by (apply Qmult_le_0_compat; lra).
    split; lra.
  - unfold numerator.
    replace (istart b =? istop b)%Z with false by (symmetry; now apply Z.eqb_neq).
    rewrite (slice_range 0 y) by (unfold len; lia).
    set (a := Z.to_nat (istart b)).
    set (m := Z.to_nat (istop b - istart b - 1)).
    replace (Z.to_nat (istop b + 1 - istart b)) with (S (S m)) by (unfold m; lia).
    replace (Z.to_nat (istop b)) with (S (a + m)) by (unfold a, m; lia).
    rewrite seq_ends. simpl map. rewrite map_app. simpl np_sum.
    rewrite np_sum_app. simpl np_sum.
    destruct (np_sum_between (fun k => nth k y 0) (seq (S a) m) lo hi) as [S1 S2].
    { intros k Hk. apply in_seq in Hk. apply H. unfold a, m in *. lia. }
    rewrite length_seq in S1, S2.
    destruct (H a ltac:(unfold a; lia)) as [Ha1 Ha2].
    destruct (H (S (a + m)) ltac:(unfold a, m; lia)) as [Hb1 Hb2].
    set (va := nth a y 0) in *. set (vb := nth (S (a + m)) y 0) in *.
    set (s := np_sum (map (fun k => nth k y 0) (seq (S a) m))) in *.
    assert (W : rstop b - rstart b
                == inject_Z (Z.of_nat m) + (1 - frac1 b) + (1 - frac2 b)).
    { unfold frac1, frac2, m. rewrite Z2Nat.id by lia.
      replace (istop b - istart b - 1)%Z with (istop b + - istart b + -1)%Z by lia.
      rewrite !inject_Z_plus, inject_Z_opp. change (inject_Z (-1)) with (-(1)). ring. }
    rewrite W.
    assert (P1 : 0 <= (1 - frac1 b) * (va - lo)) by (apply Qmult_le_0_compat; lra).
    assert (P2 : 0 <= (1 - frac1 b) * (hi - va)) by (apply Qmult_le_0_compat; lra).
    assert (P3 : 0 <= (1 - frac2 b) * (vb - lo)) by (apply Qmult_le_0_compat; lra).
    assert (P4 : 0 <= (1 - frac2 b) * (hi - vb)) by (apply Qmult_le_0_compat; lra).
    split; lra.
Qed.

Lemma box_of_fracs (ii : list Q) (nin k : nat) :
  edges_ok ii nin -> (k < length ii)%nat ->
  frac1 (box_of ii nin k) <= 1 /\ frac2 (box_of ii nin k) <= 1.
Proof.
  intros E Hk.
  pose proof (box_of_rstart_nonneg ii nin k E Hk) as R0.
  pose proof (box_of_ordered ii nin k E Hk) as RO.
  set (b := box_of ii nin k) in *.
  assert (Is : istart b = py_int (rstart b)) by reflexivity.
  assert (It : istop b = Z.min (py_int (rstop b)) (Z.of_nat nin - 1)) by reflexivity.
  pose proof (py_int_lt (rstart b) R0).
  pose proof (py_int_le (rstop b) ltac:(lra)).
  assert (inject_Z (istop b) <= inject_Z (py_int (rstop b)))
    by (rewrite <- Zle_Qle; lia).
  unfold frac1, frac2. rewrite Is. split; lra.
Qed.

Lemma np_div_between (x w lo hi : Q) :
  0 <= w -> lo * w <= x -> x <= hi * w ->
  match np_div x w with
  | Finite v => lo <= v /\ v <= hi
  | NonFinite => w == 0
  end.
Proof.
  intros W H1 H2. unfold np_div.
  destruct (Qeq_bool w 0) eqn:E.
  - now apply Qeq_bool_iff in E.
  - assert (N : ~ w == 0) by (intros C; apply Qeq_bool_iff in C; congruence).
    assert (P : 0 < w) by lra.
    split.
    + apply Qle_shift_div_l; lra.
    + apply Qle_shift_div_r; lra.
Qed.

Lemma linear_interp_between (xp fp : list Q) (x v lo hi : Q) :
  xp <> [] -> length fp = length xp ->
  (forall k, (k < length fp)%nat -> lo <= nth k fp 0 /\ nth k fp 0 <= hi) ->
  linear_interp xp fp x v -> lo <= v /\ v <= hi.
Proof.
  intros Ne L H [Lt E | R E | j Hj Lo Hi E].
  - rewrite E. apply H. rewrite L. destruct xp; [congruence|simpl; lia].
  - rewrite E. apply H. rewrite L. destruct xp; [congruence|simpl; lia].
  - destruct (ratio_bounds _ _ _ Lo Hi) as [T1 T2].
    set (t := (x - nth j xp 0) / (nth (S j) xp 0 - nth j xp 0)) in *.
    assert (Ev : v == nth j fp 0 + t * (nth (S j) fp 0 - nth j fp 0)).
    { rewrite E. unfold t. field. lra. }
    destruct (H j ltac:(lia)) as [A1 A2].
    destruct (H (S j) ltac:(lia)) as [B1 B2].
    set (u := nth j fp 0) in *. set (u' := nth (S j) fp 0) in *.
    assert (P1 : 0 <= (1 - t) * (u - lo)) by (apply Qmult_le_0_compat; lra).
    assert (P2 : 0 <= t * (u' - lo)) by (apply Qmult_le_0_compat; lra).
    assert (P3 : 0 <= (1 - t) * (hi - u)) by (apply Qmult_le_0_compat; lra).
    assert (P4 : 0 <= t * (hi - u')) by (apply Qmult_le_0_compat; lra).
    rewrite Ev. split; lra.
Qed.

Lemma rebin1d_range (xout xin yin : list Q) (lo hi : Q) :
  grid xout -> grid xin -> starts_inside xout xin ->
  length yin = length xin ->
  (forall k, (k < length yin)%nat -> lo <= nth k yin 0 /\ nth k yin 0 <= hi) ->
  exists ys,
    rebin1d xout xin yin = Ok ys /\ length ys = length xout /\
    forall k, (k < length xout)%nat ->
      match nth k ys NonFinite with
      | Finite v => lo <= v /\ v <= hi
      | NonFinite => True
      end.
Proof.
  intros Go Gi Hs L H.
  pose proof (select_regime_ok xout xin Go Gi Hs) as R.
  pose proof (grid_nonempty xin Gi) as Ne.
  destruct (Qltb (dx_out xout) (dx_in xout xin)).
  - rewrite (rebin1d_interpolation_total xout xin yin Ne L R).
    eexists. split; [reflexivity|]. split; [now rewrite !length_map|].
    intros k Hk. rewrite map_map.
    rewrite (nth_indep _ NonFinite ((fun x => Finite (interp_val x xin yin)) 0))
      by now rewrite length_map.
    rewrite (map_nth (fun x => Finite (interp_val x xin yin))).
    apply (linear_interp_between xin yin (nth k xout 0)); trivial.
    now apply interp_val_spec.
  - destruct (rebin1d_length xout xin yin Go Gi Hs L) as [ys [Hys Ly]].
    exists ys. split; [exact Hys|]. split; [exact Ly|]. intros k Hk.
    rewrite (rebin1d_box_nth xout xin yin ys k Go Gi L R Hys Hk).
    pose proof (in_i_edges_ok xout xin Gi (proj1 Go)) as E.
    assert (Hk' : (k < length (in_i xout xin))%nat) by now rewrite in_i_length.
    destruct (boxes_ok xout xin k Go Gi Hk) as [_ Bb].
    destruct (box_of_fracs (in_i xout xin) (length xin) k E Hk') as [F1 F2].
    pose proof (box_of_ordered (in_i xout xin) (length xin) k E Hk') as RO.
    destruct (numerator_between yin _ (length xin) lo hi Bb L F1 F2 RO) as [N1 N2].
    { intros j Hj. apply H. lia. }
    set (b := box_of (in_i xout xin) (length xin) k) in *.
    pose proof (np_div_between (numerator yin b) (rstop b - rstart b) lo hi
                  ltac:(lra) N1 N2) as D.
    destruct (np_div (numerator yin b) (rstop b - rstart b)); [exact D|exact I].
Qed.

(** X1. Over exact rationals: on strictly increasing grids of at least two
    points whose first output coordinate lies below the last input
    coordinate, and a series of the input grid's length, [rebin1d] returns,
    and every finite value it returns lies between any lower and any upper
    bound of the input values, in both regimes: interpolation and box
    integration are weighted means with non-negative weights.  In binary64 a
    value can pass a bound in its last digit ([own_grid_binary64]) and the
    call can raise ([rounded_index_binary64]). *)
Theorem rebin1d_within_input_range (xout xin yin : list Q) (lo hi : Q) :
  grid xout -> grid xin -> starts_inside xout xin ->
  length yin = length xin ->
  (forall k, (k < length yin)%nat -> lo <= nth k yin 0 /\ nth k yin 0 <= hi) ->
  exists ys,
    rebin1d xout xin yin = Ok ys /\ length ys = length xout /\
    forall k, (k < length xout)%nat ->
      match nth k ys NonFinite with
      | Finite v => lo <= v /\ v <= hi
      | NonFinite => True
      end.
Proof.
  intros Go Gi Hs L H. now apply rebin1d_range.
Qed.

Lemma rebin1d_within_input_range_witness :
  exists ys,
    rebin1d [0; 2; 4] [0; 1; 2; 3; 4] [1; 5; 2; 4; 3] = Ok ys /\ length ys = 3%nat /\
    forall k, (k < 3)%nat ->
      match nth k ys NonFinite with
      | Finite v => 1 <= v /\ v <= 5
      | NonFinite => True
      end.
Proof.
  apply (rebin1d_within_input_range [0; 2; 4] [0; 1; 2; 3; 4] [1; 5; 2; 4; 3] 1 5).
  - split; [reflexivity|simpl; lia].
  - split; [reflexivity|simpl; lia].
  - reflexivity.
  - reflexivity.
  - intros k Hk. simpl in Hk.
    destruct k as [|[|[|[|[|k]]]]]; simpl; try lia; split; discriminate.
Defined.

(** ** Bins outside the input grid *)

Lemma np_div_nonfinite (x w : Q) : np_div x w = NonFinite <-> w == 0.
Proof.
  unfold np_div. destruct (Qeq_bool w 0) eqn:E.
  - split; [intros _; now apply Qeq_bool_iff|reflexivity].
  - split; [discriminate|].
    intros C. apply Qeq_bool_iff in C. congruence.
Qed.

Section EdgeIndex.

Variable xin : list Q.
Hypothesis G : grid xin.

Let n := length xin.

(** At and left of the first grid point the fractional index is 0. *)
Lemma fidx_left (x : Q) : x <= nth 0 xin 0 -> fidx xin x == 0.
Proof.
  intros Hx. destruct G as [I Ln]. fold n in Ln.
  pose proof (fidx_index_of xin (grid_nonempty xin G) x) as H.
  destruct H as [L E | R E | j Hj Lo Hi E].
  - rewrite E, range_nth by lia. reflexivity.
  - exfalso. fold n in R.
    pose proof (increasing_nth xin 0 (n - 1) I ltac:(fold n; lia)). lra.
  - fold n in Hj.
    destruct j as [|j].
    + apply (inside_form xin 0 x _ Hj Lo Hi) in E. rewrite E.
      setoid_replace (x - nth 0 xin 0) with 0 by lra.
      change (inject_Z (Z.of_nat 0)) with 0. unfold Qdiv. ring.
    + exfalso.
      pose proof (increasing_nth xin 0 (S j) I ltac:(fold n; lia)). lra.
Qed.

(** At and right of the last grid point it is the last index. *)
Lemma fidx_right (x : Q) :
  nth (n - 1) xin 0 <= x -> fidx xin x == inject_Z (Z.of_nat (n - 1)).
Proof.
  intros Hx. destruct G as [I Ln]. fold n in Ln.
  pose proof (fidx_index_of xin (grid_nonempty xin G) x) as H.
  destruct H as [L E | R E | j Hj Lo Hi E].
  - exfalso.
    pose proof (increasing_nth xin 0 (n - 1) I ltac:(fold n; lia)). lra.
  - fold n in E. rewrite E, range_nth by lia. reflexivity.
  - exfalso. fold n in Hj.
    pose proof (increasing_nth_le xin (S j) (n - 1) I ltac:(fold n; lia)). lra.
Qed.

(** Two coordinates have the same fractional index exactly when the interval
    between them misses the inside of the grid. *)
Lemma fidx_equal_iff (x x' : Q) :
  x < x' ->
  (fidx xin x' - fidx xin x == 0 <->
   x' <= nth 0 xin 0 \/ nth (n - 1) xin 0 <= x).
Proof.
  intros Hx. destruct G as [I Ln]. fold n in Ln.
  pose proof (grid_nonempty xin G) as Ne.
  pose proof (fidx_index_of xin Ne) as F.
  split.
  - intros E.
    destruct (Qlt_le_dec (nth 0 xin 0) x') as [A|A]; [|now left].
    destruct (Qlt_le_dec x (nth (n - 1) xin 0)) as [B|B]; [|now right].
    exfalso.
    set (u := Qmax x (nth 0 xin 0)). set (u' := Qmin x' (nth (n - 1) xin 0)).
    pose proof (increasing_nth xin 0 (n - 1) I ltac:(fold n; lia)) as FL.
    assert (U1 : x <= u) by apply Q.le_max_l.
    assert (U2 : nth 0 xin 0 <= u) by apply Q.le_max_r.
    assert (U3 : u' <= x') by apply Q.le_min_l.
    assert (U4 : u' <= nth (n - 1) xin 0) by apply Q.le_min_r.
    assert (U5 : u < u').
    { unfold u, u'. apply Q.max_lub_lt; apply Q.min_glb_lt; lra. }
    pose proof (index_of_mono xin I Ne _ _ _ _ (F x) (F u) U1).
    pose proof (index_of_mono xin I Ne _ _ _ _ (F u') (F x') U3).
    pose proof (index_of_strict xin I Ne _ _ _ _ (F u) (F u') U2 U5 U4).
    lra.
  - intros [A|B].
    + rewrite (fidx_left x'), (fidx_left x) by lra. ring.
    + rewrite (fidx_right x'), (fidx_right x) by lra. ring.
Qed.

End EdgeIndex.

(** X2. Over exact rationals: in the box regime an output bin other than
    the last one is non-finite (numpy's 0/0) exactly when the bin, from its
    left edge [xout[k] - dx_out/2] to the next left edge, lies entirely at or
    left of the first input coordinate or at or right of the last one; the
    last bin, which takes the width of the bin before it, is non-finite
    exactly when that bin is.  In binary64 the two edges of a bin inside the
    grid can get the same index, which gives [nan] as well
    ([collapsed_edges_binary64]). *)
Theorem rebin1d_nan_iff_outside (xout xin yin : list Q) :
  grid xout -> grid xin -> length yin = length xin ->
  select_regime xout xin = Ok BoxIntegration ->
  exists ys,
    rebin1d xout xin yin = Ok ys /\
    (forall k, (S k < length xout)%nat ->
       (nth k ys NonFinite = NonFinite <->
        nth (S k) xout 0 - dx_out xout * (1 # 2) <= nth 0 xin 0 \/
        last xin 0 <= nth k xout 0 - dx_out xout * (1 # 2))) /\
    (nth (length xout - 1) ys NonFinite = NonFinite <->
     nth (length xout - 2) ys NonFinite = NonFinite).
Proof.
  intros Go Gi L R.
  destruct (rebin1d_box_total xout xin yin Go Gi L R) as [_ [ys Hys]].
  exists ys. split; [exact Hys|].
  destruct Go as [Io Lo].
  assert (W : forall k, (S k < length xout)%nat ->
            (nth k ys NonFinite = NonFinite <->
             nth (S k) (in_i xout xin) 0 - nth k (in_i xout xin) 0 == 0)).
  { intros k Hk.
    rewrite (rebin1d_box_nth xout xin yin ys k (conj Io Lo) Gi L R Hys) by lia.
    rewrite np_div_nonfinite. cbn [rstop rstart box_of].
    rewrite in_i_length.
    replace (S k <? length xout)%nat with true
      by (symmetry; now apply Nat.ltb_lt).
    reflexivity. }
  split.
  - intros k Hk. rewrite (W k Hk). rewrite !in_i_nth by lia.
    rewrite last_nth.
    apply (fidx_equal_iff xin Gi).
    pose proof (increasing_nth xout k (S k) Io ltac:(lia)). lra.
  - rewrite (W (length xout - 2)%nat) by lia.
    rewrite (rebin1d_box_nth xout xin yin ys (length xout - 1) (conj Io Lo) Gi L R Hys)
      by lia.
    rewrite np_div_nonfinite. cbn [rstop rstart box_of].
    rewrite in_i_length.
    replace (S (length xout - 1) <? length xout)%nat with false
      by (symmetry; apply Nat.ltb_ge; lia).
    replace (S (length xout - 2)) with (length xout - 1)%nat by lia.
    replace (length xout - 1 - 1)%nat with (length xout - 2)%nat by lia.
    split; intros H; lra.
Qed.

Lemma rebin1d_nan_iff_outside_witness :
  exists ys,
    rebin1d [0; 5; 10; 15] [10; 11; 12] [1; 2; 3] = Ok ys /\
    nth 0 ys NonFinite = NonFinite /\
    nth 2 ys NonFinite <> NonFinite.
Proof.
  destruct (rebin1d_nan_iff_outside [0; 5; 10; 15] [10; 11; 12] [1; 2; 3])
    as (ys & E & H & _).
  - split; [reflexivity|simpl; lia].
  - split; [reflexivity|simpl; lia].
  - reflexivity.
  - reflexivity.
  - exists ys. split; [exact E|]. split.
    + apply (H 0%nat); [simpl; lia|]. left. vm_compute. discriminate.
    + intros C. apply (H 2%nat) in C; [|simpl; lia].
      destruct C as [C|C]; vm_compute in C; apply C; reflexivity.
Defined.

(** ** Flux of the box regime *)

Lemma flux_np_div (x w s : Q) :
  x == s -> (w == 0 -> s == 0) -> flux (np_div x w) w == s.
Proof.
  intros E Z. unfold np_div.
  destruct (Qeq_bool w 0) eqn:Ew.
  - apply Qeq_bool_iff in Ew. simpl. symmetry. now apply Z.
  - assert (N : ~ w == 0) by (intros C; apply Qeq_bool_iff in C; congruence).
    simpl. rewrite E. field. exact N.
Qed.

Lemma telescope (f : nat -> Q) (m : nat) :
  np_sum (map (fun k => f (S k) - f k) (seq 0 m)) == f m - f 0%nat.
Proof.
  induction m as [|m IH]; [simpl; ring|].
  rewrite seq_S, map_app, np_sum_app, IH. simpl. ring.
Qed.

(** The box of a bin that is not the last one: its sum is the integral of
    the step function between the two edge indices. *)
Lemma inner_box_integral (xout xin yin : list Q) (k : nat) :
  grid xout -> grid xin -> length yin = length xin ->
  (S k < length xout)%nat ->
  numerator yin (box_of (in_i xout xin) (length xin) k)
  == step_integral yin (nth (S k) (in_i xout xin) 0)
     - step_integral yin (nth k (in_i xout xin) 0).
Proof.
  intros Go Gi L Hk.
  pose proof (in_i_edges_ok xout xin Gi (proj1 Go)) as E.
  assert (Hk' : (k < length (in_i xout xin))%nat) by (rewrite in_i_length; lia).
  pose proof (box_of_rstart_nonneg _ (length xin) k E Hk') as R0.
  pose proof (box_of_ordered _ (length xin) k E Hk') as RO.
  destruct (in_i_bounds xout xin (S k) Gi Hk) as [_ B2].
  destruct (in_i_bounds xout xin k Gi ltac:(lia)) as [_ B1].
  pose proof (nat_succ_Q (length xin - 1)) as Sn.
  replace (S (length xin - 1)) with (length xin) in Sn by (destruct Gi; lia).
  assert (Rs : rstop (box_of (in_i xout xin) (length xin) k)
               = nth (S k) (in_i xout xin) 0).
  { cbn [rstop box_of]. rewrite in_i_length.
    now replace (S k <? length xout)%nat with true
      by (symmetry; now apply Nat.ltb_lt). }
  rewrite (numerator_integral yin _ (length xin) L R0 RO).
  - rewrite Rs. reflexivity.
  - rewrite Rs. lra.
  - cbn [rstart box_of]. lra.
  - reflexivity.
  - reflexivity.
Qed.

(** X3. In the box regime every output value but the last is the integral
    of the input, seen as a step function that holds [yin[j]] on the index
    interval [[j, j+1)], between the fractional indices of the two edges of
    the bin, divided by the distance of these indices. *)
Theorem rebin1d_bin_is_integral (xout xin yin : list Q) :
  grid xout -> grid xin -> length yin = length xin ->
  select_regime xout xin = Ok BoxIntegration ->
  exists ys,
    rebin1d xout xin yin = Ok ys /\
    forall k, (S k < length xout)%nat ->
      fnum_eq (nth k ys NonFinite)
        (np_div (step_integral yin (nth (S k) (in_i xout xin) 0)
                 - step_integral yin (nth k (in_i xout xin) 0))
                (nth (S k) (in_i xout xin) 0 - nth k (in_i xout xin) 0)).
Proof.
  intros Go Gi L R.
  destruct (rebin1d_box_total xout xin yin Go Gi L R) as [_ [ys Hys]].
  exists ys. split; [exact Hys|]. intros k Hk.
  rewrite (rebin1d_box_nth xout xin yin ys k Go Gi L R Hys) by lia.
  cbn [rstop rstart box_of]. rewrite in_i_length.
  replace (S k <? length xout)%nat with true by (symmetry; now apply Nat.ltb_lt).
  apply np_div_compat. now apply inner_box_integral.
Qed.

Lemma rebin1d_bin_is_integral_witness :
  exists ys,
    rebin1d [0; 2; 4] [0; 1; 2; 3; 4] [1; 5; 2; 4; 3] = Ok ys /\
    fnum_eq (nth 1 ys NonFinite) (Finite (7 # 2)).
Proof.
  destruct (rebin1d_bin_is_integral [0; 2; 4] [0; 1; 2; 3; 4] [1; 5; 2; 4; 3])
    as (ys & E & H).
  - split; [reflexivity|simpl; lia].
  - split; [reflexivity|simpl; lia].
  - reflexivity.
  - reflexivity.
  - exists ys. split; [exact E|].
    specialize (H 1%nat ltac:(simpl; lia)).
    destruct (nth 1 ys NonFinite); vm_compute in H |- *; exact H.
Defined.

(** X4. Flux conservation of the box regime, over exact rationals: the
    output values, each multiplied by the index width of its bin, add up over
    all bins but the last to the integral of the input step function between
    the first and the last left edge. *)
Theorem rebin1d_conserves_flux (xout xin yin : list Q) :
  grid xout -> grid xin -> length yin = length xin ->
  select_regime xout xin = Ok BoxIntegration ->
  exists ys,
    rebin1d xout xin yin = Ok ys /\
    np_sum (map (fun k => flux (nth k ys NonFinite)
                              (nth (S k) (in_i xout xin) 0
                               - nth k (in_i xout xin) 0))
                (seq 0 (length xout - 1)))
    == step_integral yin (nth (length xout - 1) (in_i xout xin) 0)
       - step_integral yin (nth 0 (in_i xout xin) 0).
Proof.
  intros Go Gi L R.
  destruct (rebin1d_box_total xout xin yin Go Gi L R) as [_ [ys Hys]].
  exists ys. split; [exact Hys|].
  rewrite <- (telescope (fun k => step_integral yin (nth k (in_i xout xin) 0))).
  apply np_sum_ext. intros k Hk. apply in_seq in Hk.
  rewrite (rebin1d_box_nth xout xin yin ys k Go Gi L R Hys) by lia.
  cbn [rstop rstart box_of]. rewrite in_i_length.
  replace (S k <? length xout)%nat with true by (symmetry; apply Nat.ltb_lt; lia).
  apply flux_np_div.
  - apply inner_box_integral; trivial. lia.
  - intros Z. rewrite (step_integral_compat yin (nth (S k) (in_i xout xin) 0)
                         (nth k (in_i xout xin) 0)) by lra.
    ring.
Qed.

Lemma rebin1d_conserves_flux_witness :
  exists ys,
    rebin1d [0; 2; 4] [0; 1; 2; 3; 4] [1; 5; 2; 4; 3] = Ok ys /\
    np_sum (map (fun k => flux (nth k ys NonFinite)
                              (nth (S k) (in_i [0; 2; 4] [0; 1; 2; 3; 4]) 0
                               - nth k (in_i [0; 2; 4] [0; 1; 2; 3; 4]) 0))
                (seq 0 2))
    == 1 + 5 + 2.
Proof.
  destruct (rebin1d_conserves_flux [0; 2; 4] [0; 1; 2; 3; 4] [1; 5; 2; 4; 3])
    as (ys & E & H).
  - split; [reflexivity|simpl; lia].
  - split; [reflexivity|simpl; lia].
  - reflexivity.
  - reflexivity.
  - exists ys. split; [exact E|]. simpl length in H. simpl Nat.sub in H.
    rewrite H. vm_compute. reflexivity.
Defined.

(** ** A series longer than the input grid *)

Lemma bin_value_app (yin extra : list Q) (b : box) :
  box_in_bounds b (length yin) ->
  bin_value (yin ++ extra) b = bin_value yin b.
Proof.
  intros B. pose proof B as (B1 & B2 & B3).
  assert (B' : box_in_bounds b (length yin)) by exact B.
  unfold bin_value.
  rewrite (getitem_ok (yin ++ extra) (istart b) 0)
    by (unfold len; rewrite length_app; lia).
  rewrite (getitem_ok (yin ++ extra) (istop b) 0)
    by (unfold len; rewrite length_app; lia).
  rewrite (getitem_ok yin (istart b) 0) by (unfold len; lia).
  rewrite (getitem_ok yin (istop b) 0) by (unfold len; lia).
  rewrite !app_nth1 by lia.
  rewrite (slice_range 0 (yin ++ extra))
    by (unfold len; rewrite ?length_app; lia).
  rewrite (slice_range 0 yin) by (unfold len; lia).
  replace (map (fun k => nth k (yin ++ extra) 0)
               (seq (Z.to_nat (istart b)) (Z.to_nat (istop b + 1 - istart b))))
    with (map (fun k => nth k yin 0)
              (seq (Z.to_nat (istart b)) (Z.to_nat (istop b + 1 - istart b)))).
  - reflexivity.
  - apply map_ext_in. intros k Hk. apply in_seq in Hk.
    rewrite app_nth1 by lia. reflexivity.
Qed.

Lemma mapM_ext_in {A B : Type} (f g : A -> res B) (l : list A) :
  (forall a, In a l -> f a = g a) -> mapM f l = mapM g l.
Proof.
  induction l as [|a l IH]; intros H; [reflexivity|].
  simpl. rewrite (H a) by now left.
  rewrite IH; [reflexivity|]. intros x Hx. apply H. now right.
Qed.

(** X7. A series longer than the input grid is refused with [ValueError]
    in the interpolation regime, where [np.interp] compares the lengths, but
    accepted in the box regime: the values beyond the grid's length are never
    read and the result is that of the series cut to the grid's length. *)
Theorem rebin1d_series_too_long (xout xin yin extra : list Q) :
  grid xout -> grid xin -> starts_inside xout xin ->
  length yin = length xin -> extra <> [] ->
  (dx_out xout < dx_in xout xin ->
   rebin1d xout xin (yin ++ extra) = Raise ValueError) /\
  (~ dx_out xout < dx_in xout xin ->
   rebin1d xout xin (yin ++ extra) = rebin1d xout xin yin /\
   exists ys, rebin1d xout xin yin = Ok ys).
Proof.
  intros Go Gi Hs L Ne.
  pose proof (select_regime_ok xout xin Go Gi Hs) as R.
  assert (Lx : length (yin ++ extra) <> length xin).
  { rewrite length_app. destruct extra; [congruence|simpl; lia]. }
  split.
  - intros Lt. apply Qltb_lt in Lt. rewrite Lt in R.
    rewrite (rebin1d_interpolation xout xin _ R).
    unfold interp_arr, interp_check.
    replace (length xin =? 0)%nat with false
      by (symmetry; apply Nat.eqb_neq; destruct Gi; lia).
    replace (length (yin ++ extra) =? length xin)%nat with false
      by (symmetry; now apply Nat.eqb_neq).
    reflexivity.
  - intros Ge. apply Qnot_lt_le, Qltb_ge in Ge. rewrite Ge in R.
    destruct (rebin1d_box_total xout xin yin Go Gi L R) as [E T].
    split; [|exact T]. rewrite E.
    rewrite (rebin1d_box xout xin _ R), (box_regime_edges xout xin Gi R).
    simpl bind. apply mapM_ext_in. intros i Hi.
    apply indices_In in Hi. destruct Hi as [k [Hk ->]].
    destruct (boxes_ok xout xin k Go Gi Hk) as [-> B]. simpl bind.
    apply bin_value_app. now rewrite L.
Qed.

Lemma rebin1d_series_too_long_witness :
  rebin1d [0; 1 # 2; 1] [0; 1; 2] ([5; 6; 7] ++ [8]) = Raise ValueError /\
  rebin1d [0; 2; 4] [0; 1; 2; 3; 4] ([1; 5; 2; 4; 3] ++ [9])
  = rebin1d [0; 2; 4] [0; 1; 2; 3; 4] [1; 5; 2; 4; 3].
Proof.
  split.
  - apply (rebin1d_series_too_long [0; 1 # 2; 1] [0; 1; 2] [5; 6; 7] [8]).
    + split; [reflexivity|simpl; lia].
    + split; [reflexivity|simpl; lia].
    + reflexivity.
    + reflexivity.
    + discriminate.
    + reflexivity.
  - apply (rebin1d_series_too_long [0; 2; 4] [0; 1; 2; 3; 4] [1; 5; 2; 4; 3] [9]).
    + split; [reflexivity|simpl; lia].
    + split; [reflexivity|simpl; lia].
    + reflexivity.
    + reflexivity.
    + discriminate.
    + vm_compute. discriminate.
Defined.

(** ** Linearity in the values *)

Section Superposition.

Variables (a : Q) (y1 y2 : list Q).
Hypothesis same_length : length y1 = length y2.

Let y := vadd (vscale a y1) y2.

Lemma comb_length : length y = length y1.
Proof.
  unfold y, vadd, vscale.
  rewrite map2_length by (rewrite length_map; exact same_length).
  apply length_map.
Qed.

Lemma comb_nth (k : nat) : nth k y 0 == a * nth k y1 0 + nth k y2 0.
Proof.
  destruct (Nat.lt_ge_cases k (length y1)) as [Lt|Ge].
  - unfold y, vadd. rewrite (map2_nth Qplus _ _ k 0 0 0)
      by (unfold vscale; rewrite ?length_map; lia).
    unfold vscale.
    rewrite (nth_indep (map (Qmult a) y1) 0 (a * 0)) by (rewrite length_map; lia).
    rewrite (map_nth (Qmult a)). reflexivity.
  - rewrite !nth_overflow by (rewrite ?comb_length; lia). ring.
Qed.

Lemma np_sum_comb (l : list nat) :
  np_sum (map (fun k => nth k y 0) l)
  == a * np_sum (map (fun k => nth k y1 0) l) + np_sum (map (fun k => nth k y2 0) l).
Proof.
  induction l as [|k l IH]; [simpl; ring|].
  simpl. rewrite IH, comb_nth. ring.
Qed.

Lemma numerator_comb (b : box) :
  box_in_bounds b (length y1) ->
  numerator y b == a * numerator y1 b + numerator y2 b.
Proof.
  intros (B1 & B2 & B3). unfold numerator.
  destruct (istart b =? istop b)%Z.
  - rewrite comb_nth. ring.
  - rewrite (slice_range 0 y) by (unfold len; rewrite ?comb_length; lia).
    rewrite (slice_range 0 y1) by (unfold len; lia).
    rewrite (slice_range 0 y2) by (unfold len; lia).
    rewrite np_sum_comb, !comb_nth. ring.
Qed.

Lemma interp_val_comb (x : Q) (xp : list Q) :
  interp_val x xp y == a * interp_val x xp y1 + interp_val x xp y2.
Proof.
  unfold interp_val. rewrite !hd_nth, !last_nth, comb_length, <- same_length.
  destruct (length xp =? 1)%nat; [apply comb_nth|].
  destruct (binary_search x xp =? -1)%Z; [apply comb_nth|].
  destruct (binary_search x xp =? len xp)%Z; [apply comb_nth|].
  destruct (binary_search x xp =? len xp - 1)%Z; [apply comb_nth|].
  destruct (Qeq_bool _ x); [apply comb_nth|].
  rewrite !comb_nth.
  set (d := nth (S (Z.to_nat (binary_search x xp))) xp 0
            - nth (Z.to_nat (binary_search x xp)) xp 0).
  unfold Qdiv. ring.
Qed.

Lemma np_div_comb (n n1 n2 w : Q) :
  n == a * n1 + n2 ->
  fnum_eq (np_div n w) (fadd (fscale a (np_div n1 w)) (np_div n2 w)).
Proof.
  intros E. unfold np_div. destruct (Qeq_bool w 0); simpl; [exact I|].
  rewrite E. unfold Qdiv. ring.
Qed.

End Superposition.

Lemma nth_map_Finite (f : Q -> Q) (l : list Q) (k : nat) :
  (k < length l)%nat ->
  nth k (map Finite (map f l)) NonFinite = Finite (f (nth k l 0)).
Proof.
  intros H. rewrite map_map.
  rewrite (nth_indep _ NonFinite ((fun x => Finite (f x)) 0))
    by now rewrite length_map.
  apply (map_nth (fun x => Finite (f x))).
Qed.

(** X5. Over exact rationals [rebin1d] is linear in the values: on valid
    grids whose output grid starts inside the input grid the result for
    the series [a * y1 + y2] is, value by value, [a] times the result for
    [y1] plus the result for [y2], and non-finite where these are. *)
Theorem rebin1d_linear (xout xin y1 y2 : list Q) (a : Q) :
  grid xout -> grid xin -> starts_inside xout xin ->
  length y1 = length xin -> length y2 = length xin ->
  exists o1 o2 o,
    rebin1d xout xin y1 = Ok o1 /\ rebin1d xout xin y2 = Ok o2 /\
    rebin1d xout xin (vadd (vscale a y1) y2) = Ok o /\
    length o = length xout /\
    forall k, (k < length xout)%nat ->
      fnum_eq (nth k o NonFinite)
              (fadd (fscale a (nth k o1 NonFinite)) (nth k o2 NonFinite)).
Proof.
  intros Go Gi Hs L1 L2.
  assert (L12 : length y1 = length y2) by congruence.
  assert (L : length (vadd (vscale a y1) y2) = length xin)
    by (rewrite (comb_length a y1 y2 L12); exact L1).
  pose proof (select_regime_ok xout xin Go Gi Hs) as R.
  pose proof (grid_nonempty xin Gi) as Ne.
  destruct (Qltb (dx_out xout) (dx_in xout xin)).
  - rewrite !(rebin1d_interpolation_total xout xin _ Ne) by assumption.
    do 3 eexists. repeat (split; [reflexivity|]).
    split; [now rewrite !length_map|]. intros k Hk.
    rewrite !nth_map_Finite by exact Hk.
    simpl. now apply interp_val_comb.
  - destruct (rebin1d_length xout xin y1 Go Gi Hs L1) as [o1 [H1 _]].
    destruct (rebin1d_length xout xin y2 Go Gi Hs L2) as [o2 [H2 _]].
    destruct (rebin1d_length xout xin _ Go Gi Hs L) as [o [H Lo]].
    exists o1, o2, o. repeat (split; [assumption|]). intros k Hk.
    rewrite (rebin1d_box_nth xout xin _ o k Go Gi L R H Hk).
    rewrite (rebin1d_box_nth xout xin _ o1 k Go Gi L1 R H1 Hk).
    rewrite (rebin1d_box_nth xout xin _ o2 k Go Gi L2 R H2 Hk).
    apply np_div_comb. apply numerator_comb; [exact L12|].
    rewrite L1. now apply boxes_ok.
Qed.

Lemma rebin1d_linear_witness :
  exists o1 o2 o,
    rebin1d [0; 2; 4] [0; 1; 2; 3; 4] [1; 5; 2; 4; 3] = Ok o1 /\
    rebin1d [0; 2; 4] [0; 1; 2; 3; 4] [1; 1; 1; 1; 1] = Ok o2 /\
    rebin1d [0; 2; 4] [0; 1; 2; 3; 4]
            (vadd (vscale 3 [1; 5; 2; 4; 3]) [1; 1; 1; 1; 1]) = Ok o /\
    length o = 3%nat /\
    forall k, (k < 3)%nat ->
      fnum_eq (nth k o NonFinite)
              (fadd (fscale 3 (nth k o1 NonFinite)) (nth k o2 NonFinite)).
Proof.
  apply (rebin1d_linear [0; 2; 4] [0; 1; 2; 3; 4] [1; 5; 2; 4; 3] [1; 1; 1; 1; 1] 3).
  - split; [reflexivity|simpl; lia].
  - split; [reflexivity|simpl; lia].
  - reflexivity.
  - reflexivity.
  - reflexivity.
Defined.

(** ** Outcomes of the planar rebinner *)

Lemma py_int_zero (x : Q) : x == 0 -> py_int x = 0%Z.
Proof.
  intros E. apply py_int_unique; [lia| |]; rewrite E; change (inject_Z 0) with 0; lra.
Qed.

Lemma inject_Z_nonzero (s : Z) : s <> 0%Z -> Qeq_bool (inject_Z s) 0 = false.
Proof.
  intros N. destruct (Qeq_bool (inject_Z s) 0) eqn:E; trivial.
  apply Qeq_bool_iff in E. exfalso. apply N.
  unfold Qeq in E. simpl in E. lia.
Qed.

(** A pass over an array without lines fails at its first output line. *)
Lemma box_pass_empty (a : array2 Q) (bx : Q) (n : Z) (out : array2 Q) :
  rows a = [] -> bx == 0 -> (0 < n)%Z ->
  box_pass a (-1) bx n out = Raise IndexError.
Proof.
  intros E B N. unfold box_pass.
  destruct (Z.to_nat n) as [|m] eqn:En; [lia|].
  unfold indices. simpl seq. simpl map. simpl foldM.
  assert (L : line_value a (line_box (-1) bx 0) = Raise IndexError).
  { unfold line_value, line_box. cbn [istart istop].
    rewrite !py_int_zero by (rewrite B; ring).
    simpl. rewrite E. reflexivity. }
  rewrite L. reflexivity.
Qed.

Lemma frebin2d_raises (array : array2 Q) (s0 s1 : Z) :
  ((s0 = 0 \/ s1 = 0)%Z -> frebin2d array (s0, s1) = Raise ZeroDivisionError) /\
  ((s0 <> 0)%Z -> (s1 < 0)%Z -> frebin2d array (s0, s1) = Raise ValueError) /\
  ((s0 <> 0)%Z -> (0 < s1)%Z -> nrows array = 0%nat ->
   frebin2d array (s0, s1) = Raise IndexError) /\
  ((s0 < 0)%Z -> (0 < s1)%Z -> (1 <= nrows array)%nat ->
   frebin2d array (s0, s1) = Raise ValueError) /\
  ((0 < s0)%Z -> (0 < s1)%Z -> (1 <= nrows array)%nat -> ncols array = 0%nat ->
   frebin2d array (s0, s1) = Raise IndexError).
Proof.
  assert (P1 : forall t, (0 < t)%Z ->
            (1 <= nrows array)%nat ->
            box_pass array (len (rows array) - 1)
              (inject_Z (len (rows array)) / inject_Z t) t
              (mkArray2 (Z.to_nat (Z.of_nat (ncols array)))
                 (zeros2 0 (Z.to_nat t) (Z.to_nat (Z.of_nat (ncols array)))))
            = Ok (mkArray2 (ncols array)
                    (pass_lines array (inject_Z (Z.of_nat (nrows array)) / inject_Z t) t))).
  { intros t Ht Hy.
    destruct (box_size (nrows array) t Hy Ht) as (Y1 & Y2 & _).
    change (len (rows array)) with (Z.of_nat (nrows array)).
    rewrite box_pass_ok; trivial.
    - cbn [ncols]. now rewrite Nat2Z.id.
    - simpl. unfold zeros2. now rewrite repeat_length. }
  repeat split.
  - intros [H|H]; subst; unfold frebin2d, py_div; cbn [fst snd].
    + reflexivity.
    + destruct (Qeq_bool (inject_Z s0) 0); reflexivity.
  - intros H0 H1. unfold frebin2d, py_div. cbn [fst snd].
    rewrite !inject_Z_nonzero by lia. simpl bind.
    unfold np_zeros2. replace (s1 <? 0)%Z with true by (symmetry; apply Z.ltb_lt; lia).
    reflexivity.
  - intros H0 H1 Hy. unfold frebin2d, py_div. cbn [fst snd].
    rewrite !inject_Z_nonzero by lia. simpl bind.
    unfold np_zeros2.
    replace ((s1 <? 0)%Z || (Z.of_nat (ncols array) <? 0)%Z) with false
      by (symmetry; apply orb_false_iff; split; apply Z.ltb_ge; lia).
    simpl bind.
    assert (E : rows array = []) by (unfold nrows in Hy; now apply length_zero_iff_nil).
    unfold len. rewrite E. simpl length. simpl Z.sub.
    rewrite box_pass_empty; trivial.
    simpl. unfold Qdiv. ring.
  - intros H0 H1 Hy. unfold frebin2d, py_div. cbn [fst snd].
    rewrite !inject_Z_nonzero by lia. simpl bind.
    unfold np_zeros2.
    replace ((s1 <? 0)%Z || (Z.of_nat (ncols array) <? 0)%Z) with false
      by (symmetry; apply orb_false_iff; split; apply Z.ltb_ge; lia).
    simpl bind. rewrite (P1 s1 H1 Hy). simpl bind.
    replace (s0 <? 0)%Z with true by (symmetry; apply Z.ltb_lt; lia).
    reflexivity.
  - intros H0 H1 Hy Hx. unfold frebin2d, py_div. cbn [fst snd].
    rewrite !inject_Z_nonzero by lia. simpl bind.
    unfold np_zeros2.
    replace ((s1 <? 0)%Z || (Z.of_nat (ncols array) <? 0)%Z) with false
      by (symmetry; apply orb_false_iff; split; apply Z.ltb_ge; lia).
    simpl bind. rewrite (P1 s1 H1 Hy). simpl bind.
    replace ((s0 <? 0)%Z || (s1 <? 0)%Z) with false
      by (symmetry; apply orb_false_iff; split; apply Z.ltb_ge; lia).
    simpl bind. rewrite Hx. simpl Z.of_nat. simpl Z.sub.
    rewrite box_pass_empty; trivial.
    simpl. unfold Qdiv. ring.
Qed.

(** C3 (amended). For every two-dimensional array with at least one row and
    one column and every requested shape [(outCols, outRows)] with positive
    dimensions, [frebin2d] returns a rectangular array with [outRows] rows
    and [outCols] columns: the requested shape in the [(x, y)] order of the
    function's docstring, which numpy's [.shape] reads [(outRows, outCols)].
    For an array without rows or without columns the call raises
    [IndexError]. *)
Theorem frebin2d_shape (array : array2 Q) (outCols outRows : Z) :
  (0 < outCols)%Z -> (0 < outRows)%Z ->
  ((1 <= nrows array)%nat -> (1 <= ncols array)%nat ->
   exists out,
     frebin2d array (outCols, outRows) = Ok out /\
     Z.of_nat (ncols out) = outCols /\ Z.of_nat (nrows out) = outRows /\
     wf2 out /\
     np_shape out = (Z.to_nat outRows, Z.to_nat outCols)) /\
  (nrows array = 0%nat \/ ncols array = 0%nat ->
   frebin2d array (outCols, outRows) = Raise IndexError).
Proof.
  intros H0 H1. split.
  - intros Hy Hx.
    destruct (frebin2d_value_shape array outCols outRows Hy Hx H0 H1)
      as (out & E & C & R & W).
    exists out. repeat (split; [assumption|]).
    unfold np_shape. f_equal; lia.
  - destruct (frebin2d_raises array outCols outRows) as (_ & _ & F3 & _ & F5).
    intros [Hy|Hx].
    + apply F3; [lia|assumption|assumption].
    + destruct (Nat.eq_dec (nrows array) 0) as [Y0|Y1].
      * apply F3; [lia|assumption|assumption].
      * apply F5; [assumption|assumption|lia|assumption].
Qed.

Lemma frebin2d_shape_witness :
  (exists out,
     frebin2d (mkArray2 3 [[1; 2; 3]; [4; 5; 6]]) (5, 1)%Z = Ok out /\
     Z.of_nat (ncols out) = 5%Z /\ Z.of_nat (nrows out) = 1%Z /\ wf2 out /\
     np_shape out = (1, 5)%nat) /\
  frebin2d (mkArray2 3 []) (5, 1)%Z = Raise IndexError.
Proof.
  split.
  - apply (proj1 (frebin2d_shape (mkArray2 3 [[1; 2; 3]; [4; 5; 6]]) 5 1
                    ltac:(lia) ltac:(lia)));
      unfold nrows; simpl; lia.
  - apply (proj2 (frebin2d_shape (mkArray2 3 []) 5 1 ltac:(lia) ltac:(lia))).
    left. reflexivity.
Defined.

(** C3 as stated fails: an array of shape [(0, 3)] is a two-dimensional
    array and makes the call raise, and the result for a [2 x 3] array and
    the requested shape [(5, 1)] has the numpy shape [(1, 5)]. *)
Lemma frebin2d_shape_counterexample :
  frebin2d (mkArray2 3 []) (5, 1)%Z = Raise IndexError /\
  exists out,
    frebin2d (mkArray2 3 [[1; 2; 3]; [4; 5; 6]]) (5, 1)%Z = Ok out /\
    np_shape out = (1, 5)%nat /\ np_shape out <> (5, 1)%nat.
Proof.
  split; [reflexivity|]. eexists. split; [vm_compute; reflexivity|].
  split; [reflexivity|]. discriminate.
Qed.

(** X12. The exceptions of [frebin2d].  A requested dimension of zero
    raises [ZeroDivisionError] (lines 155-156), whatever the array; otherwise
    a negative requested number of rows raises [ValueError] ([np.zeros], line
    161); otherwise an array without rows raises [IndexError] in the first
    loop; otherwise a negative requested number of columns raises
    [ValueError] (line 187) and an array without columns raises [IndexError]
    in the second loop. *)
Theorem frebin2d_failures (array : array2 Q) (s0 s1 : Z) :
  ((s0 = 0 \/ s1 = 0)%Z -> frebin2d array (s0, s1) = Raise ZeroDivisionError) /\
  ((s0 <> 0)%Z -> (s1 < 0)%Z -> frebin2d array (s0, s1) = Raise ValueError) /\
  ((s0 <> 0)%Z -> (0 < s1)%Z -> nrows array = 0%nat ->
   frebin2d array (s0, s1) = Raise IndexError) /\
  ((s0 < 0)%Z -> (0 < s1)%Z -> (1 <= nrows array)%nat ->
   frebin2d array (s0, s1) = Raise ValueError) /\
  ((0 < s0)%Z -> (0 < s1)%Z -> (1 <= nrows array)%nat -> ncols array = 0%nat ->
   frebin2d array (s0, s1) = Raise IndexError).
Proof.
  destruct (frebin2d_raises array s0 s1) as (F1 & F2 & F3 & F4 & F5).
  repeat split; assumption.
Qed.

(** X11. [frebin2d] returns a result exactly when the array has at least
    one row and one column and both requested dimensions are positive. *)
Theorem frebin2d_returns_iff (array : array2 Q) (s0 s1 : Z) :
  (exists out, frebin2d array (s0, s1) = Ok out) <->
  (1 <= nrows array)%nat /\ (1 <= ncols array)%nat /\ (0 < s0)%Z /\ (0 < s1)%Z.
Proof.
  split.
  - intros [out H].
    destruct (frebin2d_raises array s0 s1) as (F1 & F2 & F3 & F4 & F5).
    destruct (Z.eq_dec s0 0) as [E0|N0]; [rewrite F1 in H by (now left); discriminate|].
    destruct (Z.eq_dec s1 0) as [E1|N1]; [rewrite F1 in H by (now right); discriminate|].
    destruct (Z_lt_le_dec s1 0) as [L1|G1]; [rewrite F2 in H by (assumption); discriminate|].
    destruct (Nat.eq_dec (nrows array) 0) as [Y0|Y1];
      [rewrite F3 in H by (trivial; lia); discriminate|].
    destruct (Z_lt_le_dec s0 0) as [L0|G0];
      [rewrite F4 in H by (trivial; lia); discriminate|].
    destruct (Nat.eq_dec (ncols array) 0) as [X0|X1];
      [rewrite F5 in H by (trivial; lia); discriminate|].
    lia.
  - intros (Hy & Hx & H0 & H1). eexists. now apply frebin2d_ok.
Qed.

Lemma frebin2d_failures_witness :
  frebin2d (mkArray2 2 [[1; 2]]) (0, 1)%Z = Raise ZeroDivisionError /\
  frebin2d (mkArray2 2 [[1; 2]]) (1, -1)%Z = Raise ValueError /\
  frebin2d (mkArray2 0 []) (1, 1)%Z = Raise IndexError /\
  frebin2d (mkArray2 2 [[1; 2]]) (-1, 1)%Z = Raise ValueError /\
  frebin2d (mkArray2 0 [[]]) (1, 1)%Z = Raise IndexError.
Proof.
  split; [|split; [|split; [|split]]].
  - apply (proj1 (frebin2d_failures (mkArray2 2 [[1; 2]]) 0 1)). now left.
  - apply (proj1 (proj2 (frebin2d_failures (mkArray2 2 [[1; 2]]) 1 (-1)))); lia.
  - apply (proj1 (proj2 (proj2 (frebin2d_failures (mkArray2 0 []) 1 1))));
      [lia|lia|reflexivity].
  - apply (proj1 (proj2 (proj2 (proj2
             (frebin2d_failures (mkArray2 2 [[1; 2]]) (-1) 1)))));
      [lia|lia|unfold nrows; simpl; lia].
  - apply (proj2 (proj2 (proj2 (proj2
             (frebin2d_failures (mkArray2 0 [[]]) 1 1)))));
      [lia|lia|unfold nrows; simpl; lia|reflexivity].
Defined.

Lemma frebin2d_returns_iff_witness :
  exists out, frebin2d (mkArray2 2 [[1; 2]]) (1, 1)%Z = Ok out.
Proof.
  apply (proj2 (frebin2d_returns_iff (mkArray2 2 [[1; 2]]) 1 1)).
  unfold nrows. simpl. lia.
Defined.

(** ** Values of the planar rebinner *)

Lemma col_nth (c k : nat) (rs : list (list Q)) :
  nth k (col c rs) 0 = nth c (nth k rs []) 0.
Proof.
  unfold col. rewrite <- (nth_nil_Q c) at 1.
  apply (map_nth (fun r => nth c r 0)).
Qed.

Lemma col_length (c : nat) (rs : list (list Q)) : length (col c rs) = length rs.
Proof. apply length_map. Qed.

Lemma sum_rows_length (n : nat) (l : list (list Q)) :
  Forall (fun r => length r = n) l -> length (sum_rows n l) = n.
Proof.
  intros F. induction F as [|r l Hr F IH]; simpl.
  - apply repeat_length.
  - now apply vop_length.
Qed.

Lemma sum_rows_nth (n c : nat) (l : list (list Q)) :
  Forall (fun r => length r = n) l -> (c < n)%nat ->
  nth c (sum_rows n l) 0 = np_sum (col c l).
Proof.
  intros F Hc. induction F as [|r l Hr F IH]; simpl.
  - unfold zeros1. now rewrite nth_repeat.
  - unfold vadd. rewrite (map2_nth Qplus r _ c 0 0 0).
    + now rewrite IH.
    + lia.
    + fold (sum_rows n l). rewrite sum_rows_length; trivial.
Qed.

Lemma vscale_nth (k : Q) (r : list Q) (c : nat) :
  (c < length r)%nat -> nth c (vscale k r) 0 = k * nth c r 0.
Proof.
  intros H. unfold vscale.
  rewrite (nth_indep (map (Qmult k) r) 0 (k * 0)) by now rewrite length_map.
  apply (map_nth (Qmult k)).
Qed.

Lemma vscale_length (k : Q) (r : list Q) : length (vscale k r) = length r.
Proof. apply length_map. Qed.

Section Lines.

Variable a : array2 Q.
Variable b : box.
Hypothesis a_wf : wf2 a.
Hypothesis b_in : box_in_bounds b (nrows a).

Lemma row_length (i : nat) : (i < nrows a)%nat -> length (nth i (rows a) []) = ncols a.
Proof.
  intros H. unfold wf2 in a_wf. rewrite Forall_forall in a_wf.
  apply a_wf. now apply nth_In.
Qed.

Lemma slice_rows_length :
  Forall (fun r => length r = ncols a) (slice (rows a) (istart b) (istop b + 1)).
Proof. now apply slice_Forall. Qed.

Lemma line_numerator_length : length (line_numerator a b) = ncols a.
Proof.
  destruct b_in as (B1 & B2 & B3). unfold line_numerator.
  pose proof (row_length (Z.to_nat (istart b)) ltac:(lia)) as L1.
  pose proof (row_length (Z.to_nat (istop b)) ltac:(lia)) as L2.
  destruct (istart b =? istop b)%Z.
  - now rewrite vscale_length.
  - apply vop_length; [apply vop_length|]; rewrite ?vscale_length; trivial.
    apply sum_rows_length, slice_rows_length.
Qed.

(** Column by column, a line of a pass is the one-dimensional box sum. *)
Lemma line_numerator_nth (c : nat) :
  (c < ncols a)%nat ->
  nth c (line_numerator a b) 0 == numerator (col c (rows a)) b.
Proof.
  intros Hc. destruct b_in as (B1 & B2 & B3).
  pose proof (row_length (Z.to_nat (istart b)) ltac:(lia)) as L1.
  pose proof (row_length (Z.to_nat (istop b)) ltac:(lia)) as L2.
  unfold line_numerator, numerator. rewrite !col_nth.
  destruct (istart b =? istop b)%Z.
  - rewrite vscale_nth by lia. reflexivity.
  - assert (S0 : length (sum_rows (ncols a)
                           (slice (rows a) (istart b) (istop b + 1))) = ncols a)
      by apply sum_rows_length, slice_rows_length.
    unfold vsub at 1. rewrite (map2_nth Qminus _ _ c 0 0 0).
    2:{ rewrite (vop_length Qminus _ _ (ncols a)); rewrite ?vscale_length; trivial. }
    2:{ rewrite vscale_length. lia. }
    unfold vsub at 1. rewrite (map2_nth Qminus _ _ c 0 0 0).
    2:{ lia. }
    2:{ rewrite vscale_length. lia. }
    rewrite !vscale_nth by lia.
    rewrite sum_rows_nth by (trivial; apply slice_rows_length).
    unfold col. rewrite slice_map. reflexivity.
Qed.

End Lines.

(** The boxes of a pass. *)
Lemma line_box_istop (n1 : Z) (bx : Q) (i : Z) :
  istop (line_box n1 bx i) = Z.min (py_int (rstop (line_box n1 bx i))) n1.
Proof.
  unfold line_box. cbn [istop rstop].
  destruct (_ >? n1)%Z eqn:E.
  - apply Z.gtb_lt in E. lia.
  - rewrite Z.gtb_ltb in E. apply Z.ltb_ge in E. lia.
Qed.

Lemma line_box_fracs (n1 : Z) (bx : Q) (i : Z) :
  (0 <= i)%Z -> 0 <= bx ->
  0 <= rstart (line_box n1 bx i) /\
  rstop (line_box n1 bx i) - rstart (line_box n1 bx i) == bx /\
  frac1 (line_box n1 bx i) <= 1 /\ frac2 (line_box n1 bx i) <= 1.
Proof.
  intros Hi Hb.
  assert (I0 : 0 <= inject_Z i)
    by (change 0 with (inject_Z 0); rewrite <- Zle_Qle; lia).
  assert (R0 : 0 <= rstart (line_box n1 bx i))
    by (cbn [rstart line_box]; apply Qmult_le_0_compat; lra).
  assert (Wd : rstop (line_box n1 bx i) - rstart (line_box n1 bx i) == bx)
    by (cbn [rstart rstop line_box]; ring).
  split; [exact R0|]. split; [exact Wd|].
  pose proof (line_box_istop n1 bx i) as It.
  set (b := line_box n1 bx i) in *.
  assert (Is : istart b = py_int (rstart b)) by reflexivity.
  pose proof (py_int_lt (rstart b) R0).
  pose proof (py_int_le (rstop b) ltac:(lra)).
  assert (inject_Z (istop b) <= inject_Z (py_int (rstop b)))
    by (rewrite <- Zle_Qle; lia).
  unfold frac1, frac2. rewrite Is. split; lra.
Qed.

(** ** Sums over a pass *)

(** Over a whole pass the box sums of a series add up to the sum of the
    series: the boxes tile the index range [[0, n]]. *)
Lemma pass_sum (L : list Q) (n : nat) (s : Z) (bx : Q) :
  length L = n -> (1 <= n)%nat -> (0 < s)%Z -> 0 < bx ->
  inject_Z s * bx == inject_Z (Z.of_nat n) ->
  np_sum (map (fun k => numerator L (line_box (Z.of_nat n - 1) bx (Z.of_nat k)))
              (seq 0 (Z.to_nat s)))
  == np_sum L.
Proof.
  intros Ln Hn Hs Hb E.
  set (f := fun k : nat => step_integral L (inject_Z (Z.of_nat k) * bx)).
  rewrite (np_sum_ext _ (fun k => f (S k) - f k)).
  - rewrite telescope. unfold f.
    rewrite (step_integral_compat L (inject_Z (Z.of_nat (Z.to_nat s)) * bx)
               (inject_Z (Z.of_nat n))) by (rewrite Z2Nat.id by lia; exact E).
    rewrite (step_integral_compat L (inject_Z (Z.of_nat 0) * bx) 0)
      by (change (inject_Z (Z.of_nat 0)) with 0; ring).
    unfold step_integral. rewrite Qfloor_Z. change (Qfloor 0) with 0%Z.
    rewrite Nat2Z.id, <- Ln, firstn_all. simpl. ring.
  - intros k Hk. apply in_seq in Hk.
    assert (K0 : 0 <= inject_Z (Z.of_nat k)) by apply nat_nonneg_Q.
    assert (K1 : inject_Z (Z.of_nat k) + 1 <= inject_Z s).
    { change 1 with (inject_Z 1). rewrite <- inject_Z_plus, <- Zle_Qle. lia. }
    destruct (line_box_fracs (Z.of_nat n - 1) bx (Z.of_nat k)) as (R0 & Wd & _);
      [lia|lra|].
    set (b := line_box (Z.of_nat n - 1) bx (Z.of_nat k)) in *.
    assert (Rs : rstart b = inject_Z (Z.of_nat k) * bx) by reflexivity.
    assert (Rt : rstop b == inject_Z (Z.of_nat (S k)) * bx).
    { unfold b. cbn [rstop line_box]. rewrite nat_succ_Q. ring. }
    assert (M : (inject_Z (Z.of_nat k) + 1) * bx <= inject_Z s * bx)
      by (apply Qmult_le_compat_r; lra).
    rewrite (numerator_integral L b n Ln R0).
    + unfold f. rewrite <- Rs.
      rewrite (step_integral_compat L (rstop b) _ Rt). reflexivity.
    + lra.
    + rewrite Rt, nat_succ_Q. lra.
    + rewrite Rs. lra.
    + reflexivity.
    + apply line_box_istop.
Qed.

Lemma np_sum_seq_id (l : list Q) :
  np_sum (map (fun k => nth k l 0) (seq 0 (length l))) = np_sum l.
Proof. now rewrite nth_seq_id. Qed.

Lemma np_sum_plus (f g : nat -> Q) (l : list nat) :
  np_sum (map (fun k => f k + g k) l) == np_sum (map f l) + np_sum (map g l).
Proof.
  induction l as [|a l IH]; [simpl; ring|]. simpl. rewrite IH. ring.
Qed.

Lemma np_sum_zero (l : list nat) : np_sum (map (fun _ => 0) l) == 0.
Proof. induction l as [|a l IH]; [reflexivity|]. simpl. rewrite IH. ring. Qed.

(** Summing a rectangular array by rows or by columns gives the same
    total. *)
Lemma total_by_columns (n : nat) (rs : list (list Q)) :
  Forall (fun r => length r = n) rs ->
  total rs == np_sum (map (fun c => np_sum (col c rs)) (seq 0 n)).
Proof.
  intros F. unfold total. induction F as [|r rs Hr F IH].
  - simpl. now rewrite np_sum_zero.
  - simpl map at 1. simpl np_sum at 1. rewrite IH.
    rewrite <- (np_sum_seq_id r), Hr.
    rewrite <- np_sum_plus. apply np_sum_ext. intros c _. reflexivity.
Qed.

Lemma np_sum_div (l : list Q) (w : Q) :
  np_sum (map (fun q => q / w) l) == np_sum l / w.
Proof.
  induction l as [|a l IH]; simpl; [unfold Qdiv; ring|].
  rewrite IH. unfold Qdiv. ring.
Qed.

Lemma vdiv_finite (r : list Q) (w : Q) :
  ~ w == 0 -> vdiv r w = map Finite (map (fun q => q / w) r).
Proof.
  intros N. unfold vdiv, np_div.
  replace (Qeq_bool w 0) with false.
  - now rewrite map_map.
  - symmetry. destruct (Qeq_bool w 0) eqn:E; trivial.
    apply Qeq_bool_iff in E. contradiction.
Qed.

Lemma np_sum_div_mul (f : nat -> Q) (l : list nat) (w : Q) :
  ~ w == 0 -> np_sum (map (fun k => f k / w) l) * w == np_sum (map f l).
Proof.
  intros N. induction l as [|i l IH]; simpl; [ring|].
  rewrite <- IH. field. exact N.
Qed.

Lemma step_integral_int (L : list Q) (z : nat) :
  step_integral L (inject_Z (Z.of_nat z)) == np_sum (firstn z L).
Proof. unfold step_integral. rewrite Qfloor_Z, Nat2Z.id. ring. Qed.

(** A box of a whole number [m] of pixels sums exactly the [m] pixels it
    covers. *)
Lemma integer_box_sum (L : list Q) (n : nat) (s : Z) (m : nat) (bx : Q) (k : nat) :
  length L = n -> (1 <= m)%nat -> bx == inject_Z (Z.of_nat m) ->
  Z.of_nat n = (s * Z.of_nat m)%Z -> (k < Z.to_nat s)%nat ->
  numerator L (line_box (Z.of_nat n - 1) bx (Z.of_nat k))
  == np_sum (map (fun c => nth c L 0) (seq (k * m) m)).
Proof.
  intros Ln Hm Eb En Hk.
  assert (Pm : 0 < inject_Z (Z.of_nat m))
    by (change 0 with (inject_Z 0); rewrite <- Zlt_Qlt; lia).
  destruct (line_box_fracs (Z.of_nat n - 1) bx (Z.of_nat k)) as (R0 & Wd & _);
    [lia|lra|].
  set (b := line_box (Z.of_nat n - 1) bx (Z.of_nat k)) in *.
  assert (Rs : rstart b == inject_Z (Z.of_nat (k * m))).
  { unfold b. cbn [rstart line_box]. rewrite Eb, Nat2Z.inj_mul, inject_Z_mult.
    reflexivity. }
  assert (Rt : rstop b == inject_Z (Z.of_nat (k * m + m))).
  { unfold b. cbn [rstop line_box].
    rewrite Eb, Nat2Z.inj_add, Nat2Z.inj_mul, inject_Z_plus, inject_Z_mult.
    reflexivity. }
  assert (Le : (k * m + m <= n)%nat) by nia.
  rewrite (numerator_integral L b n Ln R0).
  - rewrite (step_integral_compat L _ _ Rs), (step_integral_compat L _ _ Rt).
    rewrite !step_integral_int, run_sum. reflexivity.
  - lra.
  - rewrite Rt, <- Zle_Qle. lia.
  - rewrite Rs, <- Zlt_Qlt. lia.
  - reflexivity.
  - apply line_box_istop.
Qed.

Lemma np_sum_firstn_ext (L L' : list Q) (z : nat) :
  length L = length L' -> (forall k, nth k L 0 == nth k L' 0) ->
  np_sum (firstn z L) == np_sum (firstn z L').
Proof.
  revert L' z. induction L as [|a L IH]; intros [|a' L'] z Hl H;
    simpl in Hl; try discriminate.
  - reflexivity.
  - destruct z as [|z]; [reflexivity|]. simpl.
    rewrite (H 0%nat : a == a').
    rewrite (IH L' z); [reflexivity|lia|].
    intros k. apply (H (S k)).
Qed.

(** The integral only depends on the values of the series. *)
Lemma step_integral_ext (L L' : list Q) (r : Q) :
  length L = length L' -> (forall k, nth k L 0 == nth k L' 0) ->
  step_integral L r == step_integral L' r.
Proof.
  intros Hl H. unfold step_integral.
  rewrite (np_sum_firstn_ext L L' _ Hl H), H. reflexivity.
Qed.

(** Inside one pixel the integral grows with the value of that pixel. *)
Lemma step_integral_pixel (L : list Q) (q : nat) (r r' : Q) :
  inject_Z (Z.of_nat q) <= r -> r <= r' -> r' <= inject_Z (Z.of_nat q) + 1 ->
  step_integral L r' - step_integral L r == (r' - r) * nth q L 0.
Proof.
  intros H0 H1 H2.
  assert (F : forall t, inject_Z (Z.of_nat q) <= t -> t <= inject_Z (Z.of_nat q) + 1 ->
            step_integral L t
            == np_sum (firstn q L) + (t - inject_Z (Z.of_nat q)) * nth q L 0).
  { intros t T0 T1. destruct (Qlt_le_dec t (inject_Z (Z.of_nat q) + 1)) as [Lt|Ge].
    - unfold step_integral. rewrite (floor_of t (Z.of_nat q) T0 Lt), Nat2Z.id.
      reflexivity.
    - assert (Et : t == inject_Z (Z.of_nat (S q))) by (rewrite nat_succ_Q; lra).
      rewrite (step_integral_compat L t _ Et), step_integral_int, prefix_succ.
      rewrite Et, nat_succ_Q. ring. }
  rewrite (F r'), (F r) by lra. ring.
Qed.

Lemma span_ordered (rs rt bx : Q) : 0 <= bx -> rt - rs == bx -> rs <= rt.
Proof. intros H E. lra. Qed.

Lemma span_inside (rs rt bx i s n : Q) :
  0 <= i -> 0 < bx -> s * bx == n -> i + 1 <= s ->
  rs == i * bx -> rt - rs == bx -> rt <= n.
Proof.
  intros I0 P E K Rs Wd.
  assert (M : (i + 1) * bx <= s * bx) by (apply Qmult_le_compat_r; lra).
  lra.
Qed.

Lemma span_start (rs bx i s n : Q) :
  0 < bx -> s * bx == n -> i + 1 <= s -> rs == i * bx -> rs < n.
Proof.
  intros P E K Rs.
  assert (M : (i + 1) * bx <= s * bx) by (apply Qmult_le_compat_r; lra).
  lra.
Qed.

Lemma div_mul_cancel (a w : Q) : ~ w == 0 -> a / w * w == a.
Proof. intros N. field. exact N. Qed.

(** With [m] output pixels to an input pixel, output pixel [i] lies inside
    input pixel [i / m]. *)
Lemma pixel_of_box (bx : Q) (m i : nat) :
  (1 <= m)%nat -> bx * inject_Z (Z.of_nat m) == 1 ->
  inject_Z (Z.of_nat (i / m)) <= inject_Z (Z.of_nat i) * bx /\
  inject_Z (Z.of_nat i) * bx + bx <= inject_Z (Z.of_nat (i / m)) + 1.
Proof.
  intros Hm E.
  assert (M : 0 < inject_Z (Z.of_nat m)).
  { change 0 with (inject_Z 0). rewrite <- Zlt_Qlt. lia. }
  assert (Eb : bx == 1 / inject_Z (Z.of_nat m)).
  { apply (Qmult_inj_r _ _ (inject_Z (Z.of_nat m))); [lra|].
    rewrite E. field. lra. }
  pose proof (Nat.div_mod_eq i m) as D.
  pose proof (Nat.mod_upper_bound i m ltac:(lia)) as U.
  assert (D1 : inject_Z (Z.of_nat (i / m)) * inject_Z (Z.of_nat m)
               <= inject_Z (Z.of_nat i)).
  { rewrite <- inject_Z_mult, <- Zle_Qle. nia. }
  assert (D2 : inject_Z (Z.of_nat i) + 1
               <= (inject_Z (Z.of_nat (i / m)) + 1) * inject_Z (Z.of_nat m)).
  { change 1 with (inject_Z 1).
    rewrite <- !inject_Z_plus, <- inject_Z_mult, <- Zle_Qle. nia. }
  split.
  - apply (Qmult_le_r _ _ (inject_Z (Z.of_nat m)) M).
    setoid_replace (inject_Z (Z.of_nat i) * bx * inject_Z (Z.of_nat m))
      with (inject_Z (Z.of_nat i) * (bx * inject_Z (Z.of_nat m))) by ring.
    rewrite E. lra.
  - apply (Qmult_le_r _ _ (inject_Z (Z.of_nat m)) M).
    setoid_replace ((inject_Z (Z.of_nat i) * bx + bx) * inject_Z (Z.of_nat m))
      with ((inject_Z (Z.of_nat i) + 1) * (bx * inject_Z (Z.of_nat m))) by ring.
    rewrite E. lra.
Qed.

Lemma mul_cancel_area (v a w : Q) : ~ w == 0 -> v * w == a * w -> v == a.
Proof. intros N E. apply (Qmult_inj_r _ _ w N). exact E. Qed.

Lemma reorder_bounds (lo hi a b n : Q) :
  lo * a * b <= n -> n <= hi * a * b ->
  lo * (b * a) <= n /\ n <= hi * (b * a).
Proof. intros H1 H2. split; lra. Qed.

Section Planar.

Variable array : array2 Q.
Variables s0 s1 : Z.
Hypothesis array_wf : wf2 array.
Hypothesis rows_pos : (1 <= nrows array)%nat.
Hypothesis cols_pos : (1 <= ncols array)%nat.
Hypothesis s0_pos : (0 < s0)%Z.
Hypothesis s1_pos : (0 < s1)%Z.

Let y := nrows array.
Let x := ncols array.
Let ybox := inject_Z (Z.of_nat y) / inject_Z s1.
Let xbox := inject_Z (Z.of_nat x) / inject_Z s0.
Let T := pass_lines array ybox s1.
Let temp := transpose (mkArray2 x T).
Let Rr := pass_lines temp xbox s0.
Let ybx (i : nat) := line_box (Z.of_nat y - 1) ybox (Z.of_nat i).
Let xbx (j : nat) := line_box (Z.of_nat x - 1) xbox (Z.of_nat j).

Lemma ybox_facts :
  0 < ybox /\ inject_Z s1 * ybox == inject_Z (Z.of_nat y).
Proof.
  destruct (box_size y s1 rows_pos s1_pos) as (A & _ & C).
  split; [exact A|]. unfold ybox. field.
  intros E. apply Qeq_bool_iff in E. congruence.
Qed.

Lemma xbox_facts :
  0 < xbox /\ inject_Z s0 * xbox == inject_Z (Z.of_nat x).
Proof.
  destruct (box_size x s0 cols_pos s0_pos) as (A & _ & C).
  split; [exact A|]. unfold xbox. field.
  intros E. apply Qeq_bool_iff in E. congruence.
Qed.

Lemma ybx_in (i : nat) : (i < Z.to_nat s1)%nat -> box_in_bounds (ybx i) y.
Proof.
  intros Hi. destruct ybox_facts as [P E].
  apply (line_box_bounds y s1); trivial; [rewrite E; apply Qle_refl|lia].
Qed.

Lemma xbx_in (j : nat) : (j < Z.to_nat s0)%nat -> box_in_bounds (xbx j) x.
Proof.
  intros Hj. destruct xbox_facts as [P E].
  apply (line_box_bounds x s0); trivial; [rewrite E; apply Qle_refl|lia].
Qed.

Lemma pass_lines_nth (a : array2 Q) (bx : Q) (n : Z) (k : nat) :
  (k < Z.to_nat n)%nat ->
  nth k (pass_lines a bx n) []
  = line_numerator a (line_box (Z.of_nat (nrows a) - 1) bx (Z.of_nat k)).
Proof.
  intros Hk. unfold pass_lines.
  rewrite (nth_indep _ []
    ((fun i => line_numerator a (line_box (Z.of_nat (nrows a) - 1) bx i)) 0%Z))
    by now rewrite length_map, indices_length.
  rewrite (map_nth (fun i => line_numerator a
                               (line_box (Z.of_nat (nrows a) - 1) bx i))).
  now rewrite indices_nth.
Qed.

Lemma pass_lines_length (a : array2 Q) (bx : Q) (n : Z) :
  length (pass_lines a bx n) = Z.to_nat n.
Proof. unfold pass_lines. now rewrite length_map, indices_length. Qed.

Lemma T_nth (i : nat) :
  (i < Z.to_nat s1)%nat -> nth i T [] = line_numerator array (ybx i).
Proof. intros Hi. unfold T. now rewrite pass_lines_nth. Qed.

Lemma T_row_length (i : nat) : (i < Z.to_nat s1)%nat -> length (nth i T []) = x.
Proof.
  intros Hi. rewrite T_nth by exact Hi.
  apply line_numerator_length; [exact array_wf|now apply ybx_in].
Qed.

Lemma T_value (i c : nat) :
  (i < Z.to_nat s1)%nat -> (c < x)%nat ->
  nth c (nth i T []) 0 == numerator (col c (rows array)) (ybx i).
Proof.
  intros Hi Hc. rewrite T_nth by exact Hi.
  apply line_numerator_nth; [exact array_wf|now apply ybx_in|exact Hc].
Qed.

Lemma temp_rows : rows temp = map (fun c => col c T) (seq 0 x).
Proof. reflexivity. Qed.

Lemma temp_nrows : nrows temp = x.
Proof. unfold temp. now rewrite transpose_nrows. Qed.

Lemma temp_ncols : ncols temp = Z.to_nat s1.
Proof. unfold temp. rewrite transpose_ncols. unfold nrows. cbn [rows]. apply pass_lines_length. Qed.

Lemma temp_col (i : nat) : (i < Z.to_nat s1)%nat -> col i (rows temp) = nth i T [].
Proof.
  intros Hi. rewrite temp_rows. unfold col at 1. rewrite map_map.
  transitivity (map (fun k => nth k (nth i T []) 0)
                    (seq 0 (length (nth i T [])))); [|apply nth_seq_id].
  rewrite T_row_length by exact Hi.
  apply map_ext. intros c. apply col_nth.
Qed.

Lemma Rr_nth (j : nat) :
  (j < Z.to_nat s0)%nat -> nth j Rr [] = line_numerator temp (xbx j).
Proof.
  intros Hj. unfold Rr. rewrite pass_lines_nth by exact Hj.
  now rewrite temp_nrows.
Qed.

Lemma Rr_value (i j : nat) :
  (i < Z.to_nat s1)%nat -> (j < Z.to_nat s0)%nat ->
  nth i (nth j Rr []) 0 == numerator (nth i T []) (xbx j).
Proof.
  intros Hi Hj. rewrite Rr_nth by exact Hj.
  rewrite <- temp_col by exact Hi.
  apply line_numerator_nth.
  - apply transpose_wf.
  - rewrite temp_nrows. now apply xbx_in.
  - now rewrite temp_ncols.
Qed.

(** Element [(i, j)] of the result. *)
Lemma frebin2d_value_nth (i j : nat) :
  (i < Z.to_nat s1)%nat -> (j < Z.to_nat s0)%nat ->
  nth j (nth i (rows (frebin2d_value array (s0, s1))) []) NonFinite
  = np_div (nth i (nth j Rr []) 0) (xbox * ybox).
Proof.
  intros Hi Hj. unfold frebin2d_value. cbn [fst snd rows].
  fold y x ybox xbox T temp Rr.
  change (rows (transpose (mkArray2 (Z.to_nat s1) Rr)))
    with (map (fun c => col c Rr) (seq 0 (Z.to_nat s1))).
  rewrite map_map.
  rewrite (nth_indep _ [] ((fun c => vdiv (col c Rr) (xbox * ybox)) 0%nat))
    by now rewrite length_map, length_seq.
  rewrite (map_nth (fun c => vdiv (col c Rr) (xbox * ybox))).
  rewrite seq_nth by exact Hi. simpl Nat.add.
  unfold vdiv.
  rewrite (nth_indep _ NonFinite ((fun q => np_div q (xbox * ybox)) 0))
    by (rewrite length_map, col_length; unfold Rr; now rewrite pass_lines_length).
  rewrite (map_nth (fun q => np_div q (xbox * ybox))).
  now rewrite col_nth.
Qed.

Section Range.

Variables lo hi : Q.
Hypothesis in_range :
  forall r c, (r < y)%nat -> (c < x)%nat ->
    lo <= nth c (nth r (rows array) []) 0 /\ nth c (nth r (rows array) []) 0 <= hi.

Lemma T_between (i c : nat) :
  (i < Z.to_nat s1)%nat -> (c < x)%nat ->
  lo * ybox <= nth c (nth i T []) 0 /\ nth c (nth i T []) 0 <= hi * ybox.
Proof.
  intros Hi Hc. rewrite (T_value i c Hi Hc).
  destruct ybox_facts as [P _].
  destruct (line_box_fracs (Z.of_nat y - 1) ybox (Z.of_nat i)) as (R0 & Wd & F1 & F2);
    [lia|lra|].
  fold (ybx i) in R0, Wd, F1, F2. rewrite <- Wd.
  apply (numerator_between _ _ y); trivial.
  - now apply ybx_in.
  - apply col_length.
  - lra.
  - intros k Hk. rewrite col_nth. now apply in_range.
Qed.

Lemma Rr_between (i j : nat) :
  (i < Z.to_nat s1)%nat -> (j < Z.to_nat s0)%nat ->
  lo * (xbox * ybox) <= nth i (nth j Rr []) 0 /\
  nth i (nth j Rr []) 0 <= hi * (xbox * ybox).
Proof.
  intros Hi Hj. rewrite (Rr_value i j Hi Hj).
  destruct xbox_facts as [P _].
  destruct (line_box_fracs (Z.of_nat x - 1) xbox (Z.of_nat j)) as (R0 & Wd & F1 & F2);
    [lia|lra|].
  fold (xbx j) in R0, Wd, F1, F2.
  destruct (numerator_between (nth i T []) (xbx j) x (lo * ybox) (hi * ybox))
    as [N1 N2]; trivial.
  - now apply xbx_in.
  - now apply T_row_length.
  - lra.
  - intros c Hc. now apply T_between.
  - rewrite Wd in N1, N2. exact (reorder_bounds lo hi ybox xbox _ N1 N2).
Qed.

Lemma value_between (i j : nat) :
  (i < Z.to_nat s1)%nat -> (j < Z.to_nat s0)%nat ->
  exists v,
    nth j (nth i (rows (frebin2d_value array (s0, s1))) []) NonFinite = Finite v /\
    lo <= v /\ v <= hi.
Proof.
  intros Hi Hj. rewrite frebin2d_value_nth by assumption.
  destruct (Rr_between i j Hi Hj) as [B1 B2].
  destruct xbox_facts as [Px _]. destruct ybox_facts as [Py _].
  assert (Pw : 0 < xbox * ybox) by (apply Qmult_lt_0_compat; assumption).
  pose proof (np_div_between (nth i (nth j Rr []) 0) (xbox * ybox) lo hi
                (Qlt_le_weak _ _ Pw) B1 B2) as D.
  destruct (np_div _ _) as [v|].
  - exists v. split; [reflexivity|exact D].
  - exfalso. rewrite D in Pw. discriminate.
Qed.

End Range.

Section Flux.

Lemma T_rect : Forall (fun r => length r = x) T.
Proof.
  apply Forall_forall. intros r Hr.
  destruct (In_nth T r [] Hr) as [i [Hi E]]. rewrite <- E.
  apply T_row_length. unfold T in Hi. now rewrite pass_lines_length in Hi.
Qed.

Lemma T_column_sum (c : nat) :
  (c < x)%nat -> np_sum (col c T) == np_sum (col c (rows array)).
Proof.
  intros Hc. destruct ybox_facts as [P E].
  rewrite <- (np_sum_seq_id (col c T)), col_length.
  unfold T at 2. rewrite pass_lines_length. fold T.
  rewrite <- (pass_sum (col c (rows array)) y s1 ybox); trivial;
    [|apply col_length].
  apply np_sum_ext. intros k Hk. apply in_seq in Hk.
  rewrite col_nth. apply T_value; [lia|exact Hc].
Qed.

Lemma total_T : total T == total (rows array).
Proof.
  rewrite (total_by_columns x T T_rect).
  rewrite (total_by_columns x (rows array) array_wf).
  apply np_sum_ext. intros c Hc. apply in_seq in Hc.
  apply T_column_sum. lia.
Qed.

Lemma Rr_column_sum (i : nat) :
  (i < Z.to_nat s1)%nat -> np_sum (col i Rr) == np_sum (nth i T []).
Proof.
  intros Hi. destruct xbox_facts as [P E].
  rewrite <- (np_sum_seq_id (col i Rr)), col_length.
  unfold Rr at 2. rewrite pass_lines_length. fold Rr.
  rewrite <- (pass_sum (nth i T []) x s0 xbox); trivial;
    [|now apply T_row_length].
  apply np_sum_ext. intros k Hk. apply in_seq in Hk.
  rewrite col_nth. apply Rr_value; [exact Hi|lia].
Qed.

Let vals : list (list Q) :=
  map (fun i => map (fun q => q / (xbox * ybox)) (col i Rr)) (seq 0 (Z.to_nat s1)).

Lemma box_area_nonzero : ~ xbox * ybox == 0.
Proof.
  destruct xbox_facts as [Px _]. destruct ybox_facts as [Py _].
  pose proof (Qmult_lt_0_compat _ _ Px Py) as Pw.
  intros E. rewrite E in Pw. discriminate.
Qed.

Lemma value_rows : rows (frebin2d_value array (s0, s1)) = map (map Finite) vals.
Proof.
  unfold frebin2d_value. cbn [fst snd rows].
  fold y x ybox xbox T temp Rr.
  change (rows (transpose (mkArray2 (Z.to_nat s1) Rr)))
    with (map (fun c => col c Rr) (seq 0 (Z.to_nat s1))).
  unfold vals. rewrite !map_map. apply map_ext. intros c.
  apply vdiv_finite, box_area_nonzero.
Qed.

Lemma total_vals : total vals * (xbox * ybox) == total (rows array).
Proof.
  rewrite <- total_T. unfold total at 1, vals. rewrite map_map.
  rewrite (np_sum_ext _ (fun i => np_sum (nth i T []) / (xbox * ybox))).
  2:{ intros i Hi. apply in_seq in Hi.
      rewrite np_sum_div, Rr_column_sum by lia. reflexivity. }
  assert (Et : total T
               == np_sum (map (fun i => np_sum (nth i T [])) (seq 0 (Z.to_nat s1)))).
  { unfold total. rewrite <- (nth_seq_id [] T) at 1.
    rewrite map_map. unfold T at 2. rewrite pass_lines_length. reflexivity. }
  rewrite Et. apply np_sum_div_mul, box_area_nonzero.
Qed.

End Flux.

Section Footprint.

(** The integral of the image over the rows [[y0, y1]] of output line [i],
    column by column. *)
Let strip (i : nat) : list Q :=
  map (fun c => step_integral (col c (rows array)) (rstop (ybx i))
                - step_integral (col c (rows array)) (rstart (ybx i)))
      (seq 0 x).

Lemma ybx_integral (L : list Q) (i : nat) :
  length L = y -> (i < Z.to_nat s1)%nat ->
  numerator L (ybx i)
  == step_integral L (rstop (ybx i)) - step_integral L (rstart (ybx i)).
Proof.
  intros Ll Hi. destruct ybox_facts as [P E].
  destruct (line_box_fracs (Z.of_nat y - 1) ybox (Z.of_nat i)) as (R0 & Wd & _);
    [lia|apply Qlt_le_weak; exact P|].
  fold (ybx i) in R0, Wd.
  assert (K1 : inject_Z (Z.of_nat i) + 1 <= inject_Z s1).
  { change 1 with (inject_Z 1). rewrite <- inject_Z_plus, <- Zle_Qle. lia. }
  assert (Rs : rstart (ybx i) == inject_Z (Z.of_nat i) * ybox) by reflexivity.
  apply (numerator_integral L (ybx i) y Ll R0).
  - apply (span_ordered _ _ _ (Qlt_le_weak _ _ P) Wd).
  - apply (span_inside (rstart (ybx i)) (rstop (ybx i)) ybox
             (inject_Z (Z.of_nat i)) (inject_Z s1) (inject_Z (Z.of_nat y)));
      trivial. apply nat_nonneg_Q.
  - apply (span_start (rstart (ybx i)) ybox
             (inject_Z (Z.of_nat i)) (inject_Z s1) (inject_Z (Z.of_nat y)));
      trivial.
  - reflexivity.
  - apply line_box_istop.
Qed.

Lemma xbx_integral (L : list Q) (j : nat) :
  length L = x -> (j < Z.to_nat s0)%nat ->
  numerator L (xbx j)
  == step_integral L (rstop (xbx j)) - step_integral L (rstart (xbx j)).
Proof.
  intros Ll Hj. destruct xbox_facts as [P E].
  destruct (line_box_fracs (Z.of_nat x - 1) xbox (Z.of_nat j)) as (R0 & Wd & _);
    [lia|apply Qlt_le_weak; exact P|].
  fold (xbx j) in R0, Wd.
  assert (K1 : inject_Z (Z.of_nat j) + 1 <= inject_Z s0).
  { change 1 with (inject_Z 1). rewrite <- inject_Z_plus, <- Zle_Qle. lia. }
  assert (Rs : rstart (xbx j) == inject_Z (Z.of_nat j) * xbox) by reflexivity.
  apply (numerator_integral L (xbx j) x Ll R0).
  - apply (span_ordered _ _ _ (Qlt_le_weak _ _ P) Wd).
  - apply (span_inside (rstart (xbx j)) (rstop (xbx j)) xbox
             (inject_Z (Z.of_nat j)) (inject_Z s0) (inject_Z (Z.of_nat x)));
      trivial. apply nat_nonneg_Q.
  - apply (span_start (rstart (xbx j)) xbox
             (inject_Z (Z.of_nat j)) (inject_Z s0) (inject_Z (Z.of_nat x)));
      trivial.
  - reflexivity.
  - apply line_box_istop.
Qed.

Lemma strip_length (i : nat) : length (strip i) = x.
Proof. unfold strip. now rewrite length_map, length_seq. Qed.

Lemma strip_nth (i c : nat) :
  (c < x)%nat ->
  nth c (strip i) 0
  = step_integral (col c (rows array)) (rstop (ybx i))
    - step_integral (col c (rows array)) (rstart (ybx i)).
Proof.
  intros Hc. unfold strip.
  rewrite (nth_indep _ 0
    ((fun c => step_integral (col c (rows array)) (rstop (ybx i))
               - step_integral (col c (rows array)) (rstart (ybx i))) 0%nat))
    by now rewrite length_map, length_seq.
  rewrite (map_nth (fun c => step_integral (col c (rows array)) (rstop (ybx i))
                             - step_integral (col c (rows array)) (rstart (ybx i)))).
  now rewrite seq_nth.
Qed.

Lemma T_strip (i : nat) :
  (i < Z.to_nat s1)%nat -> forall c, nth c (nth i T []) 0 == nth c (strip i) 0.
Proof.
  intros Hi c. destruct (Nat.lt_ge_cases c x) as [Lt|Ge].
  - rewrite (T_value i c Hi Lt), strip_nth by exact Lt.
    apply ybx_integral; [apply col_length|exact Hi].
  - rewrite !nth_overflow; [reflexivity|rewrite strip_length; lia|].
    rewrite T_row_length by exact Hi. lia.
Qed.

Lemma value_footprint (i j : nat) :
  (i < Z.to_nat s1)%nat -> (j < Z.to_nat s0)%nat ->
  exists v,
    nth j (nth i (rows (frebin2d_value array (s0, s1))) []) NonFinite = Finite v /\
    v * (xbox * ybox)
    == step_integral (strip i) (rstop (xbx j))
       - step_integral (strip i) (rstart (xbx j)).
Proof.
  intros Hi Hj. rewrite frebin2d_value_nth by assumption.
  pose proof box_area_nonzero as N. unfold np_div.
  replace (Qeq_bool (xbox * ybox) 0) with false.
  - eexists. split; [reflexivity|].
    rewrite (Rr_value i j Hi Hj).
    rewrite (xbx_integral (nth i T []) j (T_row_length i Hi) Hj).
    rewrite !(step_integral_ext (nth i T []) (strip i))
      by (try apply T_strip; trivial; rewrite strip_length; now apply T_row_length).
    apply div_mul_cancel. exact N.
  - symmetry. destruct (Qeq_bool (xbox * ybox) 0) eqn:E; trivial.
    apply Qeq_bool_iff in E. contradiction.
Qed.

End Footprint.

Section Replication.

Variables mx my : nat.
Hypothesis mx_divides : s0 = (Z.of_nat x * Z.of_nat mx)%Z.
Hypothesis my_divides : s1 = (Z.of_nat y * Z.of_nat my)%Z.

Lemma mx_pos : (1 <= mx)%nat.
Proof. clear - mx_divides s0_pos. nia. Qed.

Lemma my_pos : (1 <= my)%nat.
Proof. clear - my_divides s1_pos. nia. Qed.

Lemma xbox_unit : xbox * inject_Z (Z.of_nat mx) == 1.
Proof.
  pose proof mx_pos as P. unfold xbox. rewrite mx_divides, inject_Z_mult.
  field. split; change 0 with (inject_Z 0); rewrite inject_Z_injective;
    clear - P cols_pos; try unfold x; lia.
Qed.

Lemma ybox_unit : ybox * inject_Z (Z.of_nat my) == 1.
Proof.
  pose proof my_pos as P. unfold ybox. rewrite my_divides, inject_Z_mult.
  field. split; change 0 with (inject_Z 0); rewrite inject_Z_injective;
    clear - P rows_pos; try unfold y; lia.
Qed.

Lemma strip_pixel (i c : nat) :
  (i < Z.to_nat s1)%nat -> (c < x)%nat ->
  step_integral (col c (rows array)) (rstop (ybx i))
  - step_integral (col c (rows array)) (rstart (ybx i))
  == ybox * nth c (nth (i / my) (rows array) []) 0.
Proof.
  intros Hi Hc. destruct ybox_facts as [P _].
  destruct (pixel_of_box ybox my i my_pos ybox_unit) as (B0 & B1).
  rewrite (step_integral_pixel (col c (rows array)) (i / my)
             (rstart (ybx i)) (rstop (ybx i))).
  - rewrite col_nth.
    assert (Wd : rstop (ybx i) - rstart (ybx i) == ybox)
      by (unfold ybx, line_box; simpl; ring).
    rewrite Wd. reflexivity.
  - exact B0.
  - unfold ybx, line_box; simpl. clear - P. lra.
  - exact B1.
Qed.

Lemma value_replicated (i j : nat) :
  (i < Z.to_nat s1)%nat -> (j < Z.to_nat s0)%nat ->
  exists v,
    nth j (nth i (rows (frebin2d_value array (s0, s1))) []) NonFinite = Finite v /\
    v == nth (j / mx) (nth (i / my) (rows array) []) 0.
Proof.
  intros Hi Hj. destruct (value_footprint i j Hi Hj) as (v & Ev & Hv).
  exists v. split; [exact Ev|].
  pose proof box_area_nonzero as N. destruct xbox_facts as [P _].
  destruct (pixel_of_box xbox mx j mx_pos xbox_unit) as (B0 & B1).
  assert (Hq : (j / mx < x)%nat).
  { apply Nat.Div0.div_lt_upper_bound. clear - Hj mx_divides. nia. }
  rewrite (step_integral_pixel _ (j / mx) (rstart (xbx j)) (rstop (xbx j)))
    in Hv; [|exact B0|unfold xbx, line_box; simpl; clear - P; lra|exact B1].
  assert (Wd : rstop (xbx j) - rstart (xbx j) == xbox)
    by (unfold xbx, line_box; simpl; ring).
  rewrite Wd in Hv.
  rewrite (strip_nth i (j / mx) Hq) in Hv.
  rewrite (strip_pixel i (j / mx) Hi Hq) in Hv.
  apply (mul_cancel_area v _ (xbox * ybox) N). rewrite Hv. ring.
Qed.

End Replication.

Section Blocks.

Variables kx ky : nat.
Hypothesis kx_divides : Z.of_nat x = (s0 * Z.of_nat kx)%Z.
Hypothesis ky_divides : Z.of_nat y = (s1 * Z.of_nat ky)%Z.

(** The sum of the [ky] by [kx] block of input pixels behind output pixel
    [(i, j)]. *)
Let block (i j : nat) : Q :=
  np_sum (map (fun c => np_sum (map (fun r => nth c (nth r (rows array) []) 0)
                                    (seq (i * ky) ky)))
              (seq (j * kx) kx)).

Lemma kx_pos : (1 <= kx)%nat.
Proof. clear - kx_divides cols_pos s0_pos. unfold x in *. nia. Qed.

Lemma ky_pos : (1 <= ky)%nat.
Proof. clear - ky_divides rows_pos s1_pos. unfold y in *. nia. Qed.

Lemma xbox_int : xbox == inject_Z (Z.of_nat kx).
Proof.
  unfold xbox. rewrite kx_divides, inject_Z_mult. field.
  change 0 with (inject_Z 0). rewrite inject_Z_injective. lia.
Qed.

Lemma ybox_int : ybox == inject_Z (Z.of_nat ky).
Proof.
  unfold ybox. rewrite ky_divides, inject_Z_mult. field.
  change 0 with (inject_Z 0). rewrite inject_Z_injective. lia.
Qed.

Lemma Rr_block (i j : nat) :
  (i < Z.to_nat s1)%nat -> (j < Z.to_nat s0)%nat ->
  nth i (nth j Rr []) 0 == block i j.
Proof.
  intros Hi Hj. rewrite (Rr_value i j Hi Hj). unfold xbx.
  rewrite (integer_box_sum (nth i T []) x s0 kx xbox j
             (T_row_length i Hi) kx_pos xbox_int kx_divides Hj).
  apply np_sum_ext. intros c Hc. apply in_seq in Hc.
  assert (Hc' : (c < x)%nat) by (pose proof kx_divides; nia).
  rewrite (T_value i c Hi Hc'). unfold ybx.
  rewrite (integer_box_sum (col c (rows array)) y s1 ky ybox i
             (col_length c (rows array)) ky_pos ybox_int ky_divides Hi).
  apply np_sum_ext. intros r _. now rewrite col_nth.
Qed.

Lemma value_block (i j : nat) :
  (i < Z.to_nat s1)%nat -> (j < Z.to_nat s0)%nat ->
  exists v,
    nth j (nth i (rows (frebin2d_value array (s0, s1))) []) NonFinite = Finite v /\
    v == block i j / (inject_Z (Z.of_nat kx) * inject_Z (Z.of_nat ky)).
Proof.
  intros Hi Hj. rewrite frebin2d_value_nth by assumption.
  pose proof box_area_nonzero as N. unfold np_div.
  replace (Qeq_bool (xbox * ybox) 0) with false.
  - eexists. split; [reflexivity|].
    rewrite (Rr_block i j Hi Hj).
    rewrite <- xbox_int, <- ybox_int. reflexivity.
  - symmetry. destruct (Qeq_bool (xbox * ybox) 0) eqn:E; trivial.
    apply Qeq_bool_iff in E. contradiction.
Qed.

End Blocks.

End Planar.

(** X13. Over exact rationals: for a rectangular non-empty array and a
    positive shape every value of the result of [frebin2d] is finite and lies between any lower
    and any upper bound of the input values; in particular a constant image
    is resized to the same constant. *)
Theorem frebin2d_within_input_range
        (array : array2 Q) (outCols outRows : Z) (lo hi : Q) :
  wf2 array -> (1 <= nrows array)%nat -> (1 <= ncols array)%nat ->
  (0 < outCols)%Z -> (0 < outRows)%Z ->
  (forall r c, (r < nrows array)%nat -> (c < ncols array)%nat ->
     lo <= nth c (nth r (rows array) []) 0 /\
     nth c (nth r (rows array) []) 0 <= hi) ->
  exists out,
    frebin2d array (outCols, outRows) = Ok out /\
    forall i j, (i < Z.to_nat outRows)%nat -> (j < Z.to_nat outCols)%nat ->
      exists v,
        nth j (nth i (rows out) []) NonFinite = Finite v /\ lo <= v /\ v <= hi.
Proof.
  intros W Hy Hx H0 H1 H.
  exists (frebin2d_value array (outCols, outRows)).
  split; [now apply frebin2d_ok|].
  intros i j Hi Hj. now apply value_between.
Qed.

Lemma frebin2d_within_input_range_witness :
  exists out,
    frebin2d (mkArray2 3 [[1; 2; 3]; [4; 5; 6]]) (2, 1)%Z = Ok out /\
    forall i j, (i < 1)%nat -> (j < 2)%nat ->
      exists v,
        nth j (nth i (rows out) []) NonFinite = Finite v /\ 1 <= v /\ v <= 6.
Proof.
  apply (frebin2d_within_input_range (mkArray2 3 [[1; 2; 3]; [4; 5; 6]]) 2 1 1 6).
  - repeat constructor.
  - unfold nrows. simpl. lia.
  - simpl. lia.
  - lia.
  - lia.
  - intros r c Hr Hc. unfold nrows in Hr. simpl in Hr, Hc.
    destruct r as [|[|r]]; [| |lia];
      (destruct c as [|[|[|c]]]; [| | |lia]); simpl; split; discriminate.
Defined.

(** X14. Flux conservation of [frebin2d]: every value of the result is
    finite, and the sum of the result times the number of input pixels equals
    the sum of the input times the number of output pixels (the mean of the
    image is preserved). *)
Theorem frebin2d_conserves_flux (array : array2 Q) (outCols outRows : Z) :
  wf2 array -> (1 <= nrows array)%nat -> (1 <= ncols array)%nat ->
  (0 < outCols)%Z -> (0 < outRows)%Z ->
  exists out vals,
    frebin2d array (outCols, outRows) = Ok out /\
    rows out = map (map Finite) vals /\
    total vals * (inject_Z (Z.of_nat (ncols array)) * inject_Z (Z.of_nat (nrows array)))
    == total (rows array) * (inject_Z outCols * inject_Z outRows).
Proof.
  intros W Hy Hx H0 H1.
  exists (frebin2d_value array (outCols, outRows)).
  eexists. split; [now apply frebin2d_ok|].
  split; [now apply value_rows|].
  rewrite <- (total_vals array outCols outRows W Hy Hx H0 H1).
  assert (P0 : ~ inject_Z outCols == 0).
  { intros E. pose proof (inject_Z_nonzero outCols ltac:(lia)) as F.
    apply Qeq_bool_iff in E. congruence. }
  assert (P1 : ~ inject_Z outRows == 0).
  { intros E. pose proof (inject_Z_nonzero outRows ltac:(lia)) as F.
    apply Qeq_bool_iff in E. congruence. }
  match goal with |- total ?v * _ == _ => generalize (total v) end.
  intros t. field. split; assumption.
Qed.

Lemma frebin2d_conserves_flux_witness :
  exists out vals,
    frebin2d (mkArray2 3 [[1; 2; 3]; [4; 5; 6]]) (2, 1)%Z = Ok out /\
    rows out = map (map Finite) vals /\
    total vals * (3 * 2) == (1 + 2 + 3 + 4 + 5 + 6) * (2 * 1).
Proof.
  destruct (frebin2d_conserves_flux (mkArray2 3 [[1; 2; 3]; [4; 5; 6]]) 2 1)
    as (out & vals & E & R & F).
  - repeat constructor.
  - unfold nrows. simpl. lia.
  - simpl. lia.
  - lia.
  - lia.
  - exists out, vals. split; [exact E|]. split; [exact R|].
    rewrite F. vm_compute. reflexivity.
Defined.

(** X15. Over exact rationals: when the requested shape divides the shape
    of the array, every output pixel of [frebin2d] is the mean of the [ky] by [kx] block of input
    pixels behind it. *)
Theorem frebin2d_integer_binning
        (array : array2 Q) (outCols outRows : Z) (kx ky : nat) :
  wf2 array -> (1 <= nrows array)%nat -> (1 <= ncols array)%nat ->
  (0 < outCols)%Z -> (0 < outRows)%Z ->
  Z.of_nat (ncols array) = (outCols * Z.of_nat kx)%Z ->
  Z.of_nat (nrows array) = (outRows * Z.of_nat ky)%Z ->
  exists out,
    frebin2d array (outCols, outRows) = Ok out /\
    forall i j, (i < Z.to_nat outRows)%nat -> (j < Z.to_nat outCols)%nat ->
      exists v,
        nth j (nth i (rows out) []) NonFinite = Finite v /\
        v == np_sum (map (fun c =>
                       np_sum (map (fun r => nth c (nth r (rows array) []) 0)
                                   (seq (i * ky) ky)))
                     (seq (j * kx) kx))
             / (inject_Z (Z.of_nat kx) * inject_Z (Z.of_nat ky)).
Proof.
  intros W Hy Hx H0 H1 Kx Ky.
  exists (frebin2d_value array (outCols, outRows)).
  split; [now apply frebin2d_ok|].
  intros i j Hi Hj. now apply value_block.
Qed.

Lemma frebin2d_integer_binning_witness :
  exists out,
    frebin2d (mkArray2 4 [[1; 2; 3; 4]; [5; 6; 7; 8]]) (2, 1)%Z = Ok out /\
    exists v, nth 1 (nth 0 (rows out) []) NonFinite = Finite v /\
              v == (3 + 4 + 7 + 8) / 4.
Proof.
  destruct (frebin2d_integer_binning
              (mkArray2 4 [[1; 2; 3; 4]; [5; 6; 7; 8]]) 2 1 2 2)
    as (out & E & H).
  - repeat constructor.
  - unfold nrows. simpl. lia.
  - simpl. lia.
  - lia.
  - lia.
  - reflexivity.
  - reflexivity.
  - exists out. split; [exact E|].
    destruct (H 0%nat 1%nat ltac:(simpl; lia) ltac:(simpl; lia)) as (v & Ev & Hv).
    exists v. split; [exact Ev|]. rewrite Hv. vm_compute. reflexivity.
Defined.

(** X20. Over exact rationals every output pixel of [frebin2d] is the mean
    of the image over the footprint of the pixel: with [ybox] and [xbox] the numbers of input rows
    and columns to an output pixel, pixel [(i, j)] is the integral of the
    image, taken as a step function, over the rows from [i * ybox] to
    [(i + 1) * ybox] and the columns from [j * xbox] to [(j + 1) * xbox],
    divided by the area [xbox * ybox]. *)
Theorem frebin2d_area_mean (array : array2 Q) (outCols outRows : Z) :
  wf2 array -> (1 <= nrows array)%nat -> (1 <= ncols array)%nat ->
  (0 < outCols)%Z -> (0 < outRows)%Z ->
  exists out,
    frebin2d array (outCols, outRows) = Ok out /\
    forall i j, (i < Z.to_nat outRows)%nat -> (j < Z.to_nat outCols)%nat ->
      let ybox := inject_Z (Z.of_nat (nrows array)) / inject_Z outRows in
      let xbox := inject_Z (Z.of_nat (ncols array)) / inject_Z outCols in
      exists v,
        nth j (nth i (rows out) []) NonFinite = Finite v /\
        v * (xbox * ybox)
        == area_integral (rows array) (ncols array)
             (inject_Z (Z.of_nat i) * ybox) (inject_Z (Z.of_nat i) * ybox + ybox)
             (inject_Z (Z.of_nat j) * xbox) (inject_Z (Z.of_nat j) * xbox + xbox).
Proof.
  intros W Hy Hx H0 H1.
  exists (frebin2d_value array (outCols, outRows)).
  split; [now apply frebin2d_ok|].
  intros i j Hi Hj ybox xbox.
  exact (value_footprint array outCols outRows W Hy Hx H0 H1 i j Hi Hj).
Qed.

Lemma frebin2d_area_mean_witness :
  exists out,
    frebin2d (mkArray2 3 [[1; 2; 3]; [4; 5; 6]]) (2, 1)%Z = Ok out /\
    exists v, nth 0 (nth 0 (rows out) []) NonFinite = Finite v /\
              v * ((3 # 2) * 2) == 1 + 4 + (1 # 2) * (2 + 5).
Proof.
  destruct (frebin2d_area_mean (mkArray2 3 [[1; 2; 3]; [4; 5; 6]]) 2 1)
    as (out & E & H).
  - repeat constructor.
  - unfold nrows. simpl. lia.
  - simpl. lia.
  - lia.
  - lia.
  - exists out. split; [exact E|].
    destruct (H 0%nat 0%nat ltac:(simpl; lia) ltac:(simpl; lia)) as (v & Ev & Hv).
    exists v. split; [exact Ev|].
    transitivity (v * (inject_Z 3 / inject_Z 2 * (inject_Z 2 / inject_Z 1))).
    + apply Qmult_comp; [reflexivity|now vm_compute].
    + etransitivity; [exact Hv|now vm_compute].
Defined.

(** X21. Over exact rationals: when the requested shape is a whole multiple
    of the shape of the array, [frebin2d] replicates pixels: with [my] output rows and [mx]
    output columns to an input pixel, output pixel [(i, j)] is the input
    pixel [(i / my, j / mx)]. *)
Theorem frebin2d_integer_upsampling
        (array : array2 Q) (outCols outRows : Z) (mx my : nat) :
  wf2 array -> (1 <= nrows array)%nat -> (1 <= ncols array)%nat ->
  (0 < outCols)%Z -> (0 < outRows)%Z ->
  outCols = (Z.of_nat (ncols array) * Z.of_nat mx)%Z ->
  outRows = (Z.of_nat (nrows array) * Z.of_nat my)%Z ->
  exists out,
    frebin2d array (outCols, outRows) = Ok out /\
    forall i j, (i < Z.to_nat outRows)%nat -> (j < Z.to_nat outCols)%nat ->
      exists v,
        nth j (nth i (rows out) []) NonFinite = Finite v /\
        v == nth (j / mx) (nth (i / my) (rows array) []) 0.
Proof.
  intros W Hy Hx H0 H1 Kx Ky.
  exists (frebin2d_value array (outCols, outRows)).
  split; [now apply frebin2d_ok|].
  intros i j Hi Hj. now apply value_replicated.
Qed.

Lemma frebin2d_integer_upsampling_witness :
  exists out,
    frebin2d (mkArray2 2 [[1; 2]; [3; 4]]) (6, 4)%Z = Ok out /\
    exists v, nth 4 (nth 3 (rows out) []) NonFinite = Finite v /\ v == 4.
Proof.
  destruct (frebin2d_integer_upsampling (mkArray2 2 [[1; 2]; [3; 4]]) 6 4 3 2)
    as (out & E & H).
  - repeat constructor.
  - unfold nrows. simpl. lia.
  - simpl. lia.
  - lia.
  - lia.
  - reflexivity.
  - reflexivity.
  - exists out. split; [exact E|].
    destruct (H 3%nat 4%nat ltac:(simpl; lia) ltac:(simpl; lia)) as (v & Ev & Hv).
    exists v. split; [exact Ev|]. rewrite Hv. reflexivity.
Defined.

(** ** Interpolation at the input samples *)

(** X6. In the interpolation regime an output coordinate that coincides
    with an input coordinate gets the input value at that coordinate. *)
Theorem rebin1d_exact_at_samples (xout xin yin : list Q) :
  grid xout -> grid xin -> starts_inside xout xin ->
  length yin = length xin ->
  dx_out xout < dx_in xout xin ->
  exists ys,
    rebin1d xout xin yin = Ok (map Finite ys) /\ length ys = length xout /\
    forall k j, (k < length xout)%nat -> (j < length xin)%nat ->
      nth k xout 0 == nth j xin 0 -> nth k ys 0 == nth j yin 0.
Proof.
  intros Go Gi Hs L Lt.
  pose proof (select_regime_ok xout xin Go Gi Hs) as R.
  apply Qltb_lt in Lt. rewrite Lt in R.
  pose proof (grid_nonempty xin Gi) as Ne.
  exists (map (fun x => interp_val x xin yin) xout).
  split; [now apply rebin1d_interpolation_total|].
  split; [apply length_map|]. intros k j Hk Hj E.
  rewrite (nth_indep _ 0 ((fun x => interp_val x xin yin) 0))
    by now rewrite length_map.
  rewrite (map_nth (fun x => interp_val x xin yin)).
  destruct Gi as [I Ln].
  destruct (interp_val_spec (nth k xout 0) xin yin Ne L) as [Lf V | Rt V | j' Hj' Lo Hi V].
  - exfalso. pose proof (increasing_nth_le xin 0 j I ltac:(lia)) as H.
    clear - E Lf H. lra.
  - assert (j = length xin - 1)%nat.
    { destruct (Nat.eq_dec j (length xin - 1)) as [|N]; trivial. exfalso.
      pose proof (increasing_nth xin j (length xin - 1) I ltac:(lia)) as H.
      clear - E Rt H. lra. }
    subst j. exact V.
  - assert (j' = j).
    { assert (A : nth j xin 0 < nth (S j') xin 0) by (clear - E Hi; lra).
      pose proof (increasing_index_lt xin j (S j') I ltac:(lia) ltac:(lia) A) as B.
      destruct (Nat.eq_dec j' j) as [|N]; trivial. exfalso.
      pose proof (increasing_nth xin j j' I ltac:(lia)) as C.
      clear - E Lo C. lra. }
    subst j'. rewrite V, E. field. clear - E Lo Hi. lra.
Qed.

Lemma rebin1d_exact_at_samples_witness :
  exists ys,
    rebin1d [0; 1 # 2; 1; 3 # 2] [0; 1; 2; 3] [5; 9; 4; 7] = Ok (map Finite ys) /\
    length ys = 4%nat /\
    forall k j, (k < 4)%nat -> (j < 4)%nat ->
      nth k [0; 1 # 2; 1; 3 # 2] 0 == nth j [0; 1; 2; 3] 0 ->
      nth k ys 0 == nth j [5; 9; 4; 7] 0.
Proof.
  apply (rebin1d_exact_at_samples [0; 1 # 2; 1; 3 # 2] [0; 1; 2; 3] [5; 9; 4; 7]).
  - split; [reflexivity|simpl; lia].
  - split; [reflexivity|simpl; lia].
  - reflexivity.
  - reflexivity.
  - reflexivity.
Defined.

(** ** The cube rebinner inherits the bounds of [rebin1d] *)

(** X10. Over exact rationals: on valid grids whose output grid starts
    inside the input grid and a well-formed cube of the input grid's
    spectral length, [rebin_cube_1d] returns a cube of [len(xout)] planes in which
    every finite value lies between any lower and any upper bound of the
    values of the input cube. *)
Theorem rebin_cube_1d_within_input_range
        (xout xin : list Q) (cube : array3 Q) (lo hi : Q) :
  grid xout -> grid xin -> starts_inside xout xin ->
  wf3 cube -> length (planes cube) = length xin ->
  (forall k j i, (k < length (planes cube))%nat ->
     (j < shape1 cube)%nat -> (i < shape2 cube)%nat ->
     lo <= nth i (nth j (nth k (planes cube) []) []) 0 /\
     nth i (nth j (nth k (planes cube) []) []) 0 <= hi) ->
  exists c,
    rebin_cube_1d xout xin cube = Ok c /\
    length (planes c) = length xout /\
    forall k j i, (k < length xout)%nat ->
      (j < shape1 cube)%nat -> (i < shape2 cube)%nat ->
      match nth i (nth j (nth k (planes c) []) []) NonFinite with
      | Finite v => lo <= v /\ v <= hi
      | NonFinite => True
      end.
Proof.
  intros Go Gi Hs W L H.
  destruct (rebin_cube_1d_shape xout xin cube Go Gi Hs W L) as (c & E & Lc & _).
  exists c. split; [exact E|]. split; [exact Lc|]. intros k j i Hk Hj Hi.
  pose proof (cube_pixel xout xin cube j i W Hj Hi) as P.
  rewrite E in P. simpl in P.
  destruct (rebin1d_range xout xin (column 0 (planes cube) j i) lo hi
              Go Gi Hs) as (ys & Ey & Ly & B).
  { now rewrite column_length. }
  { intros k' Hk'. rewrite column_length in Hk'.
    rewrite column_nth by exact Hk'. now apply H. }
  rewrite Ey in P. simpl in P.
  pose proof (Forall2_nth_elim fnum_eq NonFinite NonFinite _ _ k P) as N.
  rewrite column_length, column_nth in N by lia.
  specialize (N ltac:(lia)). specialize (B k Hk).
  destruct (nth i (nth j (nth k (planes c) []) []) NonFinite) as [v|];
    [|exact I].
  destruct (nth k ys NonFinite) as [v'|]; simpl in N; [|contradiction].
  rewrite N. exact B.
Qed.

Lemma rebin_cube_1d_within_input_range_witness :
  exists c,
    rebin_cube_1d [0; 2; 4] [0; 1; 2; 3; 4]
      (mkArray3 1 2 (map (fun v => [[v; v + 1]]) [1; 5; 2; 4; 3])) = Ok c /\
    length (planes c) = 3%nat /\
    forall k j i, (k < 3)%nat -> (j < 1)%nat -> (i < 2)%nat ->
      match nth i (nth j (nth k (planes c) []) []) NonFinite with
      | Finite v => 1 <= v /\ v <= 6
      | NonFinite => True
      end.
Proof.
  apply (rebin_cube_1d_within_input_range [0; 2; 4] [0; 1; 2; 3; 4]
           (mkArray3 1 2 (map (fun v => [[v; v + 1]]) [1; 5; 2; 4; 3])) 1 6).
  - split; [reflexivity|simpl; lia].
  - split; [reflexivity|simpl; lia].
  - reflexivity.
  - repeat constructor.
  - reflexivity.
  - intros k j i Hk Hj Hi. simpl in Hk, Hj, Hi.
    destruct k as [|[|[|[|[|k]]]]]; [| | | | |lia];
      (destruct j as [|j]; [|lia]);
      (destruct i as [|[|i]]; [| |lia]); vm_compute; split; discriminate.
Defined.

(** ** A change of units of the coordinate *)

Lemma py_int_compat (x x' : Q) : 0 <= x -> x == x' -> py_int x = py_int x'.
Proof.
  intros H E. rewrite !py_int_floor by lra. apply Qfloor_comp. exact E.
Qed.

Lemma np_div_compat2 (n n' d d' : Q) :
  n == n' -> d == d' -> fnum_eq (np_div n d) (np_div n' d').
Proof.
  intros En Ed. unfold np_div.
  destruct (Qeq_bool d 0) eqn:E; destruct (Qeq_bool d' 0) eqn:E'; simpl.
  - exact I.
  - apply Qeq_bool_iff in E. apply Qeq_bool_neq in E'. apply E'. lra.
  - apply Qeq_bool_iff in E'. apply Qeq_bool_neq in E. apply E. lra.
  - now rewrite En, Ed.
Qed.

Lemma numerator_box_compat (yin : list Q) (b b' : box) :
  rstart b == rstart b' -> rstop b == rstop b' ->
  istart b = istart b' -> istop b = istop b' ->
  numerator yin b == numerator yin b'.
Proof.
  intros E1 E2 E3 E4. unfold numerator, frac1, frac2. rewrite <- E3, <- E4.
  destruct (istart b =? istop b)%Z; rewrite E1, E2; reflexivity.
Qed.

Lemma box_of_compat (ii ii' : list Q) (nin k : nat) :
  length ii = length ii' -> (forall k, nth k ii 0 == nth k ii' 0) ->
  edges_ok ii nin -> (k < length ii)%nat ->
  rstart (box_of ii nin k) == rstart (box_of ii' nin k) /\
  rstop (box_of ii nin k) == rstop (box_of ii' nin k) /\
  istart (box_of ii nin k) = istart (box_of ii' nin k) /\
  istop (box_of ii nin k) = istop (box_of ii' nin k).
Proof.
  intros L H Ed Hk.
  pose proof (box_of_rstart_nonneg ii nin k Ed Hk) as P0.
  pose proof (box_of_ordered ii nin k Ed Hk) as P1.
  assert (R0 : rstart (box_of ii nin k) == rstart (box_of ii' nin k)) by apply H.
  assert (R1 : rstop (box_of ii nin k) == rstop (box_of ii' nin k)).
  { simpl. rewrite <- L. destruct (S k <? length ii)%nat; [apply H|].
    rewrite (H k), (H (k - 1)%nat). reflexivity. }
  split; [exact R0|]. split; [exact R1|]. split.
  - apply (py_int_compat _ _ P0 R0).
  - change (Z.min (py_int (rstop (box_of ii nin k))) (Z.of_nat nin - 1)
            = Z.min (py_int (rstop (box_of ii' nin k))) (Z.of_nat nin - 1)).
    rewrite (py_int_compat _ _ (Qle_trans _ _ _ P0 P1) R1). reflexivity.
Qed.

(** Linear interpolation on a strictly increasing grid has one value. *)
Lemma linear_interp_unique (xp fp : list Q) (x v v' : Q) :
  strictly_increasing xp -> xp <> [] ->
  linear_interp xp fp x v -> linear_interp xp fp x v' -> v == v'.
Proof.
  intros I Ne H H'.
  assert (P : (0 < length xp)%nat) by (destruct xp; [congruence|simpl; lia]).
  assert (FL : forall j, (j < length xp)%nat ->
                 nth 0 xp 0 <= nth j xp 0 /\
                 nth j xp 0 <= nth (length xp - 1) xp 0).
  { intros j Hj. split; apply increasing_nth_le; trivial; lia. }
  destruct H as [L E|R E|j Hj Lo Hi E];
    destruct H' as [L' E'|R' E'|j' Hj' Lo' Hi' E'].
  - now rewrite E, E'.
  - exfalso. destruct (FL 0%nat P). lra.
  - exfalso. destruct (FL j' ltac:(lia)). lra.
  - exfalso. destruct (FL 0%nat P). lra.
  - now rewrite E, E'.
  - exfalso. destruct (FL (S j') Hj'). lra.
  - exfalso. destruct (FL j ltac:(lia)). lra.
  - exfalso. destruct (FL (S j) Hj). lra.
  - assert (J : j = j').
    { destruct (Nat.lt_trichotomy j j') as [Lt|[Eq|Gt]]; [|exact Eq|]; exfalso.
      - pose proof (increasing_nth_le xp (S j) j' I ltac:(lia)). lra.
      - pose proof (increasing_nth_le xp (S j') j I ltac:(lia)). lra. }
    subst j'. now rewrite E, E'.
Qed.

Section Affine.

Variables a b : Q.
Hypothesis a_pos : 0 < a.

(** The change of units [t |-> a * t + b]. *)
Let f (t : Q) : Q := a * t + b.

Lemma affine_lt (s t : Q) : f s < f t <-> s < t.
Proof.
  unfold f. rewrite <- (Qmult_lt_l s t a a_pos). split; intros H; lra.
Qed.

Lemma affine_le (s t : Q) : f s <= f t <-> s <= t.
Proof.
  unfold f. rewrite <- (Qmult_le_l s t a a_pos). split; intros H; lra.
Qed.

Lemma affine_nth (l : list Q) (k : nat) :
  (k < length l)%nat -> nth k (map f l) 0 = f (nth k l 0).
Proof.
  intros H. rewrite (nth_indep _ 0 (f 0)) by now rewrite length_map.
  apply map_nth.
Qed.

Lemma affine_increasing (l : list Q) :
  strictly_increasing l -> strictly_increasing (map f l).
Proof.
  unfold strictly_increasing. induction l as [|u l IH]; [trivial|].
  destruct l as [|w l]; [trivial|].
  intros H. change (Qltb u w && increasingb (w :: l) = true) in H.
  apply andb_true_iff in H. destruct H as [H1 H2].
  change (Qltb (f u) (f w) && increasingb (map f (w :: l)) = true).
  apply andb_true_iff. split; [|exact (IH H2)].
  apply Qltb_lt. apply affine_lt. now apply Qltb_lt.
Qed.

Lemma affine_grid (l : list Q) : grid l -> grid (map f l).
Proof.
  intros [I L]. split; [now apply affine_increasing|now rewrite length_map].
Qed.

Lemma affine_starts_inside (xout xin : list Q) :
  grid xout -> grid xin -> starts_inside xout xin ->
  starts_inside (map f xout) (map f xin).
Proof.
  intros [_ Lo] [_ Li]. unfold starts_inside. rewrite !last_nth, length_map.
  rewrite !affine_nth by lia. rewrite !Qltb_lt. apply affine_lt.
Qed.

Lemma linear_interp_affine (xp fp : list Q) (x x' v : Q) :
  xp <> [] -> x' == f x ->
  linear_interp (map f xp) fp x' v -> linear_interp xp fp x v.
Proof.
  intros Ne Ex H.
  assert (P : (0 < length xp)%nat) by (destruct xp; [congruence|simpl; lia]).
  destruct H as [L E|R E|j Hj Lo Hi E].
  - apply li_left; [|exact E].
    rewrite affine_nth, Ex in L by exact P. exact (proj1 (affine_lt _ _) L).
  - rewrite length_map in R, E. apply li_right; [|exact E].
    rewrite affine_nth, Ex in R by lia. exact (proj1 (affine_le _ _) R).
  - rewrite length_map in Hj.
    rewrite (affine_nth xp j) in Lo, E by lia.
    rewrite (affine_nth xp (S j)) in Hi, E by lia.
    rewrite Ex in Lo, Hi.
    apply (proj1 (affine_le _ _)) in Lo. apply (proj1 (affine_lt _ _)) in Hi.
    apply (li_inside xp fp x v j Hj Lo Hi).
    rewrite E, Ex. unfold f. field. split; [lra|].
    intros Z.
    assert (M : a * (nth (S j) xp 0 - nth j xp 0) == 0) by lra.
    apply Qmult_integral in M. lra.
Qed.

Lemma interp_val_affine (xin yin : list Q) (x x' : Q) :
  strictly_increasing xin -> xin <> [] -> length yin = length xin ->
  x' == f x ->
  interp_val x' (map f xin) yin == interp_val x xin yin.
Proof.
  intros I Ne L Ex.
  assert (Ne' : map f xin <> []) by (destruct xin; [congruence|discriminate]).
  apply (linear_interp_unique xin yin x); trivial.
  - apply (linear_interp_affine _ _ x x'); trivial.
    apply interp_val_spec; [exact Ne'|now rewrite length_map].
  - now apply interp_val_spec.
Qed.

Lemma fidx_affine (xin : list Q) (x x' : Q) :
  strictly_increasing xin -> xin <> [] -> x' == f x ->
  fidx (map f xin) x' == fidx xin x.
Proof.
  intros I Ne Ex. unfold fidx. rewrite length_map.
  apply interp_val_affine; trivial. apply range_length.
Qed.

Lemma affine_dx_out (xout : list Q) :
  grid xout -> dx_out (map f xout) == a * dx_out xout.
Proof.
  intros [_ L]. unfold dx_out. rewrite !affine_nth by lia. unfold f. ring.
Qed.

Lemma affine_in0 (xout xin : list Q) :
  grid xout -> grid xin -> in0 (map f xout) (map f xin) = in0 xout xin.
Proof.
  intros [_ Lo] Gi. pose proof (grid_nonempty xin Gi) as Ne. destruct Gi as [Ii _].
  unfold in0. rewrite affine_nth by lia. symmetry.
  apply py_int_compat.
  - exact (proj1 (index_of_bounds xin Ne _ _ (fidx_index_of xin Ne _))).
  - symmetry. apply fidx_affine; trivial. reflexivity.
Qed.

Lemma affine_dx_in (xout xin : list Q) :
  grid xout -> grid xin -> starts_inside xout xin ->
  dx_in (map f xout) (map f xin) == a * dx_in xout xin.
Proof.
  intros Go Gi S. destruct (in0_bounds xout xin Gi S) as [B1 B2].
  unfold dx_in. rewrite (affine_in0 xout xin Go Gi). unfold len in B2.
  rewrite !affine_nth by lia. unfold f. ring.
Qed.

Lemma affine_regime (xout xin : list Q) :
  grid xout -> grid xin -> starts_inside xout xin ->
  Qltb (dx_out (map f xout)) (dx_in (map f xout) (map f xin))
  = Qltb (dx_out xout) (dx_in xout xin).
Proof.
  intros Go Gi S.
  pose proof (affine_dx_out xout Go) as Eo.
  pose proof (affine_dx_in xout xin Go Gi S) as Ei.
  pose proof (Qmult_lt_l (dx_out xout) (dx_in xout xin) a a_pos) as Lt.
  pose proof (Qmult_le_l (dx_in xout xin) (dx_out xout) a a_pos) as Le.
  destruct (Qltb (dx_out xout) (dx_in xout xin)) eqn:E.
  - apply Qltb_lt. apply Qltb_lt in E. apply Lt in E. lra.
  - apply Qltb_ge. apply Qltb_ge in E. apply Le in E. lra.
Qed.

Lemma affine_in_i (xout xin : list Q) (k : nat) :
  grid xout -> grid xin ->
  nth k (in_i xout xin) 0 == nth k (in_i (map f xout) (map f xin)) 0.
Proof.
  intros Go Gi. pose proof (grid_nonempty xin Gi) as Ne.
  destruct (Nat.lt_ge_cases k (length xout)) as [Lt|Ge].
  - rewrite !in_i_nth by (rewrite ?length_map; exact Lt).
    symmetry. apply fidx_affine; [apply Gi|exact Ne|].
    rewrite affine_nth, (affine_dx_out xout Go) by exact Lt. unfold f. ring.
  - rewrite !nth_overflow; [reflexivity| |];
      rewrite in_i_length, ?length_map; exact Ge.
Qed.

Lemma rebin1d_affine (xout xin yin : list Q) :
  grid xout -> grid xin -> starts_inside xout xin ->
  length yin = length xin ->
  exists ys ys',
    rebin1d xout xin yin = Ok ys /\
    rebin1d (map f xout) (map f xin) yin = Ok ys' /\
    list_eq ys ys'.
Proof.
  intros Go Gi S L.
  pose proof (affine_grid xout Go) as Go'.
  pose proof (affine_grid xin Gi) as Gi'.
  pose proof (affine_starts_inside xout xin Go Gi S) as S'.
  assert (L' : length yin = length (map f xin)) by now rewrite length_map.
  pose proof (select_regime_ok xout xin Go Gi S) as R.
  pose proof (select_regime_ok _ _ Go' Gi' S') as R'.
  rewrite (affine_regime xout xin Go Gi S) in R'.
  pose proof (grid_nonempty xin Gi) as Ne.
  pose proof (grid_nonempty _ Gi') as Ne'.
  destruct (Qltb (dx_out xout) (dx_in xout xin)).
  - rewrite (rebin1d_interpolation_total xout xin yin Ne L R).
    rewrite (rebin1d_interpolation_total _ _ yin Ne' L' R').
    do 2 eexists. repeat (split; [reflexivity|]).
    apply (Forall2_nth_intro fnum_eq NonFinite NonFinite).
    + now rewrite !length_map.
    + intros k Hk. rewrite !length_map in Hk.
      rewrite !nth_map_Finite by (rewrite ?length_map; exact Hk).
      simpl. symmetry. apply interp_val_affine; trivial; [apply Gi|].
      rewrite affine_nth by exact Hk. reflexivity.
  - destruct (rebin1d_length xout xin yin Go Gi S L) as [ys [H Ly]].
    destruct (rebin1d_length _ _ yin Go' Gi' S' L') as [ys' [H' Ly']].
    exists ys, ys'. split; [exact H|]. split; [exact H'|].
    apply (Forall2_nth_intro fnum_eq NonFinite NonFinite).
    + rewrite Ly, Ly'. now rewrite length_map.
    + intros k Hk. rewrite Ly in Hk.
      rewrite (rebin1d_box_nth xout xin yin ys k Go Gi L R H Hk).
      rewrite (rebin1d_box_nth _ _ yin ys' k Go' Gi' L' R' H')
        by (rewrite length_map; exact Hk).
      rewrite length_map.
      destruct (box_of_compat (in_i xout xin) (in_i (map f xout) (map f xin))
                  (length xin) k) as (E1 & E2 & E3 & E4).
      * now rewrite !in_i_length, length_map.
      * intros j. now apply affine_in_i.
      * apply in_i_edges_ok; [exact Gi|apply Go].
      * rewrite in_i_length. exact Hk.
      * apply np_div_compat2; [now apply numerator_box_compat|].
        rewrite E1, E2. reflexivity.
Qed.

End Affine.

(** X22. Over exact rationals the result of [rebin1d] does not depend on
    the unit or the origin of the coordinate: rescaling both grids by the same factor [a > 0] and
    shifting them by the same offset [b] leaves every output value as it
    was. *)
Theorem rebin1d_unit_invariance (a b : Q) (xout xin yin : list Q) :
  0 < a -> grid xout -> grid xin -> starts_inside xout xin ->
  length yin = length xin ->
  exists ys ys',
    rebin1d xout xin yin = Ok ys /\
    rebin1d (map (fun t => a * t + b) xout) (map (fun t => a * t + b) xin) yin
    = Ok ys' /\
    list_eq ys ys'.
Proof. intros A. now apply rebin1d_affine. Qed.

Lemma rebin1d_unit_invariance_witness :
  exists ys ys',
    rebin1d [0; 2; 4] [0; 1; 2; 3; 4; 5] [1; 2; 3; 4; 5; 6] = Ok ys /\
    rebin1d (map (fun t => 1000 * t + 5) [0; 2; 4])
            (map (fun t => 1000 * t + 5) [0; 1; 2; 3; 4; 5])
            [1; 2; 3; 4; 5; 6] = Ok ys' /\
    list_eq ys ys'.
Proof.
  apply (rebin1d_unit_invariance 1000 5); try reflexivity.
  - split; [reflexivity|simpl; lia].
  - split; [reflexivity|simpl; lia].
Defined.

(** * The instrument classes *)

Lemma addPart_parts (s : Sim.heap * Sim.Instrument) (p : Sim.ref) :
  Sim.parts (snd (Sim.addPart s p)) = Sim.parts (snd s) ++ [p].
Proof. reflexivity. Qed.

Lemma addPart_length (s : Sim.heap * Sim.Instrument) (p : Sim.ref) :
  length (fst (Sim.addPart s p)) = length (fst s).
Proof.
  unfold Sim.addPart. cbn [fst].
  destruct (nth_error (fst s) p); [apply upd_length|reflexivity].
Qed.

Lemma addPart_other (s : Sim.heap * Sim.Instrument) (p l : Sim.ref) :
  l <> p -> nth_error (fst (Sim.addPart s p)) l = nth_error (fst s) l.
Proof.
  intros N. unfold Sim.addPart. cbn [fst].
  destruct (nth_error (fst s) p); [|reflexivity].
  apply upd_nth_error_neq. congruence.
Qed.

Lemma addPart_self (s : Sim.heap * Sim.Instrument) (p : Sim.ref) (q : Sim.InstrumentPart) :
  nth_error (fst s) p = Some q ->
  nth_error (fst (Sim.addPart s p)) p
  = Some (Sim.set_number q (Z.of_nat (length (Sim.parts (snd s))) + 1)).
Proof.
  intros H. unfold Sim.addPart. cbn [fst]. rewrite H.
  rewrite upd_nth_error_eq by (apply nth_error_Some; congruence).
  unfold len. cbn [Sim.parts]. rewrite length_app. simpl length.
  do 2 f_equal. lia.
Qed.

Lemma add_parts_snoc (s : Sim.heap * Sim.Instrument) (ps : list Sim.ref) (p : Sim.ref) :
  add_parts s (ps ++ [p]) = Sim.addPart (add_parts s ps) p.
Proof. unfold add_parts. now rewrite fold_left_app. Qed.

Lemma set_number_twice (q : Sim.InstrumentPart) (n m : Z) :
  Sim.set_number (Sim.set_number q n) m = Sim.set_number q m.
Proof. reflexivity. Qed.

(** What a run of [addPart] calls does to an instrument and to the part
    objects. *)
Lemma add_parts_spec (s : Sim.heap * Sim.Instrument) (ps : list Sim.ref) :
  (forall p, In p ps -> (p < length (fst s))%nat) ->
  Sim.parts (snd (add_parts s ps)) = Sim.parts (snd s) ++ ps /\
  Sim.iname (snd (add_parts s ps)) = Sim.iname (snd s) /\
  length (fst (add_parts s ps)) = length (fst s) /\
  (forall l, ~ In l ps -> nth_error (fst (add_parts s ps)) l = nth_error (fst s) l) /\
  (forall l q, nth_error (fst s) l = Some q -> In l ps ->
     same_part_but_number q (nth_error (fst (add_parts s ps)) l)) /\
  (forall k p, nth_error ps k = Some p ->
     (forall k', (k < k')%nat -> nth_error ps k' <> Some p) ->
     option_map Sim.number (nth_error (fst (add_parts s ps)) p)
     = Some (Z.of_nat (length (Sim.parts (snd s)) + k) + 1)%Z).
Proof.
  induction ps as [|p ps IH] using rev_ind; intros V.
  - unfold add_parts. simpl. rewrite app_nil_r.
    repeat split; trivial.
    + intros l q _ [].
    + intros [|k] p H; discriminate.
  - rewrite add_parts_snoc.
    destruct IH as (I1 & I2 & I3 & I4 & I5 & I6).
    { intros p' Hp'. apply V. apply in_or_app. now left. }
    assert (Vp : (p < length (fst s))%nat)
      by (apply V; apply in_or_app; right; now left).
    destruct (nth_error (fst s) p) as [q0|] eqn:Eq0;
      [|apply nth_error_None in Eq0; lia].
    assert (Ep : exists q, nth_error (fst (add_parts s ps)) p = Some q /\
                           exists n, q = Sim.set_number q0 n \/ q = q0).
    { destruct (in_dec Nat.eq_dec p ps) as [Ip|Np].
      - destruct (I5 p q0 Eq0 Ip) as [n Hn]. exists (Sim.set_number q0 n).
        split; [exact Hn|]. exists n. now left.
      - exists q0. split; [now rewrite I4|]. exists 0%Z. now right. }
    destruct Ep as (q & Eq & n & Hq).
    pose proof (addPart_self (add_parts s ps) p q Eq) as Self.
    split; [rewrite addPart_parts, I1; now rewrite app_assoc|].
    split; [exact I2|].
    split; [now rewrite addPart_length|].
    split; [|split].
    + intros l Nl. rewrite addPart_other.
      * apply I4. intros C. apply Nl. apply in_or_app. now left.
      * intros ->. apply Nl. apply in_or_app. right. now left.
    + intros l ql El Il.
      destruct (Nat.eq_dec l p) as [->|N].
      * rewrite Self. rewrite Eq0 in El. inversion El. subst ql.
        destruct Hq as [->| ->]; eexists; [rewrite set_number_twice|]; reflexivity.
      * rewrite addPart_other by exact N. apply I5; trivial.
        apply in_app_or in Il. destruct Il as [Il|[Il|[]]]; [exact Il|congruence].
    + intros k p' Hk Last.
      destruct (Nat.lt_ge_cases k (length ps)) as [Lt|Ge].
      * rewrite nth_error_app1 in Hk by exact Lt.
        assert (N : p' <> p).
        { intros ->. apply (Last (length ps) Lt).
          rewrite nth_error_app2 by lia. now rewrite Nat.sub_diag. }
        rewrite addPart_other by exact N. apply I6; trivial.
        intros k' Hk' C. apply (Last k' Hk').
        rewrite nth_error_app1; [exact C|].
        apply nth_error_Some. congruence.
      * rewrite nth_error_app2 in Hk by exact Ge.
        destruct (k - length ps)%nat as [|m] eqn:Em; [|destruct m; discriminate].
        simpl in Hk. inversion Hk. subst p'.
        rewrite Self. simpl. rewrite I1, length_app.
        do 2 f_equal. lia.
Qed.

(** X16. [Instrument.addPart] called for a run of existing part objects on
    a new instrument: the instrument lists the parts in the order of the
    calls; every part carries the one-based position of its last occurrence
    in that list, so distinct parts are numbered 1, 2, ... in order and a
    part added twice keeps only its later position; nothing but the number
    of an added part changes, and parts not added stay as they were. *)
Theorem addPart_numbering (h : Sim.heap) (nm : String.string) (ps : list Sim.ref) :
  (forall p, In p ps -> (p < length h)%nat) ->
  Sim.parts (snd (add_parts (h, Sim.Instrument_init nm) ps)) = ps /\
  (forall k p, nth_error ps k = Some p ->
     (forall k', (k < k')%nat -> nth_error ps k' <> Some p) ->
     option_map Sim.number
       (nth_error (fst (add_parts (h, Sim.Instrument_init nm) ps)) p)
     = Some (Z.of_nat k + 1)%Z) /\
  (NoDup ps -> forall k p, nth_error ps k = Some p ->
     option_map Sim.number
       (nth_error (fst (add_parts (h, Sim.Instrument_init nm) ps)) p)
     = Some (Z.of_nat k + 1)%Z) /\
  (forall l q, nth_error h l = Some q ->
     (In l ps ->
      same_part_but_number q
        (nth_error (fst (add_parts (h, Sim.Instrument_init nm) ps)) l)) /\
     (~ In l ps ->
      nth_error (fst (add_parts (h, Sim.Instrument_init nm) ps)) l = Some q)).
Proof.
  intros V.
  destruct (add_parts_spec (h, Sim.Instrument_init nm) ps V)
    as (I1 & _ & _ & I4 & I5 & I6).
  cbn [fst snd Sim.parts Sim.Instrument_init] in *.
  assert (L : forall k p, nth_error ps k = Some p ->
            (forall k', (k < k')%nat -> nth_error ps k' <> Some p) ->
            option_map Sim.number
              (nth_error (fst (add_parts (h, Sim.Instrument_init nm) ps)) p)
            = Some (Z.of_nat k + 1)%Z).
  { intros k p Hk Last. rewrite (I6 k p Hk Last). reflexivity. }
  split; [exact I1|]. split; [exact L|]. split.
  - intros ND k p Hk. apply L; [exact Hk|].
    intros k' Hk' C.
    assert (k = k'); [|lia].
    apply (proj1 (NoDup_nth_error ps) ND).
    + apply nth_error_Some. congruence.
    + congruence.
  - intros l q Hl. split.
    + intros Il. now apply I5.
    + intros Nl. rewrite I4 by exact Nl. exact Hl.
Qed.

Lemma addPart_numbering_witness :
  Sim.parts
    (snd (add_parts
            (repeat (Sim.mkPart String.EmptyString 280 37 1 0 0 (5 # 1000) 1 1
                       (Sim.EmisValue 0) (Sim.EmisValue 0) (1 # 2) 0) 3,
             Sim.Instrument_init String.EmptyString)
            [2; 0; 2]%nat))
  = [2; 0; 2]%nat /\
  map Sim.number
    (fst (add_parts
            (repeat (Sim.mkPart String.EmptyString 280 37 1 0 0 (5 # 1000) 1 1
                       (Sim.EmisValue 0) (Sim.EmisValue 0) (1 # 2) 0) 3,
             Sim.Instrument_init String.EmptyString)
            [2; 0; 2]%nat))
  = [2; 0; 3]%Z.
Proof.
  destruct (addPart_numbering
              (repeat (Sim.mkPart String.EmptyString 280 37 1 0 0 (5 # 1000) 1 1
                         (Sim.EmisValue 0) (Sim.EmisValue 0) (1 # 2) 0) 3)
              String.EmptyString [2; 0; 2]%nat)
    as (A & _).
  - intros q [<-|[<-|[<-|[]]]]; simpl; lia.
  - split; [exact A|reflexivity].
Defined.

Section Train.

Variable exc : Type.
Variable broadcast_error : exc.
Variable part_result : Sim.ref -> Sim.outcome exc (Sim.nd * Sim.nd).

Variable n : nat.

Lemma imul_fits (a : list Q) (b : Sim.nd) :
  length a = n -> fits n b ->
  exists a', Sim.imul exc broadcast_error a b = Sim.Returns a' /\ length a' = n /\
             forall k, (k < n)%nat -> nth k a' 0 == nth k a 0 * at_index b k.
Proof.
  intros La Fb. destruct b as [c|w]; simpl in *.
  - eexists. split; [reflexivity|]. split; [now rewrite length_map|].
    intros k Hk.
    rewrite (nth_indep _ 0 ((fun x => x * c) 0)) by (rewrite length_map; lia).
    rewrite (map_nth (fun x => x * c)). reflexivity.
  - rewrite Fb, La, Nat.eqb_refl.
    eexists. split; [reflexivity|]. split; [rewrite map2_length; lia|].
    intros k Hk. rewrite (map2_nth Qmult a w k 0 0 0) by lia. reflexivity.
Qed.

Lemma add_fits (a : list Q) (b : Sim.nd) :
  length a = n -> fits n b ->
  exists a', Sim.add exc broadcast_error a b = Sim.Returns a' /\ length a' = n /\
             forall k, (k < n)%nat -> nth k a' 0 == nth k a 0 + at_index b k.
Proof.
  intros La Fb. destruct b as [c|w]; simpl in *.
  - eexists. split; [reflexivity|]. split; [now rewrite length_map|].
    intros k Hk.
    rewrite (nth_indep _ 0 ((fun x => x + c) 0)) by (rewrite length_map; lia).
    rewrite (map_nth (fun x => x + c)). reflexivity.
  - rewrite Fb, La, Nat.eqb_refl.
    eexists. split; [reflexivity|]. split; [rewrite map2_length; lia|].
    intros k Hk. rewrite (map2_nth Qplus a w k 0 0 0) by lia. reflexivity.
Qed.

Variable result_of : Sim.ref -> Sim.nd * Sim.nd.

(** The loop of lines 158-165 from any state of the two arrays. *)
Lemma train_from (ps : list Sim.ref) (T0 E0 : list Q) :
  (forall p, In p ps ->
     part_result p = Sim.Returns (result_of p) /\
     fits n (fst (result_of p)) /\ fits n (snd (result_of p))) ->
  length T0 = n -> length E0 = n ->
  exists T E,
    Sim.ofold (fun s part =>
       Sim.obind (part_result part) (fun r =>
       Sim.obind (Sim.imul exc broadcast_error (fst s) (fst r)) (fun throughput =>
       Sim.obind (Sim.imul exc broadcast_error (snd s) (fst r)) (fun emission =>
       Sim.obind (Sim.add exc broadcast_error emission (snd r)) (fun emission =>
       Sim.Returns (throughput, emission))))))
      ps (T0, E0) = Sim.Returns (T, E) /\
    length T = n /\ length E = n /\
    forall k, (k < n)%nat ->
      nth k T 0 == nth k T0 0 * train_throughput (map result_of ps) k /\
      nth k E 0 == nth k E0 0 * train_throughput (map result_of ps) k
                   + train_emission (map result_of ps) k.
Proof.
  revert T0 E0. induction ps as [|p ps IH]; intros T0 E0 H LT LE.
  - exists T0, E0. simpl. repeat split; trivial; ring.
  - destruct (H p (or_introl eq_refl)) as (Rp & Ft & Fe).
    destruct (imul_fits T0 _ LT Ft) as (T1 & ET & LT1 & VT).
    destruct (imul_fits E0 _ LE Ft) as (E1 & EE & LE1 & VE).
    destruct (add_fits E1 _ LE1 Fe) as (E2 & EA & LE2 & VA).
    destruct (IH T1 E2) as (T & E & Run & LT' & LE' & V); trivial.
    { intros q Hq. apply H. now right. }
    exists T, E. split.
    { simpl Sim.ofold. rewrite Rp. simpl Sim.obind. cbn [fst snd].
      rewrite ET. simpl Sim.obind. rewrite EE. simpl Sim.obind.
      rewrite EA. simpl Sim.obind. exact Run. }
    split; [exact LT'|]. split; [exact LE'|].
    intros k Hk. destruct (V k Hk) as [V1 V2].
    simpl map. simpl train_throughput. simpl train_emission.
    rewrite V1, V2, (VT k Hk), (VA k Hk), (VE k Hk). split; ring.
Qed.

End Train.

Lemma nth_const (c : Q) (l : list Q) (k : nat) :
  (k < length l)%nat -> nth k (map (fun _ => c) l) 0 = c.
Proof.
  intros H. rewrite (nth_indep _ 0 ((fun _ : Q => c) 0)) by now rewrite length_map.
  exact (map_nth (fun _ : Q => c) l 0 k).
Qed.

Lemma train_closed_form
        (exc : Type) (broadcast_error : exc)
        (part_result : Sim.ref -> Sim.outcome exc (Sim.nd * Sim.nd))
        (result_of : Sim.ref -> Sim.nd * Sim.nd)
        (self : Sim.Instrument) (lamb : list Q) :
  (forall p, In p (Sim.parts self) ->
     part_result p = Sim.Returns (result_of p) /\
     fits (length lamb) (fst (result_of p)) /\
     fits (length lamb) (snd (result_of p))) ->
  exists throughput emission,
    Sim.calcThroughputAndEmission exc broadcast_error part_result self lamb
    = Sim.Returns (throughput, emission) /\
    length throughput = length lamb /\ length emission = length lamb /\
    forall k, (k < length lamb)%nat ->
      nth k throughput 0
      == train_throughput (map result_of (Sim.parts self)) k /\
      nth k emission 0
      == train_emission (map result_of (Sim.parts self)) k.
Proof.
  intros H.
  destruct (train_from exc broadcast_error part_result (length lamb) result_of
              (Sim.parts self) (map (fun _ => 1) lamb) (map (fun _ => 0) lamb) H)
    as (T & E & Run & LT & LE & V); try apply length_map.
  exists T, E. split; [exact Run|]. split; [exact LT|]. split; [exact LE|].
  intros k Hk. destruct (V k Hk) as [V1 V2].
  rewrite nth_const in V1, V2 by exact Hk.
  rewrite V1, V2. split; ring.
Qed.

(** X17. [Instrument.calcThroughputAndEmission], over exact rationals, when
    every part returns a throughput and an emission that are numbers or arrays of the shape of
    [lamb]: the call returns two arrays of that shape; the throughput is the
    product of the throughputs of the parts, and the emission is the sum of
    the emissions of the parts, each attenuated by the throughput of the
    parts added after it. *)
Theorem instrument_train_closed_form
        (exc : Type) (broadcast_error : exc)
        (part_result : Sim.ref -> Sim.outcome exc (Sim.nd * Sim.nd))
        (result_of : Sim.ref -> Sim.nd * Sim.nd)
        (self : Sim.Instrument) (lamb : list Q) :
  (forall p, In p (Sim.parts self) ->
     part_result p = Sim.Returns (result_of p) /\
     fits (length lamb) (fst (result_of p)) /\
     fits (length lamb) (snd (result_of p))) ->
  exists throughput emission,
    Sim.calcThroughputAndEmission exc broadcast_error part_result self lamb
    = Sim.Returns (throughput, emission) /\
    length throughput = length lamb /\ length emission = length lamb /\
    forall k, (k < length lamb)%nat ->
      nth k throughput 0
      == train_throughput (map result_of (Sim.parts self)) k /\
      nth k emission 0
      == train_emission (map result_of (Sim.parts self)) k.
Proof.
  intros H. now apply train_closed_form.
Qed.

Lemma instrument_train_closed_form_witness :
  exists throughput emission,
    Sim.calcThroughputAndEmission unit tt
      (fun p => Sim.Returns (if (p =? 0)%nat
                             then (Sim.Array [1 # 2; 1 # 4], Sim.Array [8; 8])
                             else (Sim.Scalar (1 # 2), Sim.Array [1; 2])))
      (Sim.mkInstrument String.EmptyString [0; 1]%nat) [1; 2]
    = Sim.Returns (throughput, emission) /\
    nth 1 throughput 0 == 1 # 8 /\ nth 1 emission 0 == 6.
Proof.
  destruct (instrument_train_closed_form unit tt
              (fun p => Sim.Returns (if (p =? 0)%nat
                                     then (Sim.Array [1 # 2; 1 # 4], Sim.Array [8; 8])
                                     else (Sim.Scalar (1 # 2), Sim.Array [1; 2])))
              (fun p => if (p =? 0)%nat
                        then (Sim.Array [1 # 2; 1 # 4], Sim.Array [8; 8])
                        else (Sim.Scalar (1 # 2), Sim.Array [1; 2]))
              (Sim.mkInstrument String.EmptyString [0; 1]%nat) [1; 2])
    as (T & E & Run & _ & _ & V).
  - intros p [<-|[<-|[]]]; simpl; repeat split.
  - exists T, E. split; [exact Run|].
    destruct (V 1%nat ltac:(simpl; lia)) as [V1 V2].
    rewrite V1, V2. split; vm_compute; reflexivity.
Defined.

Lemma train_throughput_perm (rs rs' : list (Sim.nd * Sim.nd)) (k : nat) :
  Permutation rs rs' -> train_throughput rs k == train_throughput rs' k.
Proof.
  intros P. induction P as [|r rs rs' P IH|r r' rs|rs rs' rs'' P1 IH1 P2 IH2]; simpl.
  - reflexivity.
  - now rewrite IH.
  - ring.
  - now rewrite IH1.
Qed.

(** X18. Over exact rationals the throughput of an instrument does not
    depend on the order in which its parts were added (the float product
    depends on it in its last digit, [product_order_binary64]). *)
Theorem instrument_throughput_order
        (exc : Type) (broadcast_error : exc)
        (part_result : Sim.ref -> Sim.outcome exc (Sim.nd * Sim.nd))
        (result_of : Sim.ref -> Sim.nd * Sim.nd)
        (self other : Sim.Instrument) (lamb : list Q) :
  (forall p, In p (Sim.parts self) ->
     part_result p = Sim.Returns (result_of p) /\
     fits (length lamb) (fst (result_of p)) /\
     fits (length lamb) (snd (result_of p))) ->
  Permutation (Sim.parts self) (Sim.parts other) ->
  exists t e t' e',
    Sim.calcThroughputAndEmission exc broadcast_error part_result self lamb
    = Sim.Returns (t, e) /\
    Sim.calcThroughputAndEmission exc broadcast_error part_result other lamb
    = Sim.Returns (t', e') /\
    length t = length t' /\
    forall k, (k < length lamb)%nat -> nth k t 0 == nth k t' 0.
Proof.
  intros H P.
  destruct (train_closed_form exc broadcast_error part_result result_of
              self lamb H) as (t & e & R & Lt & _ & V).
  destruct (train_closed_form exc broadcast_error part_result result_of
              other lamb) as (t' & e' & R' & Lt' & _ & V').
  { intros p Hp. apply H. eapply Permutation_in; [|exact Hp].
    now apply Permutation_sym. }
  exists t, e, t', e'. split; [exact R|]. split; [exact R'|].
  split; [congruence|]. intros k Hk.
  rewrite (proj1 (V k Hk)), (proj1 (V' k Hk)).
  apply train_throughput_perm. now apply Permutation_map.
Qed.

Lemma instrument_throughput_order_witness :
  exists t e t' e',
    Sim.calcThroughputAndEmission unit tt
      (fun p => Sim.Returns (if (p =? 0)%nat
                             then (Sim.Array [1 # 2; 1 # 4], Sim.Array [8; 8])
                             else (Sim.Scalar (1 # 2), Sim.Array [1; 2])))
      (Sim.mkInstrument String.EmptyString [0; 1]%nat) [1; 2]
    = Sim.Returns (t, e) /\
    Sim.calcThroughputAndEmission unit tt
      (fun p => Sim.Returns (if (p =? 0)%nat
                             then (Sim.Array [1 # 2; 1 # 4], Sim.Array [8; 8])
                             else (Sim.Scalar (1 # 2), Sim.Array [1; 2])))
      (Sim.mkInstrument String.EmptyString [1; 0]%nat) [1; 2]
    = Sim.Returns (t', e') /\
    length t = length t' /\
    forall k, (k < 2)%nat -> nth k t 0 == nth k t' 0.
Proof.
  apply (instrument_throughput_order unit tt
           (fun p => Sim.Returns (if (p =? 0)%nat
                                  then (Sim.Array [1 # 2; 1 # 4], Sim.Array [8; 8])
                                  else (Sim.Scalar (1 # 2), Sim.Array [1; 2])))
           (fun p => if (p =? 0)%nat
                     then (Sim.Array [1 # 2; 1 # 4], Sim.Array [8; 8])
                     else (Sim.Scalar (1 # 2), Sim.Array [1; 2]))
           (Sim.mkInstrument String.EmptyString [0; 1]%nat)
           (Sim.mkInstrument String.EmptyString [1; 0]%nat) [1; 2]).
  - intros p [<-|[<-|[]]]; simpl; repeat split.
  - apply perm_swap.
Defined.

Lemma train_bounds (rs : list (Sim.nd * Sim.nd)) (k : nat) :
  (forall r, In r rs ->
     0 <= at_index (fst r) k /\ at_index (fst r) k <= 1 /\ 0 <= at_index (snd r) k) ->
  0 <= train_throughput rs k /\ train_throughput rs k <= 1 /\
  0 <= train_emission rs k /\
  forall r, In r rs -> train_throughput rs k <= at_index (fst r) k.
Proof.
  induction rs as [|r rs IH]; intros H.
  - simpl. repeat split; try lra. intros r [].
  - destruct (H r (or_introl eq_refl)) as (A1 & A2 & A3).
    destruct IH as (I1 & I2 & I3 & I4); [intros r' Hr'; apply H; now right|].
    simpl train_throughput. simpl train_emission.
    set (t := at_index (fst r) k) in *. set (e := at_index (snd r) k) in *.
    set (P := train_throughput rs k) in *. set (Em := train_emission rs k) in *.
    assert (M0 : 0 <= t * P) by (apply Qmult_le_0_compat; assumption).
    assert (M1 : 0 <= t * (1 - P)) by (apply Qmult_le_0_compat; lra).
    assert (M2 : 0 <= (1 - t) * P) by (apply Qmult_le_0_compat; lra).
    assert (M3 : 0 <= e * P) by (apply Qmult_le_0_compat; assumption).
    repeat split; try lra.
    intros r' [<-|Hr'].
    + fold t. lra.
    + specialize (I4 r' Hr'). lra.
Qed.

(** X19. If every part has a throughput between 0 and 1 and a
    non-negative emission at every wavelength, the instrument has a
    throughput between 0 and 1 that exceeds the throughput of none of its
    parts, and a non-negative emission. *)
Theorem instrument_train_bounds
        (exc : Type) (broadcast_error : exc)
        (part_result : Sim.ref -> Sim.outcome exc (Sim.nd * Sim.nd))
        (result_of : Sim.ref -> Sim.nd * Sim.nd)
        (self : Sim.Instrument) (lamb : list Q) :
  (forall p, In p (Sim.parts self) ->
     part_result p = Sim.Returns (result_of p) /\
     fits (length lamb) (fst (result_of p)) /\
     fits (length lamb) (snd (result_of p))) ->
  (forall p k, In p (Sim.parts self) -> (k < length lamb)%nat ->
     0 <= at_index (fst (result_of p)) k /\ at_index (fst (result_of p)) k <= 1 /\
     0 <= at_index (snd (result_of p)) k) ->
  exists throughput emission,
    Sim.calcThroughputAndEmission exc broadcast_error part_result self lamb
    = Sim.Returns (throughput, emission) /\
    forall k, (k < length lamb)%nat ->
      0 <= nth k throughput 0 /\ nth k throughput 0 <= 1 /\
      0 <= nth k emission 0 /\
      forall p, In p (Sim.parts self) ->
                nth k throughput 0 <= at_index (fst (result_of p)) k.
Proof.
  intros H B.
  destruct (train_closed_form exc broadcast_error part_result result_of
              self lamb H) as (T & E & R & _ & _ & V).
  exists T, E. split; [exact R|]. intros k Hk.
  destruct (V k Hk) as [V1 V2].
  destruct (train_bounds (map result_of (Sim.parts self)) k) as (B1 & B2 & B3 & B4).
  { intros r Hr. apply in_map_iff in Hr. destruct Hr as [p [<- Hp]]. now apply B. }
  rewrite V1, V2. repeat split; trivial.
  intros p Hp. rewrite V1. apply B4. now apply in_map.
Qed.

Lemma instrument_train_bounds_witness :
  exists throughput emission,
    Sim.calcThroughputAndEmission unit tt
      (fun p => Sim.Returns (if (p =? 0)%nat
                             then (Sim.Array [1 # 2; 1 # 4], Sim.Array [8; 8])
                             else (Sim.Scalar (1 # 2), Sim.Array [1; 2])))
      (Sim.mkInstrument String.EmptyString [0; 1]%nat) [1; 2]
    = Sim.Returns (throughput, emission) /\
    forall k, (k < 2)%nat ->
      0 <= nth k throughput 0 /\ nth k throughput 0 <= 1 /\ 0 <= nth k emission 0.
Proof.
  destruct (instrument_train_bounds unit tt
              (fun p => Sim.Returns (if (p =? 0)%nat
                                     then (Sim.Array [1 # 2; 1 # 4], Sim.Array [8; 8])
                                     else (Sim.Scalar (1 # 2), Sim.Array [1; 2])))
              (fun p => if (p =? 0)%nat
                        then (Sim.Array [1 # 2; 1 # 4], Sim.Array [8; 8])
                        else (Sim.Scalar (1 # 2), Sim.Array [1; 2]))
              (Sim.mkInstrument String.EmptyString [0; 1]%nat) [1; 2])
    as (T & E & R & V).
  - intros p [<-|[<-|[]]]; simpl; repeat split.
  - intros p k [<-|[<-|[]]] Hk; simpl in Hk;
      (destruct k as [|[|k]]; [| |lia]); simpl; repeat split; discriminate.
  - exists T, E. split; [exact R|]. intros k Hk.
    destruct (V k Hk) as (A & B & C & _). repeat split; assumption.
Defined.
